(** * Storage and concurrency core of the teaching database engine

    A shallow embedding of the buffer-pool replacer, the buffer pool
    instance, the lock manager, the B+-tree lookup, insert and remove paths,
    the extendible hash table and four query operators, with the properties
    the specification states about them and further properties of the
    code. *)

From Stdlib Require Import ZArith List Bool Lia.
From stdpp Require Import base option list gmap sets.

(** ** LRU replacer  (2020/src/buffer/lru_replacer.cpp) *)

Module LRU.

(** [lru_list_] is the [std::list<frame_id_t>]; [lru_map_] is the
    [unordered_map] from a frame id to the list node that holds it.  A node
    is identified by the frame id it stores, so the map is kept as its key
    set and [lru_list_.erase(iter->second)] removes the node holding that
    frame id. *)
Record LRUReplacer := mkLRU {
  lru_list_ : list Z;
  lru_map_ : gset Z
}.

Definition init : LRUReplacer := mkLRU [] ∅.

Fixpoint list_erase (f : Z) (l : list Z) : list Z :=
  match l with
  | [] => []
  | x :: l' => if decide (x = f) then l' else x :: list_erase f l'
  end.

(** [Victim]: the boolean result and [*frame_id] are folded into an option. *)
Definition Victim (r : LRUReplacer) : option Z * LRUReplacer :=
  match lru_list_ r with
  | [] => (None, r)
  | f :: rest => (Some f, mkLRU rest (lru_map_ r ∖ {[f]}))
  end.

Definition Pin (f : Z) (r : LRUReplacer) : LRUReplacer :=
  if decide (f ∈ lru_map_ r)
  then mkLRU (list_erase f (lru_list_ r)) (lru_map_ r ∖ {[f]})
  else r.

Definition Unpin (f : Z) (r : LRUReplacer) : LRUReplacer :=
  if decide (f ∈ lru_map_ r)
  then r
  else mkLRU (lru_list_ r ++ [f]) ({[f]} ∪ lru_map_ r).

Definition Size (r : LRUReplacer) : nat := length (lru_list_ r).

(** Calls and the events they leave in the history. *)
Inductive Op := OpVictim | OpPin (f : Z) | OpUnpin (f : Z).
Inductive Event := EvVictim (res : option Z) | EvPin (f : Z) | EvUnpin (f : Z).

Definition step (op : Op) (r : LRUReplacer) : Event * LRUReplacer :=
  match op with
  | OpVictim => let '(res, r') := Victim r in (EvVictim res, r')
  | OpPin f => (EvPin f, Pin f r)
  | OpUnpin f => (EvUnpin f, Unpin f r)
  end.

(** A run keeps the history with the most recent event first. *)
Definition step_hist (s : list Event * LRUReplacer) (op : Op) : list Event * LRUReplacer :=
  let '(e, r') := step op (snd s) in (e :: fst s, r').

Definition exec (ops : list Op) : list Event * LRUReplacer :=
  fold_left step_hist ops ([], init).

(** The candidates of a history, each with the time (index in the history)
    of the [Unpin] that made it one: an [Unpin] of a frame that is already a
    candidate changes nothing, [Pin] and a [Victim] that returns the frame
    remove it. *)
Fixpoint cand_times (h : list Event) : gmap Z nat :=
  match h with
  | [] => ∅
  | e :: h' =>
      let m := cand_times h' in
      match e with
      | EvUnpin f => match m !! f with Some _ => m | None => <[f := length h']> m end
      | EvPin f => delete f m
      | EvVictim (Some f) => delete f m
      | EvVictim None => m
      end
  end.

(** [f] is among the candidates [m] and no candidate was unpinned earlier. *)
Definition is_earliest (m : gmap Z nat) (f : Z) : Prop :=
  ∃ t, m !! f = Some t ∧ ∀ g t', m !! g = Some t' → t ≤ t'.

(** A frame is pinned when its most recent [Pin]/[Unpin] is a [Pin], or when
    it was never unpinned. *)
Fixpoint pinned (h : list Event) (f : Z) : bool :=
  match h with
  | [] => true
  | EvPin g :: h' => if decide (g = f) then true else pinned h' f
  | EvUnpin g :: h' => if decide (g = f) then false else pinned h' f
  | EvVictim _ :: h' => pinned h' f
  end.

End LRU.

(** ** Buffer pool instance  (2021/src/buffer/buffer_pool_manager_instance.cpp) *)

Module BPM.
Local Open Scope Z_scope.

Definition INVALID_PAGE_ID : Z := -1.
Definition PAGE_SIZE : Z := 4096.

(** [page_id_t] is [int32_t]; [num_instances_] and [instance_index_] are
    [uint32_t].  Conversions between them wrap modulo 2^32. *)
Definition to_uint32 (z : Z) : Z := z mod 2 ^ 32.
Definition to_int32 (z : Z) : Z := (z + 2 ^ 31) mod 2 ^ 32 - 2 ^ 31.
Definition INT32_MAX : Z := 2 ^ 31 - 1.

(** The bytes of a page. *)
Definition Data := list Z.
Definition zero_page : Data := repeat 0 (Z.to_nat PAGE_SIZE).

Record Page := mkPage {
  data_ : Data;
  page_id_ : Z;
  pin_count_ : Z;
  is_dirty_ : bool
}.

Definition empty_frame : Page := mkPage zero_page INVALID_PAGE_ID 0 false.

(** Modelled from the spec: the Disk Manager is an external collaborator
    (its source is not part of the repository files at hand); section 6 gives
    its interface [ReadPage], [WritePage], [DeallocatePage].  The disk is the
    map from page ids to the bytes last written, with the log of the page ids
    handed to [DeallocatePage]; a page never written reads as zeroes. *)
Record DiskManager := mkDisk {
  disk_pages_ : gmap Z Data;
  deallocated_ : list Z
}.

Definition WritePage (pid : Z) (d : Data) (dm : DiskManager) : DiskManager :=
  mkDisk (<[pid := d]> (disk_pages_ dm)) (deallocated_ dm).

Definition ReadPage (pid : Z) (dm : DiskManager) : Data :=
  default zero_page (disk_pages_ dm !! pid).

Definition DiskDeallocatePage (pid : Z) (dm : DiskManager) : DiskManager :=
  mkDisk (disk_pages_ dm) (deallocated_ dm ++ [pid]).

Record BufferPoolManagerInstance := mkBPI {
  pool_size_ : nat;
  num_instances_ : Z;
  instance_index_ : Z;
  next_page_id_ : Z;
  pages_ : list Page;
  page_table_ : gmap Z Z;
  free_list_ : list Z;
  replacer_ : LRU.LRUReplacer;
  disk_manager_ : DiskManager
}.

Definition set_next_page_id (v : Z) (b : BufferPoolManagerInstance) :=
  mkBPI (pool_size_ b) (num_instances_ b) (instance_index_ b) v (pages_ b)
        (page_table_ b) (free_list_ b) (replacer_ b) (disk_manager_ b).
Definition set_pages (v : list Page) (b : BufferPoolManagerInstance) :=
  mkBPI (pool_size_ b) (num_instances_ b) (instance_index_ b) (next_page_id_ b) v
        (page_table_ b) (free_list_ b) (replacer_ b) (disk_manager_ b).
Definition set_page_table (v : gmap Z Z) (b : BufferPoolManagerInstance) :=
  mkBPI (pool_size_ b) (num_instances_ b) (instance_index_ b) (next_page_id_ b) (pages_ b)
        v (free_list_ b) (replacer_ b) (disk_manager_ b).
Definition set_free_list (v : list Z) (b : BufferPoolManagerInstance) :=
  mkBPI (pool_size_ b) (num_instances_ b) (instance_index_ b) (next_page_id_ b) (pages_ b)
        (page_table_ b) v (replacer_ b) (disk_manager_ b).
Definition set_replacer (v : LRU.LRUReplacer) (b : BufferPoolManagerInstance) :=
  mkBPI (pool_size_ b) (num_instances_ b) (instance_index_ b) (next_page_id_ b) (pages_ b)
        (page_table_ b) (free_list_ b) v (disk_manager_ b).
Definition set_disk (v : DiskManager) (b : BufferPoolManagerInstance) :=
  mkBPI (pool_size_ b) (num_instances_ b) (instance_index_ b) (next_page_id_ b) (pages_ b)
        (page_table_ b) (free_list_ b) (replacer_ b) v.

(** [pages_ + frame_id]: no result outside the array (undefined in C++). *)
Definition frame (b : BufferPoolManagerInstance) (fid : Z) : option Page :=
  if decide (0 ≤ fid) then pages_ b !! Z.to_nat fid else None.

Definition set_frame (fid : Z) (p : Page) (b : BufferPoolManagerInstance) :=
  set_pages (<[Z.to_nat fid := p]> (pages_ b)) b.

(** The constructor; [None] when one of its [BUSTUB_ASSERT]s fails. *)
Definition Construct (pool_size : nat) (num_instances instance_index : Z)
    (dm : DiskManager) : option BufferPoolManagerInstance :=
  if decide (0 < num_instances ∧ instance_index < num_instances) then
    Some (mkBPI pool_size num_instances instance_index (to_int32 instance_index)
                (repeat empty_frame pool_size) ∅
                (Z.of_nat <$> seq 0 pool_size) LRU.init dm)
  else None.

(** [assert(page_id % num_instances_ == instance_index_)], in [uint32_t]. *)
Definition ValidatePageId (b : BufferPoolManagerInstance) (pid : Z) : bool :=
  bool_decide (to_uint32 pid mod num_instances_ b = instance_index_ b).

(** [None] when the assertion of [ValidatePageId] fails. *)
Definition AllocatePage (b : BufferPoolManagerInstance) : option (Z * BufferPoolManagerInstance) :=
  let next_page_id := next_page_id_ b in
  let b' := set_next_page_id (to_int32 (next_page_id + num_instances_ b)) b in
  if ValidatePageId b' next_page_id then Some (next_page_id, b') else None.

(** Modelled from the spec: [DeallocatePage] is a member declared in the
    header buffer_pool_manager_instance.h, which is not among the source
    files; section 4.2 says [DeletePage] deallocates via the Disk Manager. *)
Definition DeallocatePage (pid : Z) (b : BufferPoolManagerInstance) :=
  set_disk (DiskDeallocatePage pid (disk_manager_ b)) b.

Definition FlushPgImp (pid : Z) (b : BufferPoolManagerInstance)
    : option (bool * BufferPoolManagerInstance) :=
  match page_table_ b !! pid with
  | None => Some (false, b)
  | Some fid =>
      page ← frame b fid;
      let page' := mkPage (data_ page) (page_id_ page) (pin_count_ page) false in
      let b1 := set_frame fid page' b in
      Some (true, set_disk (WritePage pid (data_ page') (disk_manager_ b1)) b1)
  end.

(** The loop over [page_table_]: one [WritePage] per mapping, nothing else. *)
Definition FlushAllPgsImp (b : BufferPoolManagerInstance) : option BufferPoolManagerInstance :=
  dm ← map_fold (λ pid fid acc, dm ← acc; page ← frame b fid;
                                Some (WritePage pid (data_ page) dm))
                (Some (disk_manager_ b)) (page_table_ b);
  Some (set_disk dm b).

(** A frame from the free list, or else a victim written back when dirty
    and unmapped; [None] when neither exists. *)
Definition take_frame (b : BufferPoolManagerInstance)
    : option (option (Z * BufferPoolManagerInstance)) :=
  match free_list_ b with
  | fid :: rest => Some (Some (fid, set_free_list rest b))
  | [] =>
      match LRU.Victim (replacer_ b) with
      | (Some fid, r') =>
          page ← frame b fid;
          let b1 := set_replacer r' b in
          let b2 := if is_dirty_ page
                    then set_disk (WritePage (page_id_ page) (data_ page) (disk_manager_ b1)) b1
                    else b1 in
          Some (Some (fid, set_page_table (delete (page_id_ page) (page_table_ b2)) b2))
      | (None, _) => Some None
      end
  end.

(** Outer [None]: undefined or a failed assertion; inner [None]: [nullptr]. *)
Definition NewPgImp (b : BufferPoolManagerInstance)
    : option (option Z * BufferPoolManagerInstance) :=
  got ← take_frame b;
  match got with
  | None => Some (None, b)
  | Some (fid, b1) =>
      '(pid, b2) ← AllocatePage b1;
      let b3 := set_frame fid (mkPage zero_page pid 1 false) b2 in
      let b4 := set_page_table (<[pid := fid]> (page_table_ b3)) b3 in
      Some (Some pid, set_replacer (LRU.Pin fid (replacer_ b4)) b4)
  end.

Definition FetchPgImp (pid : Z) (b : BufferPoolManagerInstance)
    : option (option Page * BufferPoolManagerInstance) :=
  match page_table_ b !! pid with
  | Some fid =>
      page ← frame b fid;
      let page' := mkPage (data_ page) (page_id_ page) (pin_count_ page + 1) (is_dirty_ page) in
      let b1 := set_frame fid page' b in
      Some (Some page', set_replacer (LRU.Pin fid (replacer_ b1)) b1)
  | None =>
      got ← take_frame b;
      match got with
      | None => Some (None, b)
      | Some (fid, b1) =>
          let page' := mkPage (ReadPage pid (disk_manager_ b1)) pid 1 false in
          let b2 := set_frame fid page' b1 in
          let b3 := set_page_table (<[pid := fid]> (page_table_ b2)) b2 in
          Some (Some page', set_replacer (LRU.Pin fid (replacer_ b3)) b3)
      end
  end.

Definition DeletePgImp (pid : Z) (b : BufferPoolManagerInstance)
    : option (bool * BufferPoolManagerInstance) :=
  let b0 := DeallocatePage pid b in
  match page_table_ b0 !! pid with
  | None => Some (true, b0)
  | Some fid =>
      page ← frame b0 fid;
      if decide (pin_count_ page > 0) then Some (false, b0)
      else
        let b1 := if is_dirty_ page
                  then set_disk (WritePage pid (data_ page) (disk_manager_ b0)) b0
                  else b0 in
        let b2 := set_replacer (LRU.Pin fid (replacer_ b1)) b1 in
        let b3 := set_page_table (delete pid (page_table_ b2)) b2 in
        let b4 := set_frame fid empty_frame b3 in
        Some (true, set_free_list (free_list_ b4 ++ [fid]) b4)
  end.

Definition UnpinPgImp (pid : Z) (is_dirty : bool) (b : BufferPoolManagerInstance)
    : option (bool * BufferPoolManagerInstance) :=
  match page_table_ b !! pid with
  | None => Some (false, b)
  | Some fid =>
      page ← frame b fid;
      if decide (pin_count_ page ≤ 0) then Some (false, b)
      else
        let page' := mkPage (data_ page) (page_id_ page) (pin_count_ page - 1)
                            (if is_dirty then is_dirty else is_dirty_ page) in
        let b1 := set_frame fid page' b in
        Some (true, if decide (pin_count_ page' ≤ 0)
                    then set_replacer (LRU.Unpin fid (replacer_ b1)) b1
                    else b1)
  end.

(** The result of the [n]-th call (from 0) of [AllocatePage]. *)
Fixpoint nth_AllocatePage (n : nat) (b : BufferPoolManagerInstance) : option Z :=
  '(pid, b') ← AllocatePage b;
  match n with
  | O => Some pid
  | S n' => nth_AllocatePage n' b'
  end.

(** The specification's reading of [FlushAll]: [FlushPage] for every page
    id of the page table. *)
Definition FlushAll_by_FlushPage (b : BufferPoolManagerInstance)
    : option BufferPoolManagerInstance :=
  foldr (λ pid acc, b' ← acc; snd <$> FlushPgImp pid b') (Some b)
        (elements (dom (page_table_ b))).

End BPM.

(** ** Lock manager  (2021/src/concurrency/lock_manager.cpp) *)

Module LockManager.
Local Open Scope Z_scope.

Inductive LockMode := SHARED | EXCLUSIVE.
Inductive TransactionState := GROWING | SHRINKING | COMMITTED | ABORTED.
Inductive IsolationLevel := READ_UNCOMMITTED | REPEATABLE_READ | READ_COMMITTED.
Inductive AbortReason :=
  LOCK_ON_SHRINKING | UPGRADE_CONFLICT | DEADLOCK | LOCK_SHARED_ON_READ_UNCOMMITTED.

#[global] Instance LockMode_eq_dec : EqDecision LockMode.
Proof. solve_decision. Defined.
#[global] Instance TransactionState_eq_dec : EqDecision TransactionState.
Proof. solve_decision. Defined.
#[global] Instance IsolationLevel_eq_dec : EqDecision IsolationLevel.
Proof. solve_decision. Defined.

(** A row id: (page id, slot). *)
Definition RID : Type := Z * Z.
Definition INVALID_TXN_ID : Z := -1.

Record LockRequest := mkReq {
  txn_id_ : Z;
  lock_mode_ : LockMode;
  granted_ : bool
}.

(** [cv_] is the queue's condition variable; what the model keeps of it is
    the number of [notify_all] calls made so far, so that a thread blocked in
    [cv_.wait] can tell a notification that came after it went to sleep. *)
Record LockRequestQueue := mkQueue {
  request_queue_ : list LockRequest;
  cv_ : nat;
  upgrading_ : Z
}.

Definition empty_queue : LockRequestQueue := mkQueue [] 0 INVALID_TXN_ID.

Record Transaction := mkTxn {
  state_ : TransactionState;
  isolation_level_ : IsolationLevel;
  shared_lock_set_ : gset RID;
  exclusive_lock_set_ : gset RID
}.

(** The lock table, and the transactions by id: the transaction manager's
    [txn_map], which [TransactionManager::GetTransaction] reads.  A [txn]
    pointer argument is the id of an entry of that map. *)
Record State := mkState {
  lock_table_ : gmap RID LockRequestQueue;
  txn_map : gmap Z Transaction
}.

Definition SetState (s : TransactionState) (t : Transaction) : Transaction :=
  mkTxn s (isolation_level_ t) (shared_lock_set_ t) (exclusive_lock_set_ t).

Definition set_txn_map (m : gmap Z Transaction) (st : State) : State :=
  mkState (lock_table_ st) m.
Definition update_txn (tid : Z) (f : Transaction → Transaction) (st : State) : State :=
  mkState (lock_table_ st) (alter f tid (txn_map st)).

(** [lock_table_[rid]]: a missing entry reads as a fresh queue. *)
Definition get_queue (rid : RID) (st : State) : LockRequestQueue :=
  default empty_queue (lock_table_ st !! rid).
Definition set_queue (rid : RID) (q : LockRequestQueue) (st : State) : State :=
  mkState (<[rid := q]> (lock_table_ st)) (txn_map st).

Definition notify_all (q : LockRequestQueue) : LockRequestQueue :=
  mkQueue (request_queue_ q) (S (cv_ q)) (upgrading_ q).

(** How a call leaves the lock manager: it returns, throws a
    [TransactionAbortException], or is blocked in [cv_.wait]. *)
Inductive Outcome := Returned (b : bool) | Thrown (r : AbortReason) | Waiting.

(** The scan of [NeedWait] from [first_iter]; [self_mode] is the mode of
    [request_queue_.back()].  The result is [(need_wait, has_aborted)] with
    the transactions as the scan leaves them.  [None]: the iterator runs off
    the queue, or a queued transaction is unknown to the manager. *)
Fixpoint NeedWait_scan (tid : Z) (self_mode : LockMode) (q : list LockRequest)
    (need_wait has_aborted : bool) (txns : gmap Z Transaction)
    : option (bool * bool * gmap Z Transaction) :=
  match q with
  | [] => None
  | iter :: q' =>
      if decide (txn_id_ iter = tid) then Some (need_wait, has_aborted, txns)
      else if decide (txn_id_ iter > tid) then
        let situation1 :=
          bool_decide (self_mode = SHARED) && bool_decide (lock_mode_ iter = EXCLUSIVE) in
        let situation2 := bool_decide (self_mode = EXCLUSIVE) in
        if situation1 || situation2 then
          younger_txn ← txns !! txn_id_ iter;
          if decide (state_ younger_txn ≠ ABORTED)
          then NeedWait_scan tid self_mode q' need_wait true
                 (<[txn_id_ iter := SetState ABORTED younger_txn]> txns)
          else NeedWait_scan tid self_mode q' need_wait has_aborted txns
        else NeedWait_scan tid self_mode q' need_wait has_aborted txns
      else
        let need_wait1 := if decide (self_mode = EXCLUSIVE) then true else need_wait in
        let need_wait2 := if decide (lock_mode_ iter = EXCLUSIVE) then true else need_wait1 in
        NeedWait_scan tid self_mode q' need_wait2 has_aborted txns
  end.

Definition NeedWait (tid : Z) (rid : RID) (st : State) : option (bool * State) :=
  let lock_queue := get_queue rid st in
  self ← last (request_queue_ lock_queue);
  first_iter ← head (request_queue_ lock_queue);
  if (if decide (lock_mode_ self = SHARED)
      then bool_decide (txn_id_ first_iter = tid) || bool_decide (lock_mode_ first_iter = SHARED)
      else bool_decide (txn_id_ first_iter = tid))
  then Some (false, st)
  else
    match NeedWait_scan tid (lock_mode_ self) (request_queue_ lock_queue) false false (txn_map st) with
    | Some (need_wait, has_aborted, txns) =>
        let st1 := set_txn_map txns st in
        Some (need_wait, if has_aborted then set_queue rid (notify_all lock_queue) st1 else st1)
    | None => None
    end.

(** The scan of [NeedWaitUpdate], with the braces as they stand in the
    source: the [if] on the younger transaction's state is closed only after
    [continue], so [need_wait = true] belongs to the branch of a younger
    request, and [return need_wait] is inside the loop body.  An iteration
    that does not [continue] returns; when the loop reaches the caller's own
    request no [return] is left, and the function has no result. *)
Fixpoint NeedWaitUpdate_scan (tid : Z) (q : list LockRequest)
    (need_wait has_aborted : bool) (txns : gmap Z Transaction)
    : option (bool * bool * gmap Z Transaction) :=
  match q with
  | [] => None
  | iter :: q' =>
      if decide (txn_id_ iter = tid) then None
      else if decide (txn_id_ iter > tid) then
        younger_txn ← txns !! txn_id_ iter;
        if decide (state_ younger_txn ≠ ABORTED)
        then NeedWaitUpdate_scan tid q' need_wait true
               (<[txn_id_ iter := SetState ABORTED younger_txn]> txns)
        else Some (true, has_aborted, txns)
      else Some (need_wait, has_aborted, txns)
  end.

Definition NeedWaitUpdate (tid : Z) (rid : RID) (st : State) : option (bool * State) :=
  let lock_queue := get_queue rid st in
  match NeedWaitUpdate_scan tid (request_queue_ lock_queue) false false (txn_map st) with
  | Some (need_wait, has_aborted, txns) =>
      let st1 := set_txn_map txns st in
      Some (need_wait, if has_aborted then set_queue rid (notify_all lock_queue) st1 else st1)
  | None => None
  end.

(** The upgrade-wait scan in the specification's words: wound every younger
    request ahead of the caller's own; wait iff an older one is ahead. *)
Fixpoint NeedWaitUpdate_intended_scan (tid : Z) (q : list LockRequest)
    (need_wait has_aborted : bool) (txns : gmap Z Transaction)
    : option (bool * bool * gmap Z Transaction) :=
  match q with
  | [] => None
  | iter :: q' =>
      if decide (txn_id_ iter = tid) then Some (need_wait, has_aborted, txns)
      else if decide (txn_id_ iter > tid) then
        younger_txn ← txns !! txn_id_ iter;
        if decide (state_ younger_txn ≠ ABORTED)
        then NeedWaitUpdate_intended_scan tid q' need_wait true
               (<[txn_id_ iter := SetState ABORTED younger_txn]> txns)
        else NeedWaitUpdate_intended_scan tid q' need_wait has_aborted txns
      else NeedWaitUpdate_intended_scan tid q' true has_aborted txns
  end.

Definition NeedWaitUpdate_intended (tid : Z) (rid : RID) (st : State) : option (bool * State) :=
  let lock_queue := get_queue rid st in
  match NeedWaitUpdate_intended_scan tid (request_queue_ lock_queue) false false (txn_map st) with
  | Some (need_wait, has_aborted, txns) =>
      let st1 := set_txn_map txns st in
      Some (need_wait, if has_aborted then set_queue rid (notify_all lock_queue) st1 else st1)
  | None => None
  end.

Definition CheckAbort (t : Transaction) : bool := bool_decide (state_ t = ABORTED).

(** [for (auto &iter : request_queue_) if (iter.txn_id_ == id) iter.granted_ = true;] *)
Definition grant (tid : Z) (q : list LockRequest) : list LockRequest :=
  (λ r, if decide (txn_id_ r = tid) then mkReq (txn_id_ r) (lock_mode_ r) true else r) <$> q.

(** One evaluation of the loop condition of [LockShared]/[LockExclusive]:
    block in [cv_.wait], or leave the loop, grant and return true. *)
Definition Lock_loop (tid : Z) (rid : RID) (st : State) : option (Outcome * State) :=
  match NeedWait tid rid st with
  | None => None
  | Some (true, st1) => Some (Waiting, st1)
  | Some (false, st1) =>
      let q := get_queue rid st1 in
      let st2 := set_queue rid (mkQueue (grant tid (request_queue_ q)) (cv_ q) (upgrading_ q)) st1 in
      Some (Returned true, update_txn tid (SetState GROWING) st2)
  end.

(** What follows [cv_.wait] when the thread is woken. *)
Definition Lock_wakeup (tid : Z) (rid : RID) (st : State) : option (Outcome * State) :=
  txn ← txn_map st !! tid;
  if CheckAbort txn then Some (Returned false, st) else Lock_loop tid rid st.

Definition enqueue (rid : RID) (r : LockRequest) (st : State) : State :=
  let q := get_queue rid st in
  set_queue rid (mkQueue (request_queue_ q ++ [r]) (cv_ q) (upgrading_ q)) st.

Definition LockShared (tid : Z) (rid : RID) (st : State) : option (Outcome * State) :=
  txn ← txn_map st !! tid;
  if CheckAbort txn then Some (Returned false, st)
  else if decide (isolation_level_ txn = READ_UNCOMMITTED)
  then Some (Returned false, update_txn tid (SetState ABORTED) st)
  else if decide (state_ txn ≠ GROWING)
  then Some (Thrown LOCK_ON_SHRINKING, update_txn tid (SetState ABORTED) st)
  else if decide (rid ∈ shared_lock_set_ txn) then Some (Returned true, st)
  else
    let st1 := enqueue rid (mkReq tid SHARED false) st in
    let st2 := update_txn tid (λ t, mkTxn (state_ t) (isolation_level_ t)
                 ({[rid]} ∪ shared_lock_set_ t) (exclusive_lock_set_ t)) st1 in
    Lock_loop tid rid st2.

Definition LockExclusive (tid : Z) (rid : RID) (st : State) : option (Outcome * State) :=
  txn ← txn_map st !! tid;
  if CheckAbort txn then Some (Returned false, st)
  else if decide (state_ txn ≠ GROWING)
  then Some (Thrown LOCK_ON_SHRINKING, update_txn tid (SetState ABORTED) st)
  else if decide (rid ∈ exclusive_lock_set_ txn) then Some (Returned true, st)
  else
    let st1 := enqueue rid (mkReq tid EXCLUSIVE false) st in
    let st2 := update_txn tid (λ t, mkTxn (state_ t) (isolation_level_ t)
                 (shared_lock_set_ t) ({[rid]} ∪ exclusive_lock_set_ t)) st1 in
    Lock_loop tid rid st2.

(** One evaluation of the loop condition of [LockUpgrade], for a wait
    predicate [need_wait_update].  After the loop, [for (auto iter : ...)]
    iterates over copies: the writes to [iter.granted_] and [iter.lock_mode_]
    do not reach the queue; the lock sets of the transaction are updated when
    a request of its id is found. *)
Definition LockUpgrade_loop_with (need_wait_update : Z → RID → State → option (bool * State))
    (tid : Z) (rid : RID) (st : State) : option (Outcome * State) :=
  match need_wait_update tid rid st with
  | None => None
  | Some (true, st1) => Some (Waiting, st1)
  | Some (false, st1) =>
      let q := get_queue rid st1 in
      if bool_decide (Exists (λ r, txn_id_ r = tid) (request_queue_ q))
      then Some (Returned true,
                 update_txn tid (λ t, mkTxn GROWING (isolation_level_ t)
                   (shared_lock_set_ t ∖ {[rid]}) ({[rid]} ∪ exclusive_lock_set_ t)) st1)
      else Some (Returned true, st1)
  end.

Definition LockUpgrade_with (need_wait_update : Z → RID → State → option (bool * State))
    (tid : Z) (rid : RID) (st : State) : option (Outcome * State) :=
  txn ← txn_map st !! tid;
  if CheckAbort txn then Some (Returned false, st)
  else if decide (state_ txn ≠ GROWING)
  then Some (Thrown UPGRADE_CONFLICT, update_txn tid (SetState ABORTED) st)
  else if decide (rid ∈ exclusive_lock_set_ txn) then Some (Returned true, st)
  else
    let st1 := set_queue rid (get_queue rid st) st in
    LockUpgrade_loop_with need_wait_update tid rid st1.

Definition LockUpgrade_wakeup_with (need_wait_update : Z → RID → State → option (bool * State))
    (tid : Z) (rid : RID) (st : State) : option (Outcome * State) :=
  txn ← txn_map st !! tid;
  if CheckAbort txn then Some (Returned false, st)
  else LockUpgrade_loop_with need_wait_update tid rid st.

Definition LockUpgrade := LockUpgrade_with NeedWaitUpdate.
Definition LockUpgrade_wakeup := LockUpgrade_wakeup_with NeedWaitUpdate.

(** [request_queue_.erase] of the first request of the transaction. *)
Fixpoint erase_first (tid : Z) (q : list LockRequest) : option (list LockRequest) :=
  match q with
  | [] => None
  | r :: q' =>
      if decide (txn_id_ r = tid) then Some q'
      else (λ q'', r :: q'') <$> erase_first tid q'
  end.

Definition Unlock (tid : Z) (rid : RID) (st : State) : option (Outcome * State) :=
  txn ← txn_map st !! tid;
  if bool_decide (rid ∉ shared_lock_set_ txn) && bool_decide (rid ∉ exclusive_lock_set_ txn)
  then Some (Returned false, st)
  else
    let q := get_queue rid st in
    let up := if decide (upgrading_ q = tid) then INVALID_TXN_ID else upgrading_ q in
    match erase_first tid (request_queue_ q) with
    | None => Some (Returned false, set_queue rid (mkQueue (request_queue_ q) (cv_ q) up) st)
    | Some q' =>
        let st1 := set_queue rid (notify_all (mkQueue q' (cv_ q) up)) st in
        Some (Returned true,
              update_txn tid (λ t,
                mkTxn (if bool_decide (state_ t = GROWING)
                          && bool_decide (isolation_level_ t = REPEATABLE_READ)
                       then SHRINKING else state_ t)
                      (isolation_level_ t)
                      (shared_lock_set_ t ∖ {[rid]}) (exclusive_lock_set_ t ∖ {[rid]})) st1)
    end.

(** *** Threads

    Calls of several transactions interleave under [latch_]: a call runs
    until it returns, throws or blocks in [cv_.wait]; a blocked call resumes
    after a [notify_all] on its queue. *)
Inductive Call := CLockShared | CLockExclusive | CLockUpgrade | CUnlock.

#[global] Instance Call_eq_dec : EqDecision Call.
Proof. solve_decision. Defined.

Record Blocked := mkBlocked {
  blocked_call : Call;
  blocked_rid : RID;
  blocked_at : nat  (* [cv_] when the thread went to sleep *)
}.

Record Sys := mkSys {
  lm : State;
  waiting : gmap Z Blocked
}.

Inductive Event := EvCall (c : Call) (tid : Z) (rid : RID) | EvResume (tid : Z).

Definition run_call (c : Call) (tid : Z) (rid : RID) (st : State) : option (Outcome * State) :=
  match c with
  | CLockShared => LockShared tid rid st
  | CLockExclusive => LockExclusive tid rid st
  | CLockUpgrade => LockUpgrade tid rid st
  | CUnlock => Unlock tid rid st
  end.

Definition run_wakeup (c : Call) (tid : Z) (rid : RID) (st : State) : option (Outcome * State) :=
  match c with
  | CLockShared | CLockExclusive => Lock_wakeup tid rid st
  | CLockUpgrade => LockUpgrade_wakeup tid rid st
  | CUnlock => None
  end.

Definition settle (c : Call) (tid : Z) (rid : RID) (res : Outcome * State) (w : gmap Z Blocked)
    : Outcome * Sys :=
  match res.1 with
  | Waiting => (Waiting, mkSys res.2 (<[tid := mkBlocked c rid (cv_ (get_queue rid res.2))]> w))
  | o => (o, mkSys res.2 (delete tid w))
  end.

(** [None]: the event cannot happen (the thread is blocked, or not
    notified), or the call has no defined result. *)
Definition step (e : Event) (s : Sys) : option (Outcome * Sys) :=
  match e with
  | EvCall c tid rid =>
      match waiting s !! tid with
      | Some _ => None
      | None => res ← run_call c tid rid (lm s); Some (settle c tid rid res (waiting s))
      end
  | EvResume tid =>
      b ← waiting s !! tid;
      if decide (blocked_at b < cv_ (get_queue (blocked_rid b) (lm s)))%nat then
        res ← run_wakeup (blocked_call b) tid (blocked_rid b) (lm s);
        Some (settle (blocked_call b) tid (blocked_rid b) res (waiting s))
      else None
  end.

Fixpoint run (es : list Event) (s : Sys) : option (list Outcome * Sys) :=
  match es with
  | [] => Some ([], s)
  | e :: es' =>
      '(o, s1) ← step e s;
      '(os, s2) ← run es' s1;
      Some (o :: os, s2)
  end.

(** Transactions as the transaction manager creates them. *)
Definition new_txn (iso : IsolationLevel) : Transaction := mkTxn GROWING iso ∅ ∅.

Definition init (txns : gmap Z Transaction) : Sys := mkSys (mkState ∅ txns) ∅.

Definition conflicts (a b : LockMode) : bool :=
  bool_decide (a = EXCLUSIVE) || bool_decide (b = EXCLUSIVE).

End LockManager.

(** ** Extendible hash table  (2021/src/container/hash/extendible_hash_table.cpp) *)

Module ExtendibleHash.

(** What the table is instantiated with: the constants of the page layout
    (declared in headers that are not among the source files; the directory
    arrays have [2 ^ MAX_BUCKET_DEPTH] entries, section 3 of the
    specification) and the hash function, whose value is a [uint32_t]. *)
Class HashParams := {
  MAX_BUCKET_DEPTH : nat;
  BUCKET_ARRAY_SIZE : nat;
  hash_fn_ : Z → nat
}.

Section Table.
Context `{HashParams}.

Definition DIRECTORY_ARRAY_SIZE : nat := 2 ^ MAX_BUCKET_DEPTH.

Record HashTableDirectoryPage := mkDir {
  global_depth_ : nat;
  local_depths_ : list nat;
  bucket_page_ids_ : list Z
}.

(** A page just allocated: all zero. *)
Definition zero_directory : HashTableDirectoryPage :=
  mkDir 0 (replicate DIRECTORY_ARRAY_SIZE 0) (replicate DIRECTORY_ARRAY_SIZE 0%Z).

(** *** Directory page

    Modelled from the spec: hash_table_directory_page.cpp is not among the
    source files.  Section 4.6: a directory of global depth [g] addresses
    [2^g] slots, the slot of a key is [hash & ((1 << g) - 1)], incrementing
    [g] copies the first [2^g] entries into the next [2^g], [CanShrink] holds
    when every local depth is below [g].  The split image of a slot is the
    slot that differs from it in the highest bit its local depth covers. *)
Definition GetGlobalDepth (d : HashTableDirectoryPage) : nat := global_depth_ d.
Definition GetGlobalDepthMask (d : HashTableDirectoryPage) : nat :=
  Nat.shiftl 1 (global_depth_ d) - 1.
Definition Size (d : HashTableDirectoryPage) : nat := Nat.shiftl 1 (global_depth_ d).
Definition GetLocalDepth (i : nat) (d : HashTableDirectoryPage) : nat := local_depths_ d !!! i.
Definition GetBucketPageId (i : nat) (d : HashTableDirectoryPage) : Z := bucket_page_ids_ d !!! i.
Definition GetLocalDepthMask (i : nat) (d : HashTableDirectoryPage) : nat :=
  Nat.shiftl 1 (GetLocalDepth i d) - 1.

Definition SetLocalDepth (i : nat) (v : nat) (d : HashTableDirectoryPage) :=
  mkDir (global_depth_ d) (<[i := v]> (local_depths_ d)) (bucket_page_ids_ d).
Definition SetBucketPageId (i : nat) (v : Z) (d : HashTableDirectoryPage) :=
  mkDir (global_depth_ d) (local_depths_ d) (<[i := v]> (bucket_page_ids_ d)).
Definition IncrLocalDepth (i : nat) (d : HashTableDirectoryPage) :=
  SetLocalDepth i (GetLocalDepth i d + 1) d.
Definition DecrLocalDepth (i : nat) (d : HashTableDirectoryPage) :=
  SetLocalDepth i (GetLocalDepth i d - 1) d.

Definition copy_lower_half {A} (n : nat) (l : list A) : list A :=
  take n l ++ take n l ++ drop (n + n) l.

Definition IncrGlobalDepth (d : HashTableDirectoryPage) :=
  mkDir (S (global_depth_ d))
        (copy_lower_half (Size d) (local_depths_ d))
        (copy_lower_half (Size d) (bucket_page_ids_ d)).
Definition DecrGlobalDepth (d : HashTableDirectoryPage) :=
  mkDir (global_depth_ d - 1) (local_depths_ d) (bucket_page_ids_ d).

Definition CanShrink (d : HashTableDirectoryPage) : bool :=
  forallb (λ i, GetLocalDepth i d <? global_depth_ d) (seq 0 (Size d)).

Definition GetSplitImageIndex (i : nat) (d : HashTableDirectoryPage) : nat :=
  if decide (GetLocalDepth i d = 0) then i
  else Nat.lxor i (Nat.shiftl 1 (GetLocalDepth i d - 1)).

(** *** Bucket page

    Modelled from the spec: hash_table_bucket_page.cpp is not among the
    source files.  A bucket holds at most [BUCKET_ARRAY_SIZE] pairs and no
    pair twice; it is kept as the list of its readable pairs. *)
Definition Bucket := list (Z * Z).

Definition IsFull (b : Bucket) : bool := BUCKET_ARRAY_SIZE <=? length b.
Definition IsEmpty (b : Bucket) : bool := bool_decide (b = []).
Definition bucket_Insert (k v : Z) (b : Bucket) : bool * Bucket :=
  if bool_decide ((k, v) ∈ b) || IsFull b then (false, b) else (true, b ++ [(k, v)]).
Definition bucket_Remove (k v : Z) (b : Bucket) : bool * Bucket :=
  if bool_decide ((k, v) ∈ b) then (true, filter (λ p, p ≠ (k, v)) b) else (false, b).

(** *** The table, with the pages it keeps in the buffer pool

    Modelled from the spec: of the buffer pool the table uses [NewPage],
    which hands out a fresh page id (allocation is monotonic, section 3) with
    zeroed contents, [FetchPage] and [DeletePage]; [buckets] are the bucket
    pages by page id. *)
Record ExtendibleHashTable := mkTable {
  directory_page_id_ : Z;
  dir_page : HashTableDirectoryPage;
  buckets : gmap Z Bucket;
  next_page_id : Z
}.

Definition INVALID_PAGE_ID : Z := -1.

Definition empty_table (first_page_id : Z) : ExtendibleHashTable :=
  mkTable INVALID_PAGE_ID zero_directory ∅ first_page_id.

Definition set_dir (d : HashTableDirectoryPage) (t : ExtendibleHashTable) :=
  mkTable (directory_page_id_ t) d (buckets t) (next_page_id t).
Definition set_buckets (b : gmap Z Bucket) (t : ExtendibleHashTable) :=
  mkTable (directory_page_id_ t) (dir_page t) b (next_page_id t).

Definition Hash (key : Z) : nat := hash_fn_ key.

Definition KeyToDirectoryIndex (key : Z) (d : HashTableDirectoryPage) : nat :=
  Nat.land (Hash key) (GetGlobalDepthMask d).

Definition KeyToPageId (key : Z) (d : HashTableDirectoryPage) : Z :=
  GetBucketPageId (KeyToDirectoryIndex key d) d.

(** [FetchDirectoryPage]: on first use the directory page and bucket 0 are
    created; [None] when [assert(directory_page_id_ != INVALID_PAGE_ID)]
    fails. *)
Definition FetchDirectoryPage (t : ExtendibleHashTable) : option ExtendibleHashTable :=
  if decide (directory_page_id_ t = INVALID_PAGE_ID) then
    let tmp_page_id := next_page_id t in
    let bucket_page_id := (tmp_page_id + 1)%Z in
    if decide (tmp_page_id = INVALID_PAGE_ID) then None
    else Some (mkTable tmp_page_id (SetBucketPageId 0 bucket_page_id zero_directory)
                       (<[bucket_page_id := []]> (buckets t)) (bucket_page_id + 1)%Z)
  else Some t.

Definition GetValue (key : Z) (t : ExtendibleHashTable) : option (list Z * ExtendibleHashTable) :=
  t ← FetchDirectoryPage t;
  bucket ← buckets t !! KeyToPageId key (dir_page t);
  Some ((filter (λ p, p.1 = key) bucket).*2, t).

(** The two downward loops of [SplitInsert]:
    [for (i = start; i >= 0; i -= diff) { body; if (i < diff) break; }]. *)
Fixpoint loop_down (fuel : nat) (i diff : nat)
    (body : nat → HashTableDirectoryPage → HashTableDirectoryPage)
    (d : HashTableDirectoryPage) : HashTableDirectoryPage :=
  match fuel with
  | O => d
  | S fuel' =>
      let d' := body i d in
      if i <? diff then d' else loop_down fuel' (i - diff) diff body d'
  end.

(** The two upward loops: [for (i = start; i < Size(); i += diff) body]. *)
Fixpoint loop_up (fuel : nat) (i diff : nat)
    (body : nat → HashTableDirectoryPage → HashTableDirectoryPage)
    (d : HashTableDirectoryPage) : HashTableDirectoryPage :=
  match fuel with
  | O => d
  | S fuel' =>
      if i <? Size d then loop_up fuel' (i + diff) diff body (body i d) else d
  end.

(** The directory part of [SplitInsert], from the increment of the global
    depth to the last of the four loops. *)
Definition split_directory (split_bucket_index : nat) (split_bucket_page_id image_bucket_page : Z)
    (d : HashTableDirectoryPage) : HashTableDirectoryPage :=
  let d := IncrLocalDepth split_bucket_index d in
  let split_image_bucket_index := GetSplitImageIndex split_bucket_index d in
  let d := SetLocalDepth split_image_bucket_index (GetLocalDepth split_bucket_index d) d in
  let d := SetBucketPageId split_image_bucket_index image_bucket_page d in
  let diff := Nat.shiftl 1 (GetLocalDepth split_bucket_index d) in
  let body pid i d :=
    SetLocalDepth i (GetLocalDepth split_bucket_index (SetBucketPageId i pid d))
                  (SetBucketPageId i pid d) in
  let d := loop_down (S split_bucket_index) split_bucket_index diff (body split_bucket_page_id) d in
  let d := loop_up (Size d) split_bucket_index diff (body split_bucket_page_id) d in
  let d := loop_down (S split_image_bucket_index) split_image_bucket_index diff
                     (body image_bucket_page) d in
  loop_up (Size d) split_image_bucket_index diff (body image_bucket_page) d.

(** The redistribution loop; [None] when one of its assertions fails. *)
Fixpoint rehash (origin : list (Z * Z)) (mask : nat) (d : HashTableDirectoryPage)
    (split_bucket_page_id image_bucket_page : Z) (split_bucket image_bucket : Bucket)
    : option (Bucket * Bucket) :=
  match origin with
  | [] => Some (split_bucket, image_bucket)
  | tmp :: rest =>
      let target_bucket_index := Nat.land (Hash tmp.1) mask in
      let target_bucket_index_page := GetBucketPageId target_bucket_index d in
      if decide (target_bucket_index_page = split_bucket_page_id) then
        let '(ok, b) := bucket_Insert tmp.1 tmp.2 split_bucket in
        if ok then rehash rest mask d split_bucket_page_id image_bucket_page b image_bucket
        else None
      else if decide (target_bucket_index_page = image_bucket_page) then
        let '(ok, b) := bucket_Insert tmp.1 tmp.2 image_bucket in
        if ok then rehash rest mask d split_bucket_page_id image_bucket_page split_bucket b
        else None
      else None
  end.

(** [SplitInsert] up to its last line, which is [retry]: [Insert] again. *)
Definition SplitInsert_with (retry : ExtendibleHashTable → option (bool * ExtendibleHashTable))
    (key value : Z) (t : ExtendibleHashTable) : option (bool * ExtendibleHashTable) :=
  t ← FetchDirectoryPage t;
  let d := dir_page t in
  let split_bucket_index := KeyToDirectoryIndex key d in
  let split_bucket_depth := GetLocalDepth split_bucket_index d in
  if MAX_BUCKET_DEPTH <=? split_bucket_depth then Some (false, t)
  else
    let d := if decide (split_bucket_depth = GetGlobalDepth d) then IncrGlobalDepth d else d in
    let split_bucket_page_id := KeyToPageId key d in
    origin_array ← buckets t !! split_bucket_page_id;
    let image_bucket_page := next_page_id t in
    let d := split_directory split_bucket_index split_bucket_page_id image_bucket_page d in
    let mask := GetLocalDepthMask split_bucket_index d in
    '(split_bucket, image_bucket) ←
      rehash origin_array mask d split_bucket_page_id image_bucket_page [] [];
    retry (mkTable (directory_page_id_ t) d
             (<[image_bucket_page := image_bucket]>
                (<[split_bucket_page_id := split_bucket]> (buckets t)))
             (image_bucket_page + 1)%Z).

(** [Insert] and [SplitInsert] call each other; [fuel] bounds the calls of
    [Insert]. *)
Fixpoint Insert (fuel : nat) (key value : Z) (t : ExtendibleHashTable)
    : option (bool * ExtendibleHashTable) :=
  match fuel with
  | O => None
  | S fuel' =>
      t ← FetchDirectoryPage t;
      let bucket_page_id := KeyToPageId key (dir_page t) in
      bucket ← buckets t !! bucket_page_id;
      if negb (IsFull bucket) then
        let '(res, bucket') := bucket_Insert key value bucket in
        Some (res, set_buckets (<[bucket_page_id := bucket']> (buckets t)) t)
      else SplitInsert_with (Insert fuel' key value) key value t
  end.

Definition SplitInsert (fuel : nat) (key value : Z) (t : ExtendibleHashTable) :=
  SplitInsert_with (Insert fuel key value) key value t.

(** The loop of [Merge] over the slots. *)
Definition merge_slots (target_bucket_index : nat) (target_bucket_page_id image_bucket_page_id : Z)
    (d : HashTableDirectoryPage) : HashTableDirectoryPage :=
  foldl (λ d i,
           if bool_decide (GetBucketPageId i d = target_bucket_page_id)
              || bool_decide (GetBucketPageId i d = image_bucket_page_id)
           then SetLocalDepth i (GetLocalDepth target_bucket_index (SetBucketPageId i image_bucket_page_id d))
                              (SetBucketPageId i image_bucket_page_id d)
           else d)
        d (seq 0 (Size d)).

(** [while (CanShrink()) DecrGlobalDepth();] the depth bounds the turns. *)
Fixpoint shrink (fuel : nat) (d : HashTableDirectoryPage) : HashTableDirectoryPage :=
  match fuel with
  | O => d
  | S fuel' => if CanShrink d then shrink fuel' (DecrGlobalDepth d) else d
  end.

Definition Merge (target_bucket_index : nat) (t : ExtendibleHashTable)
    : option ExtendibleHashTable :=
  t ← FetchDirectoryPage t;
  let d := dir_page t in
  if Size d <=? target_bucket_index then Some t
  else
    let target_bucket_page_id := GetBucketPageId target_bucket_index d in
    let image_bucket_index := GetSplitImageIndex target_bucket_index d in
    let local_depth := GetLocalDepth target_bucket_index d in
    if decide (local_depth = 0) then Some t
    else if decide (local_depth ≠ GetLocalDepth image_bucket_index d) then Some t
    else
      target_bucket ← buckets t !! target_bucket_page_id;
      if negb (IsEmpty target_bucket) then Some t
      else
        let bs := delete target_bucket_page_id (buckets t) in
        let image_bucket_page_id := GetBucketPageId image_bucket_index d in
        let d := SetBucketPageId target_bucket_index image_bucket_page_id d in
        let d := DecrLocalDepth target_bucket_index d in
        let d := DecrLocalDepth image_bucket_index d in
        if decide (GetLocalDepth target_bucket_index d = GetLocalDepth image_bucket_index d) then
          let d := merge_slots target_bucket_index target_bucket_page_id image_bucket_page_id d in
          let d := shrink (S (global_depth_ d)) d in
          Some (mkTable (directory_page_id_ t) d bs (next_page_id t))
        else None.

Definition Remove (key value : Z) (t : ExtendibleHashTable)
    : option (bool * ExtendibleHashTable) :=
  t ← FetchDirectoryPage t;
  let d := dir_page t in
  let bucket_page_id := KeyToPageId key d in
  let bucket_index := KeyToDirectoryIndex key d in
  bucket ← buckets t !! bucket_page_id;
  let '(res, bucket') := bucket_Remove key value bucket in
  let t := set_buckets (<[bucket_page_id := bucket']> (buckets t)) t in
  if IsEmpty bucket' then
    t' ← Merge bucket_index t; Some (res, t')
  else Some (res, t).

Inductive Op := OpInsert (key value : Z) | OpRemove (key value : Z).

Definition run_op (fuel : nat) (op : Op) (t : ExtendibleHashTable)
    : option (bool * ExtendibleHashTable) :=
  match op with
  | OpInsert k v => Insert fuel k v t
  | OpRemove k v => Remove k v t
  end.

Fixpoint run_ops (fuel : nat) (ops : list Op) (t : ExtendibleHashTable)
    : option (list bool * ExtendibleHashTable) :=
  match ops with
  | [] => Some ([], t)
  | op :: ops' =>
      '(res, t1) ← run_op fuel op t;
      '(rs, t2) ← run_ops fuel ops' t1;
      Some (res :: rs, t2)
  end.

(** *** The invariant of the directory (section 3) *)

(** [i] and [j] agree on their low [d] bits. *)
Definition agree (d i j : nat) : Prop := i mod 2 ^ d = j mod 2 ^ d.

#[global] Instance agree_dec d i j : Decision (agree d i j).
Proof. unfold agree. apply _. Defined.

Definition directory_invariant (d : HashTableDirectoryPage) : Prop :=
  ∀ i, i < 2 ^ global_depth_ d →
    GetLocalDepth i d ≤ global_depth_ d ∧
    ∀ j, j < 2 ^ global_depth_ d →
      (GetBucketPageId i d = GetBucketPageId j d ↔ agree (GetLocalDepth i d) i j).

End Table.

End ExtendibleHash.

(** ** B+-tree: lookup and the insert path  (2020/src/storage/index/b_plus_tree.cpp) *)

Module BPlusTree.
Local Open Scope Z_scope.

Definition INVALID_PAGE_ID : Z := -1.

(** Keys are compared by the injected comparator; here they are integers
    with their order.  A value is a row id. *)
Definition RID : Type := Z * Z.

Record LeafPage := mkLeaf {
  l_page_id_ : Z;
  l_parent_page_id_ : Z;
  l_max_size_ : Z;
  next_page_id_ : Z;
  l_array_ : list (Z * RID)
}.

Record InternalPage := mkInternal {
  i_page_id_ : Z;
  i_parent_page_id_ : Z;
  i_max_size_ : Z;
  i_array_ : list (Z * Z)
}.

Inductive BPlusTreePage := LeafNode (p : LeafPage) | InternalNode (p : InternalPage).

Inductive Operation := FIND | INSERT | DELETE.

#[global] Instance Operation_eq_dec : EqDecision Operation.
Proof. solve_decision. Defined.

(** *** Page views

    Modelled from the spec: b_plus_tree_page.cpp, b_plus_tree_leaf_page.cpp
    and b_plus_tree_internal_page.cpp are not among the source files.
    Section 3: a page holds [size] pairs, the root has no parent
    ([parent_id = -1]), the minimum size is [ceil(max_size / 2)] for an
    internal page and [ceil((max_size - 1) / 2)] for a leaf, and the key of
    entry 0 of an internal page is unused.  Section 4.5: on equality the
    lookup returns the first key [>= k], and an [Insert] with an existing
    key modifies nothing; [InsertIntoLeaf] recognises that case by the size
    [Insert] returns being the old one.  The comments of [GetValue] and
    [Insert] in b_plus_tree.cpp: an internal page sends a key to the child of
    the last separator that is [<=] it, a leaf inserts before the first key
    that is [>=] the new one. *)
Definition IsLeafPage (n : BPlusTreePage) : bool :=
  match n with LeafNode _ => true | InternalNode _ => false end.
Definition GetSize (n : BPlusTreePage) : Z :=
  match n with
  | LeafNode p => Z.of_nat (length (l_array_ p))
  | InternalNode p => Z.of_nat (length (i_array_ p))
  end.
Definition GetMaxSize (n : BPlusTreePage) : Z :=
  match n with LeafNode p => l_max_size_ p | InternalNode p => i_max_size_ p end.
Definition GetMinSize (n : BPlusTreePage) : Z :=
  match n with
  | LeafNode p => l_max_size_ p / 2
  | InternalNode p => (i_max_size_ p + 1) / 2
  end.
Definition GetParentPageId (n : BPlusTreePage) : Z :=
  match n with LeafNode p => l_parent_page_id_ p | InternalNode p => i_parent_page_id_ p end.
Definition IsRootPage (n : BPlusTreePage) : bool :=
  bool_decide (GetParentPageId n = INVALID_PAGE_ID).

(** [KeyIndex]: the first index whose key is not below [key]. *)
Fixpoint KeyIndex (key : Z) (a : list (Z * RID)) : nat :=
  match a with
  | [] => O
  | (k, _) :: a' => if decide (k < key) then S (KeyIndex key a') else O
  end.

Definition leaf_Lookup (key : Z) (p : LeafPage) : option RID :=
  match l_array_ p !! KeyIndex key (l_array_ p) with
  | Some (k, v) => if decide (k = key) then Some v else None
  | None => None
  end.

(** The new size, and the page as [Insert] leaves it. *)
Definition leaf_Insert (key : Z) (value : RID) (p : LeafPage) : Z * LeafPage :=
  let idx := KeyIndex key (l_array_ p) in
  match l_array_ p !! idx with
  | Some (k, _) =>
      if decide (k = key) then (Z.of_nat (length (l_array_ p)), p)
      else
        let a := take idx (l_array_ p) ++ (key, value) :: drop idx (l_array_ p) in
        (Z.of_nat (length a),
         mkLeaf (l_page_id_ p) (l_parent_page_id_ p) (l_max_size_ p) (next_page_id_ p) a)
  | None =>
      let a := l_array_ p ++ [(key, value)] in
      (Z.of_nat (length a),
       mkLeaf (l_page_id_ p) (l_parent_page_id_ p) (l_max_size_ p) (next_page_id_ p) a)
  end.

(** The child for [key]: scanning the separators from index 1, the value of
    the last one that is not above [key], the value at index 0 when there is
    none. *)
Fixpoint internal_scan (key : Z) (a : list (Z * Z)) (cur : Z) : Z :=
  match a with
  | [] => cur
  | (k, v) :: a' => if decide (k ≤ key) then internal_scan key a' v else cur
  end.

Definition internal_Lookup (key : Z) (p : InternalPage) : option Z :=
  match i_array_ p with
  | [] => None
  | (_, v0) :: a => Some (internal_scan key a v0)
  end.

Definition ValueAt (i : Z) (p : InternalPage) : option Z :=
  if decide (0 ≤ i) then snd <$> i_array_ p !! Z.to_nat i else None.

(** *** The tree and its pages in the buffer pool

    A page of the tree is reached through the buffer pool only.  What the
    model keeps of the pool is, for every page id, the page with the pin
    count and the dirty flag the pool holds for it; which frame holds the
    page, and whether it had to be read back from disk, is the pool's
    business.  Latches order concurrent threads and change nothing in a
    single-threaded run: they are left out, the flag [root_is_latched]
    apart. *)
Record Frame := mkFrame {
  node_ : BPlusTreePage;
  pin_count_ : Z;
  is_dirty_ : bool
}.

Record Tree := mkTree {
  root_page_id_ : Z;
  leaf_max_size_ : Z;
  internal_max_size_ : Z;
  pool_ : gmap Z Frame;
  page_set_ : list Z;          (* the transaction's page set *)
  header_record_ : option Z;   (* the root page id recorded in the header page *)
  next_new_page_ : Z           (* the page id [NewPage] hands out next *)
}.

Definition set_pool (m : gmap Z Frame) (t : Tree) : Tree :=
  mkTree (root_page_id_ t) (leaf_max_size_ t) (internal_max_size_ t) m
         (page_set_ t) (header_record_ t) (next_new_page_ t).
Definition set_page_set (ps : list Z) (t : Tree) : Tree :=
  mkTree (root_page_id_ t) (leaf_max_size_ t) (internal_max_size_ t) (pool_ t)
         ps (header_record_ t) (next_new_page_ t).

(** [None]: the page does not exist (the pool would hand back a null
    pointer or bytes that are no page of the tree). *)
Definition FetchPage (pid : Z) (t : Tree) : option (BPlusTreePage * Tree) :=
  f ← pool_ t !! pid;
  Some (node_ f, set_pool (<[pid := mkFrame (node_ f) (pin_count_ f + 1) (is_dirty_ f)]> (pool_ t)) t).

Definition UnpinPage (pid : Z) (is_dirty : bool) (t : Tree) : bool * Tree :=
  match pool_ t !! pid with
  | None => (false, t)
  | Some f =>
      if decide (pin_count_ f ≤ 0) then (false, t)
      else (true, set_pool (<[pid := mkFrame (node_ f) (pin_count_ f - 1)
                                        (if is_dirty then true else is_dirty_ f)]> (pool_ t)) t)
  end.

Definition IsEmpty (t : Tree) : bool := bool_decide (root_page_id_ t = INVALID_PAGE_ID).

Definition IsSafe (n : BPlusTreePage) (op : Operation) : bool :=
  if IsRootPage n then
    (bool_decide (op = INSERT) && bool_decide (GetSize n < GetMaxSize n - 1))
    || (bool_decide (op = DELETE) && bool_decide (GetSize n > 2))
  else if decide (op = INSERT) then bool_decide (GetSize n < GetMaxSize n - 1)
  else if decide (op = DELETE) then bool_decide (GetSize n > GetMinSize n)
  else true.

(** [UnlockUnpinPages]: every page of the page set is unpinned clean, and
    the set is cleared. *)
Definition UnlockUnpinPages (t : Tree) : Tree :=
  set_page_set [] (foldl (λ t pid, (UnpinPage pid false t).2) t (page_set_ t)).

(** The loop of [FindLeafPageByOperation]; [fuel] bounds the depth. *)
Fixpoint descend (fuel : nat) (key : Z) (op : Operation) (leftMost rightMost : bool)
    (page_id : Z) (node : BPlusTreePage) (is_root_page_id_latched : bool) (t : Tree)
    : option (Z * LeafPage * bool * Tree) :=
  match node with
  | LeafNode leaf => Some (page_id, leaf, is_root_page_id_latched, t)
  | InternalNode i_node =>
      match fuel with
      | O => None
      | S fuel' =>
          child_node_page_id ←
            (if leftMost then ValueAt 0 i_node
             else if rightMost then ValueAt (GetSize node - 1) i_node
             else internal_Lookup key i_node);
          '(child_node, t1) ← FetchPage child_node_page_id t;
          if decide (op = FIND) then
            descend fuel' key op leftMost rightMost child_node_page_id child_node
                    is_root_page_id_latched (UnpinPage page_id false t1).2
          else
            let t2 := set_page_set (page_set_ t1 ++ [page_id]) t1 in
            if IsSafe child_node op then
              descend fuel' key op leftMost rightMost child_node_page_id child_node
                      false (UnlockUnpinPages t2)
            else
              descend fuel' key op leftMost rightMost child_node_page_id child_node
                      is_root_page_id_latched t2
      end
  end.

(** [None] also when the assertion at the entry fails: a FIND with both
    [leftMost] and [rightMost] (the other operations come with their
    transaction, whose page set is in the state). *)
Definition FindLeafPageByOperation (fuel : nat) (key : Z) (op : Operation)
    (leftMost rightMost : bool) (t : Tree) : option (Z * LeafPage * bool * Tree) :=
  if leftMost && rightMost && bool_decide (op = FIND) then None
  else
    '(node, t1) ← FetchPage (root_page_id_ t) t;
    let is_root_page_id_latched :=
      if decide (op = FIND) then false else negb (IsSafe node op) in
    descend fuel key op leftMost rightMost (root_page_id_ t) node is_root_page_id_latched t1.

Definition GetValue (fuel : nat) (key : Z) (t : Tree) : option (option RID * Tree) :=
  '(leaf_page_id, leaf_node, _, t1) ← FindLeafPageByOperation fuel key FIND false false t;
  Some (leaf_Lookup key leaf_node, (UnpinPage leaf_page_id false t1).2).

(** The page bytes behind [leaf_node] are written in place. *)
Definition write_leaf (pid : Z) (leaf : LeafPage) (t : Tree) : Tree :=
  set_pool (alter (λ f, mkFrame (LeafNode leaf) (pin_count_ f) (is_dirty_ f)) pid (pool_ t)) t.

(** [NewPage] is taken to succeed with the next unused page id; the new
    page is pinned once and unpinned dirty at the end. *)
Definition StartNewTree (key : Z) (value : RID) (t : Tree) : Tree :=
  let new_page_id := next_new_page_ t in
  let root_node :=
    (leaf_Insert key value
       (mkLeaf new_page_id INVALID_PAGE_ID (leaf_max_size_ t) INVALID_PAGE_ID [])).2 in
  mkTree new_page_id (leaf_max_size_ t) (internal_max_size_ t)
         (<[new_page_id := mkFrame (LeafNode root_node) 0 true]> (pool_ t))
         (page_set_ t) (Some new_page_id) (new_page_id + 1).

Section Insert.

(** What [InsertIntoLeaf] does from [Split] on, when the leaf has reached
    its maximum size: the split, [InsertIntoParent] and the two last
    [UnpinPage] calls.  The properties below are about the paths before it
    and hold for whatever it does. *)
Variable split_and_insert_into_parent : Z → LeafPage → bool → Tree → option Tree.

Definition InsertIntoLeaf (fuel : nat) (key : Z) (value : RID) (t : Tree)
    : option (bool * Tree) :=
  '(leaf_page_id, leaf_node, root_is_latched, t1) ←
    FindLeafPageByOperation fuel key INSERT false false t;
  let size := Z.of_nat (length (l_array_ leaf_node)) in
  let '(new_size, leaf_node') := leaf_Insert key value leaf_node in
  let t2 := write_leaf leaf_page_id leaf_node' t1 in
  if decide (new_size = size) then
    Some (false, (UnpinPage leaf_page_id false (UnlockUnpinPages t2)).2)
  else if decide (new_size < l_max_size_ leaf_node') then
    Some (true, (UnpinPage leaf_page_id true t2).2)
  else
    t3 ← split_and_insert_into_parent leaf_page_id leaf_node' root_is_latched t2;
    Some (true, t3).

Definition Insert (fuel : nat) (key : Z) (value : RID) (t : Tree) : option (bool * Tree) :=
  if IsEmpty t then Some (true, StartNewTree key value t)
  else InsertIntoLeaf fuel key value t.

End Insert.

(** Modelled from the spec: [RemoveAndDeleteRecord] is a member of the leaf
    page (b_plus_tree_leaf_page.cpp is not among the source files).  The
    comment at its call in [Remove]: when the key is not in the leaf the size
    stays what it was; section 4.5: the pair of the key is removed.  The new
    size, and the page as the call leaves it. *)
Definition leaf_RemoveAndDeleteRecord (key : Z) (p : LeafPage) : Z * LeafPage :=
  let idx := KeyIndex key (l_array_ p) in
  match l_array_ p !! idx with
  | Some (k, _) =>
      if decide (k = key) then
        let a := take idx (l_array_ p) ++ drop (S idx) (l_array_ p) in
        (Z.of_nat (length a),
         mkLeaf (l_page_id_ p) (l_parent_page_id_ p) (l_max_size_ p) (next_page_id_ p) a)
      else (Z.of_nat (length (l_array_ p)), p)
  | None => (Z.of_nat (length (l_array_ p)), p)
  end.

Section Remove.

(** What [Remove] does from [CoalesceOrRedistribute] on, when the key was
    in the leaf: the rebalancing, the last [UnpinPage] and the deletion of
    the pages of the deleted page set. *)
Variable coalesce_and_delete_pages : Z → LeafPage → bool → Tree → option Tree.

Definition Remove (fuel : nat) (key : Z) (t : Tree) : option Tree :=
  if IsEmpty t then Some t
  else
    '(leaf_page_id, leaf_node, root_is_latched, t1) ←
      FindLeafPageByOperation fuel key DELETE false false t;
    let old_size := Z.of_nat (length (l_array_ leaf_node)) in
    let '(new_size, leaf_node') := leaf_RemoveAndDeleteRecord key leaf_node in
    let t2 := write_leaf leaf_page_id leaf_node' t1 in
    if decide (new_size = old_size) then
      Some (UnpinPage leaf_page_id false (UnlockUnpinPages t2)).2
    else coalesce_and_delete_pages leaf_page_id leaf_node' root_is_latched t2.

End Remove.

(** *** Iterators

    An iterator is the page id of its leaf and an index in the leaf; the
    leaf stays pinned for the iterator.  [KeyType()] is the key 0. *)
Definition begin (fuel : nat) (t : Tree) : option (Z * Z * Tree) :=
  '(leaf_page_id, _, _, t1) ← FindLeafPageByOperation fuel 0 FIND true false t;
  Some (leaf_page_id, 0, t1).

Definition Begin (fuel : nat) (key : Z) (t : Tree) : option (Z * Z * Tree) :=
  '(leaf_page_id, leaf_node, _, t1) ← FindLeafPageByOperation fuel key FIND false false t;
  Some (leaf_page_id, Z.of_nat (KeyIndex key (l_array_ leaf_node)), t1).

Definition end_ (fuel : nat) (t : Tree) : option (Z * Z * Tree) :=
  '(leaf_page_id, leaf_node, _, t1) ← FindLeafPageByOperation fuel 0 FIND false true t;
  Some (leaf_page_id, Z.of_nat (length (l_array_ leaf_node)), t1).

(** The page ids of the leaf chain from [pid], in chain order. *)
Fixpoint leaf_chain (fuel : nat) (pid : Z) (t : Tree) : list Z :=
  match fuel with
  | O => []
  | S fuel' =>
      match node_ <$> pool_ t !! pid with
      | Some (LeafNode leaf) => pid :: leaf_chain fuel' (next_page_id_ leaf) t
      | _ => []
      end
  end.

End BPlusTree.

(** ** Query operators  (2021/src/execution/limit_executor.cpp,
    nested_loop_join_executor.cpp, hash_join_executor.cpp) *)

Module Executors.

(** An operator pulls rows from its children through [Init] and [Next];
    [Next] gives a row, or nothing when it returns false.  A child is any
    executor: a state with the two calls.  The rows, the predicate and the
    expressions of the output columns belong to the plan and the catalog;
    they are parameters here. *)

Module LimitExecutor.
Section Limit.
Context {Tuple Child : Type}.
Variable child_Init : Child → Child.
Variable child_Next : Child → option Tuple * Child.
(** [plan_->GetLimit()]. *)
Variable GetLimit : nat.

(** [numbers_] is a counter of the rows seen; it is taken not to overflow. *)
Record LimitExecutor := mkLimit {
  numbers_ : nat;
  child_executor_ : Child
}.

Definition Init (e : LimitExecutor) : LimitExecutor :=
  mkLimit 0 (child_Init (child_executor_ e)).

Definition Next (e : LimitExecutor) : option Tuple * LimitExecutor :=
  match child_Next (child_executor_ e) with
  | (None, c) => (None, mkLimit (numbers_ e) c)
  | (Some tuple, c) =>
      let numbers := S (numbers_ e) in
      (if numbers <=? GetLimit then Some tuple else None, mkLimit numbers c)
  end.

End Limit.
End LimitExecutor.

Module NestedLoopJoinExecutor.
Section NestedLoopJoin.
Context {Tuple Left Right : Type}.
Variable left_Init : Left → Left.
Variable left_Next : Left → option Tuple * Left.
Variable right_Init : Right → Right.
Variable right_Next : Right → option Tuple * Right.
(** [plan_->Predicate()], which may be null, and the row built from the
    expressions of the output columns. *)
Variable Predicate : option (Tuple → Tuple → bool).
Variable output : Tuple → Tuple → Tuple.

Record NestedLoopJoinExecutor := mkNLJ {
  left_executor_ : Left;
  right_executor_ : Right;
  tmp_results_ : list Tuple
}.

Definition Init (e : NestedLoopJoinExecutor) : NestedLoopJoinExecutor :=
  mkNLJ (left_Init (left_executor_ e)) (right_executor_ e) (tmp_results_ e).

Definition matches (left_tuple right_tuple : Tuple) : bool :=
  match Predicate with
  | None => true
  | Some p => p left_tuple right_tuple
  end.

(** [while (right_executor_->Next(...))]; [fuel] bounds the turns. *)
Fixpoint scan_right (fuel : nat) (left_tuple : Tuple) (r : Right) (results : list Tuple)
    : option (Right * list Tuple) :=
  match fuel with
  | O => None
  | S fuel' =>
      match right_Next r with
      | (None, r') => Some (r', results)
      | (Some right_tuple, r') =>
          scan_right fuel' left_tuple r'
            (if matches left_tuple right_tuple
             then results ++ [output left_tuple right_tuple] else results)
      end
  end.

(** [Next] ends in a call of itself; [fuel] bounds the calls. *)
Fixpoint Next (fuel : nat) (e : NestedLoopJoinExecutor)
    : option (option Tuple * NestedLoopJoinExecutor) :=
  match fuel with
  | O => None
  | S fuel' =>
      match tmp_results_ e with
      | tuple :: rest =>
          Some (Some tuple, mkNLJ (left_executor_ e) (right_executor_ e) rest)
      | [] =>
          match left_Next (left_executor_ e) with
          | (None, l') => Some (None, mkNLJ l' (right_executor_ e) [])
          | (Some left_tuple, l') =>
              '(r', results) ← scan_right fuel' left_tuple (right_Init (right_executor_ e)) [];
              Next fuel' (mkNLJ l' r' results)
          end
      end
  end.

End NestedLoopJoin.
End NestedLoopJoinExecutor.

Module HashJoinExecutor.
Section HashJoin.
Context {Tuple Left Right Key : Type} `{EqDecision Key}.
Variable left_Init : Left → Left.
Variable left_Next : Left → option Tuple * Left.
Variable right_Init : Right → Right.
Variable right_Next : Right → option Tuple * Right.
Variable MakeLeftHashJoinKey : Tuple → Key.
Variable MakeRightHashJoinKey : Tuple → Key.
Variable output : Tuple → Tuple → Tuple.

(** Modelled from the spec: the join hash table [jht_] is declared in
    hash_join_executor.h, which is not among the source files, and the
    specification leaves the operators to their interface.  By its use here
    [Insert] adds a row under a key, [Count] is the number of rows under a
    key and [Get] returns them; the rows are kept in the order of their
    insertion. *)
Definition JoinHashTable : Type := list (Key * Tuple).
Definition jht_Insert (k : Key) (t : Tuple) (h : JoinHashTable) : JoinHashTable := h ++ [(k, t)].
Definition jht_Get (k : Key) (h : JoinHashTable) : list Tuple :=
  (filter (λ p, p.1 = k) h).*2.
Definition jht_Count (k : Key) (h : JoinHashTable) : nat := length (jht_Get k h).

Record HashJoinExecutor := mkHJ {
  left_child_ : Left;
  right_child_ : Right;
  jht_ : JoinHashTable;
  tmp_results_ : list Tuple
}.

(** [while (left_child_->Next(...)) jht_.Insert(...)]. *)
Fixpoint build (fuel : nat) (l : Left) (h : JoinHashTable) : option (Left * JoinHashTable) :=
  match fuel with
  | O => None
  | S fuel' =>
      match left_Next l with
      | (None, l') => Some (l', h)
      | (Some left_tuple, l') =>
          build fuel' l' (jht_Insert (MakeLeftHashJoinKey left_tuple) left_tuple h)
      end
  end.

Definition Init (fuel : nat) (e : HashJoinExecutor) : option HashJoinExecutor :=
  '(l', h) ← build fuel (left_Init (left_child_ e)) (jht_ e);
  Some (mkHJ l' (right_Init (right_child_ e)) h (tmp_results_ e)).

Fixpoint Next (fuel : nat) (e : HashJoinExecutor)
    : option (option Tuple * HashJoinExecutor) :=
  match fuel with
  | O => None
  | S fuel' =>
      match tmp_results_ e with
      | tuple :: rest =>
          Some (Some tuple, mkHJ (left_child_ e) (right_child_ e) (jht_ e) rest)
      | [] =>
          match right_Next (right_child_ e) with
          | (None, r') => Some (None, mkHJ (left_child_ e) r' (jht_ e) [])
          | (Some right_tuple, r') =>
              if decide (jht_Count (MakeRightHashJoinKey right_tuple) (jht_ e) = 0)
              then Next fuel' (mkHJ (left_child_ e) r' (jht_ e) [])
              else
                let left_tuples := jht_Get (MakeRightHashJoinKey right_tuple) (jht_ e) in
                Next fuel' (mkHJ (left_child_ e) r' (jht_ e)
                                 ((λ left_tuple, output left_tuple right_tuple) <$> left_tuples))
          end
      end
  end.

End HashJoin.
End HashJoinExecutor.

Module SeqScanExecutor.
Import LockManager.
Local Open Scope Z_scope.
Section SeqScan.
Context {Tuple : Type}.

(** Modelled from the spec: the table heap and its iterator are not among
    the source files.  The executor uses [Begin], [End], [*iter_] and
    [++iter_]: the rows of the table with their row ids, in the order of the
    iterator; an iterator is the list of the rows still to come. *)
Variable table_heap_ : list (RID * Tuple).
(** The output columns evaluated on a row of the table, and
    [plan_->GetPredicate()], which may be null. *)
Variable project : Tuple → Tuple.
Variable GetPredicate : option (Tuple → bool).
(** The id of the transaction of the executor context. *)
Variable txn : Z.

Record SeqScanExecutor := mkSeqScan { iter_ : list (RID * Tuple) }.

Definition Init (e : SeqScanExecutor) : SeqScanExecutor := mkSeqScan table_heap_.

(** How [Next] ends: with a row, with false, with a
    [TransactionAbortException], or blocked inside the lock manager. *)
Inductive Result :=
  | Row (tuple : Tuple) (rid : RID)
  | End
  | Abort (reason : AbortReason)
  | Blocked.

(** [Next] may end in a call of itself; [fuel] bounds the calls.  The
    lock manager is the state [st]; [None]: no fuel, or the transaction is
    unknown to the lock manager. *)
Fixpoint Next (fuel : nat) (e : SeqScanExecutor) (st : State)
    : option (Result * SeqScanExecutor * State) :=
  match fuel with
  | O => None
  | S fuel' =>
      match iter_ e with
      | [] => Some (End, e, st)
      | (rid, tuple) :: rest =>
          t ← txn_map st !! txn;
          locked ← (if decide (isolation_level_ t ≠ READ_UNCOMMITTED)
                    then LockShared txn rid st else Some (Returned true, st));
          match locked with
          | (Returned true, st1) =>
              let tuple' := project tuple in
              unlocked ← (if decide (isolation_level_ t = READ_COMMITTED)
                          then Unlock txn rid st1 else Some (Returned true, st1));
              match unlocked with
              | (Returned true, st2) =>
                  let e' := mkSeqScan rest in
                  match GetPredicate with
                  | Some predict =>
                      if predict tuple' then Some (Row tuple' rid, e', st2)
                      else Next fuel' e' st2
                  | None => Some (Row tuple' rid, e', st2)
                  end
              | (Returned false, st2) => Some (Abort DEADLOCK, e, st2)
              | (Thrown reason, st2) => Some (Abort reason, e, st2)
              | (Waiting, st2) => Some (Blocked, e, st2)
              end
          | (Returned false, st1) => Some (Abort DEADLOCK, e, st1)
          | (Thrown reason, st1) => Some (Abort reason, e, st1)
          | (Waiting, st1) => Some (Blocked, e, st1)
          end
      end
  end.

End SeqScan.
End SeqScanExecutor.

End Executors.

(** * Properties *)

(** ** LRU replacer *)

Module LRUProofs.
Import LRU.

(** The list is in the order of the candidates' unpin times. *)
Fixpoint sorted_by (m : gmap Z nat) (lo : nat) (l : list Z) : Prop :=
  match l with
  | [] => True
  | f :: l' => ∃ t, m !! f = Some t ∧ lo ≤ t ∧ sorted_by m (S t) l'
  end.

Record Inv (h : list Event) (r : LRUReplacer) : Prop := mkInv {
  inv_map : ∀ f, f ∈ lru_map_ r ↔ f ∈ lru_list_ r;
  inv_nodup : NoDup (lru_list_ r);
  inv_cand : ∀ f, f ∈ lru_list_ r ↔ is_Some (cand_times h !! f);
  inv_sorted : sorted_by (cand_times h) 0 (lru_list_ r);
  inv_clock : ∀ f t, cand_times h !! f = Some t → t < length h;
  inv_unpinned : ∀ f, is_Some (cand_times h !! f) → pinned h f = false
}.

Lemma sorted_by_weaken m lo lo' l :
  lo' ≤ lo → sorted_by m lo l → sorted_by m lo' l.
Proof.
  destruct l as [|f l]; simpl; [done|].
  intros Hle (t & Hf & Hlo & Hs). exists t. split_and!; [done|lia|done].
Qed.

Lemma sorted_by_ext m m' lo l :
  (∀ f, f ∈ l → m' !! f = m !! f) → sorted_by m lo l → sorted_by m' lo l.
Proof.
  revert lo. induction l as [|f l IH]; simpl; intros lo Hext; [done|].
  intros (t & Hf & Hlo & Hs). exists t. split_and!; [|done|].
  - rewrite Hext; [done|]. apply list_elem_of_here.
  - apply IH; [|done]. intros g Hg. apply Hext. by apply list_elem_of_further.
Qed.

Lemma sorted_by_snoc m lo l f c :
  sorted_by m lo l →
  (∀ g t, m !! g = Some t → t < c) →
  f ∉ l → lo ≤ c →
  sorted_by (<[f := c]> m) lo (l ++ [f]).
Proof.
  revert lo. induction l as [|x l IH]; simpl; intros lo Hs Hclock Hnin Hlo.
  - exists c. by rewrite lookup_insert_eq.
  - destruct Hs as (t & Hx & Hlt & Hs).
    apply not_elem_of_cons in Hnin as [Hne Hnin].
    exists t. split_and!; [by rewrite lookup_insert_ne|done|].
    apply IH; [done|done|done|]. apply Hclock in Hx. lia.
Qed.

Lemma sorted_by_lower m lo l g t :
  sorted_by m lo l → g ∈ l → m !! g = Some t → lo ≤ t.
Proof.
  revert lo. induction l as [|x l IH]; simpl; intros lo Hs Hin Hg.
  - by apply elem_of_nil in Hin.
  - destruct Hs as (tx & Hx & Hlt & Hs).
    apply elem_of_cons in Hin as [->|Hin].
    + rewrite Hx in Hg. injection Hg as <-. done.
    + specialize (IH _ Hs Hin Hg). lia.
Qed.

Lemma elem_of_list_erase f x l :
  NoDup l → x ∈ list_erase f l ↔ x ∈ l ∧ x ≠ f.
Proof.
  induction l as [|y l IH]; simpl; intros Hnd.
  - split; [by intros ?%elem_of_nil|by intros [?%elem_of_nil _]].
  - apply NoDup_cons in Hnd as [Hy Hnd]. case_decide as Hyf.
    + subst y. rewrite elem_of_cons. split.
      * intros Hx. split; [by right|]. by intros ->.
      * by intros [[->|Hx] Hne].
    + rewrite !elem_of_cons, (IH Hnd). split.
      * intros [->|[Hx Hne]]; [by split; [left|]|by split; [right|]].
      * intros [[->|Hx] Hne]; [by left|by right].
Qed.

Lemma NoDup_list_erase f l : NoDup l → NoDup (list_erase f l).
Proof.
  induction l as [|y l IH]; simpl; intros Hnd; [done|].
  apply NoDup_cons in Hnd as [Hy Hnd]. case_decide; [done|].
  apply NoDup_cons. split; [|by apply IH].
  rewrite elem_of_list_erase by done. by intros [? _].
Qed.

Lemma sorted_by_erase m lo f l :
  NoDup l → sorted_by m lo l → sorted_by (delete f m) lo (list_erase f l).
Proof.
  revert lo. induction l as [|y l IH]; simpl; intros lo Hnd Hs; [done|].
  apply NoDup_cons in Hnd as [Hy Hnd]. destruct Hs as (t & Hyt & Hlo & Hs).
  case_decide as Hyf.
  - subst y. apply sorted_by_weaken with (S t); [lia|].
    apply sorted_by_ext with m; [|done].
    intros g Hg. apply lookup_delete_ne. by intros ->.
  - simpl. exists t. split_and!; [by rewrite lookup_delete_ne|done|by apply IH].
Qed.

Lemma Inv_init : Inv [] init.
Proof.
  split; simpl.
  - intros f. rewrite elem_of_empty. split; [done|by intros ?%elem_of_nil].
  - apply NoDup_nil_2.
  - intros f. split; [by intros ?%elem_of_nil|]. intros [? Hf]. by rewrite lookup_empty in Hf.
  - done.
  - intros f t Hf. by rewrite lookup_empty in Hf.
  - intros f [? Hf]. by rewrite lookup_empty in Hf.
Qed.

Lemma Inv_Unpin h r f : Inv h r → Inv (EvUnpin f :: h) (Unpin f r).
Proof.
  intros [Hmap Hnd Hcand Hsort Hclock Hunp]. unfold Unpin.
  case_decide as Hin.
  - (* already a candidate: nothing changes *)
    assert (is_Some (cand_times h !! f)) as [t Ht] by (by apply Hcand, Hmap).
    split; simpl; rewrite ?Ht; try done.
    + intros g t' Hg. apply Hclock in Hg. lia.
    + intros g Hg. case_decide; [done|by apply Hunp].
  - assert (f ∉ lru_list_ r) as Hnin by (by rewrite <-Hmap).
    assert (cand_times h !! f = None) as Hnone.
    { apply eq_None_not_Some. by rewrite <-Hcand. }
    split; simpl; rewrite ?Hnone.
    + intros g. rewrite elem_of_union, elem_of_singleton, elem_of_app, list_elem_of_singleton.
      rewrite Hmap. tauto.
    + apply NoDup_app. split_and!; [done| |apply NoDup_singleton].
      intros g Hg ->%list_elem_of_singleton. done.
    + intros g. rewrite elem_of_app, list_elem_of_singleton, Hcand.
      destruct (decide (g = f)) as [->|Hne].
      * rewrite lookup_insert_eq. split; [by eauto|by right].
      * rewrite lookup_insert_ne by done. split; [by intros [?|?]|by left].
    + apply sorted_by_snoc; [done|done|done|lia].
    + intros g t. destruct (decide (g = f)) as [->|Hne].
      * rewrite lookup_insert_eq. intros [= <-]. lia.
      * rewrite lookup_insert_ne by done. intros Hg%Hclock. lia.
    + intros g. case_decide as Hgf; [done|].
      rewrite lookup_insert_ne by done. apply Hunp.
Qed.

Lemma Inv_Pin h r f : Inv h r → Inv (EvPin f :: h) (Pin f r).
Proof.
  intros [Hmap Hnd Hcand Hsort Hclock Hunp]. unfold Pin.
  case_decide as Hin.
  - split; simpl.
    + intros g. rewrite elem_of_difference, elem_of_singleton, elem_of_list_erase by done.
      by rewrite Hmap.
    + by apply NoDup_list_erase.
    + intros g. rewrite elem_of_list_erase, Hcand by done.
      destruct (decide (g = f)) as [->|Hne].
      * rewrite lookup_delete_eq. split; [by intros [_ ?]|by intros [? ?]].
      * rewrite lookup_delete_ne by done. tauto.
    + by apply sorted_by_erase.
    + intros g t [_ Hg]%lookup_delete_Some. apply Hclock in Hg. lia.
    + intros g [t [Hne Hg]%lookup_delete_Some]. case_decide; [done|]. by apply Hunp.
  - assert (cand_times h !! f = None) as Hnone.
    { apply eq_None_not_Some. by rewrite <-Hcand, <-Hmap. }
    split; simpl; rewrite ?(delete_id _ _ Hnone); try done.
    + intros g t Hg%Hclock. lia.
    + intros g Hg. case_decide as Hgf; [|by apply Hunp].
      subst g. rewrite Hnone in Hg. by destruct Hg.
Qed.

Lemma Inv_Victim h r :
  Inv h r → Inv (EvVictim (Victim r).1 :: h) (Victim r).2.
Proof.
  intros [Hmap Hnd Hcand Hsort Hclock Hunp]. unfold Victim.
  destruct (lru_list_ r) as [|f rest] eqn:Hl; simpl.
  - split; simpl; rewrite ?Hl; try done.
    intros g t Hg%Hclock. lia.
  - apply NoDup_cons in Hnd as [Hf Hnd]. destruct Hsort as (t & Hft & _ & Hsort).
    split; simpl.
    + intros g. rewrite elem_of_difference, elem_of_singleton, Hmap, elem_of_cons.
      split; [by intros [[?|?] ?]|]. intros Hg. split; [by right|by intros ->].
    + done.
    + intros g. destruct (decide (g = f)) as [->|Hne].
      * rewrite lookup_delete_eq. split; [done|by intros [? ?]].
      * rewrite lookup_delete_ne, <-Hcand, elem_of_cons by done. split; [by right|by intros [?|?]].
    + apply sorted_by_weaken with (S t); [lia|].
      apply sorted_by_ext with (cand_times h); [|done].
      intros g Hg. apply lookup_delete_ne. by intros ->.
    + intros g t' [_ Hg]%lookup_delete_Some. apply Hclock in Hg. lia.
    + intros g [t' [Hne Hg]%lookup_delete_Some]. by apply Hunp.
Qed.

Lemma Inv_step s op : Inv s.1 s.2 → Inv (step_hist s op).1 (step_hist s op).2.
Proof.
  destruct s as [h r]. unfold step_hist, step. simpl. intros HI.
  destruct op as [|f|f]; simpl.
  - pose proof (Inv_Victim h r HI) as HV. by destruct (Victim r).
  - by apply Inv_Pin.
  - by apply Inv_Unpin.
Qed.

Lemma Inv_fold ops s : Inv s.1 s.2 → Inv (fold_left step_hist ops s).1 (fold_left step_hist ops s).2.
Proof.
  revert s. induction ops as [|op ops IH]; simpl; intros s HI; [done|].
  by apply IH, Inv_step.
Qed.

Lemma Inv_exec ops : Inv (exec ops).1 (exec ops).2.
Proof. apply Inv_fold, Inv_init. Qed.

(** The front of the list is the earliest-unpinned candidate. *)
Lemma Inv_front_earliest h r f rest :
  Inv h r → lru_list_ r = f :: rest → is_earliest (cand_times h) f.
Proof.
  intros [Hmap Hnd Hcand Hsort Hclock Hunp] Hl. rewrite Hl in *.
  destruct Hsort as (t & Hft & _ & Hsort). exists t. split; [done|].
  intros g t' Hg. assert (g ∈ f :: rest) as Hin by (apply Hcand; eauto).
  apply elem_of_cons in Hin as [->|Hin].
  - rewrite Hft in Hg. injection Hg as <-. done.
  - pose proof (sorted_by_lower _ _ _ _ _ Hsort Hin Hg). lia.
Qed.

(** Scenario S1 of the specification, run on the model. *)
Example replacer_fifo_scenario :
  (exec [OpUnpin 1; OpUnpin 2; OpUnpin 3; OpUnpin 4; OpUnpin 5; OpUnpin 6;
         OpVictim; OpVictim; OpVictim; OpPin 3; OpPin 4; OpUnpin 4;
         OpVictim; OpVictim; OpVictim]).1
  = [EvVictim (Some 4); EvVictim (Some 6); EvVictim (Some 5); EvUnpin 4; EvPin 4; EvPin 3;
     EvVictim (Some 3); EvVictim (Some 2); EvVictim (Some 1);
     EvUnpin 6; EvUnpin 5; EvUnpin 4; EvUnpin 3; EvUnpin 2; EvUnpin 1]%Z.
Proof. vm_compute. reflexivity. Qed.

(** C4.  After every sequence of Pin/Unpin/Victim calls on a fresh replacer:
    the frames of the list are exactly the candidates of the history (each
    unpinned and not removed since by Pin or Victim); Unpin of a candidate
    changes nothing and Unpin of any other frame appends it; Pin removes the
    frame if present and changes nothing otherwise; Victim returns none
    exactly when there is no candidate, and otherwise removes and returns the
    candidate with the earliest Unpin, which is not a pinned frame. *)
Theorem lru_victim_earliest_unpinned (ops : list Op) :
  let h := (exec ops).1 in
  let r := (exec ops).2 in
  (∀ f, f ∈ lru_list_ r ↔ is_Some (cand_times h !! f)) ∧
  (∀ f, Unpin f r =
        if decide (is_Some (cand_times h !! f)) then r
        else mkLRU (lru_list_ r ++ [f]) ({[f]} ∪ lru_map_ r)) ∧
  (∀ f, (f ∉ lru_list_ (Pin f r)) ∧
        (∀ g, g ≠ f → (g ∈ lru_list_ (Pin f r) ↔ g ∈ lru_list_ r)) ∧
        (¬ is_Some (cand_times h !! f) → Pin f r = r)) ∧
  match Victim r with
  | (None, r') => cand_times h = ∅ ∧ r' = r
  | (Some f, r') =>
      is_earliest (cand_times h) f ∧ pinned h f = false ∧
      lru_list_ r = f :: lru_list_ r' ∧ f ∉ lru_list_ r'
  end.
Proof.
  intros h r. pose proof (Inv_exec ops) as HI. fold h r in HI.
  pose proof HI as [Hmap Hnd Hcand Hsort Hclock Hunp].
  split_and!.
  - done.
  - intros f. unfold Unpin. case_decide as Hin; case_decide as Hc; try done.
    + exfalso. by apply Hc, Hcand, Hmap.
    + exfalso. by apply Hin, Hmap, Hcand.
  - intros f. unfold Pin. case_decide as Hin; simpl.
    + split_and!.
      * rewrite elem_of_list_erase by done. by intros [_ ?].
      * intros g Hne. rewrite elem_of_list_erase by done. tauto.
      * intros Hc. exfalso. by apply Hc, Hcand, Hmap.
    + split_and!; [by rewrite <-Hmap|done|done].
  - unfold Victim. destruct (lru_list_ r) as [|f rest] eqn:Hl.
    + split; [|done]. apply map_eq. intros g. rewrite lookup_empty.
      apply eq_None_not_Some. rewrite <-Hcand. apply not_elem_of_nil.
    + simpl. split_and!.
      * by eapply Inv_front_earliest.
      * apply Hunp, Hcand. apply list_elem_of_here.
      * done.
      * by apply NoDup_cons in Hnd as [? _].
Qed.

End LRUProofs.

(** ** Buffer pool instance *)

Module BPMProofs.
Import BPM.
Local Open Scope Z_scope.

Definition empty_disk : DiskManager := mkDisk ∅ [].

Lemma to_int32_small z : - 2 ^ 31 ≤ z ≤ INT32_MAX → to_int32 z = z.
Proof.
  unfold to_int32, INT32_MAX. intros Hz.
  rewrite Z.mod_small by lia. lia.
Qed.

Lemma to_uint32_small z : 0 ≤ z ≤ INT32_MAX → to_uint32 z = z.
Proof. unfold to_uint32, INT32_MAX. intros Hz. apply Z.mod_small. lia. Qed.

(** While the counter stays below 2^31 the [n]-th call returns the counter
    advanced [n] times. *)
Lemma nth_AllocatePage_no_overflow (n : nat) : ∀ b,
  0 < num_instances_ b →
  0 ≤ next_page_id_ b →
  next_page_id_ b mod num_instances_ b = instance_index_ b →
  next_page_id_ b + Z.of_nat n * num_instances_ b ≤ INT32_MAX →
  nth_AllocatePage n b = Some (next_page_id_ b + Z.of_nat n * num_instances_ b).
Proof.
  induction n as [|n IH]; intros b HN Hnext Hmod Hmax.
  - simpl. unfold AllocatePage, ValidatePageId. simpl.
    rewrite to_uint32_small by lia.
    rewrite bool_decide_eq_true_2 by done. simpl. f_equal. lia.
  - cbn [nth_AllocatePage]. unfold AllocatePage, ValidatePageId. simpl.
    rewrite to_uint32_small by lia.
    rewrite bool_decide_eq_true_2 by done. simpl.
    assert (to_int32 (next_page_id_ b + num_instances_ b) = next_page_id_ b + num_instances_ b) as Hw.
    { apply to_int32_small. unfold INT32_MAX in *. nia. }
    rewrite IH; simpl; rewrite ?Hw.
    + f_equal. lia.
    + done.
    + lia.
    + rewrite <-Hmod. rewrite <-(Z.mul_1_l (num_instances_ b)) at 1.
      apply Z.mod_add. lia.
    + lia.
Qed.

(** C8 (as amended).  For an instance constructed with [N] instances and
    index [k], the [n]-th call of [AllocatePage] returns [k + n * N] as long
    as [k + n * N] fits the 32-bit signed page id, and that page id is
    congruent to [k] modulo [N]. *)
Theorem AllocatePage_nth_sharded (pool_size : nat) (N k : Z) (dm : DiskManager) (n : nat) :
  0 < N → 0 ≤ k < N → k + Z.of_nat n * N ≤ INT32_MAX →
  ∃ b, Construct pool_size N k dm = Some b ∧
       nth_AllocatePage n b = Some (k + Z.of_nat n * N) ∧
       (k + Z.of_nat n * N) mod N = k.
Proof.
  intros HN Hk Hmax. unfold Construct.
  rewrite decide_True by lia. eexists. split; [reflexivity|].
  assert (to_int32 k = k) as Hw.
  { apply to_int32_small. unfold INT32_MAX in *. nia. }
  split.
  - rewrite nth_AllocatePage_no_overflow; simpl; rewrite ?Hw; try done; try lia.
    apply Z.mod_small. lia.
  - rewrite Z.mod_add by lia. apply Z.mod_small. lia.
Qed.

Lemma AllocatePage_nth_sharded_witness :
  ∃ b, Construct 4 3 1 empty_disk = Some b ∧
       nth_AllocatePage 5 b = Some (1 + Z.of_nat 5 * 3) ∧
       (1 + Z.of_nat 5 * 3) mod 3 = 1.
Proof. apply (AllocatePage_nth_sharded 4 3 1 empty_disk 5); unfold INT32_MAX; lia. Defined.

(** C8 as stated fails once [k + n * N] leaves the 32-bit range: with
    2^30 instances the call number 2 of instance 0 returns -2^31. *)
Lemma AllocatePage_nth_wraps :
  (Construct 1 1073741824 0 empty_disk ≫= nth_AllocatePage 2) = Some (-2147483648) ∧
  -2147483648 ≠ 0 + Z.of_nat 2 * 1073741824.
Proof. split; [vm_compute; reflexivity|lia]. Qed.

(** C9.  [DeletePgImp] hands the page id to [DeallocatePage] before it looks
    at the page table: in every branch the page id is deallocated when the
    call returns.  It returns false exactly when the page is resident with a
    positive pin count; then, and when the page is not resident, the frames
    (pin counts and dirty flags with them), the page table, the replacer,
    the free list and the disk contents are as before. *)
Theorem DeletePgImp_pinned_deallocates (b : BufferPoolManagerInstance) (pid : Z) :
  (∀ fid, page_table_ b !! pid = Some fid → is_Some (frame b fid)) →
  ∃ r b', DeletePgImp pid b = Some (r, b') ∧
    deallocated_ (disk_manager_ b') = deallocated_ (disk_manager_ b) ++ [pid] ∧
    (r = false ↔ ∃ fid page, page_table_ b !! pid = Some fid ∧ frame b fid = Some page ∧
                             pin_count_ page > 0) ∧
    (r = false ∨ page_table_ b !! pid = None →
       disk_pages_ (disk_manager_ b') = disk_pages_ (disk_manager_ b) ∧
       pages_ b' = pages_ b ∧ page_table_ b' = page_table_ b ∧
       replacer_ b' = replacer_ b ∧ free_list_ b' = free_list_ b).
Proof.
  intros Hdef. unfold DeletePgImp. simpl.
  destruct (page_table_ b !! pid) as [fid|] eqn:Hpt.
  - destruct (Hdef fid eq_refl) as [page Hfr].
    change (frame (DeallocatePage pid b) fid) with (frame b fid). rewrite Hfr. simpl.
    case_decide as Hpin.
    + eexists _, _. split; [reflexivity|]. split_and!; [done| |done].
      split; [|done]. intros _. by exists fid, page.
    + eexists _, _. split; [reflexivity|]. split_and!.
      * by destruct (is_dirty_ page).
      * split; [done|]. intros (fid' & page' & ? & Hfr' & ?). simplify_eq. lia.
      * intros [?|?]; done.
  - eexists _, _. split; [reflexivity|]. split_and!; [done| |done].
    split; [done|]. by intros (? & ? & ? & _).
Qed.

Definition pinned_pool : BufferPoolManagerInstance :=
  mkBPI 1 1 0 1 [mkPage zero_page 0 1 true] {[0 := 0]} [] LRU.init empty_disk.

Lemma DeletePgImp_pinned_deallocates_witness :
  ∃ b', DeletePgImp 0 pinned_pool = Some (false, b') ∧
        deallocated_ (disk_manager_ b') = deallocated_ (disk_manager_ pinned_pool) ++ [0] ∧
        pages_ b' = pages_ pinned_pool ∧ page_table_ b' = page_table_ pinned_pool.
Proof.
  destruct (DeletePgImp_pinned_deallocates pinned_pool 0) as (r & b' & Hcall & Hd & Hr & Hsame).
  { intros fid Hfid. vm_compute in Hfid. injection Hfid as <-. by eexists. }
  assert (r = false) as ->.
  { apply Hr. exists 0, (mkPage zero_page 0 1 true).
    split_and!; [reflexivity|reflexivity|simpl; lia]. }
  exists b'. split_and!; [exact Hcall|exact Hd|by apply Hsame; left|by apply Hsame; left].
Defined.

(** [FlushAllPgsImp] touches the disk only: every frame keeps its dirty flag. *)
Lemma FlushAllPgsImp_pages b b' :
  FlushAllPgsImp b = Some b' →
  pages_ b' = pages_ b ∧ page_table_ b' = page_table_ b ∧ replacer_ b' = replacer_ b.
Proof.
  unfold FlushAllPgsImp. intros H.
  destruct (map_fold _ _ _) as [dm|]; simplify_eq/=. done.
Qed.

(** [FlushPgImp] of a resident page writes its bytes and clears the flag. *)
Lemma FlushPgImp_resident b pid fid page :
  page_table_ b !! pid = Some fid → frame b fid = Some page →
  ∃ b', FlushPgImp pid b = Some (true, b') ∧
        frame b' fid = Some (mkPage (data_ page) (page_id_ page) (pin_count_ page) false) ∧
        disk_pages_ (disk_manager_ b') !! pid = Some (data_ page).
Proof.
  intros Hpt Hfr. unfold FlushPgImp. rewrite Hpt, Hfr. simpl.
  eexists. split; [reflexivity|]. split.
  - unfold frame in *. simpl. case_decide; [|done].
    apply list_lookup_insert_eq. by eapply lookup_lt_Some.
  - simpl. apply lookup_insert_eq.
Qed.

(** X5.  After [FlushAllPgsImp] the disk has the
    bytes of every resident page. *)
Lemma FlushAllPgsImp_written b b' pid fid page :
  FlushAllPgsImp b = Some b' →
  page_table_ b !! pid = Some fid → frame b fid = Some page →
  disk_pages_ (disk_manager_ b') !! pid = Some (data_ page).
Proof.
  unfold FlushAllPgsImp.
  set (f := λ (pid : Z) (fid : Z) (acc : option DiskManager),
              acc ≫= λ dm, frame b fid ≫= λ page, Some (WritePage pid (data_ page) dm)).
  change (map_fold _ _ _) with (map_fold f (Some (disk_manager_ b)) (page_table_ b)).
  intros H. destruct (map_fold f _ _) as [dm|] eqn:Hfold; simplify_eq/=.
  revert dm Hfold pid fid page.
  apply (map_fold_weak_ind (λ r m, ∀ dm, r = Some dm → ∀ pid fid page,
           m !! pid = Some fid → frame b fid = Some page →
           disk_pages_ dm !! pid = Some (data_ page))).
  - intros dm _ pid fid page Hl. by rewrite lookup_empty in Hl.
  - intros i x m r Hnone IH dm Hdm pid fid page Hl Hfr.
    unfold f in Hdm. destruct r as [dm0|]; simplify_eq/=.
    destruct (frame b x) as [px|] eqn:Hx; simplify_eq/=.
    destruct (decide (i = pid)) as [->|Hne].
    + rewrite lookup_insert_eq in Hl. simplify_eq. by rewrite lookup_insert_eq.
    + rewrite lookup_insert_ne in Hl by done. rewrite lookup_insert_ne by done.
      by eapply IH.
Qed.

(** C5 at a pool with one dirty resident page (NewPage, then UnpinPage with
    is_dirty = true): [FlushAllPgsImp] and [FlushPgImp] over the page table
    leave the same disk, but [FlushAllPgsImp] leaves the frame dirty where
    [FlushPgImp] clears the flag. *)
Theorem FlushAllPgsImp_leaves_dirty :
  ∃ b b_all b_each,
    (Construct 1 1 0 empty_disk ≫= λ b0, NewPgImp b0 ≫= λ r, UnpinPgImp 0 true r.2)
      = Some (true, b) ∧
    FlushAllPgsImp b = Some b_all ∧
    FlushAll_by_FlushPage b = Some b_each ∧
    is_dirty_ <$> frame b_all 0 = Some true ∧
    is_dirty_ <$> frame b_each 0 = Some false ∧
    disk_manager_ b_all = disk_manager_ b_each.
Proof.
  do 3 eexists. split_and!.
  - vm_compute. reflexivity.
  - vm_compute. reflexivity.
  - vm_compute. reflexivity.
  - vm_compute. reflexivity.
  - vm_compute. reflexivity.
  - vm_compute. reflexivity.
Qed.

End BPMProofs.

(** ** Lock manager *)

Module LockProofs.
Import LockManager.
Local Open Scope Z_scope.

(** The requests in front of the first request of [tid]. *)
Fixpoint ahead (tid : Z) (q : list LockRequest) : list LockRequest :=
  match q with
  | [] => []
  | r :: q' => if decide (txn_id_ r = tid) then [] else r :: ahead tid q'
  end.

(** [x] is as before, or it was wounded: not aborted before, aborted now,
    nothing else changed. *)
Definition kept_or_wounded (txns txns' : gmap Z Transaction) (x : Z) (P : Prop) : Prop :=
  txns' !! x = txns !! x ∨
  (P ∧ ∃ t, txns !! x = Some t ∧ state_ t ≠ ABORTED ∧ txns' !! x = Some (SetState ABORTED t)).

Lemma kept_or_wounded_insert txns txns' x x0 y (P Q : Prop) :
  txns !! x0 = Some y → state_ y ≠ ABORTED →
  (x = x0 → Q) → (P → Q) →
  kept_or_wounded (<[x0 := SetState ABORTED y]> txns) txns' x P →
  kept_or_wounded txns txns' x Q.
Proof.
  intros Hy Hst HQ HPQ [Heq|(HP & t & Ht & Hnab & Ht')].
  - destruct (decide (x = x0)) as [->|Hne].
    + right. split; [by apply HQ|]. exists y. by rewrite Heq, lookup_insert_eq.
    + left. by rewrite Heq, lookup_insert_ne.
  - destruct (decide (x = x0)) as [->|Hne].
    + rewrite lookup_insert_eq in Ht. by simplify_eq/=.
    + rewrite lookup_insert_ne in Ht by done. right. split; [by apply HPQ|]. by exists t.
Qed.

Lemma conflicts_situations sm m :
  bool_decide (sm = SHARED) && bool_decide (m = EXCLUSIVE) || bool_decide (sm = EXCLUSIVE)
  = conflicts sm m.
Proof. by destruct sm, m. Qed.

(** What the scan of [NeedWait] may change: it wounds only transactions that
    are younger than the caller, queued ahead of it, and whose mode conflicts
    with the mode of the last request of the queue. *)
Lemma NeedWait_scan_effect tid sm q : ∀ nw ha txns nw' ha' txns',
  NeedWait_scan tid sm q nw ha txns = Some (nw', ha', txns') →
  ∀ x, kept_or_wounded txns txns' x
         (x > tid ∧ ∃ r, r ∈ ahead tid q ∧ txn_id_ r = x ∧ conflicts sm (lock_mode_ r) = true).
Proof.
  induction q as [|iter q IH]; intros nw ha txns nw' ha' txns' Hscan x; [done|].
  cbn [NeedWait_scan ahead] in *.
  destruct (decide (txn_id_ iter = tid)) as [Hown|Hown].
  { simplify_eq. by left. }
  assert (∀ P : LockRequest → Prop,
    kept_or_wounded txns txns' x (x > tid ∧ ∃ r, r ∈ ahead tid q ∧ txn_id_ r = x ∧ P r) →
    kept_or_wounded txns txns' x (x > tid ∧ ∃ r, r ∈ iter :: ahead tid q ∧ txn_id_ r = x ∧ P r))
    as Hweak.
  { intros P [?|((Hgt & r & Hr & Hx & HP) & Ht)]; [by left|right].
    split; [|done]. split; [done|]. exists r. split; [by apply list_elem_of_further|done]. }
  destruct (decide (txn_id_ iter > tid)) as [Hyoung|Hold].
  - rewrite conflicts_situations in Hscan.
    destruct (conflicts sm (lock_mode_ iter)) eqn:Hconf.
    + destruct (txns !! txn_id_ iter) as [y|] eqn:Hy; [|done]. simpl in Hscan.
      destruct (decide (state_ y ≠ ABORTED)) as [Hst|Hst].
      * apply IH with (x := x) in Hscan.
        eapply kept_or_wounded_insert; [done|done| | |exact Hscan].
        -- intros ->. split; [done|]. exists iter. split; [apply list_elem_of_here|done].
        -- intros (Hgt & r & Hr & Hx & HP). split; [done|]. exists r.
           split; [by apply list_elem_of_further|done].
      * apply (Hweak (λ r, conflicts sm (lock_mode_ r) = true)). by eapply IH.
    + apply (Hweak (λ r, conflicts sm (lock_mode_ r) = true)). by eapply IH.
  - apply (Hweak (λ r, conflicts sm (lock_mode_ r) = true)). by eapply IH.
Qed.

(** The wait step of [LockShared]/[LockExclusive] never wounds upward: every
    transaction it changes is younger than the caller, is queued ahead of the
    caller, and conflicts with the mode of [request_queue_.back()]. *)
Lemma NeedWait_wounds_only_younger tid rid st nw st' :
  NeedWait tid rid st = Some (nw, st') →
  ∀ x, kept_or_wounded (txn_map st) (txn_map st') x
         (x > tid ∧ ∃ self r, last (request_queue_ (get_queue rid st)) = Some self ∧
            r ∈ ahead tid (request_queue_ (get_queue rid st)) ∧ txn_id_ r = x ∧
            conflicts (lock_mode_ self) (lock_mode_ r) = true).
Proof.
  unfold NeedWait. intros H x.
  destruct (last _) as [self|] eqn:Hlast; [|done]. simpl in H.
  destruct (head _) as [first_iter|] eqn:Hhead; [|done]. simpl in H.
  destruct (if decide (lock_mode_ self = SHARED) then _ else _).
  { simplify_eq. by left. }
  destruct (NeedWait_scan _ _ _ _ _ _) as [[[nw0 ha] txns]|] eqn:Hscan; [|done].
  apply NeedWait_scan_effect with (x := x) in Hscan.
  assert (txn_map st' = txns) as -> by (simplify_eq; by destruct ha).
  destruct Hscan as [?|((Hgt & r & Hr & Hx & HP) & Ht)]; [by left|right].
  split; [|done]. split; [done|]. by exists self, r.
Qed.

(** [NeedWait] leaves every request queue as it is, up to [cv_]. *)
Lemma NeedWait_queue tid rid st nw st' rid0 :
  NeedWait tid rid st = Some (nw, st') →
  request_queue_ (get_queue rid0 st') = request_queue_ (get_queue rid0 st) ∧
  upgrading_ (get_queue rid0 st') = upgrading_ (get_queue rid0 st) ∧
  (cv_ (get_queue rid0 st) ≤ cv_ (get_queue rid0 st'))%nat.
Proof.
  unfold NeedWait. intros H.
  destruct (last _) as [self|]; [|done]. simpl in H.
  destruct (head _) as [first_iter|]; [|done]. simpl in H.
  destruct (if decide (lock_mode_ self = SHARED) then _ else _); [by simplify_eq|].
  destruct (NeedWait_scan _ _ _ _ _ _) as [[[nw0 ha] txns]|]; [|done].
  simplify_eq. destruct ha; [|done].
  unfold get_queue, set_queue. simpl.
  destruct (decide (rid = rid0)) as [->|Hne].
  - rewrite lookup_insert_eq. simpl. split_and!; [done|done|lia].
  - by rewrite lookup_insert_ne.
Qed.

Definition R0 : RID := (0, 0).

Definition five_txns : gmap Z Transaction :=
  list_to_map [(0, new_txn REPEATABLE_READ); (1, new_txn REPEATABLE_READ);
               (3, new_txn REPEATABLE_READ); (4, new_txn REPEATABLE_READ);
               (9, new_txn REPEATABLE_READ)].

(** C1 at a run of five calls on one row.  Transaction 0 holds X; 3, 1 and 9
    wait for S; 4 asks for X, wounds 9 and notifies.  Transaction 1, woken,
    evaluates [NeedWait] again: [request_queue_.back()] is now the X request
    of 4, so transaction 1, whose own request is S, wounds transaction 3,
    whose request is S as well. *)
Theorem NeedWait_wounds_compatible_reader :
  ∃ s s',
    run [EvCall CLockExclusive 0 R0; EvCall CLockShared 3 R0; EvCall CLockShared 1 R0;
         EvCall CLockShared 9 R0; EvCall CLockExclusive 4 R0] (init five_txns)
      = Some ([Returned true; Waiting; Waiting; Waiting; Waiting], s) ∧
    request_queue_ (get_queue R0 (lm s))
      = [mkReq 0 EXCLUSIVE true; mkReq 3 SHARED false; mkReq 1 SHARED false;
         mkReq 9 SHARED false; mkReq 4 EXCLUSIVE false] ∧
    state_ <$> txn_map (lm s) !! 3 = Some GROWING ∧
    step (EvResume 1) s = Some (Waiting, s') ∧
    state_ <$> txn_map (lm s') !! 3 = Some ABORTED ∧
    conflicts SHARED SHARED = false.
Proof.
  do 2 eexists. split_and!.
  - vm_compute. reflexivity.
  - vm_compute. reflexivity.
  - vm_compute. reflexivity.
  - vm_compute. reflexivity.
  - vm_compute. reflexivity.
  - reflexivity.
Qed.

Definition queue_state (q : list LockRequest) (txns : list (Z * Transaction)) : State :=
  mkState {[R0 := mkQueue q 0 INVALID_TXN_ID]} (list_to_map txns).

Definition holder (s : TransactionState) : Transaction :=
  mkTxn s REPEATABLE_READ {[R0]} ∅.

(** C2 on three queues.  An older reader ahead of the caller: the scan
    returns at once with [need_wait] still false.  A younger, already aborted
    request ahead and nobody older: the scan returns true, and the younger
    request behind it is never looked at.  The caller alone in the queue: the
    loop ends and no [return] is reached. *)
Theorem NeedWaitUpdate_returns_in_loop :
  let older_ahead :=
    queue_state [mkReq 1 SHARED true; mkReq 2 SHARED true]
                [(1, holder GROWING); (2, holder GROWING)] in
  let aborted_ahead :=
    queue_state [mkReq 5 SHARED true; mkReq 7 SHARED true; mkReq 3 SHARED true]
                [(3, holder GROWING); (5, holder ABORTED); (7, holder GROWING)] in
  let alone := queue_state [mkReq 1 SHARED true] [(1, holder GROWING)] in
  NeedWaitUpdate 2 R0 older_ahead = Some (false, older_ahead) ∧
  NeedWaitUpdate 3 R0 aborted_ahead = Some (true, aborted_ahead) ∧
  NeedWaitUpdate 1 R0 alone = None.
Proof. split_and!; vm_compute; reflexivity. Qed.

(** The scan in the specification's words does what C2 says: it waits
    exactly when an older request is ahead, and every younger request ahead
    ends up aborted. *)
Lemma NeedWaitUpdate_intended_scan_spec tid q : ∀ nw ha txns nw' ha' txns',
  NeedWaitUpdate_intended_scan tid q nw ha txns = Some (nw', ha', txns') →
  (nw' = true ↔ nw = true ∨ ∃ r, r ∈ ahead tid q ∧ txn_id_ r < tid) ∧
  (∀ r, r ∈ ahead tid q → txn_id_ r > tid →
        state_ <$> txns' !! txn_id_ r = Some ABORTED) ∧
  (∀ x t, txns !! x = Some t → state_ t = ABORTED → txns' !! x = Some t).
Proof.
  induction q as [|iter q IH]; intros nw ha txns nw' ha' txns' Hscan; [done|].
  cbn [NeedWaitUpdate_intended_scan ahead] in *.
  destruct (decide (txn_id_ iter = tid)) as [Hown|Hown].
  { simplify_eq. split_and!; [|by intros r ?%elem_of_nil|done].
    split; [by left|]. intros [?|(r & ?%elem_of_nil & _)]; done. }
  destruct (decide (txn_id_ iter > tid)) as [Hyoung|Hold].
  - destruct (txns !! txn_id_ iter) as [y|] eqn:Hy; [|done]. simpl in Hscan.
    destruct (decide (state_ y ≠ ABORTED)) as [Hst|Hst].
    + apply IH in Hscan as (Hnw & Hab & Hmono). split_and!.
      * rewrite Hnw. split; intros [?|(r & Hr & Hlt)]; [by left| |by left|].
        -- right. exists r. split; [by apply list_elem_of_further|done].
        -- right. exists r. apply elem_of_cons in Hr as [->|Hr]; [lia|done].
      * intros r [->|Hr]%elem_of_cons Hgt; [|by apply Hab].
        rewrite (Hmono _ (SetState ABORTED y)); [done|apply lookup_insert_eq|done].
      * intros x t Hx Ht. apply Hmono; [|done].
        rewrite lookup_insert_ne; [done|]. intros <-. by simplify_eq.
    + apply IH in Hscan as (Hnw & Hab & Hmono). split_and!.
      * rewrite Hnw. split; intros [?|(r & Hr & Hlt)]; [by left| |by left|].
        -- right. exists r. split; [by apply list_elem_of_further|done].
        -- right. exists r. apply elem_of_cons in Hr as [->|Hr]; [lia|done].
      * intros r [->|Hr]%elem_of_cons Hgt; [|by apply Hab].
        assert (state_ y = ABORTED) as Hab' by (by destruct (decide (state_ y = ABORTED))).
        rewrite (Hmono _ y Hy Hab'). simpl. by f_equal.
      * done.
  - apply IH in Hscan as (Hnw & Hab & Hmono). split_and!.
    + rewrite Hnw. split; [intros _|by left].
      right. exists iter. split; [apply list_elem_of_here|lia].
    + intros r [->|Hr]%elem_of_cons Hgt; [lia|by apply Hab].
    + done.
Qed.

(** [NeedWaitUpdate] leaves the requests of every queue as they are. *)
Lemma NeedWaitUpdate_queue tid rid st nw st' rid0 :
  NeedWaitUpdate tid rid st = Some (nw, st') →
  request_queue_ (get_queue rid0 st') = request_queue_ (get_queue rid0 st).
Proof.
  unfold NeedWaitUpdate. intros H.
  destruct (NeedWaitUpdate_scan _ _ _ _ _) as [[[nw0 ha] txns]|]; [|done].
  simplify_eq. destruct ha; [|done].
  unfold get_queue, set_queue. simpl.
  destruct (decide (rid = rid0)) as [->|Hne].
  - by rewrite lookup_insert_eq.
  - by rewrite lookup_insert_ne.
Qed.

(** What the wait steps may change of a transaction: nothing, or its state,
    set to ABORTED when it is younger than the caller. *)
Lemma kept_or_wounded_weaken txns txns' x (P Q : Prop) :
  (P → Q) → kept_or_wounded txns txns' x P → kept_or_wounded txns txns' x Q.
Proof. intros HPQ [?|[HP H]]; [by left|right]. split; [by apply HPQ|done]. Qed.

Lemma NeedWaitUpdate_scan_effect tid q : ∀ nw ha txns nw' ha' txns',
  NeedWaitUpdate_scan tid q nw ha txns = Some (nw', ha', txns') →
  ∀ x, kept_or_wounded txns txns' x (x > tid).
Proof.
  induction q as [|iter q IH]; intros nw ha txns nw' ha' txns' Hscan x; [done|].
  cbn [NeedWaitUpdate_scan] in Hscan.
  destruct (decide (txn_id_ iter = tid)); [done|].
  destruct (decide (txn_id_ iter > tid)) as [Hgt|]; [|simplify_eq; by left].
  destruct (txns !! txn_id_ iter) as [y|] eqn:Hy; [|done]. simpl in Hscan.
  destruct (decide (state_ y ≠ ABORTED)) as [Hst|]; [|simplify_eq; by left].
  eapply (kept_or_wounded_insert _ _ _ _ _ (x > tid)); [exact Hy|exact Hst| |done|].
  - by intros ->.
  - by eapply IH.
Qed.

Lemma NeedWait_effect tid rid st nw st' x :
  NeedWait tid rid st = Some (nw, st') → kept_or_wounded (txn_map st) (txn_map st') x (x > tid).
Proof.
  intros H. eapply kept_or_wounded_weaken; [|by eapply NeedWait_wounds_only_younger].
  by intros [? _].
Qed.

Lemma NeedWaitUpdate_effect tid rid st nw st' x :
  NeedWaitUpdate tid rid st = Some (nw, st') →
  kept_or_wounded (txn_map st) (txn_map st') x (x > tid).
Proof.
  unfold NeedWaitUpdate. intros H.
  destruct (NeedWaitUpdate_scan _ _ _ _ _) as [[[nw0 ha] txns]|] eqn:Hscan; [|done].
  assert (txn_map st' = txns) as -> by (simplify_eq; by destruct ha).
  by eapply NeedWaitUpdate_scan_effect.
Qed.

Lemma Lock_loop_effect tid rid st o st' x :
  x ≠ tid → Lock_loop tid rid st = Some (o, st') →
  kept_or_wounded (txn_map st) (txn_map st') x (x > tid).
Proof.
  intros Hne. unfold Lock_loop.
  destruct (NeedWait tid rid st) as [[[] st1]|] eqn:Hnw; [| |done]; intros [= <- <-].
  - by eapply NeedWait_effect.
  - pose proof (NeedWait_effect _ _ _ _ _ x Hnw) as H. revert H.
    unfold kept_or_wounded. simpl. by rewrite !lookup_alter_ne.
Qed.

Lemma LockUpgrade_loop_effect tid rid st o st' x :
  x ≠ tid → LockUpgrade_loop_with NeedWaitUpdate tid rid st = Some (o, st') →
  kept_or_wounded (txn_map st) (txn_map st') x (x > tid).
Proof.
  intros Hne. unfold LockUpgrade_loop_with.
  destruct (NeedWaitUpdate tid rid st) as [[[] st1]|] eqn:Hnw; [| |done].
  - intros [= <- <-]. by eapply NeedWaitUpdate_effect.
  - pose proof (NeedWaitUpdate_effect _ _ _ _ _ x Hnw) as H.
    case_bool_decide; intros [= <- <-]; [|done].
    revert H. unfold kept_or_wounded. simpl. by rewrite !lookup_alter_ne.
Qed.

Lemma get_queue_update_txn rid tid f st :
  get_queue rid (update_txn tid f st) = get_queue rid st.
Proof. done. Qed.

Lemma get_queue_set_queue rid rid0 q st :
  get_queue rid0 (set_queue rid q st) = if decide (rid = rid0) then q else get_queue rid0 st.
Proof.
  unfold get_queue, set_queue. simpl. case_decide as H.
  - subst. by rewrite lookup_insert_eq.
  - by rewrite lookup_insert_ne.
Qed.

(** Whatever the wait predicate, as long as it leaves the requests alone:
    a [LockUpgrade] that returns true has not written to the queue, so the
    caller's request keeps the mode it had. *)
Lemma LockUpgrade_with_queue_unchanged nwu tid rid st st' :
  (∀ s b s1, nwu tid rid s = Some (b, s1) →
             request_queue_ (get_queue rid s1) = request_queue_ (get_queue rid s)) →
  LockUpgrade_with nwu tid rid st = Some (Returned true, st') →
  request_queue_ (get_queue rid st') = request_queue_ (get_queue rid st).
Proof.
  intros Hnwu. unfold LockUpgrade_with, LockUpgrade_loop_with. intros H.
  destruct (txn_map st !! tid) as [txn|]; [|done]. simpl in H.
  destruct (CheckAbort txn); [done|].
  destruct (decide (state_ txn ≠ GROWING)); [done|].
  destruct (decide (rid ∈ exclusive_lock_set_ txn)); [by simplify_eq|].
  destruct (nwu _ _ _) as [[[] st1]|] eqn:Hn; [done| |done].
  apply Hnwu in Hn. rewrite get_queue_set_queue, decide_True in Hn by done.
  destruct (bool_decide _); simplify_eq; by rewrite ?get_queue_update_txn.
Qed.

(** C3 at two readers of one row: transactions 0 and 1 hold S, then
    transaction 1 upgrades.  [LockUpgrade] returns true and moves the row
    from the shared to the exclusive lock set, but the request of
    transaction 1 in the queue is still SHARED. *)
Theorem LockUpgrade_leaves_request_shared :
  ∃ s,
    run [EvCall CLockShared 0 R0; EvCall CLockShared 1 R0; EvCall CLockUpgrade 1 R0]
        (init (list_to_map [(0, new_txn REPEATABLE_READ); (1, new_txn REPEATABLE_READ)]))
      = Some ([Returned true; Returned true; Returned true], s) ∧
    request_queue_ (get_queue R0 (lm s)) = [mkReq 0 SHARED true; mkReq 1 SHARED true] ∧
    shared_lock_set_ <$> txn_map (lm s) !! 1 = Some ∅ ∧
    exclusive_lock_set_ <$> txn_map (lm s) !! 1 = Some {[R0]}.
Proof. eexists. split_and!; vm_compute; reflexivity. Qed.

(** The granting loop is at fault, not the wait: with the wait predicate
    in the specification's words, a transaction alone on the row upgrades
    without waiting, and its request is still SHARED after the call. *)
Example LockUpgrade_alone_leaves_request_shared :
  ∃ st st',
    LockShared 1 R0 (mkState ∅ {[1 := new_txn REPEATABLE_READ]}) = Some (Returned true, st) ∧
    LockUpgrade_with NeedWaitUpdate_intended 1 R0 st = Some (Returned true, st') ∧
    request_queue_ (get_queue R0 st') = [mkReq 1 SHARED true] ∧
    exclusive_lock_set_ <$> txn_map st' !! 1 = Some {[R0]}.
Proof.
  exists (mkState {[R0 := mkQueue [mkReq 1 SHARED true] 0 INVALID_TXN_ID]}
                  {[1 := mkTxn GROWING REPEATABLE_READ {[R0]} ∅]}).
  eexists. split_and!; vm_compute; reflexivity.
Qed.

(** *** The residue of an aborted waiter *)

(** From [st] to [st'] the request [r] stays in the queue of [rid], and the
    aborted transaction [tid] is untouched. *)
Definition keeps (tid : Z) (rid : RID) (r : LockRequest) (st st' : State) : Prop :=
  (r ∈ request_queue_ (get_queue rid st) → r ∈ request_queue_ (get_queue rid st')) ∧
  (∀ t, txn_map st !! tid = Some t → state_ t = ABORTED → txn_map st' !! tid = Some t).

Lemma keeps_refl tid rid r st : keeps tid rid r st st.
Proof. by split. Qed.

Lemma keeps_trans tid rid r st1 st2 st3 :
  keeps tid rid r st1 st2 → keeps tid rid r st2 st3 → keeps tid rid r st1 st3.
Proof. intros [Hq1 Ht1] [Hq2 Ht2]. split; [auto|]. intros t Ht Hab. eauto. Qed.

Lemma keeps_update_txn tid rid r u f st :
  u ≠ tid → keeps tid rid r st (update_txn u f st).
Proof.
  intros Hne. split; [done|]. intros t Ht _. simpl. by rewrite lookup_alter_ne.
Qed.

Lemma keeps_set_queue tid rid r rid0 q st :
  (rid0 = rid → r ∈ request_queue_ (get_queue rid st) → r ∈ request_queue_ q) →
  keeps tid rid r st (set_queue rid0 q st).
Proof.
  intros Hq. split; [|done]. intros Hr. rewrite get_queue_set_queue.
  case_decide; [by apply Hq|done].
Qed.

Lemma keeps_enqueue tid rid r rid0 r0 st : keeps tid rid r st (enqueue rid0 r0 st).
Proof.
  apply keeps_set_queue. intros -> Hr. simpl. apply elem_of_app. by left.
Qed.

Lemma NeedWait_keeps tid rid r u rid0 st nw st' :
  NeedWait u rid0 st = Some (nw, st') → keeps tid rid r st st'.
Proof.
  intros H. split.
  - by rewrite (proj1 (NeedWait_queue _ _ _ _ _ rid H)).
  - intros t Ht Hab.
    destruct (NeedWait_wounds_only_younger _ _ _ _ _ H tid) as [Heq|(_ & t' & Ht' & Hne & _)].
    + by rewrite Heq.
    + by simplify_eq.
Qed.

Lemma NeedWaitUpdate_scan_aborted u q : ∀ nw ha txns nw' ha' txns',
  NeedWaitUpdate_scan u q nw ha txns = Some (nw', ha', txns') →
  ∀ x t, txns !! x = Some t → state_ t = ABORTED → txns' !! x = Some t.
Proof.
  induction q as [|iter q IH]; intros nw ha txns nw' ha' txns' Hscan x t Hx Hab; [done|].
  cbn [NeedWaitUpdate_scan] in Hscan.
  destruct (decide (txn_id_ iter = u)); [done|].
  destruct (decide (txn_id_ iter > u)); [|by simplify_eq].
  destruct (txns !! txn_id_ iter) as [y|] eqn:Hy; [|done]. simpl in Hscan.
  destruct (decide (state_ y ≠ ABORTED)); [|by simplify_eq].
  eapply IH; [exact Hscan| |done].
  rewrite lookup_insert_ne; [done|]. intros <-. by simplify_eq.
Qed.

Lemma NeedWaitUpdate_keeps tid rid r u rid0 st nw st' :
  NeedWaitUpdate u rid0 st = Some (nw, st') → keeps tid rid r st st'.
Proof.
  intros H. split.
  - by rewrite (NeedWaitUpdate_queue _ _ _ _ _ rid H).
  - intros t Ht Hab. unfold NeedWaitUpdate in H.
    destruct (NeedWaitUpdate_scan _ _ _ _ _) as [[[nw0 ha] txns]|] eqn:Hscan; [|done].
    assert (txn_map st' = txns) as -> by (simplify_eq; by destruct ha).
    by eapply NeedWaitUpdate_scan_aborted.
Qed.

Lemma elem_of_grant r u q : txn_id_ r ≠ u → r ∈ q → r ∈ grant u q.
Proof.
  intros Hne Hr. unfold grant. apply list_elem_of_fmap. exists r.
  by rewrite decide_False.
Qed.

Lemma elem_of_erase_first r u q q' :
  erase_first u q = Some q' → txn_id_ r ≠ u → r ∈ q → r ∈ q'.
Proof.
  revert q'. induction q as [|x q IH]; intros q' He Hne Hr; [done|].
  simpl in He. case_decide as Hx.
  - simplify_eq. apply elem_of_cons in Hr as [->|Hr]; done.
  - destruct (erase_first u q) as [q''|]; simplify_eq/=.
    apply elem_of_cons in Hr as [->|Hr]; [apply list_elem_of_here|].
    apply list_elem_of_further. by apply IH.
Qed.

Lemma Lock_loop_keeps tid rid r u rid0 st o st' :
  u ≠ tid → txn_id_ r = tid →
  Lock_loop u rid0 st = Some (o, st') → keeps tid rid r st st'.
Proof.
  intros Hne Hr. unfold Lock_loop. intros H.
  destruct (NeedWait u rid0 st) as [[[] st1]|] eqn:Hn; [| |done].
  - simplify_eq. by eapply NeedWait_keeps.
  - simplify_eq. eapply keeps_trans; [by eapply NeedWait_keeps|].
    eapply keeps_trans; [|by apply keeps_update_txn].
    apply keeps_set_queue. intros -> Hin. simpl. apply elem_of_grant; [congruence|done].
Qed.

(** A call or wake-up of another transaction keeps the residue. *)
Lemma other_call_keeps tid rid r c u rid0 st o st' :
  u ≠ tid → txn_id_ r = tid →
  run_call c u rid0 st = Some (o, st') → keeps tid rid r st st'.
Proof.
  intros Hne Hr H. destruct c; simpl in H.
  - unfold LockShared in H.
    destruct (txn_map st !! u) as [txn|]; [|done]. simpl in H.
    destruct (CheckAbort txn); [simplify_eq; apply keeps_refl|].
    destruct (decide (isolation_level_ txn = READ_UNCOMMITTED));
      [simplify_eq; by apply keeps_update_txn|].
    destruct (decide (state_ txn ≠ GROWING)); [simplify_eq; by apply keeps_update_txn|].
    destruct (decide (rid0 ∈ shared_lock_set_ txn)); [simplify_eq; apply keeps_refl|].
    eapply keeps_trans; [apply keeps_enqueue|].
    eapply keeps_trans; [by apply keeps_update_txn|]. by eapply Lock_loop_keeps.
  - unfold LockExclusive in H.
    destruct (txn_map st !! u) as [txn|]; [|done]. simpl in H.
    destruct (CheckAbort txn); [simplify_eq; apply keeps_refl|].
    destruct (decide (state_ txn ≠ GROWING)); [simplify_eq; by apply keeps_update_txn|].
    destruct (decide (rid0 ∈ exclusive_lock_set_ txn)); [simplify_eq; apply keeps_refl|].
    eapply keeps_trans; [apply keeps_enqueue|].
    eapply keeps_trans; [by apply keeps_update_txn|]. by eapply Lock_loop_keeps.
  - unfold LockUpgrade, LockUpgrade_with, LockUpgrade_loop_with in H.
    destruct (txn_map st !! u) as [txn|]; [|done]. simpl in H.
    destruct (CheckAbort txn); [simplify_eq; apply keeps_refl|].
    destruct (decide (state_ txn ≠ GROWING)); [simplify_eq; by apply keeps_update_txn|].
    destruct (decide (rid0 ∈ exclusive_lock_set_ txn)); [simplify_eq; apply keeps_refl|].
    apply (keeps_trans _ _ _ _ (set_queue rid0 (get_queue rid0 st) st));
      [apply keeps_set_queue; by intros ->|].
    destruct (NeedWaitUpdate _ _ _) as [[[] st1]|] eqn:Hn; [| |done].
    + simplify_eq. by eapply NeedWaitUpdate_keeps.
    + eapply keeps_trans; [by eapply NeedWaitUpdate_keeps|].
      destruct (bool_decide _); simplify_eq; [by apply keeps_update_txn|apply keeps_refl].
  - unfold Unlock in H.
    destruct (txn_map st !! u) as [txn|]; [|done]. simpl in H.
    destruct (_ && _); [simplify_eq; apply keeps_refl|].
    destruct (erase_first u _) as [q'|] eqn:He; simplify_eq.
    + eapply keeps_trans; [|by apply keeps_update_txn].
      apply keeps_set_queue. intros -> Hin. simpl.
      eapply elem_of_erase_first; [done|congruence|done].
    + apply keeps_set_queue. by intros ->.
Qed.

Lemma other_wakeup_keeps tid rid r c u rid0 st o st' :
  u ≠ tid → txn_id_ r = tid →
  run_wakeup c u rid0 st = Some (o, st') → keeps tid rid r st st'.
Proof.
  intros Hne Hr H.
  assert (Lock_wakeup u rid0 st = Some (o, st') → keeps tid rid r st st') as Hlw.
  { unfold Lock_wakeup. intros H'.
    destruct (txn_map st !! u) as [txn|]; [|done]. simpl in H'.
    destruct (CheckAbort txn); [simplify_eq; apply keeps_refl|]. by eapply Lock_loop_keeps. }
  destruct c; simpl in H; [by apply Hlw|by apply Hlw| |done].
  unfold LockUpgrade_wakeup, LockUpgrade_wakeup_with, LockUpgrade_loop_with in H.
  destruct (txn_map st !! u) as [txn|]; [|done]. simpl in H.
  destruct (CheckAbort txn); [simplify_eq; apply keeps_refl|].
  destruct (NeedWaitUpdate _ _ _) as [[[] st1]|] eqn:Hn; [| |done].
  - simplify_eq. by eapply NeedWaitUpdate_keeps.
  - eapply keeps_trans; [by eapply NeedWaitUpdate_keeps|].
    destruct (bool_decide _); simplify_eq; [by apply keeps_update_txn|apply keeps_refl].
Qed.

(** An aborted transaction's own calls and wake-ups return false at
    [CheckAbort] and change nothing. *)
Lemma own_call_aborted tid c rid0 st t o st' :
  txn_map st !! tid = Some t → state_ t = ABORTED → c ≠ CUnlock →
  run_call c tid rid0 st = Some (o, st') → o = Returned false ∧ st' = st.
Proof.
  intros Ht Hab Hc H.
  assert (CheckAbort t = true) as Hca by (by apply bool_decide_eq_true_2).
  destruct c; simpl in H; [| | |done].
  - unfold LockShared in H. rewrite Ht in H. simpl in H. rewrite Hca in H. by simplify_eq.
  - unfold LockExclusive in H. rewrite Ht in H. simpl in H. rewrite Hca in H. by simplify_eq.
  - unfold LockUpgrade, LockUpgrade_with in H. rewrite Ht in H. simpl in H.
    rewrite Hca in H. by simplify_eq.
Qed.

Lemma own_wakeup_aborted tid c rid0 st t o st' :
  txn_map st !! tid = Some t → state_ t = ABORTED →
  run_wakeup c tid rid0 st = Some (o, st') → o = Returned false ∧ st' = st.
Proof.
  intros Ht Hab H.
  assert (CheckAbort t = true) as Hca by (by apply bool_decide_eq_true_2).
  destruct c; simpl in H; [| | |done].
  - unfold Lock_wakeup in H. rewrite Ht in H. simpl in H. rewrite Hca in H. by simplify_eq.
  - unfold Lock_wakeup in H. rewrite Ht in H. simpl in H. rewrite Hca in H. by simplify_eq.
  - unfold LockUpgrade_wakeup, LockUpgrade_wakeup_with in H. rewrite Ht in H. simpl in H.
    rewrite Hca in H. by simplify_eq.
Qed.

(** What the residue of [tid] on [rid] looks like after a step. *)
Definition residue_after (rid : RID) (r : LockRequest) (t : Transaction) (tid : Z) (st' : State) : Prop :=
  r ∈ request_queue_ (get_queue rid st') ∧
  ∃ t', txn_map st' !! tid = Some t' ∧ state_ t' = ABORTED ∧
        (rid ∈ shared_lock_set_ t → rid ∈ shared_lock_set_ t') ∧
        (rid ∈ exclusive_lock_set_ t → rid ∈ exclusive_lock_set_ t').

Lemma keeps_residue tid rid r t st st' :
  txn_map st !! tid = Some t → state_ t = ABORTED →
  r ∈ request_queue_ (get_queue rid st) →
  keeps tid rid r st st' → residue_after rid r t tid st'.
Proof.
  intros Ht Hab Hr [Hq Hk]. split; [by apply Hq|]. exists t. split_and!; auto.
Qed.

Lemma own_unlock_elsewhere tid rid rid0 r t st o st' :
  rid0 ≠ rid → txn_map st !! tid = Some t → state_ t = ABORTED →
  r ∈ request_queue_ (get_queue rid st) →
  Unlock tid rid0 st = Some (o, st') → residue_after rid r t tid st'.
Proof.
  intros Hne Ht Hab Hr H. unfold Unlock in H. rewrite Ht in H. simpl in H.
  destruct (_ && _).
  { simplify_eq. eapply keeps_residue; [done..|apply keeps_refl]. }
  destruct (erase_first tid _) as [q'|]; simplify_eq.
  - split.
    + rewrite get_queue_update_txn, get_queue_set_queue. by rewrite decide_False.
    + simpl. rewrite lookup_alter_eq, Ht. simpl. eexists. split; [done|]. simpl.
      rewrite Hab. simpl. split_and!; [done|set_solver|set_solver].
  - eapply keeps_residue; [done..|]. apply keeps_set_queue. by intros ->.
Qed.

Lemma step_keeps_residue e s o s' tid rid r t :
  step e s = Some (o, s') → e ≠ EvCall CUnlock tid rid →
  txn_id_ r = tid → txn_map (lm s) !! tid = Some t → state_ t = ABORTED →
  r ∈ request_queue_ (get_queue rid (lm s)) →
  residue_after rid r t tid (lm s').
Proof.
  intros Hstep He Hr Ht Hab Hin. destruct e as [c u rid0|u]; simpl in Hstep.
  - destruct (waiting s !! u); [done|].
    destruct (run_call c u rid0 (lm s)) as [[o1 st1]|] eqn:Hrun; [|done]. simpl in Hstep.
    assert (lm s' = st1) as ->.
    { unfold settle in Hstep. simpl in Hstep. destruct o1; by simplify_eq. }
    destruct (decide (u = tid)) as [->|Hne].
    + destruct (decide (c = CUnlock)) as [->|Hc].
      * simpl in Hrun. eapply own_unlock_elsewhere; [|done..]. congruence.
      * eapply own_call_aborted in Hrun as [_ ->]; [|done..].
        eapply keeps_residue; [done..|apply keeps_refl].
    + eapply keeps_residue; [done..|]. by eapply other_call_keeps.
  - destruct (waiting s !! u) as [b|]; [|done]. simpl in Hstep.
    case_decide; [|done].
    destruct (run_wakeup _ _ _ _) as [[o1 st1]|] eqn:Hrun; [|done]. simpl in Hstep.
    assert (lm s' = st1) as ->.
    { unfold settle in Hstep. simpl in Hstep. destruct o1; by simplify_eq. }
    destruct (decide (u = tid)) as [->|Hne].
    + eapply own_wakeup_aborted in Hrun as [_ ->]; [|done..].
      eapply keeps_residue; [done..|apply keeps_refl].
    + eapply keeps_residue; [done..|]. by eapply other_wakeup_keeps.
Qed.

Lemma Lock_loop_waiting tid rid st st' :
  Lock_loop tid rid st = Some (Waiting, st') →
  request_queue_ (get_queue rid st') = request_queue_ (get_queue rid st) ∧
  txn_map st' !! tid = txn_map st !! tid.
Proof.
  unfold Lock_loop. intros H.
  destruct (NeedWait tid rid st) as [[[] st1]|] eqn:Hn; simplify_eq.
  split; [by apply (NeedWait_queue _ _ _ _ _ rid Hn)|].
  destruct (NeedWait_wounds_only_younger _ _ _ _ _ Hn tid) as [?|((Hgt & _) & _)]; [done|lia].
Qed.

Lemma Unlock_removes tid rid st t q' :
  txn_map st !! tid = Some t →
  rid ∈ shared_lock_set_ t ∨ rid ∈ exclusive_lock_set_ t →
  erase_first tid (request_queue_ (get_queue rid st)) = Some q' →
  ∃ st', Unlock tid rid st = Some (Returned true, st') ∧
         request_queue_ (get_queue rid st') = q' ∧
         ∃ t', txn_map st' !! tid = Some t' ∧
               (rid ∉ shared_lock_set_ t') ∧ (rid ∉ exclusive_lock_set_ t').
Proof.
  intros Ht Hin He. unfold Unlock. rewrite Ht. simpl.
  assert (bool_decide (rid ∉ shared_lock_set_ t) && bool_decide (rid ∉ exclusive_lock_set_ t)
          = false) as ->.
  { apply andb_false_iff. destruct Hin as [Hin|Hin]; [left|right];
      apply bool_decide_eq_false_2; intros Hn; by apply Hn. }
  rewrite He. eexists. split; [reflexivity|]. split.
  - rewrite get_queue_update_txn, get_queue_set_queue. by rewrite decide_True.
  - simpl. rewrite lookup_alter_eq, Ht. simpl. eexists. split; [done|]. simpl.
    split; intros [_ Hn]%elem_of_difference; apply Hn; by apply elem_of_singleton.
Qed.

(** What a call or a wake-up of [u] does to another transaction: nothing, or
    a wound if it is younger. *)
Lemma run_effect c u rid0 st o st' x :
  x ≠ u →
  run_call c u rid0 st = Some (o, st') ∨ run_wakeup c u rid0 st = Some (o, st') →
  kept_or_wounded (txn_map st) (txn_map st') x (x > u).
Proof.
  intros Hne Hrun.
  assert (∀ f st1, kept_or_wounded (txn_map st) (txn_map (update_txn u f st1)) x (x > u)
                   ↔ kept_or_wounded (txn_map st) (txn_map st1) x (x > u)) as Hupd.
  { intros f st1. unfold kept_or_wounded. simpl. by rewrite lookup_alter_ne. }
  assert (∀ f st1 st2, kept_or_wounded (txn_map (update_txn u f st1)) (txn_map st2) x (x > u)
                   ↔ kept_or_wounded (txn_map st1) (txn_map st2) x (x > u)) as Hupd'.
  { intros f st1 st2. unfold kept_or_wounded. simpl. by rewrite lookup_alter_ne. }
  assert (Lock_wakeup u rid0 st = Some (o, st') →
          kept_or_wounded (txn_map st) (txn_map st') x (x > u)) as Hwake.
  { unfold Lock_wakeup. intros H.
    destruct (txn_map st !! u) as [txn|]; [|done]. simpl in H.
    destruct (CheckAbort txn); [simplify_eq; by left|]. by eapply Lock_loop_effect. }
  destruct Hrun as [Hrun|Hrun]; destruct c; simpl in Hrun; auto.
  - unfold LockShared in Hrun.
    destruct (txn_map st !! u) as [txn|]; [|done]. simpl in Hrun.
    destruct (CheckAbort txn); [simplify_eq; by left|].
    case_decide; [simplify_eq; apply Hupd; by left|].
    case_decide; [simplify_eq; apply Hupd; by left|].
    case_decide; [simplify_eq; by left|].
    apply (Lock_loop_effect _ _ _ _ _ x Hne), Hupd' in Hrun. exact Hrun.
  - unfold LockExclusive in Hrun.
    destruct (txn_map st !! u) as [txn|]; [|done]. simpl in Hrun.
    destruct (CheckAbort txn); [simplify_eq; by left|].
    case_decide; [simplify_eq; apply Hupd; by left|].
    case_decide; [simplify_eq; by left|].
    apply (Lock_loop_effect _ _ _ _ _ x Hne), Hupd' in Hrun. exact Hrun.
  - unfold LockUpgrade, LockUpgrade_with in Hrun.
    destruct (txn_map st !! u) as [txn|]; [|done]. simpl in Hrun.
    destruct (CheckAbort txn); [simplify_eq; by left|].
    case_decide; [simplify_eq; apply Hupd; by left|].
    case_decide; [simplify_eq; by left|].
    by apply (LockUpgrade_loop_effect _ _ _ _ _ x Hne) in Hrun.
  - unfold Unlock in Hrun.
    destruct (txn_map st !! u) as [txn|]; [|done]. simpl in Hrun.
    destruct (_ && _); [simplify_eq; by left|].
    destruct (erase_first _ _); simplify_eq; [apply Hupd|]; by left.
  - unfold LockUpgrade_wakeup, LockUpgrade_wakeup_with in Hrun.
    destruct (txn_map st !! u) as [txn|]; [|done]. simpl in Hrun.
    destruct (CheckAbort txn); [simplify_eq; by left|].
    by apply (LockUpgrade_loop_effect _ _ _ _ _ x Hne) in Hrun.
  - done.
Qed.

(** The lock sets of [tid] are the same in [m] and in [m']. *)
Definition same_locks (tid : Z) (t : Transaction) (m' : gmap Z Transaction) : Prop :=
  ∃ t', m' !! tid = Some t' ∧ shared_lock_set_ t' = shared_lock_set_ t ∧
        exclusive_lock_set_ t' = exclusive_lock_set_ t.

Lemma kept_or_wounded_same_locks m m' tid t P :
  m !! tid = Some t → kept_or_wounded m m' tid P → same_locks tid t m'.
Proof.
  intros Ht [Heq|(_ & t0 & Ht0 & _ & Ht')].
  - exists t. by rewrite Heq.
  - assert (t0 = t) as -> by congruence. by exists (SetState ABORTED t).
Qed.

(** A wake-up that blocks again has changed no queue and not the caller. *)
Lemma own_wakeup_waiting c tid rid0 st st' rid :
  run_wakeup c tid rid0 st = Some (Waiting, st') →
  request_queue_ (get_queue rid st') = request_queue_ (get_queue rid st) ∧
  txn_map st' !! tid = txn_map st !! tid.
Proof.
  assert (Lock_wakeup tid rid0 st = Some (Waiting, st') →
          request_queue_ (get_queue rid st') = request_queue_ (get_queue rid st) ∧
          txn_map st' !! tid = txn_map st !! tid) as Hwake.
  { unfold Lock_wakeup, Lock_loop. intros H.
    destruct (txn_map st !! tid) as [txn|] eqn:Ht; [|done]. simpl in H.
    destruct (CheckAbort txn); [done|].
    destruct (NeedWait tid rid0 st) as [[[] st1]|] eqn:Hn; simplify_eq.
    split; [by apply (NeedWait_queue _ _ _ _ _ rid Hn)|].
    destruct (NeedWait_wounds_only_younger _ _ _ _ _ Hn tid) as [?|((Hgt & _) & _)];
      [congruence|lia]. }
  destruct c; simpl; auto; [|done].
  unfold LockUpgrade_wakeup, LockUpgrade_wakeup_with, LockUpgrade_loop_with. intros H.
  destruct (txn_map st !! tid) as [txn|] eqn:Ht; [|done]. simpl in H.
  destruct (CheckAbort txn); [done|].
  destruct (NeedWaitUpdate tid rid0 st) as [[[] st1]|] eqn:Hn; [| |done].
  - simplify_eq. split; [by apply (NeedWaitUpdate_queue _ _ _ _ _ rid Hn)|].
    destruct (NeedWaitUpdate_effect _ _ _ _ _ tid Hn) as [?|(Hgt & _)]; [congruence|lia].
  - by destruct (bool_decide _).
Qed.

(** While a transaction makes no call, and no call of it returns, its
    requests stay in the queues and its lock sets stay as they are, whatever
    the other transactions do. *)
Lemma step_keeps_waiter e s o s' tid rid r t :
  step e s = Some (o, s') →
  (∀ c rid', e ≠ EvCall c tid rid') → (e = EvResume tid → o = Waiting) →
  txn_id_ r = tid → txn_map (lm s) !! tid = Some t →
  r ∈ request_queue_ (get_queue rid (lm s)) →
  r ∈ request_queue_ (get_queue rid (lm s')) ∧ same_locks tid t (txn_map (lm s')).
Proof.
  intros Hstep Hcall Hres Hr Ht Hin. destruct e as [c u rid0|u]; simpl in Hstep.
  - assert (u ≠ tid) as Hne by (intros ->; by apply (Hcall c rid0)).
    destruct (waiting s !! u); [done|].
    destruct (run_call c u rid0 (lm s)) as [[o1 st1]|] eqn:Hrun; [|done]. simpl in Hstep.
    assert (lm s' = st1) as ->.
    { unfold settle in Hstep. simpl in Hstep. destruct o1; by simplify_eq. }
    split.
    + by apply (other_call_keeps tid rid r c u rid0 _ _ _ Hne Hr Hrun).
    + eapply kept_or_wounded_same_locks; [done|].
      eapply (run_effect c u rid0); [done|by left].
  - destruct (waiting s !! u) as [b|]; [|done]. simpl in Hstep.
    case_decide; [|done].
    destruct (run_wakeup _ _ _ _) as [[o1 st1]|] eqn:Hrun; [|done]. simpl in Hstep.
    assert (lm s' = st1 ∧ o = o1) as [-> ->].
    { unfold settle in Hstep. simpl in Hstep. destruct o1; by simplify_eq. }
    destruct (decide (u = tid)) as [->|Hne].
    + rewrite (Hres eq_refl) in Hrun.
      destruct (own_wakeup_waiting _ _ _ _ _ rid Hrun) as [Hq Hsame].
      split; [by rewrite Hq|]. exists t. by rewrite Hsame.
    + split.
      * by apply (other_wakeup_keeps tid rid r _ u _ _ _ _ Hne Hr Hrun).
      * eapply kept_or_wounded_same_locks; [done|].
        eapply (run_effect _ u); [done|by right].
Qed.

(** The scan of [NeedWait] has a result when the caller has a request in the
    queue and every queued transaction is known to the transaction manager;
    [need_wait], once set, stays set. *)
Lemma NeedWait_scan_defined tid sm q : ∀ nw ha txns,
  (∃ r, r ∈ q ∧ txn_id_ r = tid) →
  Forall (λ r, is_Some (txns !! txn_id_ r)) q →
  ∃ nw' ha' txns', NeedWait_scan tid sm q nw ha txns = Some (nw', ha', txns') ∧
                   (nw = true → nw' = true).
Proof.
  induction q as [|iter q IH]; intros nw ha txns (r & Hr & Hid) Hknown.
  { by apply elem_of_nil in Hr. }
  cbn [NeedWait_scan]. apply Forall_cons in Hknown as [[y Hy] Hknown].
  destruct (decide (txn_id_ iter = tid)) as [|Hown]; [by eexists _, _, _|].
  assert (∃ r, r ∈ q ∧ txn_id_ r = tid) as Hq.
  { exists r. apply elem_of_cons in Hr as [->|Hr]; done. }
  destruct (decide (txn_id_ iter > tid)).
  - destruct (_ || _); [|by apply IH].
    rewrite Hy. simpl. destruct (decide (state_ y ≠ ABORTED)); [|by apply IH].
    apply IH; [done|]. eapply Forall_impl; [exact Hknown|]. intros x [z Hz]. simpl.
    destruct (decide (txn_id_ x = txn_id_ iter)) as [->|Hne].
    + rewrite lookup_insert_eq. by eexists.
    + rewrite lookup_insert_ne by done. by eexists.
  - cbv zeta.
    destruct (IH (if decide (lock_mode_ iter = EXCLUSIVE) then true
                  else if decide (sm = EXCLUSIVE) then true else nw) ha txns Hq Hknown)
      as (nw' & ha' & txns' & -> & Hmono).
    eexists _, _, _. split; [done|]. intros ->. apply Hmono. by repeat case_decide.
Qed.

(** The loop condition holds, and the call blocks, behind a request of an
    older transaction at the head of the queue: any such request for an
    exclusive request, an exclusive one for a shared request. *)
Lemma Lock_loop_blocks tid mode rid st first q :
  request_queue_ (get_queue rid st) = first :: q ++ [mkReq tid mode false] →
  txn_id_ first < tid → (mode = SHARED → lock_mode_ first = EXCLUSIVE) →
  Forall (λ r, is_Some (txn_map st !! txn_id_ r)) (request_queue_ (get_queue rid st)) →
  ∃ st', Lock_loop tid rid st = Some (Waiting, st').
Proof.
  intros Hq Hold Hmode Hknown. unfold Lock_loop, NeedWait. rewrite Hq in *.
  rewrite app_comm_cons, last_snoc. simpl.
  assert ((if decide (mode = SHARED)
           then bool_decide (txn_id_ first = tid) || bool_decide (lock_mode_ first = SHARED)
           else bool_decide (txn_id_ first = tid)) = false) as ->.
  { rewrite (bool_decide_eq_false_2 (txn_id_ first = tid)) by lia.
    case_decide as Hm; [|done]. rewrite (Hmode Hm). done. }
  rewrite decide_False by lia. rewrite decide_False by lia.
  apply Forall_cons in Hknown as [_ Hknown].
  destruct (NeedWait_scan_defined tid mode (q ++ [mkReq tid mode false])
              (if decide (lock_mode_ first = EXCLUSIVE) then true
               else if decide (mode = EXCLUSIVE) then true else false) false (txn_map st))
    as (nw' & ha' & txns' & -> & Hmono); [|done|].
  { exists (mkReq tid mode false). split; [|done]. apply elem_of_app. right.
    apply list_elem_of_here. }
  rewrite Hmono.
  - by eexists.
  - destruct mode; [by rewrite (Hmode eq_refl)|]. by case_decide.
Qed.

(** The same for the state in which [LockShared] and [LockExclusive] enter
    the loop: the request appended, the lock set of the caller updated. *)
Lemma Lock_blocks tid mode rid st first f :
  Forall (λ r, is_Some (txn_map st !! txn_id_ r)) (request_queue_ (get_queue rid st)) →
  is_Some (txn_map st !! tid) →
  head (request_queue_ (get_queue rid st)) = Some first →
  txn_id_ first < tid → (mode = SHARED → lock_mode_ first = EXCLUSIVE) →
  ∃ st', Lock_loop tid rid (update_txn tid f (enqueue rid (mkReq tid mode false) st))
         = Some (Waiting, st').
Proof.
  intros Hknown Hown Hhead Hold Hmode.
  destruct (request_queue_ (get_queue rid st)) as [|first' q] eqn:Hq; [done|].
  simpl in Hhead. simplify_eq.
  apply (Lock_loop_blocks tid mode rid _ first q); [|done|done|].
  - rewrite get_queue_update_txn. unfold enqueue.
    rewrite get_queue_set_queue, decide_True by done. simpl. by rewrite Hq.
  - rewrite get_queue_update_txn. unfold enqueue.
    rewrite get_queue_set_queue, decide_True by done. simpl. rewrite Hq.
    assert (∀ x, is_Some (txn_map st !! x) → is_Some (alter f tid (txn_map st) !! x)) as Hal.
    { intros x [z Hz]. destruct (decide (x = tid)) as [->|].
      - rewrite lookup_alter_eq, Hz. by eexists.
      - rewrite lookup_alter_ne by done. by eexists. }
    apply Forall_app. split.
    + eapply Forall_impl; [exact Hknown|]. intros x. apply Hal.
    + apply Forall_singleton. simpl. by apply Hal.
Qed.

Lemma residue_after_trans rid r t t1 tid st1 st2 :
  residue_after rid r t tid st1 → txn_map st1 !! tid = Some t1 →
  residue_after rid r t1 tid st2 → residue_after rid r t tid st2.
Proof.
  intros (_ & t1' & Ht1' & _ & Hs1 & He1) Ht1 (Hin & t2 & Ht2 & Hab & Hs2 & He2).
  assert (t1' = t1) as -> by congruence.
  split; [done|]. exists t2. split_and!; auto.
Qed.

(** The residue outlives every run without an [Unlock] of the row by the
    aborted transaction. *)
Lemma run_keeps_residue es : ∀ s os s' tid rid r t,
  run es s = Some (os, s') → EvCall CUnlock tid rid ∉ es →
  txn_id_ r = tid → txn_map (lm s) !! tid = Some t → state_ t = ABORTED →
  r ∈ request_queue_ (get_queue rid (lm s)) →
  residue_after rid r t tid (lm s').
Proof.
  induction es as [|e es IH]; intros s os s' tid rid r t Hrun Hnot Hr Ht Hab Hin.
  - simpl in Hrun. simplify_eq. split; [done|]. by exists t.
  - cbn [run] in Hrun.
    destruct (step e s) as [[o s1]|] eqn:Hstep; [|done]. simpl in Hrun.
    destruct (run es s1) as [[os1 s2]|] eqn:Hrun1; [|done]. simpl in Hrun. simplify_eq.
    assert (e ≠ EvCall CUnlock (txn_id_ r) rid) as He.
    { intros ->. apply Hnot, list_elem_of_here. }
    pose proof (step_keeps_residue _ _ _ _ _ _ _ _ Hstep He eq_refl Ht Hab Hin) as Hres.
    pose proof Hres as (Hin1 & t1 & Ht1 & Hab1 & _).
    eapply residue_after_trans; [exact Hres|exact Ht1|].
    eapply IH; [exact Hrun1| |done|done|done|done].
    intros Hel. apply Hnot. by apply list_elem_of_further.
Qed.

Lemma filter_none_length (tid : Z) (q : list LockRequest) :
  length (filter (λ r, txn_id_ r = tid) q) = 0%nat → filter (λ r, txn_id_ r ≠ tid) q = q.
Proof.
  induction q as [|x q IH]; [done|]. rewrite !filter_cons.
  destruct (decide (txn_id_ x = tid)); [done|]. intros Hl.
  rewrite decide_True by done. f_equal. by apply IH.
Qed.

(** When the transaction has one request in the queue, [erase_first] takes
    out all it has. *)
Lemma erase_first_only (tid : Z) (q : list LockRequest) :
  length (filter (λ r, txn_id_ r = tid) q) = 1%nat →
  erase_first tid q = Some (filter (λ r, txn_id_ r ≠ tid) q).
Proof.
  induction q as [|x q IH]; [done|]. rewrite !filter_cons. cbn [erase_first].
  destruct (decide (txn_id_ x = tid)) as [Hx|Hx].
  - simpl. intros [= Hl]. rewrite decide_False by (intros Hn; by apply Hn).
    by rewrite filter_none_length.
  - intros Hl. rewrite decide_True by done. by rewrite IH.
Qed.


Definition three_txns : gmap Z Transaction :=
  list_to_map [(0, new_txn REPEATABLE_READ); (1, new_txn REPEATABLE_READ);
               (5, new_txn REPEATABLE_READ)].


(** A reader and a writer arriving behind the exclusive lock of an older
    transaction; the reader wounded while it waits. *)
Definition writer_ahead : State :=
  queue_state [mkReq 0 EXCLUSIVE true]
              [(0, mkTxn GROWING REPEATABLE_READ ∅ {[R0]}); (3, new_txn REPEATABLE_READ)].

Definition reader_waiting : Sys :=
  mkSys (queue_state [mkReq 0 EXCLUSIVE true; mkReq 3 SHARED false]
                     [(0, mkTxn GROWING REPEATABLE_READ ∅ {[R0]});
                      (3, mkTxn GROWING REPEATABLE_READ {[R0]} ∅)])
        {[3 := mkBlocked CLockShared R0 0]}.

Definition residue_left : State :=
  queue_state [mkReq 0 EXCLUSIVE true; mkReq 3 SHARED false]
              [(0, mkTxn GROWING REPEATABLE_READ ∅ {[R0]});
               (3, mkTxn ABORTED REPEATABLE_READ {[R0]} ∅)].


(** The residue in the run of C1: transaction 9, wounded while it waits,
    wakes up and returns false; its ungranted request and the row in its
    shared lock set are still there, until its [Unlock]. *)
Example wounded_waiter_run :
  ∃ s s',
    run [EvCall CLockExclusive 0 R0; EvCall CLockShared 3 R0; EvCall CLockShared 1 R0;
         EvCall CLockShared 9 R0; EvCall CLockExclusive 4 R0; EvResume 9] (init five_txns)
      = Some ([Returned true; Waiting; Waiting; Waiting; Waiting; Returned false], s) ∧
    request_queue_ (get_queue R0 (lm s))
      = [mkReq 0 EXCLUSIVE true; mkReq 3 SHARED false; mkReq 1 SHARED false;
         mkReq 9 SHARED false; mkReq 4 EXCLUSIVE false] ∧
    shared_lock_set_ <$> txn_map (lm s) !! 9 = Some {[R0]} ∧
    step (EvCall CUnlock 9 R0) s = Some (Returned true, s') ∧
    request_queue_ (get_queue R0 (lm s'))
      = [mkReq 0 EXCLUSIVE true; mkReq 3 SHARED false; mkReq 1 SHARED false;
         mkReq 4 EXCLUSIVE false] ∧
    shared_lock_set_ <$> txn_map (lm s') !! 9 = Some ∅.
Proof. do 2 eexists. split_and!; vm_compute; reflexivity. Qed.

End LockProofs.

(** ** Extendible hash table *)

Module HashProofs.
Import ExtendibleHash.

(** *** Slots that agree on their low bits *)

Lemma agree_testbit d i j :
  agree d i j ↔ ∀ k, k < d → Nat.testbit i k = Nat.testbit j k.
Proof.
  unfold agree. split.
  - intros Heq k Hk.
    rewrite <-(Nat.mod_pow2_bits_low i d k), <-(Nat.mod_pow2_bits_low j d k) by done.
    by rewrite Heq.
  - intros Hbits. apply Nat.bits_inj. intros k.
    destruct (decide (k < d)) as [Hk|Hk].
    + rewrite !Nat.mod_pow2_bits_low by done. by apply Hbits.
    + rewrite !Nat.mod_pow2_bits_high by lia. done.
Qed.

Lemma agree_refl d i : agree d i i.
Proof. done. Qed.

Lemma agree_sym d i j : agree d i j → agree d j i.
Proof. unfold agree. congruence. Qed.

Lemma agree_trans d i j k : agree d i j → agree d j k → agree d i k.
Proof. unfold agree. congruence. Qed.

Lemma agree_mono d d' i j : d ≤ d' → agree d' i j → agree d i j.
Proof.
  rewrite !agree_testbit. intros Hle Hbits k Hk. apply Hbits. lia.
Qed.

Lemma agree_0 i j : agree 0 i j.
Proof. unfold agree. rewrite Nat.pow_0_r. by rewrite !Nat.mod_1_r. Qed.

Lemma testbit_lxor_pow2 i d k :
  Nat.testbit (Nat.lxor i (2 ^ d)) k = xorb (Nat.testbit i k) (d =? k).
Proof. by rewrite Nat.lxor_spec, Nat.pow2_bits_eqb. Qed.

(** The split image agrees with the slot below bit [d] and differs at it. *)
Lemma agree_image d i : agree d i (Nat.lxor i (2 ^ d)).
Proof.
  apply agree_testbit. intros k Hk. rewrite testbit_lxor_pow2.
  rewrite (proj2 (Nat.eqb_neq d k)) by lia. by rewrite xorb_false_r.
Qed.

Lemma agree_image_ne d i : ¬ agree (S d) i (Nat.lxor i (2 ^ d)).
Proof.
  rewrite agree_testbit. intros Hbits. specialize (Hbits d (Nat.lt_succ_diag_r d)).
  rewrite testbit_lxor_pow2, Nat.eqb_refl in Hbits. by destruct (Nat.testbit i d).
Qed.

Lemma agree_split d i j :
  agree d i j → agree (S d) i j ∨ agree (S d) (Nat.lxor i (2 ^ d)) j.
Proof.
  rewrite !agree_testbit. intros Hbits.
  destruct (decide (Nat.testbit i d = Nat.testbit j d)) as [Hd|Hd].
  - left. intros k Hk. destruct (decide (k = d)) as [->|]; [done|]. apply Hbits. lia.
  - right. intros k Hk. rewrite testbit_lxor_pow2.
    destruct (decide (k = d)) as [->|Hne].
    + rewrite Nat.eqb_refl. by destruct (Nat.testbit i d), (Nat.testbit j d).
    + rewrite (proj2 (Nat.eqb_neq d k)) by lia. rewrite xorb_false_r. apply Hbits. lia.
Qed.

Lemma lxor_pow2_lt i d g : i < 2 ^ g → d < g → Nat.lxor i (2 ^ d) < 2 ^ g.
Proof.
  intros Hi Hd.
  destruct (decide (Nat.lxor i (2 ^ d) = 0)) as [->|Hnz].
  { apply Nat.neq_0_lt_0, Nat.pow_nonzero. lia. }
  apply Nat.log2_lt_pow2; [lia|].
  eapply Nat.le_lt_trans; [apply Nat.log2_lxor|].
  rewrite Nat.log2_pow2 by apply Nat.le_0_l.
  apply Nat.max_lub_lt; [|done].
  destruct (decide (i = 0)) as [->|Hi0]; [change (Nat.log2 0) with 0; lia|].
  apply Nat.log2_lt_pow2; lia.
Qed.

Lemma agree_mod g d i : d ≤ g → agree d (i mod 2 ^ g) i.
Proof.
  intros Hle. apply agree_testbit. intros k Hk.
  apply Nat.mod_pow2_bits_low. lia.
Qed.

Lemma shiftl_1 n : Nat.shiftl 1 n = 2 ^ n.
Proof. apply Nat.shiftl_1_l. Qed.

Lemma land_mask a g : Nat.land a (Nat.shiftl 1 g - 1) = a mod 2 ^ g.
Proof.
  rewrite shiftl_1, <-Nat.land_ones. f_equal.
  rewrite Nat.ones_equiv. lia.
Qed.

Lemma pow2_pos n : 0 < 2 ^ n.
Proof. apply Nat.neq_0_lt_0, Nat.pow_nonzero. lia. Qed.

Section Table.
Context `{HashParams}.

(** *** Reading the arrays after an update *)

Lemma Size_pow d : Size d = 2 ^ global_depth_ d.
Proof. apply shiftl_1. Qed.

Lemma pid_SetBucketPageId i v d j :
  i < length (bucket_page_ids_ d) →
  GetBucketPageId j (SetBucketPageId i v d) = if decide (j = i) then v else GetBucketPageId j d.
Proof.
  intros Hi. unfold GetBucketPageId, SetBucketPageId. simpl. case_decide as Hj.
  - subst. by apply list_lookup_total_insert_eq.
  - apply list_lookup_total_insert_ne. congruence.
Qed.

Lemma ld_SetLocalDepth i v d j :
  i < length (local_depths_ d) →
  GetLocalDepth j (SetLocalDepth i v d) = if decide (j = i) then v else GetLocalDepth j d.
Proof.
  intros Hi. unfold GetLocalDepth, SetLocalDepth. simpl. case_decide as Hj.
  - subst. by apply list_lookup_total_insert_eq.
  - apply list_lookup_total_insert_ne. congruence.
Qed.

Lemma ld_SetBucketPageId i v d j : GetLocalDepth j (SetBucketPageId i v d) = GetLocalDepth j d.
Proof. done. Qed.

Lemma pid_SetLocalDepth i v d j : GetBucketPageId j (SetLocalDepth i v d) = GetBucketPageId j d.
Proof. done. Qed.

(** [d'] has the shape of [d]: same global depth, arrays of the same length. *)
Definition same_shape (d d' : HashTableDirectoryPage) : Prop :=
  global_depth_ d' = global_depth_ d ∧
  length (local_depths_ d') = length (local_depths_ d) ∧
  length (bucket_page_ids_ d') = length (bucket_page_ids_ d).

Lemma same_shape_refl d : same_shape d d.
Proof. done. Qed.

Lemma same_shape_trans d1 d2 d3 : same_shape d1 d2 → same_shape d2 d3 → same_shape d1 d3.
Proof. unfold same_shape. intros (?&?&?) (?&?&?). split_and!; congruence. Qed.

Lemma same_shape_SetLocalDepth i v d : same_shape d (SetLocalDepth i v d).
Proof. unfold same_shape. simpl. by rewrite length_insert. Qed.

Lemma same_shape_SetBucketPageId i v d : same_shape d (SetBucketPageId i v d).
Proof. unfold same_shape. simpl. by rewrite length_insert. Qed.

(** From [d] to [d'] the slots of [S] got page id [P] and local depth [D],
    the others are as they were. *)
Definition stamped (S : nat → Prop) (P : Z) (D : nat) (d d' : HashTableDirectoryPage) : Prop :=
  same_shape d d' ∧
  ∀ j, (S j → GetBucketPageId j d' = P ∧ GetLocalDepth j d' = D) ∧
       (¬ S j → GetBucketPageId j d' = GetBucketPageId j d ∧
                GetLocalDepth j d' = GetLocalDepth j d).

Lemma stamped_ext (S S' : nat → Prop) P D d d' :
  (∀ j, S j ↔ S' j) → stamped S P D d d' → stamped S' P D d d'.
Proof.
  intros Hext [Hsh Hst]. split; [done|]. intros j. rewrite <-Hext. apply Hst.
Qed.

Lemma stamped_none (S : nat → Prop) P D d : (∀ j, ¬ S j) → stamped S P D d d.
Proof. intros Hn. split; [done|]. intros j. split; [by intros ?%Hn|done]. Qed.

Lemma stamped_compose (S1 S2 : nat → Prop) P D d d1 d2 :
  (∀ j, Decision (S2 j)) →
  stamped S1 P D d d1 → stamped S2 P D d1 d2 → stamped (λ j, S1 j ∨ S2 j) P D d d2.
Proof.
  intros Hdec [Hsh1 H1] [Hsh2 H2]. split; [by eapply same_shape_trans|].
  intros j. split.
  - intros HS. destruct (decide (S2 j)) as [Hj|Hj]; [by apply H2|].
    destruct HS as [HS|HS]; [|done].
    destruct (proj2 (H2 j) Hj) as [-> ->]. by apply H1.
  - intros HS. destruct (proj2 (H2 j)) as [-> ->]; [tauto|]. apply H1. tauto.
Qed.

(** The body of the four loops of [SplitInsert]. *)
Definition stamp (idx : nat) (P : Z) (i : nat) (d : HashTableDirectoryPage) :=
  SetLocalDepth i (GetLocalDepth idx (SetBucketPageId i P d)) (SetBucketPageId i P d).

Lemma stamped_stamp idx P i d :
  i < length (local_depths_ d) → i < length (bucket_page_ids_ d) →
  stamped (λ j, j = i) P (GetLocalDepth idx d) d (stamp idx P i d).
Proof.
  intros Hl Hp. unfold stamp. split.
  - eapply same_shape_trans; [apply same_shape_SetBucketPageId|apply same_shape_SetLocalDepth].
  - intros j. rewrite pid_SetLocalDepth, pid_SetBucketPageId by done.
    rewrite ld_SetLocalDepth, !ld_SetBucketPageId by done.
    split; intros Hj; by rewrite ?decide_True, ?decide_False by done.
Qed.

Lemma stamped_ld_idx (S : nat → Prop) P D d d' idx :
  (∀ j, Decision (S j)) →
  stamped S P D d d' → GetLocalDepth idx d = D → GetLocalDepth idx d' = D.
Proof.
  intros Hdec [_ Hst] Hidx. destruct (decide (S idx)) as [Hs|Hs].
  - by apply Hst.
  - destruct (proj2 (Hst idx) Hs) as [_ ->]. done.
Qed.

Lemma mod_sub_diff i diff : 0 < diff → diff ≤ i → (i - diff) mod diff = i mod diff.
Proof.
  intros Hd Hle. replace i with ((i - diff) + 1 * diff) at 2 by lia.
  by rewrite Nat.Div0.mod_add.
Qed.

Lemma mod_eq_lt_gap i j diff : 0 < diff → j mod diff = i mod diff → j < i → j + diff ≤ i.
Proof.
  intros Hd Hmod Hlt.
  pose proof (Nat.div_mod_eq i diff) as Hi. pose proof (Nat.div_mod_eq j diff) as Hj.
  rewrite Hmod in Hj.
  generalize dependent (i / diff). generalize dependent (j / diff).
  generalize dependent (i mod diff). intros r _ qj Hj qi Hi.
  assert (qj < qi) as Hq by (apply Nat.mul_lt_mono_pos_l with diff; lia).
  assert (diff * (qj + 1) ≤ diff * qi) by (apply Nat.mul_le_mono_l; lia).
  lia.
Qed.

Lemma loop_down_stamped idx P diff D : 0 < diff → ∀ fuel i d,
  i < fuel → i < length (local_depths_ d) → i < length (bucket_page_ids_ d) →
  GetLocalDepth idx d = D →
  stamped (λ j, j ≤ i ∧ j mod diff = i mod diff) P D d (loop_down fuel i diff (stamp idx P) d).
Proof.
  intros Hdiff. induction fuel as [|fuel IH]; intros i d Hfuel Hl Hp Hidx; [lia|].
  cbn [loop_down].
  pose proof (stamped_stamp idx P i d Hl Hp) as Hst. rewrite Hidx in Hst.
  destruct (i <? diff) eqn:Hlt.
  - apply Nat.ltb_lt in Hlt. eapply stamped_ext; [|exact Hst].
    intros j. split; [by intros ->|]. intros [Hle Hmod].
    rewrite (Nat.mod_small i), (Nat.mod_small j) in Hmod by lia. done.
  - apply Nat.ltb_ge in Hlt.
    assert (same_shape d (stamp idx P i d)) as (Hg & Hll & Hlp) by apply Hst.
    eapply stamped_ext; [|eapply stamped_compose; [|exact Hst|apply IH]].
    + intros j. simpl. rewrite mod_sub_diff by done. split.
      * intros [->|[Hle Hmod]]; [done|]. split; [lia|done].
      * intros [Hle Hmod]. destruct (decide (j = i)) as [->|Hne]; [by left|right].
        split; [|done]. pose proof (mod_eq_lt_gap i j diff Hdiff Hmod). lia.
    + intros j. apply _.
    + lia.
    + lia.
    + lia.
    + eapply stamped_ld_idx; [|exact Hst|done]. intros j. apply _.
Qed.

Lemma loop_up_stamped idx P diff D : 0 < diff → ∀ fuel i d,
  Size d ≤ fuel + i →
  Size d ≤ length (local_depths_ d) → Size d ≤ length (bucket_page_ids_ d) →
  GetLocalDepth idx d = D →
  stamped (λ j, i ≤ j ∧ j < Size d ∧ j mod diff = i mod diff) P D d
          (loop_up fuel i diff (stamp idx P) d).
Proof.
  intros Hdiff. induction fuel as [|fuel IH]; intros i d Hfuel Hl Hp Hidx.
  { apply stamped_none. intros j. lia. }
  cbn [loop_up]. destruct (i <? Size d) eqn:Hlt.
  - apply Nat.ltb_lt in Hlt.
    assert (i < length (local_depths_ d)) as Hil by lia.
    assert (i < length (bucket_page_ids_ d)) as Hip by lia.
    pose proof (stamped_stamp idx P i d Hil Hip) as Hst. rewrite Hidx in Hst.
    assert (same_shape d (stamp idx P i d)) as (Hg & Hll & Hlp) by apply Hst.
    assert (Size (stamp idx P i d) = Size d) as HS by (unfold Size; by rewrite Hg).
    eapply stamped_ext; [|eapply stamped_compose; [|exact Hst|apply IH]].
    + intros j. simpl. rewrite HS.
      replace ((i + diff) mod diff) with (i mod diff)
        by (replace (i + diff) with (i + 1 * diff) by lia; by rewrite Nat.Div0.mod_add).
      split.
      * intros [->|(Hle & Hj & Hmod)]; [done|]. split_and!; [lia|done|done].
      * intros (Hle & Hj & Hmod). destruct (decide (j = i)) as [->|Hne]; [by left|right].
        split_and!; [|done|done].
        pose proof (mod_eq_lt_gap j i diff Hdiff (eq_sym Hmod)). lia.
    + intros j. apply _.
    + rewrite HS. lia.
    + rewrite HS. lia.
    + rewrite HS. lia.
    + eapply stamped_ld_idx; [|exact Hst|done]. intros j. apply _.
  - apply Nat.ltb_ge in Hlt. apply stamped_none. intros j. lia.
Qed.

(** A downward and an upward loop from the same slot stamp every slot of
    the directory that is congruent to it. *)
Lemma loops_stamped idx P diff D start d :
  0 < diff → start < Size d →
  Size d ≤ length (local_depths_ d) → Size d ≤ length (bucket_page_ids_ d) →
  GetLocalDepth idx d = D →
  let d1 := loop_down (S start) start diff (stamp idx P) d in
  stamped (λ j, j < Size d ∧ j mod diff = start mod diff) P D d
          (loop_up (Size d1) start diff (stamp idx P) d1).
Proof.
  intros Hdiff Hstart Hl Hp Hidx d1.
  assert (stamped (λ j, j ≤ start ∧ j mod diff = start mod diff) P D d d1) as H1.
  { apply loop_down_stamped; [done|lia|lia|lia|done]. }
  assert (same_shape d d1) as (Hg & Hll & Hlp) by apply H1.
  assert (Size d1 = Size d) as HS by (unfold Size; by rewrite Hg).
  eapply stamped_ext; [|eapply stamped_compose; [|exact H1|apply loop_up_stamped]].
  - intros j. simpl. rewrite HS. split.
    + intros [[Hle Hmod]|(Hle & Hj & Hmod)]; split; [lia|done|done|done].
    + intros [Hj Hmod]. destruct (decide (j ≤ start)); [by left|right]. split_and!; [lia|done|done].
  - intros j. apply _.
  - done.
  - lia.
  - rewrite HS. lia.
  - rewrite HS. lia.
  - eapply stamped_ld_idx; [|exact H1|done]. intros j. apply _.
Qed.

(** What the directory part of [SplitInsert] does to a bucket of local
    depth [dd] below the global depth: the slots that agree with the split
    slot on [dd + 1] bits keep the split page, those that agree with its
    image get the image page, both at depth [dd + 1]; the rest is untouched. *)
Lemma split_directory_spec d idx sp im dd :
  Size d ≤ length (local_depths_ d) → Size d ≤ length (bucket_page_ids_ d) →
  idx < Size d → GetLocalDepth idx d = dd → dd < global_depth_ d →
  same_shape d (split_directory idx sp im d) ∧
  ∀ j, j < Size d →
    (agree (S dd) j (Nat.lxor idx (2 ^ dd)) →
       GetBucketPageId j (split_directory idx sp im d) = im ∧
       GetLocalDepth j (split_directory idx sp im d) = S dd) ∧
    (agree (S dd) j idx →
       GetBucketPageId j (split_directory idx sp im d) = sp ∧
       GetLocalDepth j (split_directory idx sp im d) = S dd) ∧
    (¬ agree (S dd) j idx → ¬ agree (S dd) j (Nat.lxor idx (2 ^ dd)) →
       GetBucketPageId j (split_directory idx sp im d) = GetBucketPageId j d ∧
       GetLocalDepth j (split_directory idx sp im d) = GetLocalDepth j d).
Proof.
  intros Hl Hp Hidx Hdd Hg. pose proof (Size_pow d) as HSp.
  set (img := Nat.lxor idx (2 ^ dd)).
  assert (img < Size d) as Himg by (rewrite HSp in *; by apply lxor_pow2_lt).
  set (dA := IncrLocalDepth idx d).
  assert (GetLocalDepth idx dA = S dd) as HldA.
  { unfold dA, IncrLocalDepth. rewrite ld_SetLocalDepth, decide_True by (done || lia). lia. }
  assert (same_shape d dA) as HshA by apply same_shape_SetLocalDepth.
  assert (GetSplitImageIndex idx dA = img) as Himage.
  { unfold GetSplitImageIndex. rewrite HldA, decide_False by done.
    unfold img. rewrite shiftl_1. do 2 f_equal. lia. }
  set (dB := SetLocalDepth img (GetLocalDepth idx dA) dA).
  set (dC := SetBucketPageId img im dB).
  assert (same_shape d dC) as HshC.
  { eapply same_shape_trans; [exact HshA|].
    eapply same_shape_trans; [apply same_shape_SetLocalDepth|apply same_shape_SetBucketPageId]. }
  destruct HshC as (HgC & HlC & HpC).
  assert (Size dC = Size d) as HSC by (unfold Size; by rewrite HgC).
  assert (GetLocalDepth idx dC = S dd) as HldC.
  { unfold dC, dB. rewrite ld_SetBucketPageId, ld_SetLocalDepth.
    - case_decide; done.
    - destruct HshA as (_ & -> & _). lia. }
  set (diff := 2 ^ S dd).
  assert (0 < diff) as Hdiff by apply pow2_pos.
  pose proof (loops_stamped idx sp diff (S dd) idx dC Hdiff) as H12.
  cbv zeta in H12. rewrite HSC in H12.
  specialize (H12 Hidx ltac:(lia) ltac:(lia) HldC).
  set (d2 := loop_up _ idx diff (stamp idx sp) _) in *.
  assert (same_shape dC d2) as (Hg2 & Hl2 & Hp2) by apply H12.
  assert (Size d2 = Size d) as HS2 by (unfold Size; rewrite Hg2, HgC; done).
  assert (GetLocalDepth idx d2 = S dd) as Hld2.
  { eapply stamped_ld_idx; [|exact H12|done]. intros j. apply _. }
  pose proof (loops_stamped idx im diff (S dd) img d2 Hdiff) as H34.
  cbv zeta in H34. rewrite HS2 in H34.
  specialize (H34 Himg ltac:(lia) ltac:(lia) Hld2).
  set (d4 := loop_up _ img diff (stamp idx im) _) in *.
  assert (same_shape d2 d4) as Hsh4 by apply H34.
  assert (split_directory idx sp im d = d4) as ->.
  { unfold split_directory. fold dA. rewrite Himage. fold dB. fold dC.
    rewrite HldC, shiftl_1. reflexivity. }
  split.
  { unfold same_shape in *. destruct Hsh4 as (?&?&?). split_and!; congruence. }
  intros j Hj. destruct H12 as [_ H12], H34 as [_ H34].
  assert (¬ (agree (S dd) j idx ∧ agree (S dd) j img)) as Hexcl.
  { intros [H1 H2]. apply (agree_image_ne dd idx).
    eapply agree_trans; [apply agree_sym, H1|exact H2]. }
  split_and!.
  - intros Ha. by apply H34.
  - intros Ha.
    destruct (proj2 (H34 j)) as [-> ->]; [intros [_ ?]; by apply Hexcl|].
    by apply H12.
  - intros Hn1 Hn2.
    destruct (proj2 (H34 j)) as [-> ->]; [by intros [_ ?]|].
    destruct (proj2 (H12 j)) as [-> ->]; [by intros [_ ?]|].
    assert (j ≠ idx) by (intros ->; by apply Hn1).
    assert (j ≠ img) by (intros ->; by apply Hn2).
    unfold dC, dB. rewrite pid_SetBucketPageId, ld_SetBucketPageId.
    + rewrite decide_False by done. rewrite pid_SetLocalDepth, ld_SetLocalDepth.
      * rewrite decide_False by done. unfold dA, IncrLocalDepth.
        rewrite pid_SetLocalDepth, ld_SetLocalDepth by lia. by rewrite decide_False.
      * destruct HshA as (_ & -> & _). lia.
    + simpl. lia.
Qed.

(** *** The invariant kept by the operations *)

(** The directory invariant, with what its preservation rests on: the
    arrays have their full length, the global depth is within bounds, and
    every page id of the directory was handed out before [next]. *)
Record dir_wf (d : HashTableDirectoryPage) (next : Z) : Prop := mkDirWf {
  wf_len_ld : length (local_depths_ d) = DIRECTORY_ARRAY_SIZE;
  wf_len_pid : length (bucket_page_ids_ d) = DIRECTORY_ARRAY_SIZE;
  wf_depth : global_depth_ d ≤ MAX_BUCKET_DEPTH;
  wf_inv : directory_invariant d;
  wf_fresh : ∀ i, i < 2 ^ global_depth_ d → (GetBucketPageId i d < next)%Z
}.

Lemma dir_wf_Size d next : dir_wf d next → Size d ≤ DIRECTORY_ARRAY_SIZE.
Proof.
  intros Hwf. rewrite Size_pow. unfold DIRECTORY_ARRAY_SIZE.
  apply Nat.pow_le_mono_r; [lia|apply Hwf].
Qed.

Lemma copy_lower_half_length {A} n (l : list A) :
  n + n ≤ length l → length (copy_lower_half n l) = length l.
Proof.
  intros Hn. unfold copy_lower_half.
  rewrite !length_app, !length_take, length_drop. lia.
Qed.

Lemma copy_lower_half_lookup `{!Inhabited A} n (l : list A) j :
  0 < n → n + n ≤ length l → j < n + n → copy_lower_half n l !!! j = l !!! (j mod n).
Proof.
  intros Hpos Hn Hj. unfold copy_lower_half.
  assert (length (take n l) = n) as Hlen by (rewrite length_take; lia).
  destruct (decide (j < n)) as [Hlt|Hge].
  - rewrite lookup_total_app_l by lia. rewrite lookup_total_take_lt by done.
    by rewrite Nat.mod_small.
  - rewrite lookup_total_app_r by lia. rewrite Hlen.
    rewrite lookup_total_app_l by lia. rewrite lookup_total_take_lt by lia.
    f_equal. replace j with ((j - n) + 1 * n) at 2 by lia.
    rewrite Nat.Div0.mod_add. rewrite Nat.mod_small; lia.
Qed.

Lemma IncrGlobalDepth_wf d next :
  dir_wf d next → global_depth_ d < MAX_BUCKET_DEPTH → dir_wf (IncrGlobalDepth d) next.
Proof.
  intros [Hl Hp Hg Hinv Hfresh] Hlt.
  assert (Size d + Size d ≤ DIRECTORY_ARRAY_SIZE) as Hsz.
  { rewrite Size_pow. unfold DIRECTORY_ARRAY_SIZE.
    replace (2 ^ global_depth_ d + 2 ^ global_depth_ d) with (2 ^ S (global_depth_ d))
      by (rewrite Nat.pow_succ_r'; lia).
    apply Nat.pow_le_mono_r; lia. }
  assert (0 < Size d) as Hpos by (rewrite Size_pow; apply pow2_pos).
  assert (∀ i, i < 2 ^ S (global_depth_ d) →
    GetLocalDepth i (IncrGlobalDepth d) = GetLocalDepth (i mod 2 ^ global_depth_ d) d ∧
    GetBucketPageId i (IncrGlobalDepth d) = GetBucketPageId (i mod 2 ^ global_depth_ d) d)
    as Hlook.
  { intros i Hi. rewrite Nat.pow_succ_r' in Hi. unfold GetLocalDepth, GetBucketPageId. simpl.
    rewrite !copy_lower_half_lookup by (rewrite ?Size_pow in *; lia).
    by rewrite Size_pow. }
  assert (∀ i, i mod 2 ^ global_depth_ d < 2 ^ global_depth_ d) as Hmod.
  { intros i. apply Nat.mod_upper_bound. pose proof (pow2_pos (global_depth_ d)). lia. }
  split; simpl.
  - rewrite copy_lower_half_length; lia.
  - rewrite copy_lower_half_length; lia.
  - lia.
  - intros i Hi. simpl in Hi. destruct (Hlook i Hi) as [-> ->].
    destruct (Hinv _ (Hmod i)) as [Hld Hiff].
    split; [cbn [global_depth_ IncrGlobalDepth]; lia|].
    intros j Hj. simpl in Hj. destruct (Hlook j Hj) as [_ ->].
    rewrite (Hiff _ (Hmod j)). split; intros Ha.
    + eapply agree_trans; [apply agree_sym, agree_mod; exact Hld|].
      eapply agree_trans; [exact Ha|]. by apply agree_mod.
    + eapply agree_trans; [apply agree_mod; exact Hld|].
      eapply agree_trans; [exact Ha|]. by apply agree_sym, agree_mod.
  - intros i Hi. destruct (Hlook i Hi) as [_ ->]. apply Hfresh, Hmod.
Qed.

Lemma IncrGlobalDepth_low d i :
  Size d + Size d ≤ length (local_depths_ d) →
  Size d + Size d ≤ length (bucket_page_ids_ d) →
  i < Size d →
  GetLocalDepth i (IncrGlobalDepth d) = GetLocalDepth i d ∧
  GetBucketPageId i (IncrGlobalDepth d) = GetBucketPageId i d.
Proof.
  intros Hl Hp Hi. unfold GetLocalDepth, GetBucketPageId. simpl.
  rewrite !copy_lower_half_lookup by lia. by rewrite Nat.mod_small.
Qed.

(** The split of a bucket whose local depth is below the global depth. *)
Lemma split_directory_wf d next idx :
  dir_wf d next → idx < 2 ^ global_depth_ d →
  GetLocalDepth idx d < global_depth_ d →
  dir_wf (split_directory idx (GetBucketPageId idx d) next d) (next + 1).
Proof.
  intros Hwf Hidx Hdd. pose proof (dir_wf_Size d next Hwf) as HSz.
  destruct Hwf as [Hl Hp Hg Hinv Hfresh].
  set (dd := GetLocalDepth idx d) in *. set (sp := GetBucketPageId idx d).
  set (img := Nat.lxor idx (2 ^ dd)).
  destruct (split_directory_spec d idx sp next dd) as [(Hg' & Hl' & Hp') Hspec];
    [lia|lia|by rewrite Size_pow|done|done|].
  set (d' := split_directory idx sp next d) in *.
  assert (sp < next)%Z as Hsp by (by apply Hfresh).
  assert (∀ j, agree dd idx j ↔ agree (S dd) j idx ∨ agree (S dd) j img) as Hcls.
  { intros j. split.
    - intros Ha. destruct (agree_split dd idx j Ha) as [?|?]; [left|right]; by apply agree_sym.
    - intros [Ha|Ha].
      + apply agree_sym. eapply agree_mono; [|exact Ha]. lia.
      + eapply agree_trans; [apply agree_image|].
        apply agree_sym. eapply agree_mono; [|exact Ha]. lia. }
  assert (¬ agree (S dd) idx img) as Hne by apply agree_image_ne.
  assert (∀ j, j < 2 ^ global_depth_ d → ¬ agree dd idx j →
               GetBucketPageId j d ≠ sp ∧ GetBucketPageId j d ≠ next) as Hother.
  { intros j Hj Hna. split.
    - intros Heq. apply Hna. apply (proj2 (Hinv idx Hidx) j Hj). done.
    - specialize (Hfresh j Hj). lia. }
  split.
  - congruence.
  - congruence.
  - congruence.
  - intros i Hi. rewrite Hg' in Hi.
    assert (i < Size d) as HiS by (by rewrite Size_pow).
    destruct (Hspec i HiS) as (HI & HS & HN).
    destruct (decide (agree (S dd) i img)) as [Hii|Hii];
      [|destruct (decide (agree (S dd) i idx)) as [His|His]].
    + destruct (HI Hii) as [-> ->]. split; [lia|]. intros j Hj. rewrite Hg' in Hj.
      assert (j < Size d) as HjS by (by rewrite Size_pow).
      destruct (Hspec j HjS) as (HIj & HSj & HNj).
      destruct (decide (agree (S dd) j img)) as [Hji|Hji];
        [|destruct (decide (agree (S dd) j idx)) as [Hjs|Hjs]].
      * destruct (HIj Hji) as [-> _]. split; [intros _|done].
        eapply agree_trans; [exact Hii|by apply agree_sym].
      * destruct (HSj Hjs) as [-> _]. split; [lia|]. intros Ha. exfalso. apply Hne.
        eapply agree_trans; [apply agree_sym, Hjs|].
        eapply agree_trans; [apply agree_sym, Ha|done].
      * destruct (HNj Hjs Hji) as [-> _]. split.
        -- intros Heq. exfalso. specialize (Hfresh j Hj). lia.
        -- intros Ha. exfalso. apply Hji. eapply agree_trans; [apply agree_sym, Ha|done].
    + destruct (HS His) as [-> ->]. split; [lia|]. intros j Hj. rewrite Hg' in Hj.
      assert (j < Size d) as HjS by (by rewrite Size_pow).
      destruct (Hspec j HjS) as (HIj & HSj & HNj).
      destruct (decide (agree (S dd) j img)) as [Hji|Hji];
        [|destruct (decide (agree (S dd) j idx)) as [Hjs|Hjs]].
      * destruct (HIj Hji) as [-> _]. split; [lia|]. intros Ha. exfalso. apply Hne.
        eapply agree_trans; [apply agree_sym, His|].
        eapply agree_trans; [exact Ha|done].
      * destruct (HSj Hjs) as [-> _]. split; [intros _|done].
        eapply agree_trans; [exact His|by apply agree_sym].
      * destruct (HNj Hjs Hji) as [-> _]. split.
        -- intros Heq. exfalso.
           assert (¬ agree dd idx j) as Hna by (rewrite Hcls; tauto).
           by destruct (Hother j Hj Hna).
        -- intros Ha. exfalso. apply Hjs. eapply agree_trans; [apply agree_sym, Ha|done].
    + destruct (HN His Hii) as [-> ->].
      assert (¬ agree dd idx i) as Hnai by (rewrite Hcls; tauto).
      destruct (Hother i Hi Hnai) as [Hisp Hinext].
      destruct (Hinv i Hi) as [Hld Hiff]. split; [lia|]. intros j Hj. rewrite Hg' in Hj.
      assert (j < Size d) as HjS by (by rewrite Size_pow).
      destruct (Hspec j HjS) as (HIj & HSj & HNj).
      assert (agree dd idx j → ¬ agree (GetLocalDepth i d) i j) as Hcross.
      { intros Haj Ha. apply Hisp.
        rewrite (proj2 (Hiff j Hj) Ha). symmetry.
        apply (proj2 (Hinv idx Hidx) j Hj). done. }
      destruct (decide (agree (S dd) j img)) as [Hji|Hji];
        [|destruct (decide (agree (S dd) j idx)) as [Hjs|Hjs]].
      * destruct (HIj Hji) as [-> _]. split; [done|]. intros Ha. exfalso.
        apply (Hcross ltac:(rewrite Hcls; tauto) Ha).
      * destruct (HSj Hjs) as [-> _]. split; [done|]. intros Ha. exfalso.
        apply (Hcross ltac:(rewrite Hcls; tauto) Ha).
      * destruct (HNj Hjs Hji) as [-> _]. by apply Hiff.
  - intros i Hi. rewrite Hg' in Hi.
    assert (i < Size d) as HiS by (by rewrite Size_pow).
    destruct (Hspec i HiS) as (HI & HS & HN).
    destruct (decide (agree (S dd) i img)) as [Hii|Hii];
      [|destruct (decide (agree (S dd) i idx)) as [His|His]].
    + destruct (HI Hii) as [-> _]. lia.
    + destruct (HS His) as [-> _]. lia.
    + destruct (HN His Hii) as [-> _]. specialize (Hfresh i Hi). lia.
Qed.

(** The loop of [Merge]: every slot that holds the target or the image page
    gets the image page and the decremented depth. *)
Lemma merge_fold_stamped t tp ip D : ∀ n a d,
  GetLocalDepth t d = D →
  a + n ≤ length (local_depths_ d) → a + n ≤ length (bucket_page_ids_ d) →
  stamped (λ j, (a ≤ j ∧ j < a + n) ∧ (GetBucketPageId j d = tp ∨ GetBucketPageId j d = ip))
          ip D d
          (foldl (λ d i,
                    if bool_decide (GetBucketPageId i d = tp) || bool_decide (GetBucketPageId i d = ip)
                    then SetLocalDepth i (GetLocalDepth t (SetBucketPageId i ip d))
                                       (SetBucketPageId i ip d)
                    else d) d (seq a n)).
Proof.
  induction n as [|n IH]; intros a d HD Hl Hp.
  { apply stamped_none. intros j. lia. }
  cbn [seq foldl].
  set (d1 := if bool_decide (GetBucketPageId a d = tp) || bool_decide (GetBucketPageId a d = ip)
             then _ else d).
  assert (stamped (λ j, j = a ∧ (GetBucketPageId j d = tp ∨ GetBucketPageId j d = ip))
                  ip D d d1) as H1.
  { unfold d1. destruct (_ || _) eqn:Hc.
    - apply orb_true_iff in Hc. rewrite !bool_decide_eq_true in Hc.
      eapply stamped_ext; [|rewrite <-HD; apply (stamped_stamp t ip a d); lia].
      intros j. split; [by intros ->|by intros [-> _]].
    - apply orb_false_iff in Hc. rewrite !bool_decide_eq_false in Hc.
      apply stamped_none. intros j [-> ?]. tauto. }
  assert (same_shape d d1) as (Hg1 & Hl1 & Hp1) by apply H1.
  eapply stamped_ext; [|eapply stamped_compose; [|exact H1|apply (IH (S a) d1)]].
  - intros j. simpl. split.
    + intros [[-> Hc]|[Hr Hc]]; [split; [lia|done]|].
      split; [lia|]. destruct (proj2 (proj2 H1 j)) as [<- _]; [lia|done].
    + intros [Hr Hc]. destruct (decide (j = a)) as [->|Hne]; [by left|right].
      split; [lia|]. destruct (proj2 (proj2 H1 j)) as [-> _]; [tauto|done].
  - intros j. apply _.
  - eapply stamped_ld_idx; [|exact H1|done]. intros j. apply _.
  - lia.
  - lia.
Qed.

(** What the directory part of [Merge] does: the assertion on the two local
    depths holds, and the slots of the emptied bucket and of its image all
    point to the image page; the rest is untouched. *)
Lemma merge_spec d next t :
  dir_wf d next → t < 2 ^ global_depth_ d →
  GetLocalDepth t d ≠ 0 →
  GetLocalDepth t d = GetLocalDepth (GetSplitImageIndex t d) d →
  let img := GetSplitImageIndex t d in
  let tp := GetBucketPageId t d in
  let ip := GetBucketPageId img d in
  let dC := DecrLocalDepth img (DecrLocalDepth t (SetBucketPageId t ip d)) in
  let d' := merge_slots t tp ip dC in
  dir_wf d' next ∧ global_depth_ d' = global_depth_ d ∧
  img < 2 ^ global_depth_ d ∧ ip ≠ tp ∧
  GetLocalDepth t dC = GetLocalDepth img dC ∧
  ∀ j, j < 2 ^ global_depth_ d →
    GetBucketPageId j d' =
      if decide (GetBucketPageId j d = tp ∨ GetBucketPageId j d = ip) then ip
      else GetBucketPageId j d.
Proof.
  intros Hwf Ht Hnz Heq. cbv zeta. pose proof (dir_wf_Size d next Hwf) as HSz.
  destruct Hwf as [Hl Hp Hg Hinv Hfresh].
  set (tp := GetBucketPageId t d).
  destruct (GetLocalDepth t d) as [|e] eqn:Hld; [done|].
  assert (GetSplitImageIndex t d = Nat.lxor t (2 ^ e)) as Himage.
  { unfold GetSplitImageIndex. rewrite Hld, decide_False by done.
    rewrite shiftl_1. do 2 f_equal. lia. }
  rewrite Himage in *. clear Himage. set (img := Nat.lxor t (2 ^ e)) in *.
  set (ip := GetBucketPageId img d).
  destruct (Hinv t Ht) as [Hldt Hit]. rewrite Hld in Hldt, Hit.
  assert (img < 2 ^ global_depth_ d) as Himg by (apply lxor_pow2_lt; [done|lia]).
  destruct (Hinv img Himg) as [_ Hii]. rewrite <-Heq in Hii.
  assert (ip ≠ tp) as Hiptp.
  { intros Hip. apply (agree_image_ne e t). apply Hit; [done|]. symmetry. exact Hip. }
  set (dA := SetBucketPageId t ip d).
  set (dB := DecrLocalDepth t dA).
  set (dC := DecrLocalDepth img dB).
  assert (global_depth_ dC = global_depth_ d) as HgC by done.
  assert (length (local_depths_ dC) = length (local_depths_ d)) as HlC.
  { unfold dC, dB, DecrLocalDepth. simpl. by rewrite !length_insert. }
  assert (length (bucket_page_ids_ dC) = length (bucket_page_ids_ d)) as HpC.
  { unfold dC, dB, dA, DecrLocalDepth. simpl. by rewrite !length_insert. }
  assert (∀ j, GetBucketPageId j dC = if decide (j = t) then ip else GetBucketPageId j d) as HpidC.
  { intros j. unfold dC, dB, DecrLocalDepth. rewrite !pid_SetLocalDepth.
    apply pid_SetBucketPageId. rewrite Size_pow in HSz. lia. }
  assert (GetLocalDepth t dB = e) as HldtB.
  { unfold dB, DecrLocalDepth. rewrite ld_SetLocalDepth by (simpl; rewrite Size_pow in HSz; lia).
    rewrite decide_True by done. unfold dA. rewrite ld_SetBucketPageId, Hld. lia. }
  assert (img ≠ t) as Himgt.
  { intros Hit'. apply (agree_image_ne e t). fold img. rewrite Hit'. apply agree_refl. }
  assert (∀ j, GetLocalDepth j dC =
               if decide (j = img) then e else if decide (j = t) then e else GetLocalDepth j d)
    as HldC.
  { intros j. unfold dC, DecrLocalDepth.
    rewrite ld_SetLocalDepth.
    2:{ unfold dB, DecrLocalDepth. simpl. rewrite length_insert. rewrite Size_pow in HSz. lia. }
    case_decide as Hj.
    - unfold dB, DecrLocalDepth. rewrite ld_SetLocalDepth by (simpl; rewrite Size_pow in HSz; lia).
      rewrite decide_False by done. unfold dA. rewrite ld_SetBucketPageId, <-Heq. lia.
    - unfold dB, DecrLocalDepth. rewrite ld_SetLocalDepth by (simpl; rewrite Size_pow in HSz; lia).
      case_decide; [subst j; unfold dA; rewrite ld_SetBucketPageId, Hld; lia|done]. }
  assert (GetLocalDepth t dC = e) as HldtC.
  { rewrite HldC. rewrite decide_False by done. by rewrite decide_True. }
  pose proof (merge_fold_stamped t tp ip e (Size dC) 0 dC HldtC) as Hst.
  assert (Size dC = Size d) as HSC by (unfold Size; by rewrite HgC).
  specialize (Hst ltac:(lia) ltac:(lia)).
  change (foldl _ dC (seq 0 (Size dC))) with (merge_slots t tp ip dC) in Hst.
  set (d' := merge_slots t tp ip dC) in *.
  destruct Hst as [(Hg' & Hl' & Hp') Hst].
  (* the slots of the two buckets, in terms of the directory before *)
  assert (∀ j, j < 2 ^ global_depth_ d →
    (GetBucketPageId j d = tp ∨ GetBucketPageId j d = ip) ↔ agree e t j) as Hcls.
  { intros j Hj. split.
    - intros [Hj'|Hj'].
      + eapply agree_mono; [|apply Hit; [done|]; by rewrite Hj']. lia.
      + eapply agree_trans; [apply agree_image|]. fold img.
        eapply agree_mono; [|apply Hii; [done|]; by rewrite Hj']. lia.
    - intros Ha. destruct (agree_split e t j Ha) as [Ha'|Ha'].
      + left. symmetry. by apply Hit.
      + right. symmetry. by apply Hii. }
  assert (∀ j, j < 2 ^ global_depth_ d →
    (GetBucketPageId j d = tp ∨ GetBucketPageId j d = ip) →
    GetBucketPageId j d' = ip ∧ GetLocalDepth j d' = e) as Hin.
  { intros j Hj Hc. apply Hst. split; [rewrite HSC, Size_pow; lia|].
    rewrite HpidC. case_decide; [by right|done]. }
  assert (∀ j, j < 2 ^ global_depth_ d →
    ¬ (GetBucketPageId j d = tp ∨ GetBucketPageId j d = ip) →
    GetBucketPageId j d' = GetBucketPageId j d ∧ GetLocalDepth j d' = GetLocalDepth j d) as Hout.
  { intros j Hj Hc.
    assert (j ≠ t) as Hjt by (intros ->; apply Hc; by left).
    assert (j ≠ img) as Hji by (intros ->; apply Hc; by right).
    destruct (proj2 (Hst j)) as [-> ->].
    - rewrite HpidC, decide_False by done. tauto.
    - rewrite HpidC, HldC. by rewrite !decide_False. }
  split_and!; [split|congruence|done|done| |].
  - congruence.
  - congruence.
  - congruence.
  - intros i Hi. rewrite Hg', HgC in Hi.
    destruct (decide (GetBucketPageId i d = tp ∨ GetBucketPageId i d = ip)) as [Hci|Hci].
    + destruct (Hin i Hi Hci) as [-> ->]. split; [rewrite Hg', HgC; lia|].
      intros j Hj. rewrite Hg', HgC in Hj.
      destruct (decide (GetBucketPageId j d = tp ∨ GetBucketPageId j d = ip)) as [Hcj|Hcj].
      * destruct (Hin j Hj Hcj) as [-> _]. split; [intros _|done].
        eapply agree_trans;
          [apply agree_sym, (proj1 (Hcls i Hi) Hci)|apply (proj1 (Hcls j Hj) Hcj)].
      * destruct (Hout j Hj Hcj) as [-> _]. split.
        -- intros Heq'. exfalso. apply Hcj. by right.
        -- intros Ha. exfalso. apply Hcj. apply (proj2 (Hcls j Hj)).
           eapply agree_trans; [apply (proj1 (Hcls i Hi) Hci)|exact Ha].
    + destruct (Hout i Hi Hci) as [-> ->]. destruct (Hinv i Hi) as [Hldi Hiff].
      split; [rewrite Hg', HgC; lia|].
      intros j Hj. rewrite Hg', HgC in Hj.
      destruct (decide (GetBucketPageId j d = tp ∨ GetBucketPageId j d = ip)) as [Hcj|Hcj].
      * destruct (Hin j Hj Hcj) as [-> _]. split.
        -- intros Heq'. exfalso. apply Hci. by right.
        -- intros Ha. exfalso. apply Hci. by rewrite (proj2 (Hiff j Hj) Ha).
      * destruct (Hout j Hj Hcj) as [-> _]. by apply Hiff.
  - intros i Hi. rewrite Hg', HgC in Hi.
    destruct (decide (GetBucketPageId i d = tp ∨ GetBucketPageId i d = ip)) as [Hci|Hci].
    + destruct (Hin i Hi Hci) as [-> _]. by apply Hfresh.
    + destruct (Hout i Hi Hci) as [-> _]. by apply Hfresh.
  - rewrite HldtC, HldC. by rewrite decide_True.
  - intros j Hj. case_decide as Hc.
    + by destruct (Hin j Hj Hc).
    + by destruct (Hout j Hj Hc).
Qed.

Lemma merge_wf d next t :
  dir_wf d next → t < 2 ^ global_depth_ d →
  GetLocalDepth t d ≠ 0 →
  GetLocalDepth t d = GetLocalDepth (GetSplitImageIndex t d) d →
  let ip := GetBucketPageId (GetSplitImageIndex t d) d in
  dir_wf (merge_slots t (GetBucketPageId t d) ip
            (DecrLocalDepth (GetSplitImageIndex t d)
               (DecrLocalDepth t (SetBucketPageId t ip d)))) next.
Proof. intros Hwf Ht Hnz Heq. exact (proj1 (merge_spec d next t Hwf Ht Hnz Heq)). Qed.

Lemma CanShrink_true d :
  CanShrink d = true → ∀ i, i < 2 ^ global_depth_ d → GetLocalDepth i d < global_depth_ d.
Proof.
  unfold CanShrink. rewrite forallb_forall. intros Hall i Hi.
  apply Nat.ltb_lt, Hall, in_seq. rewrite Size_pow. lia.
Qed.

Lemma shrink_wf fuel : ∀ d next, dir_wf d next → dir_wf (shrink fuel d) next.
Proof.
  induction fuel as [|fuel IH]; intros d next Hwf; [done|].
  cbn [shrink]. destruct (CanShrink d) eqn:Hc; [|done].
  apply IH. pose proof (CanShrink_true d Hc) as Hlt.
  destruct Hwf as [Hl Hp Hg Hinv Hfresh].
  assert (0 < global_depth_ d) as Hpos.
  { specialize (Hlt 0 (pow2_pos _)). lia. }
  assert (2 ^ (global_depth_ d - 1) ≤ 2 ^ global_depth_ d) as Hle
    by (apply Nat.pow_le_mono_r; lia).
  split; simpl; [done|done|lia| |].
  - intros i Hi. simpl in Hi. destruct (Hinv i ltac:(lia)) as [_ Hiff].
    split; [change (GetLocalDepth i d ≤ global_depth_ d - 1); specialize (Hlt i ltac:(lia)); lia|].
    intros j Hj. simpl in Hj. apply Hiff. lia.
  - intros i Hi. apply Hfresh. lia.
Qed.

(** *** The table *)

Definition inited (t : ExtendibleHashTable) : Prop :=
  directory_page_id_ t ≠ INVALID_PAGE_ID ∧ dir_wf (dir_page t) (next_page_id t).

(** Before the first operation the directory page does not exist yet. *)
Definition table_wf (t : ExtendibleHashTable) : Prop :=
  (directory_page_id_ t = INVALID_PAGE_ID ∧ dir_page t = zero_directory) ∨ inited t.

Lemma DIRECTORY_ARRAY_SIZE_pos : 0 < DIRECTORY_ARRAY_SIZE.
Proof. apply pow2_pos. Qed.

Lemma zero_directory_invariant : directory_invariant zero_directory.
Proof.
  intros i Hi. simpl in Hi. assert (i = 0) as -> by lia. split.
  - unfold GetLocalDepth. simpl.
    rewrite lookup_total_replicate_2 by apply DIRECTORY_ARRAY_SIZE_pos. done.
  - intros j Hj. simpl in Hj. assert (j = 0) as -> by lia. done.
Qed.

Lemma FetchDirectoryPage_wf t t' :
  table_wf t → FetchDirectoryPage t = Some t' → inited t'.
Proof.
  intros Hwf. unfold FetchDirectoryPage.
  destruct (decide (directory_page_id_ t = INVALID_PAGE_ID)) as [Hinv|Hinv].
  - destruct (decide (next_page_id t = INVALID_PAGE_ID)) as [|Hnext]; [done|].
    intros [= <-]. split; [done|]. simpl.
    pose proof DIRECTORY_ARRAY_SIZE_pos as Hpos.
    split; simpl.
    + by rewrite length_replicate.
    + by rewrite length_insert, length_replicate.
    + lia.
    + intros i Hi. simpl in Hi. assert (i = 0) as -> by lia. split.
      * unfold GetLocalDepth. simpl. by rewrite lookup_total_replicate_2.
      * intros j Hj. simpl in Hj. assert (j = 0) as -> by lia. done.
    + intros i Hi. simpl in Hi. assert (i = 0) as -> by lia.
      unfold GetBucketPageId. simpl.
      rewrite list_lookup_total_insert_eq by (by rewrite length_replicate). lia.
  - intros [= <-]. destruct Hwf as [[? _]|?]; done.
Qed.

Lemma KeyToDirectoryIndex_mod key d :
  KeyToDirectoryIndex key d = Hash key mod 2 ^ global_depth_ d.
Proof. apply land_mask. Qed.

Lemma SplitInsert_with_wf retry key value t r t' :
  (∀ t r t', table_wf t → retry t = Some (r, t') → inited t') →
  table_wf t → SplitInsert_with retry key value t = Some (r, t') → inited t'.
Proof.
  intros Hretry Hwf. unfold SplitInsert_with.
  destruct (FetchDirectoryPage t) as [t1|] eqn:Hfetch; [|done]. simpl.
  destruct (FetchDirectoryPage_wf _ _ Hwf Hfetch) as [Hid Hd].
  set (d := dir_page t1) in *. set (idx := KeyToDirectoryIndex key d).
  destruct (MAX_BUCKET_DEPTH <=? GetLocalDepth idx d) eqn:Hmax.
  { intros [= <- <-]. by split. }
  apply Nat.leb_gt in Hmax.
  assert (0 < 2 ^ global_depth_ d) as Hpos by apply pow2_pos.
  assert (idx < 2 ^ global_depth_ d) as Hidx.
  { unfold idx. rewrite KeyToDirectoryIndex_mod. apply Nat.mod_upper_bound. lia. }
  destruct (wf_inv _ _ Hd idx Hidx) as [Hld _].
  set (d1 := if decide (GetLocalDepth idx d = GetGlobalDepth d) then IncrGlobalDepth d else d).
  assert (dir_wf d1 (next_page_id t1) ∧ idx < 2 ^ global_depth_ d1 ∧
          GetLocalDepth idx d1 < global_depth_ d1 ∧
          GetLocalDepth idx d1 ≤ global_depth_ d ∧ global_depth_ d ≤ global_depth_ d1)
    as (Hd1 & Hidx1 & Hld1 & Hld1' & Hgg).
  { unfold d1. case_decide as Hfull.
    - unfold GetGlobalDepth in Hfull.
      pose proof (dir_wf_Size _ _ Hd) as HSz.
      assert (Size d + Size d ≤ DIRECTORY_ARRAY_SIZE) as HSz2.
      { rewrite Size_pow. unfold DIRECTORY_ARRAY_SIZE.
        replace (2 ^ global_depth_ d + 2 ^ global_depth_ d) with (2 ^ S (global_depth_ d))
          by (rewrite Nat.pow_succ_r'; lia).
        apply Nat.pow_le_mono_r; lia. }
      destruct (IncrGlobalDepth_low d idx) as [Hlow _];
        [rewrite (wf_len_ld _ _ Hd); lia|rewrite (wf_len_pid _ _ Hd); lia|by rewrite Size_pow|].
      split_and!.
      + apply IncrGlobalDepth_wf; [done|lia].
      + simpl. lia.
      + rewrite Hlow. simpl. lia.
      + rewrite Hlow. lia.
      + simpl. lia.
    - split_and!; [done|done|unfold GetGlobalDepth in Hfull; lia|lia|lia]. }
  assert (KeyToPageId key d1 = GetBucketPageId idx d1) as ->.
  { unfold KeyToPageId. rewrite KeyToDirectoryIndex_mod. symmetry.
    apply (wf_inv _ _ Hd1 idx Hidx1).
    - apply Nat.mod_upper_bound. pose proof (pow2_pos (global_depth_ d1)). lia.
    - assert (idx = Hash key mod 2 ^ global_depth_ d) as Hidx_eq
        by apply KeyToDirectoryIndex_mod.
      apply (agree_trans _ _ (Hash key)).
      + rewrite Hidx_eq at 2. apply agree_mod. exact Hld1'.
      + apply agree_sym, agree_mod. apply Nat.lt_le_incl, Hld1. }
  destruct (buckets t1 !! GetBucketPageId idx d1) as [origin|]; [|done]. simpl.
  destruct (rehash _ _ _ _ _ _ _) as [[split_bucket image_bucket]|]; [|done]. simpl.
  apply Hretry. right. split; [done|]. simpl.
  by apply split_directory_wf.
Qed.

Lemma Insert_wf fuel key value : ∀ t r t',
  table_wf t → Insert fuel key value t = Some (r, t') → inited t'.
Proof.
  induction fuel as [|fuel IH]; intros t r t' Hwf; [done|].
  cbn [Insert].
  destruct (FetchDirectoryPage t) as [t1|] eqn:Hfetch; [|done]. simpl.
  pose proof (FetchDirectoryPage_wf _ _ Hwf Hfetch) as Ht1.
  destruct (buckets t1 !! _) as [bucket|]; [|done]. simpl.
  destruct (negb (IsFull bucket)).
  - destruct (bucket_Insert key value bucket) as [res bucket']. intros [= <- <-]. done.
  - apply SplitInsert_with_wf; [exact IH|by right].
Qed.

Lemma shrink_S_wf fuel d next :
  dir_wf d next → dir_wf (if CanShrink d then shrink fuel (DecrGlobalDepth d) else d) next.
Proof. exact (shrink_wf (S fuel) d next). Qed.

Lemma Merge_wf idx t t' : table_wf t → Merge idx t = Some t' → inited t'.
Proof.
  intros Hwf. unfold Merge.
  destruct (FetchDirectoryPage t) as [t1|] eqn:Hfetch; [|done]. cbn -[shrink merge_slots].
  pose proof (FetchDirectoryPage_wf _ _ Hwf Hfetch) as [Hid Hd].
  destruct (Size (dir_page t1) <=? idx) eqn:Hsz; [by intros [= <-]|].
  apply Nat.leb_gt in Hsz. rewrite Size_pow in Hsz.
  destruct (decide (GetLocalDepth idx (dir_page t1) = 0)); [by intros [= <-]|].
  destruct (decide (GetLocalDepth idx (dir_page t1) ≠ _)) as [|Heq]; [by intros [= <-]|].
  apply dec_stable in Heq.
  destruct (buckets t1 !! _) as [target_bucket|]; [|done]. cbn -[shrink merge_slots].
  destruct (negb (IsEmpty target_bucket)); [by intros [= <-]|].
  case_decide; [|done]. intros [= <-]. split; [done|]. cbn [dir_page next_page_id].
  apply shrink_S_wf. by apply merge_wf.
Qed.

Lemma Remove_wf key value t r t' :
  table_wf t → Remove key value t = Some (r, t') → inited t'.
Proof.
  intros Hwf. unfold Remove.
  destruct (FetchDirectoryPage t) as [t1|] eqn:Hfetch; [|done]. simpl.
  pose proof (FetchDirectoryPage_wf _ _ Hwf Hfetch) as Ht1.
  destruct (buckets t1 !! _) as [bucket|]; [|done]. simpl.
  destruct (bucket_Remove key value bucket) as [res bucket'].
  destruct (IsEmpty bucket').
  - destruct (Merge _ _) as [t2|] eqn:Hm; [|done]. simpl. intros [= <- <-].
    eapply Merge_wf; [|exact Hm]. by right.
  - by intros [= <- <-].
Qed.

Lemma run_ops_wf fuel ops : ∀ t rs t',
  table_wf t → run_ops fuel ops t = Some (rs, t') → table_wf t'.
Proof.
  induction ops as [|op ops IH]; intros t rs t' Hwf; [by intros [= <- <-]|].
  cbn [run_ops].
  destruct (run_op fuel op t) as [[res t1]|] eqn:Hop; [|done]. simpl.
  destruct (run_ops fuel ops t1) as [[rs' t2]|] eqn:Hops; [|done]. simpl.
  intros [= <- <-]. eapply IH; [|exact Hops]. right.
  destruct op; simpl in Hop; [by eapply Insert_wf|by eapply Remove_wf].
Qed.

Lemma run_ops_directory_invariant fuel ops first_page_id rs t' :
  run_ops fuel ops (empty_table first_page_id) = Some (rs, t') →
  directory_invariant (dir_page t').
Proof.
  intros Hrun.
  assert (table_wf t') as [[_ ->]|[_ Hd]].
  { eapply run_ops_wf; [|exact Hrun]. by left. }
  - apply zero_directory_invariant.
  - apply Hd.
Qed.

(** *** The buckets behind the directory

    Every slot of the directory has its bucket page; a bucket holds no pair
    twice, no more pairs than fit, and only keys that the directory sends to
    it. *)
Definition bucket_ok (d : HashTableDirectoryPage) (p : Z) (b : Bucket) : Prop :=
  length b ≤ BUCKET_ARRAY_SIZE ∧ NoDup b ∧
  ∀ k v, (k, v) ∈ b → GetBucketPageId (Hash k mod 2 ^ global_depth_ d) d = p.

Definition buckets_wf (d : HashTableDirectoryPage) (bs : gmap Z Bucket) : Prop :=
  ∀ i, i < 2 ^ global_depth_ d →
    ∃ b, bs !! GetBucketPageId i d = Some b ∧ bucket_ok d (GetBucketPageId i d) b.

Definition ready (t : ExtendibleHashTable) : Prop :=
  inited t ∧ buckets_wf (dir_page t) (buckets t).

Definition table_ok (t : ExtendibleHashTable) : Prop :=
  (directory_page_id_ t = INVALID_PAGE_ID ∧ dir_page t = zero_directory ∧
   (0 ≤ next_page_id t)%Z) ∨ ready t.

Lemma FetchDirectoryPage_ready t :
  table_ok t → ∃ t', FetchDirectoryPage t = Some t' ∧ ready t'.
Proof.
  intros [(Hid & Hd & Hnext)|Hr].
  - pose proof DIRECTORY_ARRAY_SIZE_pos as Hpos.
    assert (table_wf t) as Hwf by (by left).
    unfold FetchDirectoryPage in *. rewrite decide_True by done.
    rewrite decide_False by (unfold INVALID_PAGE_ID; lia).
    eexists. split; [reflexivity|]. split.
    + eapply FetchDirectoryPage_wf; [exact Hwf|].
      unfold FetchDirectoryPage. rewrite decide_True by done.
      by rewrite decide_False by (unfold INVALID_PAGE_ID; lia).
    + intros i Hi. simpl in Hi. assert (i = 0) as -> by lia. simpl.
      assert (GetBucketPageId 0 (SetBucketPageId 0 (next_page_id t + 1)%Z zero_directory)
              = (next_page_id t + 1)%Z) as Hp.
      { unfold GetBucketPageId. simpl.
        apply list_lookup_total_insert_eq. by rewrite length_replicate. }
      rewrite Hp. exists []. rewrite lookup_insert_eq. split; [done|].
      split_and!; [simpl; lia|apply NoDup_nil_2|]. by intros k v ?%elem_of_nil.
  - exists t. split; [|done]. unfold FetchDirectoryPage.
    destruct Hr as [[Hid _] _]. by rewrite decide_False.
Qed.

Lemma rehash_total mask d sp im : sp ≠ im → ∀ origin sb ib,
  NoDup origin → (∀ x, x ∈ origin → (x ∉ sb) ∧ (x ∉ ib)) →
  length sb + length ib + length origin ≤ BUCKET_ARRAY_SIZE →
  (∀ x, x ∈ origin →
     GetBucketPageId (Nat.land (Hash x.1) mask) d = sp ∨
     GetBucketPageId (Nat.land (Hash x.1) mask) d = im) →
  NoDup sb → NoDup ib →
  ∃ sb' ib', rehash origin mask d sp im sb ib = Some (sb', ib') ∧
    NoDup sb' ∧ NoDup ib' ∧
    length sb' + length ib' = length sb + length ib + length origin ∧
    (∀ x, x ∈ sb' ↔
       x ∈ sb ∨ (x ∈ origin ∧ GetBucketPageId (Nat.land (Hash x.1) mask) d = sp)) ∧
    (∀ x, x ∈ ib' ↔
       x ∈ ib ∨ (x ∈ origin ∧ GetBucketPageId (Nat.land (Hash x.1) mask) d = im)).
Proof.
  intros Hne. induction origin as [|tmp rest IH]; intros sb ib Hnd Hfresh Hlen Htarget Hsb Hib.
  { exists sb, ib. split_and!; [done|done|done|simpl; lia| |].
    - intros x. split; [by left|]. by intros [?|[?%elem_of_nil _]].
    - intros x. split; [by left|]. by intros [?|[?%elem_of_nil _]]. }
  apply NoDup_cons in Hnd as [Hhd Hnd]. simpl in Hlen.
  destruct (Hfresh tmp (list_elem_of_here _ _)) as [Hnsb Hnib].
  assert (∀ b : Bucket, tmp ∉ b → length b < BUCKET_ARRAY_SIZE →
          bucket_Insert tmp.1 tmp.2 b = (true, b ++ [tmp])) as Hins.
  { intros b Hb Hl. unfold bucket_Insert, IsFull. destruct tmp as [k v]. simpl.
    rewrite bool_decide_eq_false_2 by done.
    by rewrite (proj2 (Nat.leb_gt _ _) Hl). }
  assert (∀ b : Bucket, tmp ∉ b → ∀ x, x ∈ rest → x ∉ b → x ∉ b ++ [tmp]) as Hstill.
  { intros b Hb x Hx Hxb [?|Hs]%elem_of_app; [done|].
    apply list_elem_of_singleton in Hs as ->. done. }
  cbn [rehash].
  destruct (Htarget tmp (list_elem_of_here _ _)) as [Hp|Hp].
  - rewrite decide_True by done. rewrite Hins by (done || lia).
    destruct (IH (sb ++ [tmp]) ib) as (sb' & ib' & Hr & Hn1 & Hn2 & Hl & Hs & Hi); try done.
    + intros x Hx. destruct (Hfresh x (list_elem_of_further _ _ _ Hx)). split; [|done].
      by apply Hstill.
    + rewrite length_app. simpl. lia.
    + intros x Hx. apply Htarget. by right.
    + apply NoDup_app. split_and!; [done| |apply NoDup_singleton].
      intros x Hx Hs. apply list_elem_of_singleton in Hs as ->. done.
    + exists sb', ib'. split_and!; try done.
      * rewrite Hl, length_app. simpl. lia.
      * intros x. rewrite Hs, elem_of_app, list_elem_of_singleton, elem_of_cons.
        split; [intros [[?| ->]|[? ?]]; eauto|intros [?|[[ ->|?] ?]]; eauto].
      * intros x. rewrite Hi, elem_of_cons.
        split; [intros [?|[? ?]]; eauto|intros [?|[[ ->|?] Hx]]; eauto].
        congruence.
  - rewrite decide_False by congruence. rewrite decide_True by done.
    rewrite Hins by (done || lia).
    destruct (IH sb (ib ++ [tmp])) as (sb' & ib' & Hr & Hn1 & Hn2 & Hl & Hs & Hi); try done.
    + intros x Hx. destruct (Hfresh x (list_elem_of_further _ _ _ Hx)). split; [done|].
      by apply Hstill.
    + rewrite length_app. simpl. lia.
    + intros x Hx. apply Htarget. by right.
    + apply NoDup_app. split_and!; [done| |apply NoDup_singleton].
      intros x Hx Hs. apply list_elem_of_singleton in Hs as ->. done.
    + exists sb', ib'. split_and!; try done.
      * rewrite Hl, length_app. simpl. lia.
      * intros x. rewrite Hs, elem_of_cons.
        split; [intros [?|[? ?]]; eauto|intros [?|[[ ->|?] Hx]]; eauto].
        congruence.
      * intros x. rewrite Hi, elem_of_app, list_elem_of_singleton, elem_of_cons.
        split; [intros [[?| ->]|[? ?]]; eauto|intros [?|[[ ->|?] ?]]; eauto].
Qed.

Lemma mod_pow2_lt a g : a mod 2 ^ g < 2 ^ g.
Proof. apply Nat.mod_upper_bound. pose proof (pow2_pos g). lia. Qed.

Lemma IncrGlobalDepth_lookup d next i :
  dir_wf d next → global_depth_ d < MAX_BUCKET_DEPTH → i < 2 ^ S (global_depth_ d) →
  GetLocalDepth i (IncrGlobalDepth d) = GetLocalDepth (i mod 2 ^ global_depth_ d) d ∧
  GetBucketPageId i (IncrGlobalDepth d) = GetBucketPageId (i mod 2 ^ global_depth_ d) d.
Proof.
  intros [Hl Hp Hg Hinv Hfresh] Hlt Hi.
  assert (Size d + Size d ≤ DIRECTORY_ARRAY_SIZE) as Hsz.
  { rewrite Size_pow. unfold DIRECTORY_ARRAY_SIZE.
    replace (2 ^ global_depth_ d + 2 ^ global_depth_ d) with (2 ^ S (global_depth_ d))
      by (rewrite Nat.pow_succ_r'; lia).
    apply Nat.pow_le_mono_r; lia. }
  assert (0 < Size d) as Hpos by (rewrite Size_pow; apply pow2_pos).
  rewrite Nat.pow_succ_r' in Hi. unfold GetLocalDepth, GetBucketPageId. simpl.
  rewrite !copy_lower_half_lookup by (rewrite ?Size_pow in *; lia).
  by rewrite Size_pow.
Qed.

Lemma IncrGlobalDepth_buckets d next bs :
  dir_wf d next → global_depth_ d < MAX_BUCKET_DEPTH →
  buckets_wf d bs → buckets_wf (IncrGlobalDepth d) bs.
Proof.
  intros Hwf Hlt Hb i Hi. cbn [global_depth_ IncrGlobalDepth] in Hi.
  destruct (IncrGlobalDepth_lookup d next i Hwf Hlt Hi) as [_ ->].
  destruct (Hb (i mod 2 ^ global_depth_ d) (mod_pow2_lt _ _)) as (b & Hlook & Hlen & Hnd & Hpl).
  exists b. split; [done|]. split_and!; [done|done|].
  intros k v Hin. cbn [global_depth_ IncrGlobalDepth].
  destruct (IncrGlobalDepth_lookup d next (Hash k mod 2 ^ S (global_depth_ d)) Hwf Hlt
              (mod_pow2_lt _ _)) as [_ ->].
  rewrite (agree_mod (S (global_depth_ d)) (global_depth_ d) (Hash k)) by lia.
  by eapply Hpl.
Qed.

(** The buckets after the split of the bucket of slot [idx], whose pairs
    [origin] went to [sb] (kept page) and [ib] (image page). *)
Lemma split_buckets d next bs idx origin sb ib :
  dir_wf d next → buckets_wf d bs → idx < 2 ^ global_depth_ d →
  GetLocalDepth idx d < global_depth_ d →
  let sp := GetBucketPageId idx d in
  let d2 := split_directory idx sp next d in
  let tg x := Hash x.1 mod 2 ^ S (GetLocalDepth idx d) in
  bs !! sp = Some origin →
  NoDup sb → NoDup ib → length sb + length ib = length origin →
  (∀ x, x ∈ sb ↔ x ∈ origin ∧ GetBucketPageId (tg x) d2 = sp) →
  (∀ x, x ∈ ib ↔ x ∈ origin ∧ GetBucketPageId (tg x) d2 = next) →
  buckets_wf d2 (<[next := ib]> (<[sp := sb]> bs)).
Proof.
  intros Hwf Hb Hidx Hdd sp d2 tg Horigin Hnsb Hnib Hlen Hsb Hib.
  pose proof (dir_wf_Size d next Hwf) as HSz.
  destruct Hwf as [Hl Hp Hg Hinv Hfresh].
  set (dd := GetLocalDepth idx d) in *.
  set (img := Nat.lxor idx (2 ^ dd)).
  destruct (split_directory_spec d idx sp next dd) as [(Hg' & Hl' & Hp') Hspec];
    [lia|lia|by rewrite Size_pow|done|done|].
  fold d2 in Hg', Hl', Hp', Hspec.
  assert (sp < next)%Z as Hspn by (by apply Hfresh).
  assert (∀ j, j < 2 ^ global_depth_ d → j < Size d) as HS
    by (intros j Hj; by rewrite Size_pow).
  assert (∀ j, agree dd idx j ↔ agree (S dd) j idx ∨ agree (S dd) j img) as Hcls.
  { intros j. split.
    - intros Ha. destruct (agree_split dd idx j Ha) as [?|?]; [left|right]; by apply agree_sym.
    - intros [Ha|Ha].
      + apply agree_sym. eapply agree_mono; [|exact Ha]. lia.
      + eapply agree_trans; [apply agree_image|].
        apply agree_sym. eapply agree_mono; [|exact Ha]. lia. }
  assert (∀ j, j < 2 ^ global_depth_ d → GetBucketPageId j d = sp ↔ agree dd idx j) as Hsp.
  { intros j Hj. destruct (Hinv idx Hidx) as [_ Hiff]. fold dd in Hiff.
    rewrite <-(Hiff j Hj). unfold sp. split; congruence. }
  destruct (Hb idx Hidx) as (origin' & Ho' & Holen & Hond & Hopl).
  pose proof (eq_trans (eq_sym Ho') Horigin) as [= ->]. clear Ho'.
  change (GetBucketPageId idx d) with sp in Hopl.
  (* a key the old directory sends to the split page *)
  assert (∀ h, GetBucketPageId (h mod 2 ^ global_depth_ d) d = sp →
    GetBucketPageId (h mod 2 ^ global_depth_ d) d2 = GetBucketPageId (h mod 2 ^ S dd) d2) as Hsame.
  { intros h Hh. pose proof (mod_pow2_lt h (global_depth_ d)) as Hhg.
    assert (h mod 2 ^ S dd < 2 ^ global_depth_ d) as Htg.
    { eapply Nat.lt_le_trans; [apply mod_pow2_lt|]. apply Nat.pow_le_mono_r; lia. }
    assert (agree (S dd) (h mod 2 ^ global_depth_ d) (h mod 2 ^ S dd)) as Hag.
    { eapply agree_trans; [apply agree_mod; lia|]. apply agree_sym, agree_mod. lia. }
    apply Hsp in Hh; [|done]. apply Hcls in Hh as [Ha|Ha].
    - destruct (Hspec _ (HS _ Hhg)) as (_ & H1 & _).
      destruct (H1 Ha) as [-> _].
      destruct (Hspec _ (HS _ Htg)) as (_ & H2 & _).
      destruct H2 as [-> _]; [|done].
      eapply agree_trans; [apply agree_sym, Hag|done].
    - destruct (Hspec _ (HS _ Hhg)) as (H1 & _ & _).
      destruct (H1 Ha) as [-> _].
      destruct (Hspec _ (HS _ Htg)) as (H2 & _ & _).
      destruct H2 as [-> _]; [|done].
      eapply agree_trans; [apply agree_sym, Hag|done]. }
  assert (∀ j, j < 2 ^ global_depth_ d → GetBucketPageId j d ≠ sp →
    GetBucketPageId j d2 = GetBucketPageId j d) as Hkeep.
  { intros j Hj Hne. destruct (Hspec j (HS j Hj)) as (_ & _ & H3).
    destruct H3 as [-> _]; [| |done].
    - intros Ha. apply Hne, Hsp; [done|]. apply Hcls. by left.
    - intros Ha. apply Hne, Hsp; [done|]. apply Hcls. by right. }
  intros j Hj. rewrite Hg' in Hj. unfold bucket_ok. rewrite Hg'.
  destruct (decide (GetBucketPageId j d = sp)) as [Hjs|Hjs].
  - apply Hsp in Hjs; [|done]. apply Hcls in Hjs as [Ha|Ha].
    + destruct (Hspec j (HS j Hj)) as (_ & H1 & _).
      destruct (H1 Ha) as [-> _]. exists sb.
      rewrite lookup_insert_ne by lia. rewrite lookup_insert_eq. split; [done|].
      split_and!; [lia|done|].
      intros k v [Hin Htg]%Hsb. rewrite Hsame; [exact Htg|]. by eapply Hopl.
    + destruct (Hspec j (HS j Hj)) as (H1 & _ & _).
      destruct (H1 Ha) as [-> _]. exists ib.
      rewrite lookup_insert_eq. split; [done|].
      split_and!; [lia|done|].
      intros k v [Hin Htg]%Hib. rewrite Hsame; [exact Htg|]. by eapply Hopl.
  - rewrite (Hkeep j Hj Hjs).
    destruct (Hb j Hj) as (b & Hlook & Hblen & Hbnd & Hbpl).
    exists b. rewrite lookup_insert_ne by (specialize (Hfresh j Hj); lia).
    rewrite lookup_insert_ne by done. split; [done|].
    split_and!; [done|done|].
    intros k v Hin. rewrite Hkeep; [by eapply Hbpl|apply mod_pow2_lt|].
    rewrite (Hbpl k v Hin). done.
Qed.

(** Where the directory after the split sends a key that went to the split
    bucket before. *)
Lemma split_class d next idx h :
  dir_wf d next → idx < 2 ^ global_depth_ d →
  GetLocalDepth idx d < global_depth_ d →
  GetBucketPageId (h mod 2 ^ global_depth_ d) d = GetBucketPageId idx d →
  let sp := GetBucketPageId idx d in
  let d2 := split_directory idx sp next d in
  GetBucketPageId (h mod 2 ^ S (GetLocalDepth idx d)) d2
    = GetBucketPageId (h mod 2 ^ global_depth_ d) d2 ∧
  (GetBucketPageId (h mod 2 ^ global_depth_ d) d2 = sp ∨
   GetBucketPageId (h mod 2 ^ global_depth_ d) d2 = next) ∧
  GetLocalDepth (h mod 2 ^ global_depth_ d) d2 = S (GetLocalDepth idx d).
Proof.
  intros Hwf Hidx Hdd Hh sp d2.
  pose proof (dir_wf_Size d next Hwf) as HSz.
  destruct Hwf as [Hl Hp Hg Hinv Hfresh].
  set (dd := GetLocalDepth idx d) in *.
  destruct (split_directory_spec d idx sp next dd) as [_ Hspec];
    [lia|lia|by rewrite Size_pow|done|done|].
  fold d2 in Hspec.
  assert (∀ j, j < 2 ^ global_depth_ d → j < Size d) as HS
    by (intros j Hj; by rewrite Size_pow).
  pose proof (mod_pow2_lt h (global_depth_ d)) as Hhg.
  assert (h mod 2 ^ S dd < 2 ^ global_depth_ d) as Htg.
  { eapply Nat.lt_le_trans; [apply mod_pow2_lt|]. apply Nat.pow_le_mono_r; lia. }
  assert (agree (S dd) (h mod 2 ^ S dd) (h mod 2 ^ global_depth_ d)) as Hag.
  { eapply agree_trans; [apply agree_mod; lia|]. apply agree_sym, agree_mod. lia. }
  assert (agree dd idx (h mod 2 ^ global_depth_ d)) as Ha.
  { destruct (Hinv idx Hidx) as [_ Hiff]. apply Hiff; [done|]. by rewrite Hh. }
  destruct (Hspec _ (HS _ Hhg)) as (H1 & H2 & _).
  destruct (Hspec _ (HS _ Htg)) as (H3 & H4 & _).
  destruct (agree_split dd idx _ Ha) as [Ha'|Ha']; apply agree_sym in Ha'.
  - destruct (H2 Ha') as [-> ->].
    destruct H4 as [-> _]; [by eapply agree_trans|]. split_and!; [done|by left|done].
  - destruct (H1 Ha') as [-> ->].
    destruct H3 as [-> _]; [by eapply agree_trans|]. split_and!; [done|by right|done].
Qed.

(** The directory [SplitInsert] splits in: the old one, or the doubled one
    when the bucket had the global depth. *)
Lemma grow_ready d next bs idx :
  dir_wf d next → buckets_wf d bs → idx < 2 ^ global_depth_ d →
  GetLocalDepth idx d < MAX_BUCKET_DEPTH →
  let d1 := if decide (GetLocalDepth idx d = GetGlobalDepth d) then IncrGlobalDepth d else d in
  dir_wf d1 next ∧ buckets_wf d1 bs ∧ idx < 2 ^ global_depth_ d1 ∧
  GetLocalDepth idx d1 = GetLocalDepth idx d ∧
  GetLocalDepth idx d1 < global_depth_ d1 ∧
  ∀ h, GetBucketPageId (h mod 2 ^ global_depth_ d1) d1
       = GetBucketPageId (h mod 2 ^ global_depth_ d) d.
Proof.
  intros Hwf Hb Hidx Hmax d1. unfold d1, GetGlobalDepth. case_decide as Hfull.
  - assert (global_depth_ d < MAX_BUCKET_DEPTH) as Hlt by lia.
    assert (2 ^ global_depth_ d ≤ 2 ^ S (global_depth_ d)) as Hle
      by (apply Nat.pow_le_mono_r; lia).
    cbn [global_depth_ IncrGlobalDepth].
    split_and!.
    + by apply IncrGlobalDepth_wf.
    + by eapply IncrGlobalDepth_buckets.
    + lia.
    + destruct (IncrGlobalDepth_lookup d next idx Hwf Hlt ltac:(lia)) as [-> _].
      by rewrite Nat.mod_small.
    + destruct (IncrGlobalDepth_lookup d next idx Hwf Hlt ltac:(lia)) as [-> _].
      rewrite Nat.mod_small by done. lia.
    + intros h.
      destruct (IncrGlobalDepth_lookup d next (h mod 2 ^ S (global_depth_ d)) Hwf Hlt
                  (mod_pow2_lt _ _)) as [_ ->].
      by rewrite (agree_mod (S (global_depth_ d)) (global_depth_ d) h) by lia.
  - destruct (wf_inv _ _ Hwf idx Hidx) as [Hld _].
    split_and!; [done|done|done|done|lia|done].
Qed.

Lemma SplitInsert_with_total retry key value t :
  ready t →
  (∀ t2, ready t2 →
     GetLocalDepth (KeyToDirectoryIndex key (dir_page t)) (dir_page t) < MAX_BUCKET_DEPTH →
     GetLocalDepth (KeyToDirectoryIndex key (dir_page t2)) (dir_page t2)
       = S (GetLocalDepth (KeyToDirectoryIndex key (dir_page t)) (dir_page t)) →
     ∃ r t', retry t2 = Some (r, t') ∧ ready t') →
  ∃ r t', SplitInsert_with retry key value t = Some (r, t') ∧ ready t'.
Proof.
  intros Hr Hretry. pose proof Hr as [[Hid Hd] Hb].
  unfold SplitInsert_with, FetchDirectoryPage. rewrite decide_False by done. simpl.
  set (d := dir_page t) in *. set (idx := KeyToDirectoryIndex key d) in *.
  destruct (MAX_BUCKET_DEPTH <=? GetLocalDepth idx d) eqn:Hmax.
  { by eexists _, _. }
  apply Nat.leb_gt in Hmax.
  assert (idx = Hash key mod 2 ^ global_depth_ d) as Hidx_eq by apply KeyToDirectoryIndex_mod.
  assert (idx < 2 ^ global_depth_ d) as Hidx by (rewrite Hidx_eq; apply mod_pow2_lt).
  destruct (grow_ready d (next_page_id t) (buckets t) idx Hd Hb Hidx Hmax)
    as (Hd1 & Hb1 & Hidx1 & Hld1 & Hlt1 & Hpage1).
  set (d1 := if decide (GetLocalDepth idx d = GetGlobalDepth d) then IncrGlobalDepth d else d)
    in *.
  set (dd := GetLocalDepth idx d) in *.
  assert (GetBucketPageId idx d1 = GetBucketPageId idx d) as Hsp1.
  { rewrite <-(Nat.mod_small idx (2 ^ global_depth_ d1)) at 1 by done.
    rewrite Hpage1. by rewrite Nat.mod_small. }
  assert (∀ h, GetBucketPageId (h mod 2 ^ global_depth_ d) d = GetBucketPageId idx d →
               GetBucketPageId (h mod 2 ^ global_depth_ d1) d1 = GetBucketPageId idx d1) as Hto1.
  { intros h Hh. by rewrite Hpage1, Hsp1. }
  assert (KeyToPageId key d1 = GetBucketPageId idx d1) as ->.
  { unfold KeyToPageId. rewrite KeyToDirectoryIndex_mod. apply Hto1. by rewrite <-Hidx_eq. }
  destruct (Hb1 idx Hidx1) as (origin & Horigin & Holen & Hond & Hopl).
  set (sp := GetBucketPageId idx d1) in *.
  set (next := next_page_id t) in *.
  unfold Bucket in *. rewrite Horigin. simpl.
  set (d2 := split_directory idx sp next d1).
  assert (sp < next)%Z as Hspn by (by apply (wf_fresh _ _ Hd1)).
  assert (GetLocalDepth idx d2 = S dd) as Hld2.
  { destruct (split_class d1 next idx idx Hd1 Hidx1 Hlt1) as (_ & _ & Hl).
    - by rewrite Nat.mod_small.
    - rewrite Nat.mod_small in Hl by done. rewrite Hld1 in Hl. exact Hl. }
  assert (∀ a, Nat.land a (GetLocalDepthMask idx d2) = a mod 2 ^ S dd) as Hmask.
  { intros a. unfold GetLocalDepthMask. by rewrite Hld2, land_mask. }
  destruct (rehash_total (GetLocalDepthMask idx d2) d2 sp next ltac:(lia) origin [] [])
    as (sb & ib & Hre & Hnsb & Hnib & Hlen & Hsb & Hib).
  { done. }
  { intros x _. split; apply not_elem_of_nil. }
  { simpl. lia. }
  { intros [k v] Hx. rewrite Hmask. cbn [fst].
    destruct (split_class d1 next idx (Hash k) Hd1 Hidx1 Hlt1) as (Hsame & Hor & _).
    - by eapply Hopl.
    - rewrite Hld1 in Hsame.
      change (GetBucketPageId (Hash k mod 2 ^ S dd) d2
              = GetBucketPageId (Hash k mod 2 ^ global_depth_ d1) d2) in Hsame.
      rewrite Hsame. exact Hor. }
  { apply NoDup_nil_2. }
  { apply NoDup_nil_2. }
  rewrite Hre. simpl. apply Hretry; [|done|].
  - split; [split; [done|]|]; simpl.
    + by apply split_directory_wf.
    + apply (split_buckets d1 next (buckets t) idx origin sb ib); try done.
      * intros x. rewrite Hsb, Hmask, Hld1.
        split; [intros [?%elem_of_nil|?]; done|by right].
      * intros x. rewrite Hib, Hmask, Hld1.
        split; [intros [?%elem_of_nil|?]; done|by right].
  - simpl. rewrite KeyToDirectoryIndex_mod.
    destruct (split_directory_spec d1 idx sp next (GetLocalDepth idx d1)) as [(Hg2 & _) _];
      [rewrite (wf_len_ld _ _ Hd1); by apply (dir_wf_Size _ next)
      |rewrite (wf_len_pid _ _ Hd1); by apply (dir_wf_Size _ next)
      |by rewrite Size_pow|done|done|].
    fold d2 in Hg2. rewrite Hg2.
    destruct (split_class d1 next idx (Hash key) Hd1 Hidx1 Hlt1) as (_ & _ & Hl).
    + apply Hto1. by rewrite <-Hidx_eq.
    + rewrite Hld1 in Hl. exact Hl.
Qed.

Lemma update_bucket d bs p b' :
  buckets_wf d bs → bucket_ok d p b' → buckets_wf d (<[p := b']> bs).
Proof.
  intros Hb Hok i Hi. destruct (decide (GetBucketPageId i d = p)) as [->|Hne].
  - exists b'. by rewrite lookup_insert_eq.
  - rewrite lookup_insert_ne by done. by apply Hb.
Qed.

Lemma FetchDirectoryPage_id t : ready t → FetchDirectoryPage t = Some t.
Proof. intros [[Hid _] _]. unfold FetchDirectoryPage. by rewrite decide_False. Qed.

(** [Insert] returns: every split raises the local depth of the key's slot,
    and at [MAX_BUCKET_DEPTH] [SplitInsert] gives up. *)
Lemma Insert_total key value : ∀ fuel t,
  ready t →
  MAX_BUCKET_DEPTH - GetLocalDepth (KeyToDirectoryIndex key (dir_page t)) (dir_page t) < fuel →
  ∃ r t', Insert fuel key value t = Some (r, t') ∧ ready t'.
Proof.
  induction fuel as [|fuel IH]; intros t Hr Hfuel; [lia|].
  cbn [Insert]. rewrite (FetchDirectoryPage_id t Hr). simpl.
  pose proof Hr as [Hin Hb].
  assert (KeyToDirectoryIndex key (dir_page t) < 2 ^ global_depth_ (dir_page t)) as Hidx.
  { rewrite KeyToDirectoryIndex_mod. apply mod_pow2_lt. }
  destruct (Hb _ Hidx) as (b & Hlook & Hlen & Hnd & Hpl).
  unfold KeyToPageId. unfold Bucket in *. rewrite Hlook. simpl.
  destruct (IsFull b) eqn:Hfull; simpl.
  - apply SplitInsert_with_total; [done|].
    intros t2 Hr2 Hlt Hld2. apply IH; [done|]. rewrite Hld2. lia.
  - unfold bucket_Insert. rewrite Hfull, orb_false_r.
    unfold IsFull in Hfull. apply Nat.leb_gt in Hfull.
    destruct (bool_decide _) eqn:Hdup.
    + eexists _, _. split; [reflexivity|]. split; [done|]. simpl.
      apply update_bucket; [done|]. split_and!; [done|done|exact Hpl].
    + apply bool_decide_eq_false in Hdup.
      eexists _, _. split; [reflexivity|]. split; [done|]. simpl.
      apply update_bucket; [done|]. split_and!.
      * rewrite length_app. simpl. lia.
      * apply NoDup_app. split_and!; [done| |apply NoDup_singleton].
        intros x Hx Hs. apply list_elem_of_singleton in Hs as ->. done.
      * intros k v [Hx|Hx]%elem_of_app; [by eapply Hpl|].
        apply list_elem_of_singleton in Hx as [= -> ->].
        by rewrite <-KeyToDirectoryIndex_mod.
Qed.

Lemma shrink_buckets bs next : ∀ fuel d,
  dir_wf d next → buckets_wf d bs → buckets_wf (shrink fuel d) bs.
Proof.
  induction fuel as [|fuel IH]; intros d Hwf Hb; [done|].
  cbn [shrink]. destruct (CanShrink d) eqn:Hc; [|done].
  pose proof (shrink_wf 1 d next Hwf) as Hwf1. cbn [shrink] in Hwf1. rewrite Hc in Hwf1.
  apply IH; [done|].
  pose proof (CanShrink_true d Hc) as Hlt.
  assert (0 < global_depth_ d) as Hpos.
  { specialize (Hlt 0 (pow2_pos _)). lia. }
  assert (2 ^ (global_depth_ d - 1) ≤ 2 ^ global_depth_ d) as Hle
    by (apply Nat.pow_le_mono_r; lia).
  intros i Hi. cbn [global_depth_ DecrGlobalDepth] in Hi.
  destruct (Hb i ltac:(lia)) as (b & Hlook & Hlen & Hnd & Hpl).
  exists b. split; [exact Hlook|]. split_and!; [done|done|].
  intros k v Hin. cbn [global_depth_ DecrGlobalDepth].
  change (GetBucketPageId (Hash k mod 2 ^ (global_depth_ d - 1)) d = GetBucketPageId i d).
  rewrite <-(Hpl k v Hin).
  pose proof (mod_pow2_lt (Hash k) (global_depth_ d - 1)) as Hh'.
  apply (wf_inv _ _ Hwf); [lia|apply mod_pow2_lt|].
  specialize (Hlt (Hash k mod 2 ^ (global_depth_ d - 1)) ltac:(lia)).
  eapply agree_trans; [apply agree_mod; lia|]. apply agree_sym, agree_mod. lia.
Qed.

Lemma Merge_total idx t : ready t → ∃ t', Merge idx t = Some t' ∧ ready t'.
Proof.
  intros Hr. unfold Merge. rewrite (FetchDirectoryPage_id t Hr). cbn -[shrink merge_slots].
  pose proof Hr as [[Hid Hd] Hb].
  destruct (Size (dir_page t) <=? idx) eqn:Hsz; [by eexists|].
  apply Nat.leb_gt in Hsz. rewrite Size_pow in Hsz.
  destruct (decide (GetLocalDepth idx (dir_page t) = 0)) as [|Hnz]; [by eexists|].
  destruct (decide (GetLocalDepth idx (dir_page t) ≠ _)) as [|Heq]; [by eexists|].
  apply dec_stable in Heq.
  destruct (Hb idx Hsz) as (tb & Htb & _).
  unfold Bucket in *. rewrite Htb. cbn -[shrink merge_slots].
  destruct (negb (IsEmpty tb)); [by eexists|].
  destruct (merge_spec (dir_page t) (next_page_id t) idx Hd Hsz Hnz Heq)
    as (Hwf' & Hg' & Himg & Hne & Hassert & Hpages).
  rewrite decide_True by exact Hassert.
  eexists. split; [reflexivity|].
  split; [split; [done|]|]; cbn [dir_page next_page_id buckets].
  - by apply shrink_wf.
  - apply (shrink_buckets _ (next_page_id t)); [done|].
    set (d := dir_page t) in *.
    set (img := GetSplitImageIndex idx d) in *.
    set (tp := GetBucketPageId idx d) in *.
    set (ip := GetBucketPageId img d) in *.
    intros j Hj. rewrite Hg' in Hj. unfold bucket_ok. rewrite Hg'.
    rewrite (Hpages j Hj).
    case_decide as Hc.
    + destruct (Hb img Himg) as (b & Hlook & Hlen & Hnd & Hpl).
      exists b. rewrite lookup_delete_ne by done. split; [exact Hlook|].
      split_and!; [done|done|].
      intros k v Hin. rewrite (Hpages _ (mod_pow2_lt _ _)).
      rewrite decide_True; [done|]. right. by eapply Hpl.
    + destruct (Hb j Hj) as (b & Hlook & Hlen & Hnd & Hpl).
      exists b. rewrite lookup_delete_ne by (intros Heq'; apply Hc; by left).
      split; [exact Hlook|]. split_and!; [done|done|].
      intros k v Hin. rewrite (Hpages _ (mod_pow2_lt _ _)).
      rewrite (Hpl k v Hin). by rewrite decide_False.
Qed.

Lemma Remove_total key value t : ready t → ∃ r t', Remove key value t = Some (r, t') ∧ ready t'.
Proof.
  intros Hr. unfold Remove. rewrite (FetchDirectoryPage_id t Hr). cbn -[Merge].
  pose proof Hr as [Hin Hb].
  assert (KeyToDirectoryIndex key (dir_page t) < 2 ^ global_depth_ (dir_page t)) as Hidx.
  { rewrite KeyToDirectoryIndex_mod. apply mod_pow2_lt. }
  destruct (Hb _ Hidx) as (b & Hlook & Hlen & Hnd & Hpl).
  unfold KeyToPageId. unfold Bucket in *. rewrite Hlook. cbn -[Merge].
  assert (∀ b', length b' ≤ length b → NoDup b' → (∀ x, x ∈ b' → x ∈ b) →
    ready (set_buckets (<[GetBucketPageId (KeyToDirectoryIndex key (dir_page t)) (dir_page t)
                          := b']> (buckets t)) t)) as Hupd.
  { intros b' Hl' Hnd' Hsub. split; [done|]. simpl.
    apply update_bucket; [done|]. split_and!; [lia|done|].
    intros k v Hx. eapply Hpl, Hsub, Hx. }
  assert (∃ res b', bucket_Remove key value b = (res, b') ∧
            length b' ≤ length b ∧ NoDup b' ∧ ∀ x, x ∈ b' → x ∈ b)
    as (res & b' & -> & Hl' & Hnd' & Hsub).
  { unfold bucket_Remove. destruct (bool_decide _); eexists _, _; (split; [reflexivity|]).
    - split_and!; [apply length_filter|by apply NoDup_filter|].
      by intros x [_ ?]%list_elem_of_filter.
    - done. }
  specialize (Hupd b' Hl' Hnd' Hsub).
  destruct (IsEmpty b').
  - destruct (Merge_total (KeyToDirectoryIndex key (dir_page t)) _ Hupd) as (t' & Hm & Hr').
    unfold Bucket in *. rewrite Hm. simpl. by eexists _, _.
  - by eexists _, _.
Qed.

Lemma Insert_fetch fuel key value t t1 :
  FetchDirectoryPage t = Some t1 → FetchDirectoryPage t1 = Some t1 →
  Insert fuel key value t = Insert fuel key value t1.
Proof. intros H1 H2. destruct fuel; [done|]. cbn [Insert]. by rewrite H1, H2. Qed.

Lemma Remove_fetch key value t t1 :
  FetchDirectoryPage t = Some t1 → FetchDirectoryPage t1 = Some t1 →
  Remove key value t = Remove key value t1.
Proof. intros H1 H2. unfold Remove. by rewrite H1, H2. Qed.

(** Every run returns, given the fuel for [MAX_BUCKET_DEPTH] splits. *)
Lemma run_ops_total fuel ops : ∀ t,
  MAX_BUCKET_DEPTH < fuel → table_ok t →
  ∃ rs t', run_ops fuel ops t = Some (rs, t') ∧ table_ok t'.
Proof.
  induction ops as [|op ops IH]; intros t Hfuel Hok; [by eexists _, _|].
  cbn [run_ops].
  destruct (FetchDirectoryPage_ready t Hok) as (t1 & Hf & Hr).
  pose proof (FetchDirectoryPage_id t1 Hr) as Hf1.
  assert (∃ r t2, run_op fuel op t = Some (r, t2) ∧ ready t2) as (r & t2 & -> & Hr2).
  { destruct op as [k v|k v]; simpl.
    - rewrite (Insert_fetch _ _ _ _ _ Hf Hf1). apply Insert_total; [done|lia].
    - rewrite (Remove_fetch _ _ _ _ Hf Hf1). by apply Remove_total. }
  simpl. destruct (IH t2 Hfuel) as (rs & t' & -> & Hok'); [by right|].
  simpl. by eexists _, _.
Qed.

(** C7.  Every run of [Insert] and [Remove] calls on a fresh table returns
    (the fuel covers the [MAX_BUCKET_DEPTH] splits one [Insert] can go
    through), and after it, whatever the calls returned and whatever splits,
    directory doublings, merges and shrinks they went through, the directory
    has: for all slots [i], [j] below [2 ^ global_depth], the same bucket
    page id exactly when [i] and [j] agree on their low [local_depth i]
    bits, and [local_depth i] at most the global depth. *)
Theorem directory_invariant_preserved fuel ops first_page_id :
  MAX_BUCKET_DEPTH < fuel → (0 ≤ first_page_id)%Z →
  ∃ rs t', run_ops fuel ops (empty_table first_page_id) = Some (rs, t') ∧
           directory_invariant (dir_page t').
Proof.
  intros Hfuel Hfirst.
  destruct (run_ops_total fuel ops (empty_table first_page_id) Hfuel) as (rs & t' & Hrun & _).
  { left. by split_and!. }
  exists rs, t'. split; [done|]. by eapply run_ops_directory_invariant.
Qed.

End Table.

(** The scenario S4 of the specification: buckets of two pairs, depth at
    most 3, keys hashed to themselves. *)
#[local] Instance scenario_params : HashParams :=
  {| MAX_BUCKET_DEPTH := 3; BUCKET_ARRAY_SIZE := 2; hash_fn_ := Z.to_nat |}.

Definition scenario_ops : list Op :=
  [OpInsert 0 0; OpInsert 4 4; OpInsert 2 2; OpInsert 1 1; OpInsert 3 3; OpInsert 5 5;
   OpRemove 2 2; OpRemove 0 0; OpRemove 4 4].

Definition scenario_table : ExtendibleHashTable :=
  match run_ops 5 scenario_ops (empty_table 0) with
  | Some (_, t) => t
  | None => empty_table 0
  end.

Example scenario_directory :
  (global_depth_ (dir_page scenario_table),
   take 4 (local_depths_ (dir_page scenario_table)),
   take 4 (bucket_page_ids_ (dir_page scenario_table))) = (2, [1; 2; 1; 2], [1; 2; 1; 4]%Z).
Proof. vm_compute. reflexivity. Qed.

Lemma directory_invariant_preserved_witness :
  ∃ rs t', run_ops 5 scenario_ops (empty_table 0) = Some (rs, t') ∧
           directory_invariant (dir_page t').
Proof. apply (directory_invariant_preserved 5 scenario_ops 0); [cbn; lia|lia]. Defined.

End HashProofs.
(** ** B+-tree: a duplicate insert changes nothing *)

Module BPlusTreeProofs.
Import BPlusTree.
Local Open Scope Z_scope.

(** The pages of the tree without what the buffer pool keeps about them. *)
Definition nodes (t : Tree) : gmap Z BPlusTreePage := node_ <$> pool_ t.

(** [key] is in the tree: the tree is not empty and [GetValue] finds it. *)
Definition present (fuel : nat) (key : Z) (t : Tree) : Prop :=
  IsEmpty t = false ∧ ∃ v t', GetValue fuel key t = Some (Some v, t').

(** Same tree, up to pin counts, dirty flags and the page set. *)
Record same_tree (t t' : Tree) : Prop := {
  same_root : root_page_id_ t' = root_page_id_ t;
  same_leaf_max : leaf_max_size_ t' = leaf_max_size_ t;
  same_internal_max : internal_max_size_ t' = internal_max_size_ t;
  same_nodes : nodes t' = nodes t;
  same_header : header_record_ t' = header_record_ t;
  same_next : next_new_page_ t' = next_new_page_ t
}.

Lemma same_tree_refl t : same_tree t t.
Proof. by split. Qed.

Lemma same_tree_trans t1 t2 t3 : same_tree t1 t2 → same_tree t2 t3 → same_tree t1 t3.
Proof. intros [] []. split; congruence. Qed.

Lemma nodes_lookup t pid : nodes t !! pid = node_ <$> pool_ t !! pid.
Proof. unfold nodes. apply lookup_fmap. Qed.

Lemma nodes_insert_same t pid f g :
  pool_ t !! pid = Some f → node_ g = node_ f →
  node_ <$> <[pid := g]> (pool_ t) = nodes t.
Proof.
  intros Hf Hg. unfold nodes. rewrite fmap_insert, Hg.
  apply insert_id. by rewrite lookup_fmap, Hf.
Qed.

Lemma FetchPage_same pid t n t' :
  FetchPage pid t = Some (n, t') → nodes t !! pid = Some n ∧ same_tree t t'.
Proof.
  unfold FetchPage. destruct (pool_ t !! pid) as [f|] eqn:Hf; simpl; [|done].
  intros [= <- <-]. split; [by rewrite nodes_lookup, Hf|].
  split; try done. by apply (nodes_insert_same _ _ f).
Qed.

Lemma FetchPage_some pid t n :
  nodes t !! pid = Some n → ∃ t', FetchPage pid t = Some (n, t').
Proof.
  rewrite nodes_lookup. unfold FetchPage.
  destruct (pool_ t !! pid) as [f|]; simpl; [|done]. intros [= <-]. by eexists.
Qed.

Lemma UnpinPage_same pid d t : same_tree t (UnpinPage pid d t).2.
Proof.
  unfold UnpinPage. destruct (pool_ t !! pid) as [f|] eqn:Hf; [|apply same_tree_refl].
  case_decide; [apply same_tree_refl|]. split; try done.
  by apply (nodes_insert_same _ _ f).
Qed.

Lemma set_page_set_same ps t : same_tree t (set_page_set ps t).
Proof. by split. Qed.

Lemma UnlockUnpinPages_same t : same_tree t (UnlockUnpinPages t).
Proof.
  unfold UnlockUnpinPages.
  apply (same_tree_trans _ (foldl (λ t pid, (UnpinPage pid false t).2) t (page_set_ t)));
    [|apply set_page_set_same].
  generalize (page_set_ t). intros ps. revert t.
  induction ps as [|p ps IH]; intros t; simpl; [apply same_tree_refl|].
  eapply same_tree_trans; [apply (UnpinPage_same p false)|apply IH].
Qed.

(** The descent as the pages alone decide it. *)
Fixpoint walk (fuel : nat) (key : Z) (ns : gmap Z BPlusTreePage)
    (page_id : Z) (node : BPlusTreePage) : option (Z * LeafPage) :=
  match node with
  | LeafNode leaf => Some (page_id, leaf)
  | InternalNode i_node =>
      match fuel with
      | O => None
      | S fuel' =>
          child ← internal_Lookup key i_node;
          child_node ← ns !! child;
          walk fuel' key ns child child_node
      end
  end.

Lemma walk_leaf fuel key ns pid node lp leaf :
  ns !! pid = Some node → walk fuel key ns pid node = Some (lp, leaf) →
  ns !! lp = Some (LeafNode leaf).
Proof.
  revert pid node. induction fuel as [|fuel IH]; intros pid [l|i] Hn; simpl; try done.
  - by intros [= <- <-].
  - by intros [= <- <-].
  - destruct (internal_Lookup key i) as [c|]; simpl; [|done].
    destruct (ns !! c) as [cn|] eqn:Hc; simpl; [|done]. by apply IH.
Qed.

Lemma descend_walk fuel key op pid node b t lp leaf b' t' :
  descend fuel key op false false pid node b t = Some (lp, leaf, b', t') →
  walk fuel key (nodes t) pid node = Some (lp, leaf) ∧ same_tree t t'.
Proof.
  revert pid node b t. induction fuel as [|fuel IH]; intros pid [l|i] b t; simpl; try done.
  - intros [= <- <- <- <-]. split; [done|apply same_tree_refl].
  - intros [= <- <- <- <-]. split; [done|apply same_tree_refl].
  - destruct (internal_Lookup key i) as [c|]; simpl; [|done].
    destruct (FetchPage c t) as [[cn t1]|] eqn:Hf; simpl; [|done].
    apply FetchPage_same in Hf as [Hc H1]. rewrite Hc. simpl.
    assert (∀ b0 t2, same_tree t1 t2 →
      descend fuel key op false false c cn b0 t2 = Some (lp, leaf, b', t') →
      walk fuel key (nodes t) c cn = Some (lp, leaf) ∧ same_tree t t') as Hstep.
    { intros b0 t2 H2 [Hw H3]%IH. split.
      - by rewrite (same_nodes _ _ H2), (same_nodes _ _ H1) in Hw.
      - eauto using same_tree_trans. }
    case_decide.
    + apply Hstep, UnpinPage_same.
    + destruct (IsSafe cn op); apply Hstep.
      * eapply same_tree_trans; [apply set_page_set_same|apply UnlockUnpinPages_same].
      * apply set_page_set_same.
Qed.

Lemma walk_descend fuel key op pid node b t lp leaf :
  walk fuel key (nodes t) pid node = Some (lp, leaf) →
  ∃ b' t', descend fuel key op false false pid node b t = Some (lp, leaf, b', t').
Proof.
  revert pid node b t. induction fuel as [|fuel IH]; intros pid [l|i] b t; simpl; try done.
  - intros [= <- <-]. by eexists _, _.
  - intros [= <- <-]. by eexists _, _.
  - destruct (internal_Lookup key i) as [c|]; simpl; [|done].
    destruct (nodes t !! c) as [cn|] eqn:Hc; simpl; [|done].
    destruct (FetchPage_some _ _ _ Hc) as [t1 Hf]. rewrite Hf. simpl.
    apply FetchPage_same in Hf as [_ H1]. intros Hw.
    assert (∀ b0 t2, same_tree t1 t2 →
      ∃ b' t', descend fuel key op false false c cn b0 t2 = Some (lp, leaf, b', t')) as Hstep.
    { intros b0 t2 H2. apply IH.
      by rewrite (same_nodes _ _ H2), (same_nodes _ _ H1). }
    case_decide.
    + apply Hstep, UnpinPage_same.
    + destruct (IsSafe cn op); apply Hstep.
      * eapply same_tree_trans; [apply set_page_set_same|apply UnlockUnpinPages_same].
      * apply set_page_set_same.
Qed.

Lemma leaf_Lookup_Insert key value v leaf :
  leaf_Lookup key leaf = Some v →
  leaf_Insert key value leaf = (Z.of_nat (length (l_array_ leaf)), leaf).
Proof.
  unfold leaf_Lookup, leaf_Insert.
  destruct (l_array_ leaf !! KeyIndex key (l_array_ leaf)) as [[k v']|]; [|done].
  by case_decide.
Qed.

Lemma write_leaf_id pid leaf t :
  nodes t !! pid = Some (LeafNode leaf) → write_leaf pid leaf t = t.
Proof.
  rewrite nodes_lookup. intros Hn. unfold write_leaf.
  rewrite alter_id; [by destruct t|].
  intros f Hf. rewrite Hf in Hn. injection Hn as Hn. destruct f; simpl in *. by subst.
Qed.

Lemma leaf_chain_nodes n pid t t' :
  nodes t' = nodes t → leaf_chain n pid t' = leaf_chain n pid t.
Proof.
  intros Hn. revert pid. induction n as [|n IH]; intros pid; simpl; [done|].
  rewrite <- !nodes_lookup, Hn.
  destruct (nodes t !! pid) as [[leaf|i]|]; [|done..]. by rewrite IH.
Qed.

(** A tree of height two: the root sends keys below 10 to leaf 2 and the
    others to leaf 3. *)
Definition sample_tree : Tree :=
  mkTree 1 4 4
    (<[1 := mkFrame (InternalNode (mkInternal 1 INVALID_PAGE_ID 4 [(0, 2); (10, 3)])) 0 false]>
     (<[2 := mkFrame (LeafNode (mkLeaf 2 1 4 3 [(1, (0, 1)); (5, (0, 5))])) 0 false]>
      (<[3 := mkFrame (LeafNode (mkLeaf 3 1 4 INVALID_PAGE_ID [(10, (1, 0)); (20, (2, 0))])) 0 true]>
       ∅)))
    [] (Some 1) 4.

Definition no_split : Z → LeafPage → bool → Tree → option Tree := λ _ _ _ _, None.

(** *** Pin counts

    [pinned L m0 m]: the pool [m] is [m0] with one more pin on a page for
    every occurrence of the page in [L]. *)
Definition pin_by (n : nat) (f : Frame) : Frame :=
  mkFrame (node_ f) (pin_count_ f + Z.of_nat n) (is_dirty_ f).

Definition pinned (L : list Z) (m0 m : gmap Z Frame) : Prop :=
  ∀ pid, m !! pid = pin_by (count_occ Z.eq_dec L pid) <$> m0 !! pid.

Definition pins_nonneg (m : gmap Z Frame) : Prop :=
  ∀ pid f, m !! pid = Some f → 0 ≤ pin_count_ f.

Lemma pinned_nil m0 m : pinned [] m0 m → m = m0.
Proof.
  intros H. apply map_eq. intros pid. rewrite (H pid). simpl.
  destruct (m0 !! pid) as [[n p d]|]; [|done]. simpl. unfold pin_by. simpl.
  do 2 f_equal. lia.
Qed.

Lemma pinned_init m0 : pinned [] m0 m0.
Proof.
  intros pid. simpl. destruct (m0 !! pid) as [[n p d]|]; [|done]. simpl.
  unfold pin_by. simpl. do 2 f_equal. lia.
Qed.

Lemma pinned_count L L' m0 m :
  (∀ pid, count_occ Z.eq_dec L pid = count_occ Z.eq_dec L' pid) →
  pinned L m0 m → pinned L' m0 m.
Proof. intros Hc H pid. by rewrite (H pid), Hc. Qed.

Lemma FetchPage_pinned L m0 c t cn t1 :
  FetchPage c t = Some (cn, t1) → pinned L m0 (pool_ t) →
  pinned (c :: L) m0 (pool_ t1) ∧ page_set_ t1 = page_set_ t.
Proof.
  unfold FetchPage. destruct (pool_ t !! c) as [f|] eqn:Hf; simpl; [|done].
  intros [= <- <-] H. split; [|done]. intros pid. simpl.
  destruct (decide (c = pid)) as [->|Hne].
  - rewrite lookup_insert_eq. rewrite (H pid) in Hf.
    destruct (Z.eq_dec pid pid); [|done].
    destruct (m0 !! pid) as [[n p d]|]; simpl in *; [|done].
    injection Hf as <-. unfold pin_by. simpl. do 2 f_equal. lia.
  - rewrite lookup_insert_ne by done. rewrite (H pid).
    by destruct (Z.eq_dec c pid).
Qed.

Lemma UnpinPage_pinned L m0 p t :
  pins_nonneg m0 → pinned (p :: L) m0 (pool_ t) →
  pinned L m0 (pool_ (UnpinPage p false t).2)
  ∧ page_set_ (UnpinPage p false t).2 = page_set_ t.
Proof.
  intros Hnn H. unfold UnpinPage.
  pose proof (H p) as Hp. simpl in Hp. destruct (Z.eq_dec p p); [|done].
  destruct (pool_ t !! p) as [f|] eqn:Hf; simpl.
  - destruct (m0 !! p) as [[n c d]|] eqn:H0; simpl in Hp; [|done].
    injection Hp as ->. pose proof (Hnn _ _ H0) as Hc. simpl in Hc.
    unfold pin_by. simpl. rewrite decide_False by lia. simpl. split; [|done].
    intros pid. destruct (decide (p = pid)) as [<-|Hne].
    + rewrite lookup_insert_eq, H0. simpl. unfold pin_by. simpl. do 2 f_equal. lia.
    + rewrite lookup_insert_ne by done. rewrite (H pid). simpl.
      by destruct (Z.eq_dec p pid).
  - split; [|done]. intros pid. destruct (decide (p = pid)) as [<-|Hne].
    + rewrite Hf. by destruct (m0 !! p).
    + rewrite (H pid). simpl. by destruct (Z.eq_dec p pid).
Qed.

Lemma unpin_all_pinned L m0 ps t :
  pins_nonneg m0 → pinned (ps ++ L) m0 (pool_ t) →
  pinned L m0 (pool_ (foldl (λ t pid, (UnpinPage pid false t).2) t ps)).
Proof.
  intros Hnn. revert t. induction ps as [|p ps IH]; intros t H; simpl; [done|].
  apply IH. by apply UnpinPage_pinned.
Qed.

Lemma UnlockUnpinPages_pinned L m0 t :
  pins_nonneg m0 → pinned (page_set_ t ++ L) m0 (pool_ t) →
  pinned L m0 (pool_ (UnlockUnpinPages t)) ∧ page_set_ (UnlockUnpinPages t) = [].
Proof. intros Hnn H. split; [|done]. simpl. by apply unpin_all_pinned. Qed.

Lemma descend_pinned m0 fuel key op pid node b t lp leaf b' t' :
  pins_nonneg m0 → op ≠ FIND →
  pinned (pid :: page_set_ t) m0 (pool_ t) →
  descend fuel key op false false pid node b t = Some (lp, leaf, b', t') →
  pinned (lp :: page_set_ t') m0 (pool_ t').
Proof.
  intros Hnn Hop. revert pid node b t.
  induction fuel as [|fuel IH]; intros pid [l|i] b t H; simpl; try done.
  - by intros [= <- <- <- <-].
  - by intros [= <- <- <- <-].
  - destruct (internal_Lookup key i) as [c|]; simpl; [|done].
    destruct (FetchPage c t) as [[cn t1]|] eqn:Hf; simpl; [|done].
    destruct (FetchPage_pinned _ _ _ _ _ _ Hf H) as [H1 Hps].
    rewrite decide_False by done.
    assert (pinned ((page_set_ t1 ++ [pid]) ++ [c]) m0 (pool_ t1)) as H2.
    { revert H1. apply pinned_count. intros q. rewrite Hps.
      simpl. rewrite !count_occ_app. simpl.
      destruct (Z.eq_dec c q), (Z.eq_dec pid q); simpl; lia. }
    destruct (IsSafe cn op).
    + apply IH.
      destruct (UnlockUnpinPages_pinned [c] m0
                  (set_page_set (page_set_ t1 ++ [pid]) t1) Hnn H2) as [H3 ->].
      exact H3.
    + apply IH. simpl. revert H2. apply pinned_count. intros q.
      simpl. rewrite !count_occ_app. simpl.
      destruct (Z.eq_dec c q), (Z.eq_dec pid q); simpl; lia.
Qed.

Lemma descend_find_pinned m0 fuel key pid node b t lp leaf b' t' :
  pins_nonneg m0 → pinned [pid] m0 (pool_ t) →
  descend fuel key FIND false false pid node b t = Some (lp, leaf, b', t') →
  pinned [lp] m0 (pool_ t') ∧ page_set_ t' = page_set_ t.
Proof.
  intros Hnn. revert pid node b t.
  induction fuel as [|fuel IH]; intros pid [l|i] b t H; simpl; try done.
  - by intros [= <- <- <- <-].
  - by intros [= <- <- <- <-].
  - destruct (internal_Lookup key i) as [c|]; simpl; [|done].
    destruct (FetchPage c t) as [[cn t1]|] eqn:Hf; simpl; [|done].
    destruct (FetchPage_pinned _ _ _ _ _ _ Hf H) as [H1 Hps].
    assert (pinned [pid; c] m0 (pool_ t1)) as H2.
    { revert H1. apply pinned_count. intros q. simpl.
      destruct (Z.eq_dec c q), (Z.eq_dec pid q); simpl; lia. }
    destruct (UnpinPage_pinned _ _ _ _ Hnn H2) as [H3 Hps3].
    intros [H4 Hps4]%IH; [|done]. split; [done|]. congruence.
Qed.

Lemma tree_eq t t' :
  same_tree t t' → pool_ t' = pool_ t → page_set_ t' = page_set_ t → t' = t.
Proof. intros [] ??. destruct t, t'; simpl in *. congruence. Qed.

(** [GetValue] gives back every pin it takes. *)
Lemma GetValue_unchanged fuel key t r t' :
  pins_nonneg (pool_ t) → GetValue fuel key t = Some (r, t') → t' = t.
Proof.
  intros Hnn. unfold GetValue, FindLeafPageByOperation.
  destruct (FetchPage (root_page_id_ t) t) as [[node t0]|] eqn:Hf; simpl; [|done].
  destruct (descend fuel key FIND false false (root_page_id_ t) node false t0)
    as [[[[lp leaf] b] t1]|] eqn:Hd; simpl; [|done].
  intros [= _ <-].
  destruct (FetchPage_pinned [] _ _ _ _ _ Hf (pinned_init _)) as [H0 Hps0].
  destruct (descend_find_pinned _ _ _ _ _ _ _ _ _ _ _ Hnn H0 Hd) as [H1 Hps1].
  destruct (UnpinPage_pinned _ _ _ _ Hnn H1) as [H2 Hps2].
  apply tree_eq.
  - apply FetchPage_same in Hf as [_ Hs0]. apply descend_walk in Hd as [_ Hs1].
    eauto using same_tree_trans, UnpinPage_same.
  - by apply pinned_nil.
  - congruence.
Qed.


Example sample_GetValue :
  GetValue 1 10 sample_tree = Some (Some (1, 0), sample_tree)
  ∧ GetValue 1 7 sample_tree = Some (None, sample_tree)
  ∧ leaf_chain 3 2 sample_tree = [2; 3].
Proof. vm_compute. done. Qed.

(** A key that is not there goes into its leaf, which is unpinned dirty. *)
Example sample_Insert_new :
  ∃ t', Insert no_split 1 7 (0, 7) sample_tree = Some (true, t')
      ∧ nodes t' !! 2 = Some (LeafNode (mkLeaf 2 1 4 3 [(1, (0, 1)); (5, (0, 5)); (7, (0, 7))]))
      ∧ is_dirty_ <$> pool_ t' !! 2 = Some true
      ∧ GetValue 1 7 t' = Some (Some (0, 7), t').
Proof. eexists. split; [vm_compute; reflexivity|]. vm_compute. done. Qed.


End BPlusTreeProofs.
(** ** LRU replacer: [Size] *)

Module LRUFacts.
Import LRU LRUProofs.

Lemma length_list_erase f l : f ∈ l → length (list_erase f l) = length l - 1.
Proof.
  induction l as [|x l IH]; [by intros ?%elem_of_nil|].
  intros Hin. simpl. case_decide as Hx; [lia|].
  apply elem_of_cons in Hin as [->|Hin]; [done|]. simpl. rewrite IH by done.
  destruct l; [by apply elem_of_nil in Hin|simpl; lia].
Qed.

(** X1.  After every sequence of calls on a fresh replacer, [Size] is the number
    of candidates of the history and no frame is twice in the list; [Unpin]
    raises [Size] by one exactly for a frame that is not a candidate, [Pin]
    lowers it by one exactly for a frame that is, and [Victim] lowers it by
    one unless the replacer is empty. *)
Theorem Size_counts_candidates (ops : list Op) :
  let h := (exec ops).1 in
  let r := (exec ops).2 in
  Size r = size (cand_times h) ∧ NoDup (lru_list_ r) ∧
  (∀ f, Size (Unpin f r) = if decide (f ∈ lru_list_ r) then Size r else S (Size r)) ∧
  (∀ f, Size (Pin f r) = if decide (f ∈ lru_list_ r) then Size r - 1 else Size r) ∧
  Size (Victim r).2 = Size r - 1.
Proof.
  intros h r. pose proof (Inv_exec ops) as HI. fold h r in HI.
  destruct HI as [Hmap Hnd Hcand _ _ _]. split_and!.
  - unfold Size. rewrite <-(length_map_to_list (cand_times h)).
    rewrite <-(length_fmap fst (map_to_list (cand_times h))).
    apply Permutation_length, NoDup_Permutation; [done|apply NoDup_fst_map_to_list|].
    intros f. rewrite Hcand, list_elem_of_fmap. split.
    + intros [t Ht]. exists (f, t). split; [done|]. by apply elem_of_map_to_list.
    + intros ([g t] & -> & Ht%elem_of_map_to_list). by exists t.
  - done.
  - intros f. unfold Unpin, Size. destruct (decide (f ∈ lru_map_ r)) as [Hin|Hin].
    + rewrite decide_True by (by apply Hmap). done.
    + rewrite decide_False by (by rewrite <-Hmap). simpl. rewrite length_app. simpl. lia.
  - intros f. unfold Pin, Size. destruct (decide (f ∈ lru_map_ r)) as [Hin|Hin].
    + apply Hmap in Hin. rewrite decide_True by done. simpl. by apply length_list_erase.
    + rewrite decide_False by (by rewrite <-Hmap). done.
  - unfold Victim, Size. destruct (lru_list_ r) eqn:Hl; simpl; rewrite ?Hl; simpl; lia.
Qed.

End LRUFacts.
(** ** Buffer pool instance: the invariant of the pool *)

Module BPMFacts.
Import BPM BPMProofs.
Local Open Scope Z_scope.

(** *** The replacer as a set of frames *)

Definition lru_wf (r : LRU.LRUReplacer) : Prop :=
  (∀ f, f ∈ LRU.lru_map_ r ↔ f ∈ LRU.lru_list_ r) ∧ NoDup (LRU.lru_list_ r).

Lemma lru_wf_Pin f r :
  lru_wf r →
  lru_wf (LRU.Pin f r) ∧
  ∀ g, g ∈ LRU.lru_list_ (LRU.Pin f r) ↔ g ∈ LRU.lru_list_ r ∧ g ≠ f.
Proof.
  intros [Hmap Hnd]. unfold LRU.Pin. case_decide as Hin.
  - split; [split|]; simpl.
    + intros g. rewrite elem_of_difference, elem_of_singleton, Hmap.
      by rewrite LRUProofs.elem_of_list_erase.
    + by apply LRUProofs.NoDup_list_erase.
    + intros g. by apply LRUProofs.elem_of_list_erase.
  - split; [done|]. intros g. split; [|tauto]. intros Hg. split; [done|].
    intros ->. by apply Hin, Hmap.
Qed.

Lemma lru_wf_Unpin f r :
  lru_wf r →
  lru_wf (LRU.Unpin f r) ∧
  ∀ g, g ∈ LRU.lru_list_ (LRU.Unpin f r) ↔ g ∈ LRU.lru_list_ r ∨ g = f.
Proof.
  intros [Hmap Hnd]. unfold LRU.Unpin. case_decide as Hin.
  - split; [done|]. intros g. split; [tauto|]. intros [?| ->]; [done|]. by apply Hmap.
  - split; [split|]; simpl.
    + intros g. rewrite elem_of_union, elem_of_singleton, elem_of_app, list_elem_of_singleton.
      rewrite Hmap. tauto.
    + apply NoDup_app. split_and!; [done| |apply NoDup_singleton].
      intros g Hg Hs. apply list_elem_of_singleton in Hs as ->. by apply Hin, Hmap.
    + intros g. by rewrite elem_of_app, list_elem_of_singleton.
Qed.

Lemma lru_wf_Victim r f r' :
  lru_wf r → LRU.Victim r = (Some f, r') →
  lru_wf r' ∧ f ∈ LRU.lru_list_ r ∧
  ∀ g, g ∈ LRU.lru_list_ r' ↔ g ∈ LRU.lru_list_ r ∧ g ≠ f.
Proof.
  intros [Hmap Hnd]. unfold LRU.Victim.
  destruct (LRU.lru_list_ r) as [|x l] eqn:Hl; [done|]. intros [= <- <-].
  apply NoDup_cons in Hnd as [Hx Hnd]. split; [split|split]; simpl.
  - intros g. rewrite elem_of_difference, elem_of_singleton, Hmap, elem_of_cons.
    split; [intros [[?|?] ?]; done|]. intros Hg. split; [by right|]. by intros ->.
  - done.
  - apply list_elem_of_here.
  - intros g. rewrite elem_of_cons. split; [|intros [[?|?] ?]; done].
    intros Hg. split; [by right|]. by intros ->.
Qed.

Lemma Victim_None r : lru_wf r → (LRU.Victim r).1 = None → LRU.lru_list_ r = [] ∧ LRU.Victim r = (None, r).
Proof. intros _. unfold LRU.Victim. by destruct (LRU.lru_list_ r). Qed.

(** *** Frames *)

Definition upd (F : Z → option Page) (fid : Z) (p : Page) : Z → option Page :=
  λ f, if decide (f = fid) then Some p else F f.

Lemma frame_set_frame b fid p f :
  is_Some (frame b fid) → frame (set_frame fid p b) f = upd (frame b) fid p f.
Proof.
  unfold frame, set_frame, upd. simpl. intros [q Hq].
  destruct (decide (0 ≤ fid)) as [Hfid|]; [|done].
  apply lookup_lt_Some in Hq.
  destruct (decide (0 ≤ f)) as [Hf|Hf].
  - destruct (decide (f = fid)) as [->|Hne].
    + by rewrite list_lookup_insert_eq.
    + rewrite list_lookup_insert_ne; [done|]. lia.
  - rewrite decide_False by lia. done.
Qed.

Lemma length_set_frame b fid p : length (pages_ (set_frame fid p b)) = length (pages_ b).
Proof. unfold set_frame. simpl. apply length_insert. Qed.

(** *** The invariant

    [F] gives the page of a frame, [T] is the page table, [L] the free list,
    [R] the list of the replacer.  Every mapping leads to a frame that holds
    that page, and to a page id handed out before; a free frame is not
    mapped; a frame is free or mapped under the page id it holds; pin counts
    are not negative, and 0 in a free frame; the replacer holds exactly the mapped frames with pin
    count 0. *)
Record pool_ok (F : Z → option Page) (T : gmap Z Z) (L R : list Z) (next : Z) : Prop := {
  ok_table : ∀ pid fid, T !! pid = Some fid → ∃ page, F fid = Some page ∧ page_id_ page = pid;
  ok_fresh : ∀ pid fid, T !! pid = Some fid → pid < next;
  ok_free_nodup : NoDup L;
  ok_free : ∀ fid, fid ∈ L → is_Some (F fid) ∧ ∀ pid, T !! pid ≠ Some fid;
  ok_pin : ∀ fid page, F fid = Some page → 0 ≤ pin_count_ page;
  ok_cover : ∀ fid page, F fid = Some page → fid ∈ L ∨ T !! page_id_ page = Some fid;
  ok_lru_nodup : NoDup R;
  ok_lru : ∀ fid, fid ∈ R ↔
    ∃ page, F fid = Some page ∧ T !! page_id_ page = Some fid ∧ pin_count_ page = 0;
  ok_free_pin : ∀ fid page, fid ∈ L → F fid = Some page → pin_count_ page = 0
}.

(** The same with the frame [fid] taken out: neither free nor mapped. *)
Record pool_ok_except (fid : Z) (F : Z → option Page) (T : gmap Z Z) (L R : list Z)
    (next : Z) : Prop := {
  ex_frame : is_Some (F fid);
  ex_not_free : fid ∉ L;
  ex_not_mapped : ∀ pid, T !! pid ≠ Some fid;
  ex_table : ∀ pid fid', T !! pid = Some fid' →
    ∃ page, F fid' = Some page ∧ page_id_ page = pid;
  ex_fresh : ∀ pid fid', T !! pid = Some fid' → pid < next;
  ex_free_nodup : NoDup L;
  ex_free : ∀ fid', fid' ∈ L → is_Some (F fid') ∧ ∀ pid, T !! pid ≠ Some fid';
  ex_pin : ∀ fid' page, F fid' = Some page → 0 ≤ pin_count_ page;
  ex_cover : ∀ fid' page, F fid' = Some page →
    fid' = fid ∨ fid' ∈ L ∨ T !! page_id_ page = Some fid';
  ex_lru_nodup : NoDup R;
  ex_lru : ∀ fid', fid' ∈ R ↔
    ∃ page, F fid' = Some page ∧ T !! page_id_ page = Some fid' ∧ pin_count_ page = 0;
  ex_free_pin : ∀ fid' page, fid' ∈ L → F fid' = Some page → pin_count_ page = 0
}.

Lemma ok_injective F T L R next pid1 pid2 fid :
  pool_ok F T L R next → T !! pid1 = Some fid → T !! pid2 = Some fid → pid1 = pid2.
Proof.
  intros Hok H1 H2.
  destruct (ok_table _ _ _ _ _ Hok _ _ H1) as (p1 & Hp1 & <-).
  destruct (ok_table _ _ _ _ _ Hok _ _ H2) as (p2 & Hp2 & <-). congruence.
Qed.

Lemma take_free F T L R next fid :
  pool_ok F T (fid :: L) R next → pool_ok_except fid F T L R next.
Proof.
  intros [Ht Hfr Hnd Hfree Hpin Hcov Hrnd Hlru Hfp].
  apply NoDup_cons in Hnd as [Hfid Hnd].
  destruct (Hfree fid (list_elem_of_here _ _)) as [Hsome Hunm].
  split; try done.
  - intros fid' Hin. apply Hfree. by right.
  - intros fid' page Hp. destruct (Hcov fid' page Hp) as [[->|?]%elem_of_cons|?]; auto.
  - intros fid' page Hin. apply Hfp. by right.
Qed.

Lemma take_mapped F T L R R' next pid fid :
  pool_ok F T L R next → T !! pid = Some fid →
  NoDup R' → (∀ g, g ∈ R' ↔ g ∈ R ∧ g ≠ fid) →
  pool_ok_except fid F (delete pid T) L R' next.
Proof.
  intros Hok Hpid Hnd' HR'. pose proof Hok as [Ht Hfr Hnd Hfree Hpin Hcov Hrnd Hlru Hfp].
  destruct (Ht _ _ Hpid) as (page & Hpage & Hid).
  assert (∀ pid', delete pid T !! pid' = Some fid → False) as Hunm.
  { intros pid' [Hne Hm]%lookup_delete_Some. apply Hne. by eapply ok_injective. }
  split.
  - by eexists.
  - intros Hin. by apply (proj2 (Hfree fid Hin) pid).
  - intros pid' H. by apply (Hunm pid').
  - intros pid' fid' [_ Hm]%lookup_delete_Some. by apply Ht.
  - intros pid' fid' [_ Hm]%lookup_delete_Some. by eapply Hfr.
  - done.
  - intros fid' Hin. destruct (Hfree fid' Hin) as [Hs Hn]. split; [done|].
    intros pid' [_ Hm]%lookup_delete_Some. by apply (Hn pid').
  - done.
  - intros fid' page' Hp. destruct (decide (fid' = fid)) as [->|Hne]; [by left|right].
    destruct (Hcov fid' page' Hp) as [?|Hm]; [by left|right].
    apply lookup_delete_Some. split; [|done]. intros Heq. rewrite Heq in Hpid. congruence.
  - done.
  - intros fid'. rewrite HR', Hlru. split.
    + intros [(page' & Hp & Hm & Hz) Hne]. exists page'. split_and!; [done| |done].
      apply lookup_delete_Some. split; [|done]. intros Heq. rewrite Heq in Hpid. congruence.
    + intros (page' & Hp & Hm & Hz). pose proof Hm as [_ Hm']%lookup_delete_Some.
      split; [by exists page'|]. intros ->. by apply (Hunm (page_id_ page')).
  - done.
Qed.

Lemma upd_eq F fid p : upd F fid p fid = Some p.
Proof. unfold upd. by rewrite decide_True. Qed.

Lemma upd_ne F fid p f : f ≠ fid → upd F fid p f = F f.
Proof. intros. unfold upd. by rewrite decide_False. Qed.

Lemma upd_Some F fid p f q :
  upd F fid p f = Some q → (f = fid ∧ q = p) ∨ (f ≠ fid ∧ F f = Some q).
Proof. unfold upd. case_decide; [intros [= <-]; by left|by right]. Qed.

(** The frame taken out gets the page [pid], pinned. *)
Lemma install F T L R R' next next' fid pid p :
  pool_ok_except fid F T L R next →
  T !! pid = None → pid < next' → next ≤ next' →
  page_id_ p = pid → 0 < pin_count_ p →
  NoDup R' → (∀ g, g ∈ R' ↔ g ∈ R ∧ g ≠ fid) →
  pool_ok (upd F fid p) (<[pid := fid]> T) L R' next'.
Proof.
  intros [Hfr Hnf Hnm Ht Hfresh Hnd Hfree Hpin Hcov Hrnd Hlru Hfp] Hpid Hlt Hle Hid Hpos Hnd' HR'.
  split.
  - intros pid' fid' [[-> ->]|[Hne Hm]]%lookup_insert_Some.
    + exists p. by rewrite upd_eq.
    + rewrite upd_ne; [by apply Ht|]. intros ->. by apply (Hnm pid').
  - intros pid' fid' [[-> ->]|[Hne Hm]]%lookup_insert_Some; [done|].
    specialize (Hfresh _ _ Hm). lia.
  - done.
  - intros fid' Hin. destruct (Hfree fid' Hin) as [Hs Hn].
    assert (fid' ≠ fid) as Hne by (by intros ->).
    split; [by rewrite upd_ne|].
    intros pid' [[_ ?]|[_ Hm]]%lookup_insert_Some; [done|]. by apply (Hn pid').
  - intros fid' page [[-> ->]|[Hne Hp]]%upd_Some; [lia|by eapply Hpin].
  - intros fid' page [[-> ->]|[Hne Hp]]%upd_Some.
    + right. rewrite Hid. apply lookup_insert_eq.
    + destruct (Hcov fid' page Hp) as [?|[?|Hm]]; [done|by left|right].
      rewrite lookup_insert_ne; [done|]. intros Heq. rewrite <-Heq in Hm. congruence.
  - done.
  - intros fid'. rewrite HR', Hlru. split.
    + intros [(page & Hp & Hm & Hz) Hne]. exists page. rewrite upd_ne by done.
      split_and!; [done| |done]. rewrite lookup_insert_ne; [done|].
      intros Heq. rewrite <-Heq in Hm. congruence.
    + intros (page & [[-> ->]|[Hne Hp]]%upd_Some & Hm & Hz); [lia|].
      split; [|done]. exists page. split_and!; [done| |done].
      apply lookup_insert_Some in Hm as [[_ ?]|[_ Hm]]; done.
  - intros fid' page Hin [[-> ->]|[Hne Hp]]%upd_Some; [done|by eapply Hfp].
Qed.

(** The frame taken out goes to the end of the free list. *)
Lemma release F T L R R' next fid p :
  pool_ok_except fid F T L R next → pin_count_ p = 0 →
  NoDup R' → (∀ g, g ∈ R' ↔ g ∈ R ∧ g ≠ fid) →
  pool_ok (upd F fid p) T (L ++ [fid]) R' next.
Proof.
  intros [Hfr Hnf Hnm Ht Hfresh Hnd Hfree Hpin Hcov Hrnd Hlru Hfp] Hpos Hnd' HR'.
  split.
  - intros pid' fid' Hm. rewrite upd_ne; [by apply Ht|]. intros ->. by apply (Hnm pid').
  - done.
  - apply NoDup_app. split_and!; [done| |apply NoDup_singleton].
    intros g Hg Hs. apply list_elem_of_singleton in Hs as ->. done.
  - intros fid' [Hin|Hin]%elem_of_app.
    + destruct (Hfree fid' Hin) as [Hs Hn].
      split; [|done]. rewrite upd_ne; [done|]. by intros ->.
    + apply list_elem_of_singleton in Hin as ->. split; [|done]. rewrite upd_eq. by eexists.
  - intros fid' page [[-> ->]|[Hne Hp]]%upd_Some; [lia|by eapply Hpin].
  - intros fid' page [[-> ->]|[Hne Hp]]%upd_Some.
    + left. apply elem_of_app. right. apply list_elem_of_here.
    + destruct (Hcov fid' page Hp) as [?|[?|Hm]]; [done| |by right].
      left. apply elem_of_app. by left.
  - done.
  - intros fid'. rewrite HR', Hlru. split.
    + intros [(page & Hp & Hm & Hz) Hne]. exists page. by rewrite upd_ne.
    + intros (page & [[-> ->]|[Hne Hp]]%upd_Some & Hm & Hz); [by apply Hnm in Hm|].
      split; [|done]. by exists page.
  - intros fid' page [Hin|Hin]%elem_of_app [[-> ->]|[Hne Hp]]%upd_Some.
    + done.
    + by eapply Hfp.
    + done.
    + by apply list_elem_of_singleton in Hin.
Qed.

(** A frame changes its page in place, keeping the page id. *)
Lemma update F T L R R' next fid page p :
  pool_ok F T L R next → F fid = Some page → T !! page_id_ page = Some fid →
  page_id_ p = page_id_ page → 0 ≤ pin_count_ p →
  NoDup R' →
  (∀ g, g ∈ R' ↔ (g ≠ fid ∧ g ∈ R) ∨ (g = fid ∧ pin_count_ p = 0)) →
  pool_ok (upd F fid p) T L R' next.
Proof.
  intros [Ht Hfresh Hnd Hfree Hpin Hcov Hrnd Hlru Hfp] Hpage Hmap Hid Hpos Hnd' HR'.
  split.
  - intros pid' fid' Hm. destruct (Ht _ _ Hm) as (q & Hq & Hqid).
    destruct (decide (fid' = fid)) as [->|Hne].
    + exists p. rewrite upd_eq. split; [done|]. congruence.
    + exists q. by rewrite upd_ne.
  - done.
  - done.
  - intros fid' Hin. destruct (Hfree fid' Hin) as [Hs Hn]. split; [|done].
    unfold upd. case_decide; [by eexists|done].
  - intros fid' q [[-> ->]|[Hne Hq]]%upd_Some; [done|by eapply Hpin].
  - intros fid' q [[-> ->]|[Hne Hq]]%upd_Some.
    + rewrite Hid. by apply Hcov.
    + by apply Hcov.
  - done.
  - intros fid'. rewrite HR'. split.
    + intros [[Hne Hin]|(-> & Hz)].
      * apply Hlru in Hin as (q & Hq & Hm & Hz). exists q. by rewrite upd_ne.
      * exists p. rewrite upd_eq, Hid. done.
    + intros (q & [[-> ->]|[Hne Hq]]%upd_Some & Hm & Hz).
      * by right.
      * left. split; [done|]. apply Hlru. by exists q.
  - intros fid' q Hin [[-> ->]|[Hne Hq]]%upd_Some; [|by eapply Hfp].
    by destruct (proj2 (Hfree fid Hin) (page_id_ page)).
Qed.

Lemma pool_ok_ext F F' T L R next :
  (∀ f, F' f = F f) → pool_ok F T L R next → pool_ok F' T L R next.
Proof.
  intros HF [Ht Hfresh Hnd Hfree Hpin Hcov Hrnd Hlru Hfp]. split.
  - intros pid fid Hm. rewrite HF. by apply Ht.
  - done.
  - done.
  - intros fid Hin. rewrite HF. by apply Hfree.
  - intros fid page. rewrite HF. apply Hpin.
  - intros fid page. rewrite HF. apply Hcov.
  - done.
  - intros fid. rewrite Hlru. by setoid_rewrite HF.
  - intros fid page Hin. rewrite HF. by apply Hfp.
Qed.

(** *** The invariant of an instance *)

Record pool_inv (b : BufferPoolManagerInstance) : Prop := {
  inv_lru : lru_wf (replacer_ b);
  inv_num : 0 < num_instances_ b;
  inv_next : 0 ≤ next_page_id_ b ≤ INT32_MAX;
  inv_shard : next_page_id_ b mod num_instances_ b = instance_index_ b;
  inv_ok : pool_ok (frame b) (page_table_ b) (free_list_ b)
                   (LRU.lru_list_ (replacer_ b)) (next_page_id_ b)
}.

(** What [take_frame] hands over: a frame that is neither free nor mapped
    any more, with pin count 0; the other mappings stay. *)
Record taken (b : BufferPoolManagerInstance) (fid : Z) (b1 : BufferPoolManagerInstance)
    : Prop := {
  tk_pages : pages_ b1 = pages_ b;
  tk_num : num_instances_ b1 = num_instances_ b;
  tk_index : instance_index_ b1 = instance_index_ b;
  tk_next : next_page_id_ b1 = next_page_id_ b;
  tk_lru : lru_wf (replacer_ b1);
  tk_unpinned : ∃ page, frame b fid = Some page ∧ pin_count_ page = 0;
  tk_kept : ∀ pid fid', page_table_ b !! pid = Some fid' → fid' ≠ fid →
            page_table_ b1 !! pid = Some fid';
  tk_none : ∀ pid, page_table_ b !! pid = None → page_table_ b1 !! pid = None;
  tk_ok : pool_ok_except fid (frame b) (page_table_ b1) (free_list_ b1)
                         (LRU.lru_list_ (replacer_ b1)) (next_page_id_ b)
}.

Lemma take_frame_ok b :
  pool_inv b →
  (take_frame b = Some None ∧ free_list_ b = [] ∧ LRU.lru_list_ (replacer_ b) = []) ∨
  (∃ fid b1, take_frame b = Some (Some (fid, b1)) ∧ taken b fid b1).
Proof.
  intros [Hlru Hnum Hnext Hshard Hok]. unfold take_frame.
  destruct (free_list_ b) as [|fid rest] eqn:HL.
  - destruct (LRU.Victim (replacer_ b)) as [[fid|] r'] eqn:HV.
    + right. destruct (lru_wf_Victim _ _ _ Hlru HV) as (Hwf' & Hin & HR').
      apply (ok_lru _ _ _ _ _ Hok) in Hin as (page & Hpage & Hmap & Hz).
      rewrite Hpage. simpl. eexists fid, _. split; [done|].
      destruct Hwf' as [Hmap' Hnd'].
      split.
      * by destruct (is_dirty_ page).
      * by destruct (is_dirty_ page).
      * by destruct (is_dirty_ page).
      * by destruct (is_dirty_ page).
      * destruct (is_dirty_ page); by split.
      * by exists page.
      * intros pid fid' Hm Hne.
        assert (pid ≠ page_id_ page) by (intros ->; congruence).
        destruct (is_dirty_ page); simpl; by rewrite lookup_delete_ne.
      * intros pid Hm. destruct (is_dirty_ page); simpl;
          apply lookup_delete_None; by right.
      * assert (pool_ok_except fid (frame b) (delete (page_id_ page) (page_table_ b)) []
                  (LRU.lru_list_ r') (next_page_id_ b)) as Hex.
        { eapply take_mapped; [exact Hok|done|done|done]. }
        destruct (is_dirty_ page); simpl; by rewrite HL.
    + left. pose proof (Victim_None _ Hlru) as HN. rewrite HV in HN.
      destruct (HN eq_refl) as [? _]. done.
  - right. exists fid, (set_free_list rest b). split; [done|].
    pose proof (take_free _ _ _ _ _ _ Hok) as Hex.
    split; try done.
    destruct (ok_free _ _ _ _ _ Hok fid (list_elem_of_here _ _)) as [[page Hpage] _].
    exists page. split; [done|].
    eapply (ok_free_pin _ _ _ _ _ Hok); [apply list_elem_of_here|done].
Qed.

Lemma pool_inv_installed b fid b1 pid next' page' :
  pool_inv b → taken b fid b1 →
  page_table_ b !! pid = None → pid < next' → next_page_id_ b ≤ next' ≤ INT32_MAX →
  next' mod num_instances_ b = instance_index_ b →
  page_id_ page' = pid → 0 < pin_count_ page' →
  let b2 := set_frame fid page' (set_next_page_id next' b1) in
  let b3 := set_page_table (<[pid := fid]> (page_table_ b2)) b2 in
  pool_inv (set_replacer (LRU.Pin fid (replacer_ b3)) b3).
Proof.
  intros [Hlru Hnum Hnext Hshard Hok] [Hpg Hn Hi Hnx Hwf [q [Hq Hz]] Hkept Hnone Hex]
         Hpid Hlt Hle Hsh Hid Hpos. simpl.
  destruct (lru_wf_Pin fid _ Hwf) as [Hwf' HR'].
  split; simpl.
  - done.
  - by rewrite Hn.
  - lia.
  - by rewrite Hn, Hi.
  - apply (pool_ok_ext (upd (frame b) fid page')).
    + intros f. unfold frame, upd. simpl. rewrite Hpg.
      unfold frame in Hq. destruct (decide (0 ≤ fid)); [|done].
      apply lookup_lt_Some in Hq.
      destruct (decide (0 ≤ f)).
      * destruct (decide (f = fid)) as [->|Hne]; [by rewrite list_lookup_insert_eq|].
        rewrite list_lookup_insert_ne; [done|lia].
      * by rewrite decide_False by lia.
    + eapply install; [exact Hex|by apply Hnone|done|lia|done|done|by destruct Hwf'|done].
Qed.

Lemma frame_pages b b' f : pages_ b' = pages_ b → frame b' f = frame b f.
Proof. unfold frame. by intros ->. Qed.

Lemma AllocatePage_ok b :
  0 < num_instances_ b → 0 ≤ next_page_id_ b ≤ INT32_MAX →
  next_page_id_ b mod num_instances_ b = instance_index_ b →
  AllocatePage b =
    Some (next_page_id_ b,
          set_next_page_id (to_int32 (next_page_id_ b + num_instances_ b)) b).
Proof.
  intros Hnum Hnext Hshard. unfold AllocatePage, ValidatePageId. simpl.
  rewrite to_uint32_small by done. by rewrite bool_decide_eq_true_2.
Qed.

Lemma NewPgImp_inv b :
  pool_inv b → next_page_id_ b + num_instances_ b ≤ INT32_MAX →
  ∃ r b', NewPgImp b = Some (r, b') ∧ pool_inv b'.
Proof.
  intros Hinv Hov. pose proof Hinv as [Hlru Hnum Hnext Hshard Hok]. unfold NewPgImp.
  destruct (take_frame_ok b Hinv) as [(-> & _)|(fid & b1 & -> & Htk)]; simpl.
  { by exists None, b. }
  pose proof Htk as [Hpg Hn Hi Hnx Hwf Hq Hkept Hnone Hex].
  rewrite AllocatePage_ok by (rewrite ?Hn, ?Hi, ?Hnx; done). simpl.
  rewrite Hn, Hnx, to_int32_small by lia.
  eexists _, _. split; [done|].
  apply (pool_inv_installed b fid b1 (next_page_id_ b) (next_page_id_ b + num_instances_ b)
           (mkPage zero_page (next_page_id_ b) 1 false)); try done; try lia.
  - destruct (page_table_ b !! next_page_id_ b) as [f|] eqn:Hm; [|done].
    pose proof (ok_fresh _ _ _ _ _ Hok _ _ Hm). lia.
  - transitivity (next_page_id_ b mod num_instances_ b); [|done].
    rewrite <-(Z.mul_1_l (num_instances_ b)) at 1. apply Z.mod_add. lia.
Qed.

Lemma pool_inv_updated b fid page p r' :
  pool_inv b → frame b fid = Some page → page_table_ b !! page_id_ page = Some fid →
  page_id_ p = page_id_ page → 0 ≤ pin_count_ p →
  lru_wf r' →
  (∀ g, g ∈ LRU.lru_list_ r' ↔
        (g ≠ fid ∧ g ∈ LRU.lru_list_ (replacer_ b)) ∨ (g = fid ∧ pin_count_ p = 0)) →
  pool_inv (set_replacer r' (set_frame fid p b)).
Proof.
  intros [Hlru Hnum Hnext Hshard Hok] Hpage Hmap Hid Hpos Hwf HR'.
  split; try done. simpl.
  apply (pool_ok_ext (upd (frame b) fid p)).
  - intros f. rewrite <-(frame_set_frame b fid p f) by by eexists. by apply frame_pages.
  - eapply update; [exact Hok|done|done|done|done|by destruct Hwf|done].
Qed.

Lemma mapped_frame b pid fid :
  pool_inv b → page_table_ b !! pid = Some fid →
  ∃ page, frame b fid = Some page ∧ page_id_ page = pid ∧ 0 ≤ pin_count_ page ∧
          (fid ∈ LRU.lru_list_ (replacer_ b) ↔ pin_count_ page = 0).
Proof.
  intros [Hlru Hnum Hnext Hshard Hok] Hm.
  destruct (ok_table _ _ _ _ _ Hok _ _ Hm) as (page & Hpage & Hid).
  exists page. split_and!; [done|done|by eapply ok_pin|].
  rewrite (ok_lru _ _ _ _ _ Hok). split.
  - intros (q & Hq & _ & Hz). congruence.
  - intros Hz. exists page. by rewrite Hid.
Qed.

Lemma FetchPgImp_inv pid b :
  pool_inv b → pid < next_page_id_ b →
  ∃ r b', FetchPgImp pid b = Some (r, b') ∧ pool_inv b'.
Proof.
  intros Hinv Hlt. pose proof Hinv as [Hlru Hnum Hnext Hshard Hok]. unfold FetchPgImp.
  destruct (page_table_ b !! pid) as [fid|] eqn:Hm.
  - destruct (mapped_frame b pid fid Hinv Hm) as (page & Hpage & Hid & Hpin & Hin).
    rewrite Hpage. simpl. eexists _, _. split; [done|].
    destruct (lru_wf_Pin fid _ Hlru) as [Hwf' HR'].
    apply (pool_inv_updated b fid page); simpl; try done; try lia.
    + by rewrite Hid.
    + intros g. rewrite HR'. split; [intros [? ?]; by left|]. intros [[? ?]|[_ ?]]; [done|lia].
  - destruct (take_frame_ok b Hinv) as [(-> & _)|(fid & b1 & -> & Htk)]; simpl.
    { by exists None, b. }
    eexists _, _. split; [done|].
    pose proof Htk as [Hpg Hn Hi Hnx Hwf Hq Hkept Hnone Hex].
    pose proof (pool_inv_installed b fid b1 pid (next_page_id_ b)
           (mkPage (ReadPage pid (disk_manager_ b1)) pid 1 false) Hinv Htk Hm Hlt) as Hgoal.
    simpl in Hgoal.
    assert (set_next_page_id (next_page_id_ b) b1 = b1) as Heq.
    { destruct b1. unfold set_next_page_id. simpl in *. by rewrite Hnx. }
    rewrite Heq in Hgoal. apply Hgoal; [lia|done|done|lia].
Qed.

Lemma UnpinPgImp_inv pid is_dirty b :
  pool_inv b → ∃ r b', UnpinPgImp pid is_dirty b = Some (r, b') ∧ pool_inv b'.
Proof.
  intros Hinv. pose proof Hinv as [Hlru Hnum Hnext Hshard Hok]. unfold UnpinPgImp.
  destruct (page_table_ b !! pid) as [fid|] eqn:Hm; [|by exists false, b].
  destruct (mapped_frame b pid fid Hinv Hm) as (page & Hpage & Hid & Hpin & Hin).
  rewrite Hpage. simpl. case_decide as Hle; [by exists false, b|].
  eexists _, _. split; [done|]. simpl.
  destruct (lru_wf_Unpin fid _ Hlru) as [Hwf' HR'].
  case_decide as Hz.
  - apply (pool_inv_updated b fid page); simpl; try done; try lia.
    + by rewrite Hid.
    + intros g. rewrite HR'. split.
      * intros [?| ->]; [|right; split; [done|lia]].
        destruct (decide (g = fid)) as [->|]; [right; split; [done|lia]|by left].
      * intros [[? ?]|[-> _]]; [by left|by right].
  - assert (set_frame fid (mkPage (data_ page) (page_id_ page) (pin_count_ page - 1)
              (if is_dirty then is_dirty else is_dirty_ page)) b =
            set_replacer (replacer_ b) (set_frame fid (mkPage (data_ page) (page_id_ page)
              (pin_count_ page - 1) (if is_dirty then is_dirty else is_dirty_ page)) b)) as ->
      by done.
    apply (pool_inv_updated b fid page); simpl; try done; try lia.
    + by rewrite Hid.
    + intros g. split.
      * intros Hg. left. split; [|done]. intros ->. apply Hin in Hg. lia.
      * intros [[? ?]|[_ ?]]; [done|lia].
Qed.

Lemma FlushPgImp_inv pid b :
  pool_inv b → ∃ r b', FlushPgImp pid b = Some (r, b') ∧ pool_inv b'.
Proof.
  intros Hinv. pose proof Hinv as [Hlru Hnum Hnext Hshard Hok]. unfold FlushPgImp.
  destruct (page_table_ b !! pid) as [fid|] eqn:Hm; [|by exists false, b].
  destruct (mapped_frame b pid fid Hinv Hm) as (page & Hpage & Hid & Hpin & Hin).
  rewrite Hpage. simpl. eexists _, _. split; [done|].
  pose proof (pool_inv_updated b fid page
    (mkPage (data_ page) (page_id_ page) (pin_count_ page) false) (replacer_ b) Hinv Hpage) as Hgoal.
  assert (page_table_ b !! page_id_ page = Some fid) as Hm' by (by rewrite Hid).
  specialize (Hgoal Hm' eq_refl Hpin Hlru).
  destruct Hgoal as [H1 H2 H3 H4 H5];
    [|split; [exact H1|exact H2|exact H3|exact H4|exact H5]].
  intros g. split.
  - intros Hg. destruct (decide (g = fid)) as [->|]; [right|by left].
    split; [done|]. by apply Hin.
  - intros [[? ?]|[-> Hz]]; [done|]. by apply Hin.
Qed.

Lemma FlushAllPgsImp_inv b :
  pool_inv b → ∃ b', FlushAllPgsImp b = Some b' ∧ pool_inv b'.
Proof.
  intros Hinv. pose proof Hinv as [Hlru Hnum Hnext Hshard Hok]. unfold FlushAllPgsImp.
  set (f := λ (pid : Z) (fid : Z) (acc : option DiskManager),
              acc ≫= λ dm, frame b fid ≫= λ page, Some (WritePage pid (data_ page) dm)).
  change (map_fold _ _ _) with (map_fold f (Some (disk_manager_ b)) (page_table_ b)).
  assert (is_Some (map_fold f (Some (disk_manager_ b)) (page_table_ b))) as [dm ->].
  { assert (∀ pid fid, page_table_ b !! pid = Some fid → is_Some (frame b fid)) as Hall.
    { intros pid fid Hm. destruct (ok_table _ _ _ _ _ Hok _ _ Hm) as (p & -> & _). by eexists. }
    revert Hall.
    apply (map_fold_weak_ind (λ r m, (∀ pid fid, m !! pid = Some fid → is_Some (frame b fid)) →
                                     is_Some r)).
    - by eexists.
    - intros i x m r Hnone IH Hall.
      destruct IH as [dm0 ->].
      { intros pid fid Hm. apply (Hall pid). rewrite lookup_insert_ne; [done|]. congruence. }
      destruct (Hall i x) as [p Hp]; [apply lookup_insert_eq|].
      unfold f. simpl. rewrite Hp. by eexists. }
  simpl. eexists. split; [done|]. by split.
Qed.

Lemma DeletePgImp_inv pid b :
  pool_inv b → ∃ r b', DeletePgImp pid b = Some (r, b') ∧ pool_inv b'.
Proof.
  intros Hinv. pose proof Hinv as [Hlru Hnum Hnext Hshard Hok]. unfold DeletePgImp. simpl.
  destruct (page_table_ b !! pid) as [fid|] eqn:Hm; [|eexists _, _; split; [done|by split]].
  destruct (mapped_frame b pid fid Hinv Hm) as (page & Hpage & Hid & Hpin & Hin).
  change (frame (DeallocatePage pid b) fid) with (frame b fid). rewrite Hpage. simpl.
  case_decide as Hgt; [eexists _, _; split; [done|by split]|].
  eexists _, _. split; [done|].
  destruct (lru_wf_Pin fid _ Hlru) as [Hwf' HR'].
  assert (∀ d, pool_inv (set_free_list (free_list_ b ++ [fid])
            (set_frame fid empty_frame
              (set_page_table (delete pid (page_table_ b))
                (set_replacer (LRU.Pin fid (replacer_ b)) (set_disk d b)))))) as Hgoal.
  { intros d. split; try done. simpl.
    apply (pool_ok_ext (upd (frame b) fid empty_frame)).
    - intros f. rewrite <-(frame_set_frame b fid empty_frame f) by by eexists. done.
    - eapply release; [eapply take_mapped; [exact Hok|done|by destruct Hwf'|exact HR']
                      |done|by destruct Hwf'|].
      intros g. rewrite HR'. tauto. }
  destruct (is_dirty_ page); apply Hgoal.
Qed.

Lemma lookup_repeat {A} (x : A) (n k : nat) : (k < n)%nat → repeat x n !! k = Some x.
Proof. revert k. induction n as [|n IH]; intros [|k] Hk; simpl; try lia; [done|]. apply IH. lia. Qed.

Lemma Construct_inv pool_size n i dm b :
  Construct pool_size n i dm = Some b → 0 ≤ i ≤ INT32_MAX → pool_inv b.
Proof.
  unfold Construct. case_decide as Hn; [|done]. intros [= <-] Hi.
  assert (∀ fid page, frame (mkBPI pool_size n i (to_int32 i) (repeat empty_frame pool_size) ∅
            (Z.of_nat <$> seq 0 pool_size) LRU.init dm) fid = Some page →
          page = empty_frame ∧ fid ∈ Z.of_nat <$> seq 0 pool_size) as Hframe.
  { intros fid page. unfold frame. simpl. case_decide; [|done].
    intros Hl. pose proof (lookup_lt_Some _ _ _ Hl) as Hlt. rewrite repeat_length in Hlt.
    apply list_elem_of_lookup_2, list_elem_of_In, repeat_spec in Hl. split; [done|].
    apply list_elem_of_fmap. exists (Z.to_nat fid). split; [lia|].
    apply elem_of_seq. lia. }
  assert (∀ fid, fid ∈ Z.of_nat <$> seq 0 pool_size →
          frame (mkBPI pool_size n i (to_int32 i) (repeat empty_frame pool_size) ∅
            (Z.of_nat <$> seq 0 pool_size) LRU.init dm) fid = Some empty_frame) as Hfree.
  { intros fid Hin. apply list_elem_of_fmap in Hin as (k & -> & Hk).
    apply elem_of_seq in Hk. unfold frame. simpl.
    rewrite decide_True by lia. rewrite Nat2Z.id.
    apply lookup_repeat. lia. }
  split; simpl.
  - split; [|apply NoDup_nil_2]. intros f. unfold LRU.init. simpl.
    by rewrite elem_of_empty, elem_of_nil.
  - lia.
  - rewrite to_int32_small; unfold INT32_MAX in *; lia.
  - rewrite to_int32_small by (unfold INT32_MAX in *; lia). apply Z.mod_small. lia.
  - split.
    + intros pid fid Hm. by rewrite lookup_empty in Hm.
    + intros pid fid Hm. by rewrite lookup_empty in Hm.
    + apply NoDup_fmap_2; [apply _|apply NoDup_seq].
    + intros fid Hin. rewrite (Hfree fid Hin). split; [by eexists|].
      intros pid. by rewrite lookup_empty.
    + intros fid page [-> _]%Hframe. done.
    + intros fid page [-> ?]%Hframe. by left.
    + apply NoDup_nil_2.
    + intros fid. unfold LRU.init. simpl. split; [by intros ?%elem_of_nil|].
      intros (page & _ & Hm & _). by rewrite lookup_empty in Hm.
    + intros fid page _ [-> _]%Hframe. done.
Qed.

(** *** What holds whatever page ids are asked for

    [FetchPgImp] takes any page id, also one that [AllocatePage] has not
    handed out yet; [NewPgImp] may then hand out the id of a resident page
    and overwrite its mapping, and the frame that held the page is mapped no
    more.  What is left of the invariant in such runs: a mapping leads to a
    frame that holds that page; a free frame is not mapped and not in the
    replacer; pin counts are not negative, and 0 exactly in the frames of
    the free list and of the replacer. *)
Record frames_ok (F : Z → option Page) (T : gmap Z Z) (L R : list Z) : Prop := {
  fo_table : ∀ pid fid, T !! pid = Some fid → ∃ page, F fid = Some page ∧ page_id_ page = pid;
  fo_free_nodup : NoDup L;
  fo_free : ∀ fid, fid ∈ L → is_Some (F fid) ∧ (∀ pid, T !! pid ≠ Some fid) ∧ fid ∉ R;
  fo_lru_nodup : NoDup R;
  fo_lru : ∀ fid, fid ∈ R → is_Some (F fid);
  fo_pin : ∀ fid page, F fid = Some page →
    0 ≤ pin_count_ page ∧ (pin_count_ page = 0 ↔ fid ∈ L ∨ fid ∈ R)
}.

(** The same with the frame [fid] taken out: not free, not in the replacer,
    not mapped. *)
Record frames_ok_except (fid : Z) (F : Z → option Page) (T : gmap Z Z) (L R : list Z)
    : Prop := {
  fx_frame : is_Some (F fid);
  fx_not_free : fid ∉ L;
  fx_not_lru : fid ∉ R;
  fx_not_mapped : ∀ pid, T !! pid ≠ Some fid;
  fx_table : ∀ pid fid', T !! pid = Some fid' →
    ∃ page, F fid' = Some page ∧ page_id_ page = pid;
  fx_free_nodup : NoDup L;
  fx_free : ∀ fid', fid' ∈ L → is_Some (F fid') ∧ (∀ pid, T !! pid ≠ Some fid') ∧ fid' ∉ R;
  fx_lru_nodup : NoDup R;
  fx_lru : ∀ fid', fid' ∈ R → is_Some (F fid');
  fx_pin : ∀ fid' page, fid' ≠ fid → F fid' = Some page →
    0 ≤ pin_count_ page ∧ (pin_count_ page = 0 ↔ fid' ∈ L ∨ fid' ∈ R)
}.

Lemma frames_take_free F T L R fid :
  frames_ok F T (fid :: L) R → frames_ok_except fid F T L R.
Proof.
  intros [Ht Hnd Hfree Hrnd Hlru Hpin].
  apply NoDup_cons in Hnd as [Hfid Hnd].
  destruct (Hfree fid (list_elem_of_here _ _)) as (Hsome & Hunm & Hnr).
  split; try done.
  - intros fid' Hin. apply Hfree. by right.
  - intros fid' page Hne Hp. destruct (Hpin fid' page Hp) as [H0 Hz]. split; [done|].
    rewrite Hz, elem_of_cons. split; [intros [[?|?]|?]; auto; done|].
    intros [?|?]; auto.
Qed.

(** A frame that is not free is unmapped, by the page id it holds, and
    taken out of the replacer. *)
Lemma frames_unmap F T L R R' fid page :
  frames_ok F T L R → F fid = Some page → fid ∉ L →
  NoDup R' → (∀ g, g ∈ R' ↔ g ∈ R ∧ g ≠ fid) →
  frames_ok_except fid F (delete (page_id_ page) T) L R'.
Proof.
  intros [Ht Hnd Hfree Hrnd Hlru Hpin] Hpage Hnl Hnd' HR'.
  split.
  - by eexists.
  - done.
  - rewrite HR'. by intros [_ ?].
  - intros pid [Hne Hm]%lookup_delete_Some.
    destruct (Ht _ _ Hm) as (q & Hq & Hid). congruence.
  - intros pid fid' [_ Hm]%lookup_delete_Some. by apply Ht.
  - done.
  - intros fid' Hin. destruct (Hfree fid' Hin) as (Hs & Hn & Hr). split_and!; [done| |].
    + intros pid [_ Hm]%lookup_delete_Some. by apply (Hn pid).
    + rewrite HR'. by intros [? _].
  - done.
  - intros fid' [Hin _]%HR'. by apply Hlru.
  - intros fid' q Hne Hq. destruct (Hpin fid' q Hq) as [H0 Hz]. split; [done|].
    rewrite Hz, HR'. split; [intros [?|?]; auto|intros [?|[? _]]; auto].
Qed.

(** The frame taken out gets a page, pinned, and the mapping of its id. *)
Lemma frames_install F T L R fid pid p :
  frames_ok_except fid F T L R → page_id_ p = pid → 0 < pin_count_ p →
  frames_ok (upd F fid p) (<[pid := fid]> T) L R.
Proof.
  intros [Hfr Hnf Hnr Hnm Ht Hnd Hfree Hrnd Hlru Hpin] Hid Hpos.
  split.
  - intros pid' fid' [[-> ->]|[Hne Hm]]%lookup_insert_Some.
    + exists p. by rewrite upd_eq.
    + rewrite upd_ne; [by apply Ht|]. intros ->. by apply (Hnm pid').
  - done.
  - intros fid' Hin. destruct (Hfree fid' Hin) as (Hs & Hn & Hr).
    assert (fid' ≠ fid) as Hne by (by intros ->).
    split_and!; [by rewrite upd_ne| |done].
    intros pid' [[_ ?]|[_ Hm]]%lookup_insert_Some; [done|]. by apply (Hn pid').
  - done.
  - intros fid' Hin. unfold upd. case_decide; [by eexists|by apply Hlru].
  - intros fid' q [[-> ->]|[Hne Hq]]%upd_Some; [|by apply Hpin].
    split; [lia|]. split; [lia|]. by intros [?|?].
Qed.

(** The frame taken out goes to the end of the free list. *)
Lemma frames_release F T L R fid p :
  frames_ok_except fid F T L R → pin_count_ p = 0 →
  frames_ok (upd F fid p) T (L ++ [fid]) R.
Proof.
  intros [Hfr Hnf Hnr Hnm Ht Hnd Hfree Hrnd Hlru Hpin] Hz.
  split.
  - intros pid' fid' Hm. rewrite upd_ne; [by apply Ht|]. intros ->. by apply (Hnm pid').
  - apply NoDup_app. split_and!; [done| |apply NoDup_singleton].
    intros g Hg Hs. apply list_elem_of_singleton in Hs as ->. done.
  - intros fid' [Hin|Hin]%elem_of_app.
    + destruct (Hfree fid' Hin) as (Hs & Hn & Hr).
      split_and!; [|done|done]. rewrite upd_ne; [done|]. by intros ->.
    + apply list_elem_of_singleton in Hin as ->. split_and!; [|done|done].
      rewrite upd_eq. by eexists.
  - done.
  - intros fid' Hin. unfold upd. case_decide; [by eexists|by apply Hlru].
  - intros fid' q [[-> ->]|[Hne Hq]]%upd_Some.
    + split; [lia|]. split; [|done]. intros _. left. apply elem_of_app. right.
      apply list_elem_of_here.
    + destruct (Hpin fid' q Hne Hq) as [H0 Hiff]. split; [done|].
      rewrite Hiff, elem_of_app, list_elem_of_singleton. split; [intros [?|?]; auto|].
      intros [[?|?]|?]; auto; done.
Qed.

(** A mapped frame changes its page in place, keeping the page id. *)
Lemma frames_update F T L R R' fid page p :
  frames_ok F T L R → F fid = Some page → fid ∉ L →
  page_id_ p = page_id_ page → 0 ≤ pin_count_ p →
  NoDup R' →
  (∀ g, g ∈ R' ↔ (g ≠ fid ∧ g ∈ R) ∨ (g = fid ∧ pin_count_ p = 0)) →
  frames_ok (upd F fid p) T L R'.
Proof.
  intros [Ht Hnd Hfree Hrnd Hlru Hpin] Hpage Hnl Hid Hpos Hnd' HR'.
  split.
  - intros pid' fid' Hm. destruct (Ht _ _ Hm) as (q & Hq & Hqid).
    destruct (decide (fid' = fid)) as [->|Hne].
    + exists p. rewrite upd_eq. split; [done|]. congruence.
    + exists q. by rewrite upd_ne.
  - done.
  - intros fid' Hin. destruct (Hfree fid' Hin) as (Hs & Hn & Hr).
    assert (fid' ≠ fid) as Hne by (by intros ->).
    split_and!; [by rewrite upd_ne|done|].
    rewrite HR'. intros [[_ ?]|[? _]]; done.
  - done.
  - intros fid' Hin. unfold upd. case_decide; [by eexists|].
    apply Hlru. apply HR' in Hin as [[_ ?]|[? _]]; done.
  - intros fid' q [[-> ->]|[Hne Hq]]%upd_Some.
    + split; [done|]. rewrite HR'. split; [intros ?; right; by right|].
      intros [?|[[? _]|[_ ?]]]; done.
    + destruct (Hpin fid' q Hq) as [H0 Hiff]. split; [done|].
      rewrite Hiff, HR'. split; [intros [?|?]; [by left|right; by left]|].
      intros [?|[[_ ?]|[? _]]]; auto; done.
Qed.

Lemma frames_ok_ext F F' T L R :
  (∀ f, F' f = F f) → frames_ok F T L R → frames_ok F' T L R.
Proof.
  intros HF [Ht Hnd Hfree Hrnd Hlru Hpin]. split.
  - intros pid fid Hm. rewrite HF. by apply Ht.
  - done.
  - intros fid Hin. rewrite HF. by apply Hfree.
  - done.
  - intros fid Hin. rewrite HF. by apply Hlru.
  - intros fid page. rewrite HF. apply Hpin.
Qed.

Record pool_sound (b : BufferPoolManagerInstance) : Prop := {
  snd_lru : lru_wf (replacer_ b);
  snd_num : 0 < num_instances_ b;
  snd_next : 0 ≤ next_page_id_ b ≤ INT32_MAX;
  snd_shard : next_page_id_ b mod num_instances_ b = instance_index_ b;
  snd_ok : frames_ok (frame b) (page_table_ b) (free_list_ b) (LRU.lru_list_ (replacer_ b))
}.

(** What [take_frame] hands over: a frame with pin count 0 that is neither
    free, nor in the replacer, nor mapped any more. *)
Record handed (b : BufferPoolManagerInstance) (fid : Z) (b1 : BufferPoolManagerInstance)
    : Prop := {
  hd_pages : pages_ b1 = pages_ b;
  hd_num : num_instances_ b1 = num_instances_ b;
  hd_index : instance_index_ b1 = instance_index_ b;
  hd_next : next_page_id_ b1 = next_page_id_ b;
  hd_lru : lru_wf (replacer_ b1);
  hd_unpinned : ∃ page, frame b fid = Some page ∧ pin_count_ page = 0;
  hd_ok : frames_ok_except fid (frame b) (page_table_ b1) (free_list_ b1)
                           (LRU.lru_list_ (replacer_ b1))
}.

Lemma take_frame_sound b :
  pool_sound b →
  (take_frame b = Some None ∧ free_list_ b = [] ∧ LRU.lru_list_ (replacer_ b) = []) ∨
  (∃ fid b1, take_frame b = Some (Some (fid, b1)) ∧ handed b fid b1).
Proof.
  intros [Hlru Hnum Hnext Hshard Hok]. unfold take_frame.
  destruct (free_list_ b) as [|fid rest] eqn:HL.
  - destruct (LRU.Victim (replacer_ b)) as [[fid|] r'] eqn:HV.
    + right. destruct (lru_wf_Victim _ _ _ Hlru HV) as (Hwf' & Hin & HR').
      destruct (fo_lru _ _ _ _ Hok _ Hin) as [page Hpage].
      destruct (fo_pin _ _ _ _ Hok _ _ Hpage) as [_ Hz].
      rewrite Hpage. simpl. eexists fid, _. split; [done|].
      assert (frames_ok_except fid (frame b) (delete (page_id_ page) (page_table_ b)) []
                (LRU.lru_list_ r')) as Hex.
      { eapply frames_unmap; [exact Hok|done|by intros ?%elem_of_nil|by destruct Hwf'|done]. }
      split.
      * by destruct (is_dirty_ page).
      * by destruct (is_dirty_ page).
      * by destruct (is_dirty_ page).
      * by destruct (is_dirty_ page).
      * by destruct (is_dirty_ page).
      * exists page. split; [done|]. apply Hz. by right.
      * destruct (is_dirty_ page); simpl; by rewrite HL.
    + left. pose proof (Victim_None _ Hlru) as HN. rewrite HV in HN.
      destruct (HN eq_refl) as [? _]. done.
  - right. exists fid, (set_free_list rest b). split; [done|].
    pose proof (frames_take_free _ _ _ _ _ Hok) as Hex.
    split; try done.
    destruct (fo_free _ _ _ _ Hok fid (list_elem_of_here _ _)) as ([page Hpage] & _).
    exists page. split; [done|].
    apply (fo_pin _ _ _ _ Hok _ _ Hpage). left. apply list_elem_of_here.
Qed.

Lemma frame_upd b b' fid p :
  pages_ b' = <[Z.to_nat fid := p]> (pages_ b) → is_Some (frame b fid) →
  ∀ f, frame b' f = upd (frame b) fid p f.
Proof.
  intros Hpg Hs f. rewrite (frame_pages (set_frame fid p b)) by done.
  by apply frame_set_frame.
Qed.

Lemma pool_sound_installed b fid b1 pid next' page' :
  pool_sound b → handed b fid b1 →
  0 ≤ next' ≤ INT32_MAX → next' mod num_instances_ b = instance_index_ b →
  page_id_ page' = pid → 0 < pin_count_ page' →
  let b2 := set_frame fid page' (set_next_page_id next' b1) in
  let b3 := set_page_table (<[pid := fid]> (page_table_ b2)) b2 in
  pool_sound (set_replacer (LRU.Pin fid (replacer_ b3)) b3).
Proof.
  intros [Hlru Hnum Hnext Hshard Hok] [Hpg Hn Hi Hnx Hwf [q [Hq Hz]] Hex]
         Hle Hsh Hid Hpos. simpl.
  destruct (lru_wf_Pin fid _ Hwf) as [Hwf' HR'].
  assert (LRU.Pin fid (replacer_ b1) = replacer_ b1) as Hsame.
  { unfold LRU.Pin. rewrite decide_False; [done|].
    intros Hin. apply (fx_not_lru _ _ _ _ _ Hex). by apply Hwf. }
  split; simpl.
  - done.
  - by rewrite Hn.
  - done.
  - by rewrite Hn, Hi.
  - rewrite Hsame.
    apply (frames_ok_ext (upd (frame b) fid page')).
    + apply frame_upd; [simpl; by rewrite Hpg|by eexists].
    + by eapply frames_install.
Qed.

Lemma NewPgImp_sound b :
  pool_sound b → next_page_id_ b + num_instances_ b ≤ INT32_MAX →
  ∃ r b', NewPgImp b = Some (r, b') ∧ pool_sound b'.
Proof.
  intros Hinv Hov. pose proof Hinv as [Hlru Hnum Hnext Hshard Hok]. unfold NewPgImp.
  destruct (take_frame_sound b Hinv) as [(-> & _)|(fid & b1 & -> & Htk)]; simpl.
  { by exists None, b. }
  pose proof Htk as [Hpg Hn Hi Hnx Hwf Hq Hex].
  rewrite AllocatePage_ok by (rewrite ?Hn, ?Hi, ?Hnx; done). simpl.
  rewrite Hn, Hnx, to_int32_small by lia.
  eexists _, _. split; [done|].
  apply (pool_sound_installed b fid b1 (next_page_id_ b) (next_page_id_ b + num_instances_ b)
           (mkPage zero_page (next_page_id_ b) 1 false)); try done; try lia.
  transitivity (next_page_id_ b mod num_instances_ b); [|done].
  rewrite <-(Z.mul_1_l (num_instances_ b)) at 1. apply Z.mod_add. lia.
Qed.

Lemma pool_sound_updated b fid page p r' :
  pool_sound b → frame b fid = Some page → fid ∉ free_list_ b →
  page_id_ p = page_id_ page → 0 ≤ pin_count_ p →
  lru_wf r' →
  (∀ g, g ∈ LRU.lru_list_ r' ↔
        (g ≠ fid ∧ g ∈ LRU.lru_list_ (replacer_ b)) ∨ (g = fid ∧ pin_count_ p = 0)) →
  pool_sound (set_replacer r' (set_frame fid p b)).
Proof.
  intros [Hlru Hnum Hnext Hshard Hok] Hpage Hnl Hid Hpos Hwf HR'.
  split; try done. simpl.
  apply (frames_ok_ext (upd (frame b) fid p)).
  - apply frame_upd; [done|by eexists].
  - eapply frames_update; [exact Hok|done|done|done|done|by destruct Hwf|done].
Qed.

Lemma sound_mapped_frame b pid fid :
  pool_sound b → page_table_ b !! pid = Some fid →
  ∃ page, frame b fid = Some page ∧ page_id_ page = pid ∧ 0 ≤ pin_count_ page ∧
          (fid ∉ free_list_ b) ∧
          (fid ∈ LRU.lru_list_ (replacer_ b) ↔ pin_count_ page = 0).
Proof.
  intros [Hlru Hnum Hnext Hshard Hok] Hm.
  destruct (fo_table _ _ _ _ Hok _ _ Hm) as (page & Hpage & Hid).
  destruct (fo_pin _ _ _ _ Hok _ _ Hpage) as [H0 Hz].
  assert (fid ∉ free_list_ b) as Hnl.
  { intros Hin. by destruct (fo_free _ _ _ _ Hok _ Hin) as (_ & Hn & _); apply (Hn pid). }
  exists page. split_and!; [done|done|done|done|].
  rewrite Hz. split; [by right|]. by intros [?|?].
Qed.

Lemma FetchPgImp_sound pid b :
  pool_sound b → ∃ r b', FetchPgImp pid b = Some (r, b') ∧ pool_sound b'.
Proof.
  intros Hinv. pose proof Hinv as [Hlru Hnum Hnext Hshard Hok]. unfold FetchPgImp.
  destruct (page_table_ b !! pid) as [fid|] eqn:Hm.
  - destruct (sound_mapped_frame b pid fid Hinv Hm) as (page & Hpage & Hid & Hpin & Hnl & Hin).
    rewrite Hpage. simpl. eexists _, _. split; [done|].
    destruct (lru_wf_Pin fid _ Hlru) as [Hwf' HR'].
    apply (pool_sound_updated b fid page); simpl; try done; try lia.
    intros g. rewrite HR'. split; [intros [? ?]; by left|]. intros [[? ?]|[_ ?]]; [done|lia].
  - destruct (take_frame_sound b Hinv) as [(-> & _)|(fid & b1 & -> & Htk)]; simpl.
    { by exists None, b. }
    eexists _, _. split; [done|].
    pose proof Htk as [Hpg Hn Hi Hnx Hwf Hq Hex].
    pose proof (pool_sound_installed b fid b1 pid (next_page_id_ b)
           (mkPage (ReadPage pid (disk_manager_ b1)) pid 1 false) Hinv Htk Hnext Hshard) as Hgoal.
    simpl in Hgoal.
    assert (set_next_page_id (next_page_id_ b) b1 = b1) as Heq.
    { destruct b1. unfold set_next_page_id. simpl in *. by rewrite Hnx. }
    rewrite Heq in Hgoal. apply Hgoal; [done|lia].
Qed.

Lemma UnpinPgImp_sound pid is_dirty b :
  pool_sound b → ∃ r b', UnpinPgImp pid is_dirty b = Some (r, b') ∧ pool_sound b'.
Proof.
  intros Hinv. pose proof Hinv as [Hlru Hnum Hnext Hshard Hok]. unfold UnpinPgImp.
  destruct (page_table_ b !! pid) as [fid|] eqn:Hm; [|by exists false, b].
  destruct (sound_mapped_frame b pid fid Hinv Hm) as (page & Hpage & Hid & Hpin & Hnl & Hin).
  rewrite Hpage. simpl. case_decide as Hle; [by exists false, b|].
  eexists _, _. split; [done|]. simpl.
  destruct (lru_wf_Unpin fid _ Hlru) as [Hwf' HR'].
  case_decide as Hz.
  - apply (pool_sound_updated b fid page); simpl; try done; try lia.
    intros g. rewrite HR'. split.
    + intros [?| ->]; [|right; split; [done|lia]].
      destruct (decide (g = fid)) as [->|]; [right; split; [done|lia]|by left].
    + intros [[? ?]|[-> _]]; [by left|by right].
  - assert (set_frame fid (mkPage (data_ page) (page_id_ page) (pin_count_ page - 1)
              (if is_dirty then is_dirty else is_dirty_ page)) b =
            set_replacer (replacer_ b) (set_frame fid (mkPage (data_ page) (page_id_ page)
              (pin_count_ page - 1) (if is_dirty then is_dirty else is_dirty_ page)) b)) as ->
      by done.
    apply (pool_sound_updated b fid page); simpl; try done; try lia.
    intros g. split.
    + intros Hg. left. split; [|done]. intros ->. apply Hin in Hg. lia.
    + intros [[? ?]|[_ ?]]; [done|lia].
Qed.

Lemma FlushPgImp_sound pid b :
  pool_sound b → ∃ r b', FlushPgImp pid b = Some (r, b') ∧ pool_sound b'.
Proof.
  intros Hinv. pose proof Hinv as [Hlru Hnum Hnext Hshard Hok]. unfold FlushPgImp.
  destruct (page_table_ b !! pid) as [fid|] eqn:Hm; [|by exists false, b].
  destruct (sound_mapped_frame b pid fid Hinv Hm) as (page & Hpage & Hid & Hpin & Hnl & Hin).
  rewrite Hpage. simpl. eexists _, _. split; [done|].
  pose proof (pool_sound_updated b fid page
    (mkPage (data_ page) (page_id_ page) (pin_count_ page) false) (replacer_ b)
    Hinv Hpage Hnl eq_refl Hpin Hlru) as Hgoal.
  destruct Hgoal as [H1 H2 H3 H4 H5];
    [|split; [exact H1|exact H2|exact H3|exact H4|exact H5]].
  intros g. split.
  - intros Hg. destruct (decide (g = fid)) as [->|]; [right|by left].
    split; [done|]. by apply Hin.
  - intros [[? ?]|[-> Hz]]; [done|]. by apply Hin.
Qed.

Lemma FlushAllPgsImp_sound b :
  pool_sound b → ∃ b', FlushAllPgsImp b = Some b' ∧ pool_sound b'.
Proof.
  intros Hinv. pose proof Hinv as [Hlru Hnum Hnext Hshard Hok]. unfold FlushAllPgsImp.
  set (f := λ (pid : Z) (fid : Z) (acc : option DiskManager),
              acc ≫= λ dm, frame b fid ≫= λ page, Some (WritePage pid (data_ page) dm)).
  change (map_fold _ _ _) with (map_fold f (Some (disk_manager_ b)) (page_table_ b)).
  assert (is_Some (map_fold f (Some (disk_manager_ b)) (page_table_ b))) as [dm ->].
  { assert (∀ pid fid, page_table_ b !! pid = Some fid → is_Some (frame b fid)) as Hall.
    { intros pid fid Hm. destruct (fo_table _ _ _ _ Hok _ _ Hm) as (p & -> & _). by eexists. }
    revert Hall.
    apply (map_fold_weak_ind (λ r m, (∀ pid fid, m !! pid = Some fid → is_Some (frame b fid)) →
                                     is_Some r)).
    - by eexists.
    - intros i x m r Hnone IH Hall.
      destruct IH as [dm0 ->].
      { intros pid fid Hm. apply (Hall pid). rewrite lookup_insert_ne; [done|]. congruence. }
      destruct (Hall i x) as [p Hp]; [apply lookup_insert_eq|].
      unfold f. simpl. rewrite Hp. by eexists. }
  simpl. eexists. split; [done|]. by split.
Qed.

Lemma DeletePgImp_sound pid b :
  pool_sound b → ∃ r b', DeletePgImp pid b = Some (r, b') ∧ pool_sound b'.
Proof.
  intros Hinv. pose proof Hinv as [Hlru Hnum Hnext Hshard Hok]. unfold DeletePgImp. simpl.
  destruct (page_table_ b !! pid) as [fid|] eqn:Hm; [|eexists _, _; split; [done|by split]].
  destruct (sound_mapped_frame b pid fid Hinv Hm) as (page & Hpage & Hid & Hpin & Hnl & Hin).
  change (frame (DeallocatePage pid b) fid) with (frame b fid). rewrite Hpage. simpl.
  case_decide as Hgt; [eexists _, _; split; [done|by split]|].
  eexists _, _. split; [done|].
  destruct (lru_wf_Pin fid _ Hlru) as [Hwf' HR'].
  assert (∀ d, pool_sound (set_free_list (free_list_ b ++ [fid])
            (set_frame fid empty_frame
              (set_page_table (delete pid (page_table_ b))
                (set_replacer (LRU.Pin fid (replacer_ b)) (set_disk d b)))))) as Hgoal.
  { intros d. split; try done. simpl.
    apply (frames_ok_ext (upd (frame b) fid empty_frame)).
    - apply frame_upd; [done|by eexists].
    - eapply frames_release; [|done]. rewrite <-Hid.
      eapply frames_unmap; [exact Hok|done|done|by destruct Hwf'|].
      intros g. rewrite HR'. tauto. }
  destruct (is_dirty_ page); apply Hgoal.
Qed.

Lemma pool_inv_sound b : pool_inv b → pool_sound b.
Proof.
  intros [Hlru Hnum Hnext Hshard [Ht Hfresh Hnd Hfree Hpin Hcov Hrnd HR Hfp]].
  split; try done. split.
  - done.
  - done.
  - intros fid Hin. destruct (Hfree fid Hin) as [Hs Hn]. split_and!; [done|done|].
    intros (page & Hp & Hm & _)%HR. by apply (Hn (page_id_ page)).
  - done.
  - intros fid (page & Hp & _)%HR. by eexists.
  - intros fid page Hp. split; [by eapply Hpin|]. split.
    + intros Hz. destruct (Hcov fid page Hp) as [?|Hm]; [by left|right].
      apply HR. by exists page.
    + intros [Hin|(q & Hq & _ & Hz)%HR]; [by eapply Hfp|congruence].
Qed.

Lemma Construct_sound pool_size n i dm b :
  Construct pool_size n i dm = Some b → 0 ≤ i ≤ INT32_MAX → pool_sound b.
Proof. intros HC Hi. apply pool_inv_sound. by eapply Construct_inv. Qed.

(** *** Calls of the public interface *)

Inductive Call :=
  | NewPage
  | FetchPage (page_id : Z)
  | UnpinPage (page_id : Z) (is_dirty : bool)
  | FlushPage (page_id : Z)
  | FlushAllPages
  | DeletePage (page_id : Z).

Definition call (c : Call) (b : BufferPoolManagerInstance) : option BufferPoolManagerInstance :=
  match c with
  | NewPage => snd <$> NewPgImp b
  | FetchPage pid => snd <$> FetchPgImp pid b
  | UnpinPage pid is_dirty => snd <$> UnpinPgImp pid is_dirty b
  | FlushPage pid => snd <$> FlushPgImp pid b
  | FlushAllPages => FlushAllPgsImp b
  | DeletePage pid => snd <$> DeletePgImp pid b
  end.

(** A call is in range when [FetchPage] asks for a page id that
    [AllocatePage] has handed out or passed over ([pid < next_page_id_]), and
    [NewPage] is called only while the counter of page ids does not
    overflow.  The source checks neither: these are conditions on the
    caller. *)
Definition in_range (c : Call) (b : BufferPoolManagerInstance) : Prop :=
  match c with
  | NewPage => next_page_id_ b + num_instances_ b ≤ INT32_MAX
  | FetchPage pid => pid < next_page_id_ b
  | _ => True
  end.

(** The instances reached from the constructor by calls in range: a subset
    of the runs of the code, see [reachable_any] for all of them. *)
Inductive reachable_in_range : BufferPoolManagerInstance → Prop :=
  | reach_Construct pool_size n i dm b :
      Construct pool_size n i dm = Some b → 0 ≤ i ≤ INT32_MAX → reachable_in_range b
  | reach_call c b b' :
      reachable_in_range b → in_range c b → call c b = Some b' → reachable_in_range b'.

Lemma call_inv c b :
  pool_inv b → in_range c b → ∃ b', call c b = Some b' ∧ pool_inv b'.
Proof.
  intros Hinv Hr. destruct c; simpl in *.
  - destruct (NewPgImp_inv b Hinv Hr) as (r & b' & -> & ?). by exists b'.
  - destruct (FetchPgImp_inv page_id b Hinv Hr) as (r & b' & -> & ?). by exists b'.
  - destruct (UnpinPgImp_inv page_id is_dirty b Hinv) as (r & b' & -> & ?). by exists b'.
  - destruct (FlushPgImp_inv page_id b Hinv) as (r & b' & -> & ?). by exists b'.
  - by apply FlushAllPgsImp_inv.
  - destruct (DeletePgImp_inv page_id b Hinv) as (r & b' & -> & ?). by exists b'.
Qed.

Lemma reachable_inv b : reachable_in_range b → pool_inv b.
Proof.
  induction 1 as [ps n i dm b HC Hi|c b b' _ IH Hr Hc].
  - by eapply Construct_inv.
  - destruct (call_inv c b IH Hr) as (b'' & Hc' & ?). congruence.
Qed.

(** [NewPgImp] must not run the counter of page ids over. *)
Definition no_overflow (c : Call) (b : BufferPoolManagerInstance) : Prop :=
  match c with
  | NewPage => next_page_id_ b + num_instances_ b ≤ INT32_MAX
  | _ => True
  end.

(** The instances reached from the constructor by calls with any page ids. *)
Inductive reachable_any : BufferPoolManagerInstance → Prop :=
  | reach_any_Construct pool_size n i dm b :
      Construct pool_size n i dm = Some b → 0 ≤ i ≤ INT32_MAX → reachable_any b
  | reach_any_call c b b' :
      reachable_any b → no_overflow c b → call c b = Some b' → reachable_any b'.

Lemma in_range_no_overflow c b : in_range c b → no_overflow c b.
Proof. by destruct c. Qed.

Lemma reachable_in_range_any b : reachable_in_range b → reachable_any b.
Proof.
  induction 1 as [ps n i dm b HC Hi|c b b' _ IH Hr Hc].
  - by eapply reach_any_Construct.
  - eapply reach_any_call; [done|by apply in_range_no_overflow|done].
Qed.

Lemma call_sound c b :
  pool_sound b → no_overflow c b → ∃ b', call c b = Some b' ∧ pool_sound b'.
Proof.
  intros Hinv Hr. destruct c; simpl in *.
  - destruct (NewPgImp_sound b Hinv Hr) as (r & b' & -> & ?). by exists b'.
  - destruct (FetchPgImp_sound page_id b Hinv) as (r & b' & -> & ?). by exists b'.
  - destruct (UnpinPgImp_sound page_id is_dirty b Hinv) as (r & b' & -> & ?). by exists b'.
  - destruct (FlushPgImp_sound page_id b Hinv) as (r & b' & -> & ?). by exists b'.
  - by apply FlushAllPgsImp_sound.
  - destruct (DeletePgImp_sound page_id b Hinv) as (r & b' & -> & ?). by exists b'.
Qed.

Lemma reachable_any_sound b : reachable_any b → pool_sound b.
Proof.
  induction 1 as [ps n i dm b HC Hi|c b b' _ IH Hr Hc].
  - by eapply Construct_sound.
  - destruct (call_sound c b IH Hr) as (b'' & Hc' & ?). congruence.
Qed.


Definition all_pinned (b : BufferPoolManagerInstance) : Prop :=
  ∀ fid page, frame b fid = Some page → 0 < pin_count_ page.

Lemma no_frame_all_pinned b :
  pool_inv b → free_list_ b = [] → LRU.lru_list_ (replacer_ b) = [] → all_pinned b.
Proof.
  intros [Hlru Hnum Hnext Hshard Hok] HL HR fid page Hpage.
  pose proof (ok_pin _ _ _ _ _ Hok _ _ Hpage) as Hpin.
  destruct (ok_cover _ _ _ _ _ Hok _ _ Hpage) as [Hin|Hm].
  - rewrite HL in Hin. by apply elem_of_nil in Hin.
  - destruct (decide (pin_count_ page = 0)) as [Hz|]; [|lia].
    assert (fid ∈ LRU.lru_list_ (replacer_ b)) as Hin
      by (apply (ok_lru _ _ _ _ _ Hok); by exists page).
    rewrite HR in Hin. by apply elem_of_nil in Hin.
Qed.

Lemma sound_all_pinned b :
  pool_sound b → free_list_ b = [] → LRU.lru_list_ (replacer_ b) = [] → all_pinned b.
Proof.
  intros [Hlru Hnum Hnext Hshard Hok] HL HR fid page Hpage.
  destruct (fo_pin _ _ _ _ Hok _ _ Hpage) as [H0 Hz].
  destruct (decide (pin_count_ page = 0)) as [Hzero|]; [|lia].
  apply Hz in Hzero. rewrite HL, HR in Hzero.
  destruct Hzero as [?%elem_of_nil|?%elem_of_nil]; done.
Qed.

Lemma frame_other b b' fid1 p f :
  pages_ b' = <[Z.to_nat fid1 := p]> (pages_ b) → is_Some (frame b fid1) → f ≠ fid1 →
  frame b' f = frame b f.
Proof.
  intros Hpg Hs Hne. rewrite (frame_pages (set_frame fid1 p b)) by done.
  rewrite frame_set_frame by done. by apply upd_ne.
Qed.

Lemma frame_same b b' fid1 p :
  pages_ b' = <[Z.to_nat fid1 := p]> (pages_ b) → is_Some (frame b fid1) →
  frame b' fid1 = Some p.
Proof.
  intros Hpg Hs. rewrite (frame_pages (set_frame fid1 p b)) by done.
  rewrite frame_set_frame by done. apply upd_eq.
Qed.

(** A pool reached by calls in range, with one page pinned and one frame free. *)
Definition one_page_pool : BufferPoolManagerInstance :=
  mkBPI 2 1 0 1 [mkPage zero_page 0 1 false; empty_frame] {[0 := 0]} [1] LRU.init empty_disk.

Lemma one_page_pool_reachable : reachable_in_range one_page_pool.
Proof.
  apply (reach_call NewPage (mkBPI 2 1 0 0 [empty_frame; empty_frame] ∅ [0; 1] LRU.init empty_disk)).
  - by apply (reach_Construct 2 1 0 empty_disk).
  - by vm_compute.
  - reflexivity.
Qed.

(** The pool after [FetchPage 0] and [NewPage] on a fresh pool of two
    frames: page 0 is in both frames, and frame 0, pinned, is mapped no
    more. *)
Definition orphan_pool : BufferPoolManagerInstance :=
  mkBPI 2 1 0 1 [mkPage zero_page 0 1 false; mkPage zero_page 0 1 false] {[0 := 1]} []
        LRU.init empty_disk.

Lemma orphan_pool_reachable_any : reachable_any orphan_pool.
Proof.
  apply (reach_any_call NewPage
           (mkBPI 2 1 0 0 [mkPage zero_page 0 1 false; empty_frame] {[0 := 0]} [1]
                  LRU.init empty_disk)).
  - apply (reach_any_call (FetchPage 0)
             (mkBPI 2 1 0 0 [empty_frame; empty_frame] ∅ [0; 1] LRU.init empty_disk)).
    + by apply (reach_any_Construct 2 1 0 empty_disk).
    + done.
    + vm_compute. reflexivity.
  - by vm_compute.
  - vm_compute. reflexivity.
Qed.

(** Without the condition on [FetchPage] the page table and the frames come
    apart: in [orphan_pool], reached by calls alone, frame 0 holds page 0
    with a pin, is not free, and the page table has page 0 in frame 1. *)
Example fetch_of_a_new_page_id_orphans_frame :
  reachable_any orphan_pool ∧
  frame orphan_pool 0 = Some (mkPage zero_page 0 1 false) ∧
  free_list_ orphan_pool = [] ∧
  page_table_ orphan_pool !! 0 = Some 1.
Proof. split; [exact orphan_pool_reachable_any|]. split_and!; reflexivity. Qed.

(** *** Properties of the reachable instances *)

(** X2.  On every instance reached from the constructor by calls in range,
    that is, as long as [FetchPage] is asked only for page ids below
    [next_page_id_] and [NewPage] does not run the counter over, the page
    table, the frames, the free list and the replacer agree: a mapping leads
    to a frame holding that page; the free list has no frame twice and none
    that is mapped; every frame is free or mapped under the page it holds;
    the replacer holds exactly the mapped frames with pin count 0; and every
    call in range is defined (no access outside the frame array, no failed
    assertion).  The condition on [FetchPage] is needed, see
    [fetch_of_a_new_page_id_orphans_frame]. *)
Theorem reachable_pool_consistent (b : BufferPoolManagerInstance) :
  reachable_in_range b →
  (∀ pid fid, page_table_ b !! pid = Some fid →
     ∃ page, frame b fid = Some page ∧ page_id_ page = pid ∧ 0 ≤ pin_count_ page) ∧
  NoDup (free_list_ b) ∧
  (∀ fid, fid ∈ free_list_ b →
     (∃ page, frame b fid = Some page ∧ pin_count_ page = 0) ∧
     ∀ pid, page_table_ b !! pid ≠ Some fid) ∧
  (∀ fid page, frame b fid = Some page →
     fid ∈ free_list_ b ∨ page_table_ b !! page_id_ page = Some fid) ∧
  NoDup (LRU.lru_list_ (replacer_ b)) ∧
  (∀ fid, fid ∈ LRU.lru_list_ (replacer_ b) ↔
     ∃ page, frame b fid = Some page ∧ page_table_ b !! page_id_ page = Some fid ∧
             pin_count_ page = 0) ∧
  (∀ c, in_range c b → ∃ b', call c b = Some b' ∧ reachable_in_range b').
Proof.
  intros Hreach. pose proof (reachable_inv b Hreach) as Hinv.
  pose proof Hinv as [Hlru Hnum Hnext Hshard [Ht Hfresh Hnd Hfree Hpin Hcov Hrnd HR Hfp]].
  split_and!; try done.
  - intros pid fid Hm. destruct (Ht pid fid Hm) as (page & Hp & Hid).
    exists page. split_and!; [done|done|by eapply Hpin].
  - intros fid Hin. destruct (Hfree fid Hin) as [[page Hp] Hn]. split; [|done].
    exists page. split; [done|]. by eapply Hfp.
  - intros c Hr. destruct (call_inv c b Hinv Hr) as (b' & Hc & _).
    exists b'. split; [done|]. by eapply reach_call.
Qed.

Lemma reachable_pool_consistent_witness :
  reachable_in_range one_page_pool ∧
  ∃ b', call NewPage one_page_pool = Some b' ∧ reachable_in_range b'.
Proof.
  split; [exact one_page_pool_reachable|].
  apply (reachable_pool_consistent one_page_pool one_page_pool_reachable).
  by vm_compute.
Defined.

(** On an instance reached by calls in range a pinned page stays mapped to
    its frame. *)
Lemma pinned_page_keeps_mapping (c : Call) (b b' : BufferPoolManagerInstance)
    (pid fid : Z) (page : Page) :
  reachable_in_range b → call c b = Some b' →
  page_table_ b !! pid = Some fid → frame b fid = Some page → 0 < pin_count_ page →
  page_table_ b' !! pid = Some fid ∧
  ∃ page', frame b' fid = Some page' ∧ page_id_ page' = pid ∧ data_ page' = data_ page ∧
           pin_count_ page - 1 ≤ pin_count_ page'.
Proof.
  intros Hreach Hcall Hm Hpage Hpos. pose proof (reachable_inv b Hreach) as Hinv.
  pose proof Hinv as [Hlru Hnum Hnext Hshard Hok].
  destruct (ok_table _ _ _ _ _ Hok _ _ Hm) as (page0 & Hpage0 & Hid).
  assert (page0 = page) as -> by congruence.
  assert (∀ fid1 b1 pid1 b2 p1,
    taken b fid1 b1 → page_table_ b !! pid1 = None →
    pages_ b2 = <[Z.to_nat fid1 := p1]> (pages_ b1) →
    page_table_ b2 = <[pid1 := fid1]> (page_table_ b1) →
    page_table_ b2 !! pid = Some fid ∧
    ∃ page', frame b2 fid = Some page' ∧ page_id_ page' = pid ∧ data_ page' = data_ page ∧
             pin_count_ page - 1 ≤ pin_count_ page') as Hinstall.
  { intros fid1 b1 pid1 b2 p1 [Hpg _ _ _ _ (q & Hq & Hz) Hkept _ _] Hnone Hpg2 Ht2.
    assert (fid ≠ fid1) as Hne by (intros ->; rewrite Hq in Hpage; simplify_eq; lia).
    split.
    - rewrite Ht2, lookup_insert_ne by congruence. by apply Hkept.
    - exists page. rewrite (frame_other b b2 fid1 p1); [|congruence|by eexists|done].
      split_and!; [done|done|done|lia]. }
  assert (∀ fid1 page1 p1 b2,
    frame b fid1 = Some page1 → page_table_ b2 = page_table_ b →
    pages_ b2 = <[Z.to_nat fid1 := p1]> (pages_ b) →
    page_id_ p1 = page_id_ page1 → data_ p1 = data_ page1 →
    pin_count_ page1 - 1 ≤ pin_count_ p1 →
    page_table_ b2 !! pid = Some fid ∧
    ∃ page', frame b2 fid = Some page' ∧ page_id_ page' = pid ∧ data_ page' = data_ page ∧
             pin_count_ page - 1 ≤ pin_count_ page') as Hupdate.
  { intros fid1 page1 p1 b2 Hp1 Ht2 Hpg2 Hid1 Hd1 Hpin1. split; [by rewrite Ht2|].
    destruct (decide (fid = fid1)) as [->|Hne].
    - exists p1. rewrite (frame_same b b2 fid1 p1); [|done|by eexists].
      assert (page1 = page) as -> by congruence. split_and!; [done|congruence|done|done].
    - exists page. rewrite (frame_other b b2 fid1 p1); [|done|by eexists|done].
      split_and!; [done|done|done|lia]. }
  assert (∀ b2, page_table_ b2 = page_table_ b → pages_ b2 = pages_ b →
    page_table_ b2 !! pid = Some fid ∧
    ∃ page', frame b2 fid = Some page' ∧ page_id_ page' = pid ∧ data_ page' = data_ page ∧
             pin_count_ page - 1 ≤ pin_count_ page') as Hsame.
  { intros b2 Ht2 Hpg2. split; [by rewrite Ht2|]. exists page.
    rewrite (frame_pages b) by done. split_and!; [done|done|done|lia]. }
  destruct c as [|pid0|pid0 is_dirty|pid0| |pid0]; simpl in Hcall.
  - unfold NewPgImp in Hcall.
    destruct (take_frame_ok b Hinv) as [(Htf & _)|(fid1 & b1 & Htf & Htk)];
      rewrite Htf in Hcall; simpl in Hcall.
    { injection Hcall as <-. by apply Hsame. }
    pose proof Htk as [Hpg Hn Hi Hnx _ _ _ _ _].
    rewrite AllocatePage_ok in Hcall by (rewrite ?Hn, ?Hi, ?Hnx; done).
    simpl in Hcall. injection Hcall as <-.
    eapply (Hinstall fid1 b1 (next_page_id_ b1)); [done| |done|done].
    rewrite Hnx. destruct (page_table_ b !! next_page_id_ b) as [f|] eqn:Hf; [|done].
    pose proof (ok_fresh _ _ _ _ _ Hok _ _ Hf). lia.
  - unfold FetchPgImp in Hcall. destruct (page_table_ b !! pid0) as [fid0|] eqn:Hm0.
    + destruct (ok_table _ _ _ _ _ Hok _ _ Hm0) as (page1 & Hpage1 & Hid1).
      rewrite Hpage1 in Hcall. simpl in Hcall. injection Hcall as <-.
      eapply (Hupdate fid0 page1); [done|done|done|done|done|simpl; lia].
    + destruct (take_frame_ok b Hinv) as [(Htf & _)|(fid1 & b1 & Htf & Htk)];
        rewrite Htf in Hcall; simpl in Hcall.
      { injection Hcall as <-. by apply Hsame. }
      injection Hcall as <-. by eapply (Hinstall fid1 b1 pid0).
  - unfold UnpinPgImp in Hcall. destruct (page_table_ b !! pid0) as [fid0|] eqn:Hm0.
    + destruct (ok_table _ _ _ _ _ Hok _ _ Hm0) as (page1 & Hpage1 & Hid1).
      rewrite Hpage1 in Hcall. simpl in Hcall.
      case_decide; [injection Hcall as <-; by apply Hsame|].
      injection Hcall as <-.
      apply (Hupdate fid0 page1 (mkPage (data_ page1) (page_id_ page1) (pin_count_ page1 - 1)
                                        (if is_dirty then is_dirty else is_dirty_ page1)));
        [done| | |done|done|simpl; lia]; simpl; by case_decide.
    + injection Hcall as <-. by apply Hsame.
  - unfold FlushPgImp in Hcall. destruct (page_table_ b !! pid0) as [fid0|] eqn:Hm0.
    + destruct (ok_table _ _ _ _ _ Hok _ _ Hm0) as (page1 & Hpage1 & Hid1).
      rewrite Hpage1 in Hcall. simpl in Hcall. injection Hcall as <-.
      eapply (Hupdate fid0 page1); [done|done|done|done|done|simpl; lia].
    + injection Hcall as <-. by apply Hsame.
  - unfold FlushAllPgsImp in Hcall.
    destruct (map_fold _ _ _) as [dm|]; [|done]. simpl in Hcall.
    injection Hcall as <-. by apply Hsame.
  - unfold DeletePgImp in Hcall. simpl in Hcall.
    destruct (page_table_ b !! pid0) as [fid0|] eqn:Hm0.
    + destruct (ok_table _ _ _ _ _ Hok _ _ Hm0) as (page1 & Hpage1 & Hid1).
      change (frame (DeallocatePage pid0 b) fid0) with (frame b fid0) in Hcall.
      rewrite Hpage1 in Hcall. simpl in Hcall.
      case_decide as Hgt; [injection Hcall as <-; by apply Hsame|].
      assert (fid ≠ fid0) as Hne by (intros ->; simplify_eq; lia).
      assert (pid ≠ pid0) as Hnp by (intros ->; congruence).
      injection Hcall as <-. split.
      * destruct (is_dirty_ page1); simpl; by rewrite lookup_delete_ne.
      * exists page. split_and!; [|done|done|lia].
        rewrite (frame_other b _ fid0 empty_frame); [done| |by eexists|done].
        by destruct (is_dirty_ page1).
    + injection Hcall as <-. by apply Hsame.
Qed.

(** X3.  A frame with a positive pin count is never handed out.  Whatever is
    called next, with whatever page id, the frame holds the same page id and
    the same bytes afterwards, and its pin count has dropped by one at most:
    [NewPgImp] and [FetchPgImp] take another frame and [DeletePgImp] leaves
    it.  On an instance reached by calls in range the page table keeps the
    page in that frame as well. *)
Theorem pinned_page_stays (c : Call) (b b' : BufferPoolManagerInstance)
    (fid : Z) (page : Page) :
  reachable_any b → call c b = Some b' →
  frame b fid = Some page → 0 < pin_count_ page →
  (∃ page', frame b' fid = Some page' ∧ page_id_ page' = page_id_ page ∧
            data_ page' = data_ page ∧ pin_count_ page - 1 ≤ pin_count_ page') ∧
  (reachable_in_range b → page_table_ b !! page_id_ page = Some fid →
   page_table_ b' !! page_id_ page = Some fid).
Proof.
  intros Hreach Hcall Hpage Hpos. split.
  2: { intros Hr Hm.
       by destruct (pinned_page_keeps_mapping c b b' _ fid page Hr Hcall Hm Hpage Hpos). }
  pose proof (reachable_any_sound b Hreach) as Hinv.
  pose proof Hinv as [Hlru Hnum Hnext Hshard Hok].
  assert (∀ fid1 b1 b2 p1,
    handed b fid1 b1 → pages_ b2 = <[Z.to_nat fid1 := p1]> (pages_ b1) →
    ∃ page', frame b2 fid = Some page' ∧ page_id_ page' = page_id_ page ∧
             data_ page' = data_ page ∧ pin_count_ page - 1 ≤ pin_count_ page') as Hinstall.
  { intros fid1 b1 b2 p1 [Hpg _ _ _ _ (q & Hq & Hz) _] Hpg2.
    assert (fid ≠ fid1) as Hne by (intros ->; rewrite Hq in Hpage; simplify_eq; lia).
    exists page. rewrite (frame_other b b2 fid1 p1); [|congruence|by eexists|done].
    split_and!; [done|done|done|lia]. }
  assert (∀ fid1 page1 p1 b2,
    frame b fid1 = Some page1 → pages_ b2 = <[Z.to_nat fid1 := p1]> (pages_ b) →
    page_id_ p1 = page_id_ page1 → data_ p1 = data_ page1 →
    pin_count_ page1 - 1 ≤ pin_count_ p1 →
    ∃ page', frame b2 fid = Some page' ∧ page_id_ page' = page_id_ page ∧
             data_ page' = data_ page ∧ pin_count_ page - 1 ≤ pin_count_ page') as Hupdate.
  { intros fid1 page1 p1 b2 Hp1 Hpg2 Hid1 Hd1 Hpin1.
    destruct (decide (fid = fid1)) as [->|Hne].
    - exists p1. rewrite (frame_same b b2 fid1 p1); [|done|by eexists].
      assert (page1 = page) as -> by congruence. done.
    - exists page. rewrite (frame_other b b2 fid1 p1); [|done|by eexists|done].
      split_and!; [done|done|done|lia]. }
  assert (∀ b2, pages_ b2 = pages_ b →
    ∃ page', frame b2 fid = Some page' ∧ page_id_ page' = page_id_ page ∧
             data_ page' = data_ page ∧ pin_count_ page - 1 ≤ pin_count_ page') as Hsame.
  { intros b2 Hpg2. exists page.
    rewrite (frame_pages b) by done. split_and!; [done|done|done|lia]. }
  destruct c as [|pid0|pid0 is_dirty|pid0| |pid0]; simpl in Hcall.
  - unfold NewPgImp in Hcall.
    destruct (take_frame_sound b Hinv) as [(Htf & _)|(fid1 & b1 & Htf & Htk)];
      rewrite Htf in Hcall; simpl in Hcall.
    { injection Hcall as <-. by apply Hsame. }
    pose proof Htk as [Hpg Hn Hi Hnx _ _ _].
    rewrite AllocatePage_ok in Hcall by (rewrite ?Hn, ?Hi, ?Hnx; done).
    simpl in Hcall. injection Hcall as <-.
    by eapply (Hinstall fid1 b1).
  - unfold FetchPgImp in Hcall. destruct (page_table_ b !! pid0) as [fid0|] eqn:Hm0.
    + destruct (fo_table _ _ _ _ Hok _ _ Hm0) as (page1 & Hpage1 & Hid1).
      rewrite Hpage1 in Hcall. simpl in Hcall. injection Hcall as <-.
      eapply (Hupdate fid0 page1); [done|done|done|done|simpl; lia].
    + destruct (take_frame_sound b Hinv) as [(Htf & _)|(fid1 & b1 & Htf & Htk)];
        rewrite Htf in Hcall; simpl in Hcall.
      { injection Hcall as <-. by apply Hsame. }
      injection Hcall as <-. by eapply (Hinstall fid1 b1).
  - unfold UnpinPgImp in Hcall. destruct (page_table_ b !! pid0) as [fid0|] eqn:Hm0.
    + destruct (fo_table _ _ _ _ Hok _ _ Hm0) as (page1 & Hpage1 & Hid1).
      rewrite Hpage1 in Hcall. simpl in Hcall.
      case_decide; [injection Hcall as <-; by apply Hsame|].
      injection Hcall as <-.
      apply (Hupdate fid0 page1 (mkPage (data_ page1) (page_id_ page1) (pin_count_ page1 - 1)
                                        (if is_dirty then is_dirty else is_dirty_ page1)));
        [done| |done|done|simpl; lia]; simpl; by case_decide.
    + injection Hcall as <-. by apply Hsame.
  - unfold FlushPgImp in Hcall. destruct (page_table_ b !! pid0) as [fid0|] eqn:Hm0.
    + destruct (fo_table _ _ _ _ Hok _ _ Hm0) as (page1 & Hpage1 & Hid1).
      rewrite Hpage1 in Hcall. simpl in Hcall. injection Hcall as <-.
      eapply (Hupdate fid0 page1); [done|done|done|done|simpl; lia].
    + injection Hcall as <-. by apply Hsame.
  - unfold FlushAllPgsImp in Hcall.
    destruct (map_fold _ _ _) as [dm|]; [|done]. simpl in Hcall.
    injection Hcall as <-. by apply Hsame.
  - unfold DeletePgImp in Hcall. simpl in Hcall.
    destruct (page_table_ b !! pid0) as [fid0|] eqn:Hm0.
    + destruct (fo_table _ _ _ _ Hok _ _ Hm0) as (page1 & Hpage1 & Hid1).
      change (frame (DeallocatePage pid0 b) fid0) with (frame b fid0) in Hcall.
      rewrite Hpage1 in Hcall. simpl in Hcall.
      case_decide as Hgt; [injection Hcall as <-; by apply Hsame|].
      assert (fid ≠ fid0) as Hne by (intros ->; simplify_eq; lia).
      injection Hcall as <-.
      exists page. split_and!; [|done|done|lia].
      rewrite (frame_other b _ fid0 empty_frame); [done| |by eexists|done].
      by destruct (is_dirty_ page1).
    + injection Hcall as <-. by apply Hsame.
Qed.

Lemma pinned_page_stays_witness :
  ∃ b', call NewPage one_page_pool = Some b' ∧
        (∃ page', frame b' 0 = Some page' ∧ page_id_ page' = 0 ∧ data_ page' = zero_page ∧
                  1 - 1 ≤ pin_count_ page') ∧
        page_table_ b' !! 0 = Some 0.
Proof.
  eexists. split; [reflexivity|].
  destruct (pinned_page_stays NewPage one_page_pool _ 0 (mkPage zero_page 0 1 false)
              (reachable_in_range_any _ one_page_pool_reachable) eq_refl eq_refl)
    as [Hframe Hmap]; [simpl; lia|].
  split; [exact Hframe|]. exact (Hmap one_page_pool_reachable eq_refl).
Defined.

(** X4.  Whatever page ids were asked for before: [NewPgImp], and [FetchPgImp]
    of a page that is not in the page table, return [nullptr] exactly when
    every frame is pinned; they then leave the instance as it was, and no
    page id is used up.  A page brought in by [FetchPgImp] holds what the
    disk has for it. *)
Theorem nullptr_iff_all_pinned (b : BufferPoolManagerInstance) :
  reachable_any b →
  (∃ r b', NewPgImp b = Some (r, b') ∧ (r = None ↔ all_pinned b) ∧ (r = None → b' = b)) ∧
  (∀ pid, page_table_ b !! pid = None →
     ∃ r b', FetchPgImp pid b = Some (r, b') ∧ (r = None ↔ all_pinned b) ∧
             (r = None → b' = b) ∧
             (∀ p, r = Some p → p = mkPage (ReadPage pid (disk_manager_ b')) pid 1 false ∧
                   page_table_ b' !! pid ≫= frame b' = Some p)).
Proof.
  intros Hreach. pose proof (reachable_any_sound b Hreach) as Hinv.
  pose proof Hinv as [Hlru Hnum Hnext Hshard Hok].
  assert (∀ fid b1, handed b fid b1 → ¬ all_pinned b) as Hnot.
  { intros fid b1 [_ _ _ _ _ (q & Hq & Hz) _] Hall. specialize (Hall fid q Hq). lia. }
  split.
  - unfold NewPgImp.
    destruct (take_frame_sound b Hinv) as [(-> & HL & HR)|(fid & b1 & -> & Htk)]; simpl.
    { exists None, b. split_and!; [done| |done]. split; [|done].
      intros _. by apply sound_all_pinned. }
    pose proof Htk as [Hpg Hn Hi Hnx _ _ _].
    rewrite AllocatePage_ok by (rewrite ?Hn, ?Hi, ?Hnx; done). simpl.
    eexists _, _. split_and!; [done| |done]. split; [done|].
    intros Hall. by destruct (Hnot fid b1).
  - intros pid Hm. unfold FetchPgImp. rewrite Hm.
    destruct (take_frame_sound b Hinv) as [(-> & HL & HR)|(fid & b1 & -> & Htk)]; simpl.
    { exists None, b. split_and!; [done| |done|done]. split; [|done].
      intros _. by apply sound_all_pinned. }
    pose proof Htk as [Hpg Hn Hi Hnx _ (q & Hq & _) _].
    eexists _, _. split_and!; [done| |done|].
    + split; [done|]. intros Hall. by destruct (Hnot fid b1).
    + intros p [= <-]. split; [done|]. simpl. rewrite lookup_insert_eq. simpl.
      apply (frame_same b _ fid); [simpl; by rewrite Hpg|by eexists].
Qed.

Lemma nullptr_iff_all_pinned_witness :
  ∃ r b', NewPgImp orphan_pool = Some (r, b') ∧ (r = None ↔ all_pinned orphan_pool) ∧
          (r = None → b' = orphan_pool).
Proof. exact (proj1 (nullptr_iff_all_pinned orphan_pool orphan_pool_reachable_any)). Defined.

(** X23.  What holds whatever page ids are asked for.  On every instance
    reached from the constructor by calls with any page ids: a mapping leads
    to a frame of the array that holds that page; the free list and the
    replacer have no frame twice and none in common; a free frame is not
    mapped; a frame has pin count 0 exactly when it is in the free list or
    in the replacer, and no pin count is negative; and every call is defined
    (no access outside the frame array, no failed assertion), as long as
    [NewPage] does not run the counter of page ids over. *)
Theorem any_page_ids_pool_sound (b : BufferPoolManagerInstance) :
  reachable_any b →
  (∀ pid fid, page_table_ b !! pid = Some fid →
     ∃ page, frame b fid = Some page ∧ page_id_ page = pid) ∧
  NoDup (free_list_ b) ∧ NoDup (LRU.lru_list_ (replacer_ b)) ∧
  (∀ fid, fid ∈ free_list_ b →
     (∀ pid, page_table_ b !! pid ≠ Some fid) ∧ fid ∉ LRU.lru_list_ (replacer_ b)) ∧
  (∀ fid, fid ∈ free_list_ b ∨ fid ∈ LRU.lru_list_ (replacer_ b) →
     ∃ page, frame b fid = Some page ∧ pin_count_ page = 0) ∧
  (∀ fid page, frame b fid = Some page →
     0 ≤ pin_count_ page ∧
     (pin_count_ page = 0 → fid ∈ free_list_ b ∨ fid ∈ LRU.lru_list_ (replacer_ b))) ∧
  (∀ c, no_overflow c b → ∃ b', call c b = Some b' ∧ reachable_any b').
Proof.
  intros Hreach. pose proof (reachable_any_sound b Hreach) as Hinv.
  pose proof Hinv as [Hlru Hnum Hnext Hshard [Ht Hnd Hfree Hrnd HR Hpin]].
  split_and!; try done.
  - intros fid Hin. by destruct (Hfree fid Hin) as (_ & ? & ?).
  - intros fid Hin.
    assert (is_Some (frame b fid)) as [page Hp].
    { destruct Hin as [Hin|Hin]; [by destruct (Hfree fid Hin)|by apply HR]. }
    exists page. split; [done|]. by apply (Hpin fid page Hp).
  - intros fid page Hp. destruct (Hpin fid page Hp) as [H0 Hz]. split; [done|]. apply Hz.
  - intros c Hr. destruct (call_sound c b Hinv Hr) as (b' & Hc & _).
    exists b'. split; [done|]. by eapply reach_any_call.
Qed.

Lemma any_page_ids_pool_sound_witness :
  reachable_any orphan_pool ∧
  ∃ b', call (FetchPage 7) orphan_pool = Some b' ∧ reachable_any b'.
Proof.
  split; [exact orphan_pool_reachable_any|].
  apply (any_page_ids_pool_sound orphan_pool orphan_pool_reachable_any). exact I.
Defined.

Lemma FlushAllPgsImp_written_witness :
  disk_pages_ (disk_manager_ one_page_pool) !! 0 = None ∧
  ∃ b', FlushAllPgsImp one_page_pool = Some b' ∧
        disk_pages_ (disk_manager_ b') !! 0 = Some zero_page.
Proof.
  split; [reflexivity|]. eexists. split; [reflexivity|].
  exact (FlushAllPgsImp_written one_page_pool _ 0 0 (mkPage zero_page 0 1 false)
           eq_refl eq_refl eq_refl).
Defined.

End BPMFacts.
(** ** Lock manager: two-phase locking, granting and unlocking *)

Module LockFacts.
Import LockManager LockProofs.
Local Open Scope Z_scope.

(** X6.  Two-phase locking.  A successful [Unlock] moves a GROWING transaction
    to SHRINKING under REPEATABLE_READ and leaves it GROWING under the other
    isolation levels; once SHRINKING, every lock call on any row throws and
    leaves the transaction ABORTED: [LockShared] and [LockExclusive] with
    LOCK_ON_SHRINKING, [LockUpgrade] with UPGRADE_CONFLICT. *)
Theorem Unlock_ends_growing_phase tid rid rid' st t st1 :
  txn_map st !! tid = Some t → state_ t = GROWING →
  Unlock tid rid st = Some (Returned true, st1) →
  (isolation_level_ t ≠ REPEATABLE_READ →
     state_ <$> txn_map st1 !! tid = Some GROWING) ∧
  (isolation_level_ t = REPEATABLE_READ →
     state_ <$> txn_map st1 !! tid = Some SHRINKING ∧
     LockShared tid rid' st1
       = Some (Thrown LOCK_ON_SHRINKING, update_txn tid (SetState ABORTED) st1) ∧
     LockExclusive tid rid' st1
       = Some (Thrown LOCK_ON_SHRINKING, update_txn tid (SetState ABORTED) st1) ∧
     LockUpgrade tid rid' st1
       = Some (Thrown UPGRADE_CONFLICT, update_txn tid (SetState ABORTED) st1) ∧
     state_ <$> txn_map (update_txn tid (SetState ABORTED) st1) !! tid = Some ABORTED).
Proof.
  intros Ht Hg. unfold Unlock. rewrite Ht. simpl.
  destruct (_ && _); [by intros [=]|].
  destruct (erase_first _ _) as [q'|]; [|by intros [=]]. intros [= <-].
  split; intros Hiso.
  - simpl. rewrite lookup_alter_eq, Ht. simpl. rewrite Hg.
    rewrite bool_decide_eq_true_2 by done. by rewrite bool_decide_eq_false_2.
  - set (st1 := update_txn tid _ _).
    set (t1 := mkTxn SHRINKING (isolation_level_ t) (shared_lock_set_ t ∖ {[rid]})
                     (exclusive_lock_set_ t ∖ {[rid]})).
    assert (txn_map st1 !! tid = Some t1) as Ht1.
    { unfold st1. simpl. rewrite lookup_alter_eq, Ht. simpl.
      rewrite Hg. rewrite (bool_decide_eq_true_2 (isolation_level_ t = _)) by done.
      done. }
    split_and!.
    + by rewrite Ht1.
    + unfold LockShared. rewrite Ht1. simpl. rewrite Hiso. done.
    + unfold LockExclusive. rewrite Ht1. done.
    + unfold LockUpgrade, LockUpgrade_with. rewrite Ht1. done.
    + change (state_ <$> alter (SetState ABORTED) tid (txn_map st1) !! tid = Some ABORTED).
      by rewrite lookup_alter_eq, Ht1.
Qed.

Definition one_holder : State :=
  mkState {[R0 := mkQueue [mkReq 1 SHARED true] 0 INVALID_TXN_ID]}
          {[1 := mkTxn GROWING REPEATABLE_READ {[R0]} ∅]}.

Lemma Unlock_ends_growing_phase_witness :
  ∃ st1, Unlock 1 R0 one_holder = Some (Returned true, st1) ∧
         LockShared 1 (0, 1) st1
           = Some (Thrown LOCK_ON_SHRINKING, update_txn 1 (SetState ABORTED) st1).
Proof.
  eexists. split; [vm_compute; reflexivity|].
  refine (proj1 (proj2 (proj2 (Unlock_ends_growing_phase 1 R0 (0, 1) one_holder
            (mkTxn GROWING REPEATABLE_READ {[R0]} ∅) _ _ _ _) _)));
    [reflexivity|reflexivity|vm_compute; reflexivity|reflexivity].
Defined.

Lemma grant_other tid q : Forall (λ r, txn_id_ r ≠ tid) q → grant tid q = q.
Proof.
  induction 1 as [|r q Hr _ IH]; [done|]. unfold grant in *. cbn [fmap list_fmap].
  rewrite decide_False by done. by rewrite IH.
Qed.

Lemma grant_app tid q1 q2 : grant tid (q1 ++ q2) = grant tid q1 ++ grant tid q2.
Proof. apply fmap_app. Qed.

(** X7.  A shared request is granted at once whenever the request at the head
    of the queue is shared, whatever waits in between: nobody is wounded,
    and the request joins the queue granted. *)
Theorem LockShared_behind_shared_head tid rid st t first :
  txn_map st !! tid = Some t → state_ t = GROWING →
  isolation_level_ t ≠ READ_UNCOMMITTED → rid ∉ shared_lock_set_ t →
  head (request_queue_ (get_queue rid st)) = Some first → lock_mode_ first = SHARED →
  ∃ st', LockShared tid rid st = Some (Returned true, st') ∧
    request_queue_ (get_queue rid st')
      = grant tid (request_queue_ (get_queue rid st)) ++ [mkReq tid SHARED true] ∧
    cv_ (get_queue rid st') = cv_ (get_queue rid st) ∧
    (∀ x, x ≠ tid → txn_map st' !! x = txn_map st !! x) ∧
    txn_map st' !! tid
      = Some (mkTxn GROWING (isolation_level_ t) ({[rid]} ∪ shared_lock_set_ t)
                    (exclusive_lock_set_ t)).
Proof.
  intros Ht Hg Hiso Hnot Hhead Hmode. unfold LockShared. rewrite Ht. simpl.
  unfold CheckAbort. rewrite Hg. simpl.
  rewrite decide_False by done. rewrite decide_False by done.
  set (st2 := update_txn tid _ (enqueue rid _ st)).
  assert (get_queue rid st2
          = mkQueue (request_queue_ (get_queue rid st) ++ [mkReq tid SHARED false])
                    (cv_ (get_queue rid st)) (upgrading_ (get_queue rid st))) as Hq2.
  { unfold st2. rewrite get_queue_update_txn. unfold enqueue.
    by rewrite get_queue_set_queue, decide_True. }
  assert (NeedWait tid rid st2 = Some (false, st2)) as Hnw.
  { unfold NeedWait. rewrite Hq2. cbn [request_queue_]. rewrite last_snoc.
    destruct (request_queue_ (get_queue rid st)) as [|r0 q0]; [done|].
    simpl in Hhead. injection Hhead as ->. simpl. rewrite Hmode. simpl.
    by rewrite orb_true_r. }
  unfold Lock_loop. rewrite Hnw. eexists. split; [reflexivity|].
  rewrite get_queue_update_txn, get_queue_set_queue, decide_True by done.
  rewrite Hq2. cbn [request_queue_ cv_]. split_and!.
  - rewrite grant_app. f_equal. unfold grant. simpl. by rewrite decide_True.
  - done.
  - intros x Hx. simpl. by rewrite !lookup_alter_ne.
  - simpl. rewrite !lookup_alter_eq, Ht. simpl. by rewrite Hg.
Qed.

(** A reader joins the readers at the head although a writer is waiting. *)
Definition reader_then_writer : State :=
  mkState {[R0 := mkQueue [mkReq 5 SHARED true; mkReq 3 EXCLUSIVE false] 1 INVALID_TXN_ID]}
          (list_to_map [(3, mkTxn GROWING REPEATABLE_READ ∅ {[R0]});
                        (5, mkTxn GROWING REPEATABLE_READ {[R0]} ∅);
                        (7, new_txn READ_COMMITTED)]).

Lemma LockShared_behind_shared_head_witness :
  ∃ st', LockShared 7 R0 reader_then_writer = Some (Returned true, st') ∧
    request_queue_ (get_queue R0 st')
      = grant 7 (request_queue_ (get_queue R0 reader_then_writer)) ++ [mkReq 7 SHARED true] ∧
    cv_ (get_queue R0 st') = cv_ (get_queue R0 reader_then_writer) ∧
    (∀ x, x ≠ 7 → txn_map st' !! x = txn_map reader_then_writer !! x) ∧
    txn_map st' !! 7 = Some (mkTxn GROWING READ_COMMITTED ({[R0]} ∪ ∅) ∅).
Proof.
  apply (LockShared_behind_shared_head 7 R0 reader_then_writer (new_txn READ_COMMITTED)
           (mkReq 5 SHARED true)); try reflexivity; try done.
Defined.

(** The scan of an exclusive requester over requests of younger
    transactions only: all of them end up aborted, and the scan reaches the
    caller's own request with [need_wait] untouched. *)
Lemma NeedWait_scan_all_younger tid own : txn_id_ own = tid → ∀ q nw ha txns,
  Forall (λ r, txn_id_ r > tid ∧ is_Some (txns !! txn_id_ r)) q →
  ∃ ha' txns',
    NeedWait_scan tid EXCLUSIVE (q ++ [own]) nw ha txns = Some (nw, ha', txns') ∧
    Forall (λ r, state_ <$> txns' !! txn_id_ r = Some ABORTED) q ∧
    (∀ x, x ≤ tid → txns' !! x = txns !! x) ∧
    (∀ x y, txns !! x = Some y → state_ y = ABORTED → txns' !! x = Some y) ∧
    (∀ x, is_Some (txns !! x) → is_Some (txns' !! x)).
Proof.
  intros Hown. induction q as [|iter q IH]; intros nw ha txns Hall.
  { exists ha, txns. simpl. rewrite decide_True by done. by split_and!. }
  apply Forall_cons in Hall as [[Hgt [y Hy]] Hall].
  cbn [app NeedWait_scan]. rewrite decide_False by lia. rewrite decide_True by done.
  rewrite (bool_decide_eq_true_2 (EXCLUSIVE = EXCLUSIVE)) by done. rewrite orb_true_r.
  rewrite Hy. cbn [mbind option_bind].
  destruct (decide (state_ y ≠ ABORTED)) as [Hst|Hst].
  - destruct (IH nw true (<[txn_id_ iter := SetState ABORTED y]> txns))
      as (ha' & txns' & Hscan & Hab & Hlow & Hmono & Hsome).
    { eapply Forall_impl; [exact Hall|]. intros r [? Hr]. split; [done|].
      destruct (decide (txn_id_ r = txn_id_ iter)) as [->|Hne].
      - rewrite lookup_insert_eq. by eexists.
      - by rewrite lookup_insert_ne. }
    exists ha', txns'. split_and!; [done| | | |].
    + apply Forall_cons. split; [|done].
      rewrite (Hmono _ (SetState ABORTED y)); [done|apply lookup_insert_eq|done].
    + intros x Hx. rewrite Hlow by done. rewrite lookup_insert_ne; [done|lia].
    + intros x z Hx Hz. apply Hmono; [|done]. rewrite lookup_insert_ne; [done|].
      intros <-. by simplify_eq.
    + intros x Hx. apply Hsome. destruct (decide (x = txn_id_ iter)) as [->|Hne].
      * rewrite lookup_insert_eq. by eexists.
      * by rewrite lookup_insert_ne.
  - apply dec_stable in Hst.
    destruct (IH nw ha txns Hall) as (ha' & txns' & Hscan & Hab & Hlow & Hmono & Hsome).
    exists ha', txns'. split_and!; [done| |done|done|done].
    apply Forall_cons. split; [|done]. rewrite (Hmono _ y Hy Hst). simpl. by rewrite Hst.
Qed.

(** X8.  Wound-wait does not wait for its victims.  An exclusive request behind
    requests of younger transactions only is granted at once: every one of
    those transactions is ABORTED after the call, while their requests stay
    in the queue as they were, granted or not. *)
Theorem LockExclusive_wounds_and_proceeds tid rid st t :
  txn_map st !! tid = Some t → state_ t = GROWING → rid ∉ exclusive_lock_set_ t →
  Forall (λ r, txn_id_ r > tid ∧ is_Some (txn_map st !! txn_id_ r))
         (request_queue_ (get_queue rid st)) →
  ∃ st', LockExclusive tid rid st = Some (Returned true, st') ∧
    request_queue_ (get_queue rid st')
      = request_queue_ (get_queue rid st) ++ [mkReq tid EXCLUSIVE true] ∧
    Forall (λ r, state_ <$> txn_map st' !! txn_id_ r = Some ABORTED)
           (request_queue_ (get_queue rid st)) ∧
    txn_map st' !! tid
      = Some (mkTxn GROWING (isolation_level_ t) (shared_lock_set_ t)
                    ({[rid]} ∪ exclusive_lock_set_ t)).
Proof.
  intros Ht Hg Hnot Hall. unfold LockExclusive. rewrite Ht. simpl.
  unfold CheckAbort. rewrite Hg. simpl. rewrite decide_False by done.
  set (own := mkReq tid EXCLUSIVE false).
  set (t2 := mkTxn (state_ t) (isolation_level_ t) (shared_lock_set_ t)
                   ({[rid]} ∪ exclusive_lock_set_ t)).
  set (st2 := update_txn tid _ (enqueue rid own st)).
  set (q := request_queue_ (get_queue rid st)) in *.
  assert (get_queue rid st2
          = mkQueue (q ++ [own]) (cv_ (get_queue rid st)) (upgrading_ (get_queue rid st))) as Hq2.
  { unfold st2. rewrite get_queue_update_txn. unfold enqueue.
    by rewrite get_queue_set_queue, decide_True. }
  assert (txn_map st2 !! tid = Some t2) as Ht2.
  { unfold st2. simpl. by rewrite lookup_alter_eq, Ht. }
  assert (∀ x, x ≠ tid → txn_map st2 !! x = txn_map st !! x) as Hother.
  { intros x Hx. unfold st2. simpl. by rewrite lookup_alter_ne. }
  clearbody st2.
  assert (Forall (λ r, txn_id_ r ≠ tid) q) as Hne.
  { eapply Forall_impl; [exact Hall|]. intros r [? _]. lia. }
  destruct (NeedWait_scan_all_younger tid own eq_refl q false false (txn_map st2))
    as (ha' & txns' & Hscan & Hab & Hlow & Hmono & Hsome).
  { eapply Forall_impl; [exact Hall|]. intros r [? Hr]. split; [done|].
    rewrite Hother; [done|lia]. }
  assert (∃ st3, NeedWait tid rid st2 = Some (false, st3) ∧
            request_queue_ (get_queue rid st3) = q ++ [own] ∧ txn_map st3 = txns' ∨
          NeedWait tid rid st2 = Some (false, st2) ∧ q = []) as Hnw.
  { unfold NeedWait. rewrite Hq2. cbn [request_queue_]. rewrite last_snoc.
    destruct q as [|r0 q0] eqn:Hq.
    - exists st2. right. unfold own. simpl. by rewrite bool_decide_eq_true_2.
    - apply Forall_cons in Hne as [Hr0 _].
      cbn [app head mbind option_bind]. change (lock_mode_ own) with EXCLUSIVE.
      rewrite decide_False by done. rewrite bool_decide_eq_false_2 by done.
      change (r0 :: q0 ++ [own]) with ((r0 :: q0) ++ [own]). rewrite Hscan.
      eexists. left. split; [reflexivity|]. destruct ha'.
      + rewrite get_queue_set_queue, decide_True by done. done.
      + split; [|done]. change (get_queue rid (set_txn_map txns' st2)) with (get_queue rid st2).
        by rewrite Hq2. }
  destruct Hnw as (st3 & [(Hnw & Hq3 & Ht3)|[Hnw Hq]]).
  - unfold Lock_loop. rewrite Hnw. eexists. split; [reflexivity|].
    rewrite get_queue_update_txn, get_queue_set_queue, decide_True by done.
    cbn [request_queue_]. rewrite Hq3. split_and!.
    + rewrite grant_app, grant_other by done. f_equal. unfold grant. simpl.
      by rewrite decide_True.
    + assert (Forall (λ r, state_ <$> txns' !! txn_id_ r = Some ABORTED ∧ txn_id_ r ≠ tid) q)
        as Hboth by (apply Forall_and; split; [exact Hab|exact Hne]).
      eapply Forall_impl; [exact Hboth|].
      intros r [Hr Hrne]. simpl. rewrite lookup_alter_ne by done. by rewrite Ht3.
    + simpl. rewrite lookup_alter_eq, Ht3. rewrite Hlow by lia. rewrite Ht2. simpl.
      unfold t2. simpl. by rewrite Hg.
  - unfold Lock_loop. rewrite Hnw. eexists. split; [reflexivity|].
    rewrite get_queue_update_txn, get_queue_set_queue, decide_True by done.
    cbn [request_queue_]. rewrite Hq2. cbn [request_queue_]. rewrite Hq. split_and!.
    + unfold grant. simpl. by rewrite decide_True.
    + done.
    + simpl. rewrite lookup_alter_eq, Ht2. simpl. unfold t2. simpl. by rewrite Hg.
Qed.

(** Two younger readers hold S. *)
Definition younger_holders : State :=
  mkState {[R0 := mkQueue [mkReq 5 SHARED true; mkReq 8 SHARED true] 0 INVALID_TXN_ID]}
          (list_to_map [(2, new_txn REPEATABLE_READ);
                        (5, mkTxn GROWING REPEATABLE_READ {[R0]} ∅);
                        (8, mkTxn GROWING READ_COMMITTED {[R0]} ∅)]).

Lemma LockExclusive_wounds_and_proceeds_witness :
  ∃ st', LockExclusive 2 R0 younger_holders = Some (Returned true, st') ∧
    request_queue_ (get_queue R0 st')
      = [mkReq 5 SHARED true; mkReq 8 SHARED true; mkReq 2 EXCLUSIVE true] ∧
    Forall (λ r, state_ <$> txn_map st' !! txn_id_ r = Some ABORTED)
           [mkReq 5 SHARED true; mkReq 8 SHARED true] ∧
    txn_map st' !! 2 = Some (mkTxn GROWING REPEATABLE_READ ∅ ({[R0]} ∪ ∅)).
Proof.
  apply (LockExclusive_wounds_and_proceeds 2 R0 younger_holders (new_txn REPEATABLE_READ));
    [reflexivity|reflexivity|apply not_elem_of_empty|].
  repeat (apply Forall_cons; split; [split; [simpl; lia|by eexists]|]). apply Forall_nil_2.
Defined.

(** X9.  [Unlock] erases one request.  When the transaction has a second
    request on the row (it took S and then X without upgrading), that
    request outlives the [Unlock]: the row has left both lock sets, so every
    further [Unlock] of the row returns false and leaves the request where
    it is. *)
Theorem Unlock_leaves_second_request tid rid st t q' r :
  txn_map st !! tid = Some t →
  rid ∈ shared_lock_set_ t ∨ rid ∈ exclusive_lock_set_ t →
  erase_first tid (request_queue_ (get_queue rid st)) = Some q' →
  r ∈ q' → txn_id_ r = tid →
  ∃ st', Unlock tid rid st = Some (Returned true, st') ∧
         r ∈ request_queue_ (get_queue rid st') ∧
         Unlock tid rid st' = Some (Returned false, st').
Proof.
  intros Ht Hin He Hr Hid.
  destruct (Unlock_removes tid rid st t q' Ht Hin He)
    as (st' & Hu & Hq & t' & Ht' & Hs & Hx).
  exists st'. split_and!; [done|by rewrite Hq|].
  unfold Unlock. rewrite Ht'. simpl. by rewrite !bool_decide_eq_true_2.
Qed.

(** Transaction 1 after [LockShared] and [LockExclusive] on the same row. *)
Definition reader_and_writer : State :=
  mkState {[R0 := mkQueue [mkReq 1 SHARED true; mkReq 1 EXCLUSIVE true] 0 INVALID_TXN_ID]}
          {[1 := mkTxn GROWING REPEATABLE_READ {[R0]} {[R0]}]}.

Example reader_and_writer_reached :
  let st1 := mkState {[R0 := mkQueue [mkReq 1 SHARED true] 0 INVALID_TXN_ID]}
                     {[1 := mkTxn GROWING REPEATABLE_READ {[R0]} ∅]} in
  LockShared 1 R0 (mkState ∅ {[1 := new_txn REPEATABLE_READ]}) = Some (Returned true, st1) ∧
  LockExclusive 1 R0 st1 = Some (Returned true, reader_and_writer).
Proof. split; vm_compute; reflexivity. Qed.

Lemma Unlock_leaves_second_request_witness :
  ∃ st', Unlock 1 R0 reader_and_writer = Some (Returned true, st') ∧
         mkReq 1 EXCLUSIVE true ∈ request_queue_ (get_queue R0 st') ∧
         Unlock 1 R0 st' = Some (Returned false, st').
Proof.
  apply (Unlock_leaves_second_request 1 R0 reader_and_writer
           (mkTxn GROWING REPEATABLE_READ {[R0]} {[R0]}) [mkReq 1 EXCLUSIVE true]);
    [reflexivity|left; simpl; by apply elem_of_singleton|reflexivity|apply list_elem_of_here|reflexivity].
Defined.

(** *** Wounds go to younger transactions only *)

(** X10.  Wound-wait goes one way.  Whatever a transaction calls, and whenever a
    blocked call of it resumes, every other transaction is left as it was or
    is wounded (its state set to ABORTED, nothing else), and only a younger
    one is wounded: a transaction with a smaller id is never changed. *)
Theorem calls_wound_only_younger (c : Call) (tid : Z) (rid : RID) (st st' : State)
    (o : Outcome) :
  run_call c tid rid st = Some (o, st') ∨ run_wakeup c tid rid st = Some (o, st') →
  ∀ x, x ≠ tid →
    kept_or_wounded (txn_map st) (txn_map st') x (x > tid) ∧
    (x < tid → txn_map st' !! x = txn_map st !! x).
Proof.
  intros Hrun x Hne.
  assert (kept_or_wounded (txn_map st) (txn_map st') x (x > tid)) as Hk.
  { assert (∀ f st1, kept_or_wounded (txn_map st) (txn_map (update_txn tid f st1)) x (x > tid)
                     ↔ kept_or_wounded (txn_map st) (txn_map st1) x (x > tid)) as Hupd.
    { intros f st1. unfold kept_or_wounded. simpl. by rewrite lookup_alter_ne. }
    assert (∀ f st1 st2, kept_or_wounded (txn_map (update_txn tid f st1)) (txn_map st2) x (x > tid)
                     ↔ kept_or_wounded (txn_map st1) (txn_map st2) x (x > tid)) as Hupd'.
    { intros f st1 st2. unfold kept_or_wounded. simpl. by rewrite lookup_alter_ne. }
    destruct Hrun as [Hrun|Hrun]; destruct c; simpl in Hrun.
    - unfold LockShared in Hrun.
      destruct (txn_map st !! tid) as [txn|]; [|done]. simpl in Hrun.
      destruct (CheckAbort txn); [simplify_eq; by left|].
      case_decide; [simplify_eq; apply Hupd; by left|].
      case_decide; [simplify_eq; apply Hupd; by left|].
      case_decide; [simplify_eq; by left|].
      apply (Lock_loop_effect _ _ _ _ _ x Hne), Hupd' in Hrun. exact Hrun.
    - unfold LockExclusive in Hrun.
      destruct (txn_map st !! tid) as [txn|]; [|done]. simpl in Hrun.
      destruct (CheckAbort txn); [simplify_eq; by left|].
      case_decide; [simplify_eq; apply Hupd; by left|].
      case_decide; [simplify_eq; by left|].
      apply (Lock_loop_effect _ _ _ _ _ x Hne), Hupd' in Hrun. exact Hrun.
    - unfold LockUpgrade, LockUpgrade_with in Hrun.
      destruct (txn_map st !! tid) as [txn|]; [|done]. simpl in Hrun.
      destruct (CheckAbort txn); [simplify_eq; by left|].
      case_decide; [simplify_eq; apply Hupd; by left|].
      case_decide; [simplify_eq; by left|].
      by apply (LockUpgrade_loop_effect _ _ _ _ _ x Hne) in Hrun.
    - unfold Unlock in Hrun.
      destruct (txn_map st !! tid) as [txn|]; [|done]. simpl in Hrun.
      destruct (_ && _); [simplify_eq; by left|].
      destruct (erase_first _ _); simplify_eq; [apply Hupd|]; by left.
    - unfold Lock_wakeup in Hrun.
      destruct (txn_map st !! tid) as [txn|]; [|done]. simpl in Hrun.
      destruct (CheckAbort txn); [simplify_eq; by left|].
      by apply (Lock_loop_effect _ _ _ _ _ x Hne) in Hrun.
    - unfold Lock_wakeup in Hrun.
      destruct (txn_map st !! tid) as [txn|]; [|done]. simpl in Hrun.
      destruct (CheckAbort txn); [simplify_eq; by left|].
      by apply (Lock_loop_effect _ _ _ _ _ x Hne) in Hrun.
    - unfold LockUpgrade_wakeup, LockUpgrade_wakeup_with in Hrun.
      destruct (txn_map st !! tid) as [txn|]; [|done]. simpl in Hrun.
      destruct (CheckAbort txn); [simplify_eq; by left|].
      by apply (LockUpgrade_loop_effect _ _ _ _ _ x Hne) in Hrun.
    - done. }
  split; [done|]. intros Hlt. destruct Hk as [?|[? _]]; [done|lia].
Qed.

Lemma calls_wound_only_younger_witness :
  ∃ st', LockExclusive 2 R0 younger_holders = Some (Returned true, st') ∧
    kept_or_wounded (txn_map younger_holders) (txn_map st') 5 (5 > 2) ∧
    (5 < 2 → txn_map st' !! 5 = txn_map younger_holders !! 5).
Proof.
  eexists. split; [vm_compute; reflexivity|].
  apply (calls_wound_only_younger CLockExclusive 2 R0 younger_holders _ (Returned true));
    [left; vm_compute; reflexivity|lia].
Defined.

End LockFacts.
(** ** Extendible hash table: the pairs it holds *)

Module HashFacts.
Import ExtendibleHash HashProofs.

Section Table.
Context `{HashParams}.

(** The pair is in the bucket its key leads to. *)
Definition in_bucket (t : ExtendibleHashTable) (x : Z * Z) : Prop :=
  ∃ b, buckets t !! KeyToPageId x.1 (dir_page t) = Some b ∧ x ∈ b.

(** What [GetValue] answers: [value] is among the values found for [key]. *)
Definition holds (t : ExtendibleHashTable) (key value : Z) : Prop :=
  ∃ vals t', GetValue key t = Some (vals, t') ∧ value ∈ vals.

(** The set of pairs a run leaves, read off the calls and what they
    returned: an [Insert] that returned true added its pair, a [Remove] took
    its pair away. *)
Fixpoint replay (ops : list Op) (rs : list bool) (S : gset (Z * Z)) : gset (Z * Z) :=
  match ops, rs with
  | OpInsert k v :: ops', r :: rs' => replay ops' rs' (if r then {[(k, v)]} ∪ S else S)
  | OpRemove k v :: ops', _ :: rs' => replay ops' rs' (S ∖ {[(k, v)]})
  | _, _ => S
  end.

(** The answers a set of pairs allows: [Insert] of a pair that is there
    returns false, [Remove] returns whether the pair was there. *)
Fixpoint answers (ops : list Op) (rs : list bool) (S : gset (Z * Z)) : Prop :=
  match ops, rs with
  | [], [] => True
  | OpInsert k v :: ops', r :: rs' =>
      ((k, v) ∈ S → r = false) ∧ answers ops' rs' (if r then {[(k, v)]} ∪ S else S)
  | OpRemove k v :: ops', r :: rs' =>
      (r = true ↔ (k, v) ∈ S) ∧ answers ops' rs' (S ∖ {[(k, v)]})
  | _, _ => False
  end.

(** The table holds the pairs of [S]. *)
Definition models (t : ExtendibleHashTable) (S : gset (Z * Z)) : Prop :=
  ∃ t1, FetchDirectoryPage t = Some t1 ∧ ready t1 ∧ ∀ x, in_bucket t1 x ↔ x ∈ S.

Lemma KeyToPageId_mod key d :
  KeyToPageId key d = GetBucketPageId (Hash key mod 2 ^ global_depth_ d) d.
Proof. unfold KeyToPageId. by rewrite KeyToDirectoryIndex_mod. Qed.

Lemma holds_in_bucket t t1 key value :
  FetchDirectoryPage t = Some t1 → holds t key value ↔ in_bucket t1 (key, value).
Proof.
  intros Hf. unfold holds, in_bucket, GetValue. rewrite Hf. simpl. split.
  - intros (vals & t' & Hg & Hin). unfold Bucket in *.
    destruct (_ !! KeyToPageId key (dir_page t1)) as [b|]; simpl in Hg; [|done].
    injection Hg as <- <-. exists b. split; [done|].
    apply list_elem_of_fmap in Hin as ([k v] & -> & Hx).
    apply list_elem_of_filter in Hx as [Hk Hx]. simpl in Hk. by subst.
  - intros (b & Hb & Hin). unfold Bucket in *. rewrite Hb. simpl.
    eexists _, _. split; [done|].
    apply list_elem_of_fmap. exists (key, value). split; [done|].
    by apply list_elem_of_filter.
Qed.

(** The table the split hands to the repeated [Insert] holds the pairs the
    table held, and is ready. *)
Lemma SplitInsert_with_content retry key value t r t' :
  ready t → SplitInsert_with retry key value t = Some (r, t') →
  (r = false ∧ t' = t) ∨
  ∃ t2, ready t2 ∧ (∀ x, in_bucket t2 x ↔ in_bucket t x) ∧
        GetLocalDepth (KeyToDirectoryIndex key (dir_page t)) (dir_page t) < MAX_BUCKET_DEPTH ∧
        GetLocalDepth (KeyToDirectoryIndex key (dir_page t2)) (dir_page t2)
          = S (GetLocalDepth (KeyToDirectoryIndex key (dir_page t)) (dir_page t)) ∧
        retry t2 = Some (r, t').
Proof.
  intros Hr. pose proof Hr as [[Hid Hd] Hb].
  unfold SplitInsert_with, FetchDirectoryPage. rewrite decide_False by done. simpl.
  set (d := dir_page t) in *. set (idx := KeyToDirectoryIndex key d) in *.
  destruct (MAX_BUCKET_DEPTH <=? GetLocalDepth idx d) eqn:Hmax.
  { intros [= <- <-]. by left. }
  apply Nat.leb_gt in Hmax.
  assert (idx = Hash key mod 2 ^ global_depth_ d) as Hidx_eq by apply KeyToDirectoryIndex_mod.
  assert (idx < 2 ^ global_depth_ d) as Hidx by (rewrite Hidx_eq; apply mod_pow2_lt).
  destruct (grow_ready d (next_page_id t) (buckets t) idx Hd Hb Hidx Hmax)
    as (Hd1 & Hb1 & Hidx1 & Hld1 & Hlt1 & Hpage1).
  set (d1 := if decide (GetLocalDepth idx d = GetGlobalDepth d) then IncrGlobalDepth d else d)
    in *.
  set (dd := GetLocalDepth idx d) in *.
  assert (GetBucketPageId idx d1 = GetBucketPageId idx d) as Hsp1.
  { rewrite <-(Nat.mod_small idx (2 ^ global_depth_ d1)) at 1 by done.
    rewrite Hpage1. by rewrite Nat.mod_small. }
  assert (∀ h, GetBucketPageId (h mod 2 ^ global_depth_ d) d = GetBucketPageId idx d →
               GetBucketPageId (h mod 2 ^ global_depth_ d1) d1 = GetBucketPageId idx d1) as Hto1.
  { intros h Hh. by rewrite Hpage1, Hsp1. }
  assert (KeyToPageId key d1 = GetBucketPageId idx d1) as ->.
  { unfold KeyToPageId. rewrite KeyToDirectoryIndex_mod. apply Hto1. by rewrite <-Hidx_eq. }
  destruct (Hb1 idx Hidx1) as (origin & Horigin & Holen & Hond & Hopl).
  set (sp := GetBucketPageId idx d1) in *.
  set (next := next_page_id t) in *.
  unfold Bucket in *. rewrite Horigin. simpl.
  set (d2 := split_directory idx sp next d1).
  assert (sp < next)%Z as Hspn by (by apply (wf_fresh _ _ Hd1)).
  assert (GetLocalDepth idx d2 = S dd) as Hld2.
  { destruct (split_class d1 next idx idx Hd1 Hidx1 Hlt1) as (_ & _ & Hl).
    - by rewrite Nat.mod_small.
    - rewrite Nat.mod_small in Hl by done. rewrite Hld1 in Hl. exact Hl. }
  assert (∀ a, Nat.land a (GetLocalDepthMask idx d2) = a mod 2 ^ S dd) as Hmask.
  { intros a. unfold GetLocalDepthMask. by rewrite Hld2, land_mask. }
  destruct (rehash_total (GetLocalDepthMask idx d2) d2 sp next ltac:(lia) origin [] [])
    as (sb & ib & Hre & Hnsb & Hnib & Hlen & Hsb & Hib).
  { done. }
  { intros x _. split; apply not_elem_of_nil. }
  { simpl. lia. }
  { intros [k v] Hx. rewrite Hmask. cbn [fst].
    destruct (split_class d1 next idx (Hash k) Hd1 Hidx1 Hlt1) as (Hsame & Hor & _).
    - by eapply Hopl.
    - rewrite Hld1 in Hsame.
      change (GetBucketPageId (Hash k mod 2 ^ S dd) d2
              = GetBucketPageId (Hash k mod 2 ^ global_depth_ d1) d2) in Hsame.
      rewrite Hsame. exact Hor. }
  { apply NoDup_nil_2. }
  { apply NoDup_nil_2. }
  rewrite Hre. simpl. intros Hretry. right.
  destruct (split_directory_spec d1 idx sp next (GetLocalDepth idx d1)) as [(Hg2 & _) Hspec];
    [rewrite (wf_len_ld _ _ Hd1); by apply (dir_wf_Size _ next)
    |rewrite (wf_len_pid _ _ Hd1); by apply (dir_wf_Size _ next)
    |by rewrite Size_pow|done|done|].
  fold d2 in Hg2, Hspec.
  eexists. split_and!; [| | | |exact Hretry].
  - split; [split; [done|]|]; simpl.
    + by apply split_directory_wf.
    + apply (split_buckets d1 next (buckets t) idx origin sb ib); try done.
      * intros x. rewrite Hsb, Hmask, Hld1.
        split; [intros [?%elem_of_nil|?]; done|by right].
      * intros x. rewrite Hib, Hmask, Hld1.
        split; [intros [?%elem_of_nil|?]; done|by right].
  - intros [k v]. unfold in_bucket, Bucket. cbn [fst dir_page buckets].
    rewrite !KeyToPageId_mod. fold d. fold d2. rewrite Hg2.
    pose proof (mod_pow2_lt (Hash k) (global_depth_ d1)) as Hh1.
    destruct (decide (GetBucketPageId (Hash k mod 2 ^ global_depth_ d) d
                      = GetBucketPageId idx d)) as [Hsplit|Hother].
    + destruct (split_class d1 next idx (Hash k) Hd1 Hidx1 Hlt1) as (Hsame & Hor & _).
      { by apply Hto1. }
      rewrite Hld1 in Hsame.
      change (GetBucketPageId (Hash k mod 2 ^ S dd) d2
              = GetBucketPageId (Hash k mod 2 ^ global_depth_ d1) d2) in Hsame.
      change (GetBucketPageId (Hash k mod 2 ^ global_depth_ d1) d2 = sp ∨
              GetBucketPageId (Hash k mod 2 ^ global_depth_ d1) d2 = next) in Hor.
      rewrite Hsplit, <-Hsp1. fold sp. rewrite Horigin.
      destruct Hor as [Hp|Hp]; rewrite Hp.
      * rewrite lookup_insert_ne by lia. rewrite lookup_insert_eq. split.
        -- intros (b & [= <-] & Hin). apply Hsb in Hin as [?%elem_of_nil|[Hin _]]; [done|].
           by exists origin.
        -- intros (b & [= <-] & Hin). exists sb. split; [done|]. apply Hsb. right.
           split; [done|]. rewrite Hmask. cbn [fst]. by rewrite Hsame.
      * rewrite lookup_insert_eq. split.
        -- intros (b & [= <-] & Hin). apply Hib in Hin as [?%elem_of_nil|[Hin _]]; [done|].
           by exists origin.
        -- intros (b & [= <-] & Hin). exists ib. split; [done|]. apply Hib. right.
           split; [done|]. rewrite Hmask. cbn [fst]. by rewrite Hsame.
    + assert (GetBucketPageId (Hash k mod 2 ^ global_depth_ d1) d1 ≠ sp) as Hne1.
      { rewrite Hpage1. intros Heq. apply Hother. rewrite Heq. exact Hsp1. }
      assert (GetBucketPageId (Hash k mod 2 ^ global_depth_ d1) d2
              = GetBucketPageId (Hash k mod 2 ^ global_depth_ d1) d1) as Hkeep.
      { destruct (Hspec (Hash k mod 2 ^ global_depth_ d1)) as (_ & _ & H3);
          [by rewrite Size_pow|].
        destruct (wf_inv _ _ Hd1 idx Hidx1) as [_ Hiff].
        assert (¬ agree (GetLocalDepth idx d1) idx (Hash k mod 2 ^ global_depth_ d1)) as Hna.
        { intros Ha. apply Hne1. symmetry. by apply Hiff. }
        destruct H3 as [-> _]; [| |done].
        - intros Ha. apply Hna, agree_sym. eapply agree_mono; [|exact Ha]. lia.
        - intros Ha. apply Hna. eapply agree_trans; [apply agree_image|].
          apply agree_sym. eapply agree_mono; [|exact Ha]. lia. }
      rewrite Hkeep, Hpage1.
      rewrite lookup_insert_ne.
      2:{ pose proof (wf_fresh _ _ Hd (Hash k mod 2 ^ global_depth_ d) (mod_pow2_lt _ _))
            as Hfr.
          fold next in Hfr. lia. }
      rewrite lookup_insert_ne; [done|].
      intros Heq. apply Hother. rewrite <-Heq. exact Hsp1.
  - done.
  - simpl. rewrite KeyToDirectoryIndex_mod. fold d2. rewrite Hg2.
    destruct (split_class d1 next idx (Hash key) Hd1 Hidx1 Hlt1) as (_ & _ & Hl).
    + apply Hto1. by rewrite <-Hidx_eq.
    + rewrite Hld1 in Hl. exact Hl.
Qed.

(** A pair in some bucket of the directory is in the bucket of its key. *)
Lemma in_bucket_slot t i b x :
  ready t → i < 2 ^ global_depth_ (dir_page t) →
  buckets t !! GetBucketPageId i (dir_page t) = Some b → x ∈ b → in_bucket t x.
Proof.
  intros [_ Hb] Hi Hlook Hin. destruct (Hb i Hi) as (b' & Hlook' & _ & _ & Hpl).
  unfold Bucket in *. assert (b' = b) as -> by congruence.
  exists b. split; [|done]. destruct x as [k v]. rewrite KeyToPageId_mod. simpl.
  by rewrite (Hpl k v Hin).
Qed.

Lemma in_bucket_placed t x b key :
  ready t → buckets t !! KeyToPageId key (dir_page t) = Some b → x ∈ b →
  in_bucket t x ∧ KeyToPageId x.1 (dir_page t) = KeyToPageId key (dir_page t).
Proof.
  intros Hr Hlook Hin. pose proof Hr as [_ Hb]. rewrite KeyToPageId_mod in Hlook.
  destruct (Hb _ (mod_pow2_lt (Hash key) _)) as (b' & Hlook' & _ & _ & Hpl).
  unfold Bucket in *. assert (b' = b) as -> by congruence.
  destruct x as [k v]. rewrite !KeyToPageId_mod. simpl.
  pose proof (Hpl k v Hin) as Hp. split; [|done].
  exists b. rewrite KeyToPageId_mod. simpl. by rewrite Hp.
Qed.

Lemma key_bucket t key :
  ready t →
  ∃ b, buckets t !! KeyToPageId key (dir_page t) = Some b ∧
       length b ≤ BUCKET_ARRAY_SIZE ∧ NoDup b ∧
       ∀ x, in_bucket t x → KeyToPageId x.1 (dir_page t) = KeyToPageId key (dir_page t) → x ∈ b.
Proof.
  intros [_ Hb]. rewrite KeyToPageId_mod.
  destruct (Hb _ (mod_pow2_lt (Hash key) _)) as (b & Hlook & Hlen & Hnd & _).
  exists b. split_and!; [done|done|done|].
  intros x (b' & Hlook' & Hin) Heq.
  unfold Bucket in *. rewrite Heq in Hlook'. congruence.
Qed.

(** Writing [b'] to the bucket of [key]. *)
Lemma in_bucket_update t key b' x :
  in_bucket (set_buckets (<[KeyToPageId key (dir_page t) := b']> (buckets t)) t) x ↔
  if decide (KeyToPageId x.1 (dir_page t) = KeyToPageId key (dir_page t))
  then x ∈ b' else in_bucket t x.
Proof.
  unfold in_bucket. simpl. case_decide as Hp.
  - rewrite Hp, lookup_insert_eq. split; [by intros (b & [= <-] & ?)|]. intros ?. by exists b'.
  - by rewrite lookup_insert_ne.
Qed.

Lemma Insert_content key value : ∀ fuel t r t',
  ready t → Insert fuel key value t = Some (r, t') →
  ready t' ∧ (∀ x, in_bucket t' x ↔ in_bucket t x ∨ (r = true ∧ x = (key, value))) ∧
  (in_bucket t (key, value) → r = false).
Proof.
  induction fuel as [|fuel IH]; intros t r t' Hr; [done|].
  cbn [Insert]. rewrite (FetchDirectoryPage_id t Hr). simpl.
  destruct (key_bucket t key Hr) as (b & Hlook & Hlen & Hnd & Hall).
  unfold Bucket in *. rewrite Hlook. simpl.
  assert (in_bucket t (key, value) ↔ (key, value) ∈ b) as Hkv.
  { split; [intros Hin; by apply Hall|]. intros Hin. by exists b. }
  destruct (IsFull b) eqn:Hfull; simpl.
  - intros Hsplit.
    destruct (SplitInsert_with_content _ _ _ _ _ _ Hr Hsplit)
      as [[-> ->]|(t2 & Hr2 & Hsame & _ & _ & Hretry)].
    + split_and!; [done| |done]. intros x. split; [by left|]. by intros [?|[? _]].
    + destruct (IH t2 r t' Hr2 Hretry) as (Hr' & Hcont & Hdup).
      split_and!; [done| |].
      * intros x. by rewrite Hcont, Hsame.
      * intros Hin. by apply Hdup, Hsame.
  - unfold bucket_Insert. rewrite Hfull, orb_false_r.
    destruct (bool_decide _) eqn:Hdup; simpl; intros [= <- <-].
    + apply bool_decide_eq_true in Hdup.
      match goal with |- ready ?t' ∧ _ => assert (t' = t) as -> end.
      { destruct t. unfold set_buckets. simpl in *. f_equal. by apply insert_id. }
      split_and!; [done| |done]. intros x. split; [by left|]. by intros [?|[? _]].
    + apply bool_decide_eq_false in Hdup.
      unfold IsFull in Hfull. apply Nat.leb_gt in Hfull.
      split_and!.
      * split; [by destruct Hr|]. simpl. apply update_bucket; [by destruct Hr|].
        split_and!.
        -- rewrite length_app. simpl. lia.
        -- apply NoDup_app. split_and!; [done| |apply NoDup_singleton].
           intros x Hx Hs. apply list_elem_of_singleton in Hs as ->. done.
        -- intros k v [Hx|Hx]%elem_of_app.
           ++ rewrite <-KeyToPageId_mod.
              destruct (in_bucket_placed t (k, v) b key Hr Hlook Hx) as [_ Hp]. exact Hp.
           ++ apply list_elem_of_singleton in Hx as [= -> ->]. by rewrite KeyToPageId_mod.
      * intros x. rewrite in_bucket_update. case_decide as Hp.
        -- rewrite elem_of_app, list_elem_of_singleton. split.
           ++ intros [Hx|Hx]; [left; by exists b; rewrite Hp|by right].
           ++ intros [Hx|[_ ->]]; [left; by apply Hall|by right].
        -- split; [by left|]. intros [?|[_ ->]]; done.
      * intros Hin. by apply Hkv in Hin.
Qed.

(** Shrinking the directory leaves every key with its bucket page. *)
Lemma shrink_page next : ∀ fuel d h,
  dir_wf d next →
  GetBucketPageId (h mod 2 ^ global_depth_ (shrink fuel d)) (shrink fuel d)
  = GetBucketPageId (h mod 2 ^ global_depth_ d) d.
Proof.
  induction fuel as [|fuel IH]; intros d h Hwf; [done|].
  cbn [shrink]. destruct (CanShrink d) eqn:Hc; [|done].
  pose proof (shrink_wf 1 d next Hwf) as Hwf1. cbn [shrink] in Hwf1. rewrite Hc in Hwf1.
  rewrite IH by done.
  pose proof (CanShrink_true d Hc) as Hlt.
  assert (0 < global_depth_ d) as Hpos.
  { specialize (Hlt 0 (pow2_pos _)). lia. }
  assert (2 ^ (global_depth_ d - 1) ≤ 2 ^ global_depth_ d) as Hle
    by (apply Nat.pow_le_mono_r; lia).
  cbn [global_depth_ DecrGlobalDepth].
  change (GetBucketPageId (h mod 2 ^ (global_depth_ d - 1)) d
          = GetBucketPageId (h mod 2 ^ global_depth_ d) d).
  pose proof (mod_pow2_lt h (global_depth_ d - 1)) as Hh'.
  apply (wf_inv _ _ Hwf); [lia|apply mod_pow2_lt|].
  specialize (Hlt (h mod 2 ^ (global_depth_ d - 1)) ltac:(lia)).
  eapply agree_trans; [apply agree_mod; lia|]. apply agree_sym, agree_mod. lia.
Qed.

(** [Merge] moves no pair. *)
Lemma Merge_content idx t t' :
  ready t → Merge idx t = Some t' → ready t' ∧ ∀ x, in_bucket t' x ↔ in_bucket t x.
Proof.
  intros Hr Hm. split.
  { destruct (Merge_total idx t Hr) as (t'' & Hm' & Hr'). congruence. }
  revert Hm. unfold Merge. rewrite (FetchDirectoryPage_id t Hr). cbn -[shrink merge_slots].
  pose proof Hr as [[Hid Hd] Hb].
  destruct (Size (dir_page t) <=? idx) eqn:Hsz; [by intros [= <-]|].
  apply Nat.leb_gt in Hsz. rewrite Size_pow in Hsz.
  destruct (decide (GetLocalDepth idx (dir_page t) = 0)) as [|Hnz]; [by intros [= <-]|].
  destruct (decide (GetLocalDepth idx (dir_page t) ≠ _)) as [|Heq]; [by intros [= <-]|].
  apply dec_stable in Heq.
  destruct (Hb idx Hsz) as (tb & Htb & _ & _ & Htpl).
  unfold Bucket in *. rewrite Htb. cbn -[shrink merge_slots].
  destruct (IsEmpty tb) eqn:Hempty; cbn -[shrink merge_slots]; [|by intros [= <-]].
  apply bool_decide_eq_true in Hempty. subst tb.
  destruct (merge_spec (dir_page t) (next_page_id t) idx Hd Hsz Hnz Heq)
    as (Hwf' & Hg' & Himg & Hne & Hassert & Hpages).
  rewrite decide_True by exact Hassert.
  remember (shrink _ _) as dS eqn:HdS.
  intros [= <-]. intros [k v]. unfold in_bucket, Bucket.
  cbn [fst dir_page buckets]. rewrite !KeyToPageId_mod. subst dS.
  rewrite (shrink_page (next_page_id t)) by done.
  rewrite Hg', (Hpages _ (mod_pow2_lt _ _)).
  set (d := dir_page t) in *.
  set (img := GetSplitImageIndex idx d) in *.
  set (tp := GetBucketPageId idx d) in *.
  set (ip := GetBucketPageId img d) in *.
  set (p := GetBucketPageId (Hash k mod 2 ^ global_depth_ d) d).
  destruct (Hb img Himg) as (bi & Hbi & _ & _ & Hipl).
  fold d ip in Hbi, Hipl.
  case_decide as Hc.
  - rewrite lookup_delete_ne by done.
    destruct (decide (p = tp)) as [Hp|Hp].
    + rewrite Hp. unfold Bucket in *. rewrite Htb, Hbi. split.
      * intros (b & [= <-] & Hin). specialize (Hipl k v Hin). fold p in Hipl. congruence.
      * intros (b & [= <-] & Hin). by apply elem_of_nil in Hin.
    + by destruct Hc as [?| ->].
  - rewrite lookup_delete_ne; [done|]. intros Heq'. apply Hc. by left.
Qed.

Lemma Remove_content key value t r t' :
  ready t → Remove key value t = Some (r, t') →
  ready t' ∧ (r = true ↔ in_bucket t (key, value)) ∧
  ∀ x, in_bucket t' x ↔ in_bucket t x ∧ x ≠ (key, value).
Proof.
  intros Hr Hrm. split.
  { destruct (Remove_total key value t Hr) as (r' & t'' & Hrm' & Hr'). congruence. }
  revert Hrm. unfold Remove. rewrite (FetchDirectoryPage_id t Hr). cbn -[Merge].
  destruct (key_bucket t key Hr) as (b & Hlook & Hlen & Hnd & Hall).
  unfold Bucket in *. rewrite Hlook. cbn -[Merge].
  assert (in_bucket t (key, value) ↔ (key, value) ∈ b) as Hkv.
  { split; [intros Hin; by apply Hall|]. intros Hin. by exists b. }
  assert (∃ res b', bucket_Remove key value b = (res, b') ∧
            (res = true ↔ (key, value) ∈ b) ∧
            length b' ≤ length b ∧ NoDup b' ∧ ∀ x, x ∈ b' ↔ x ∈ b ∧ x ≠ (key, value))
    as (res & b' & -> & Hres & Hl' & Hnd' & Hb').
  { unfold bucket_Remove. destruct (bool_decide _) eqn:Hin; eexists _, _; (split; [reflexivity|]).
    - apply bool_decide_eq_true in Hin.
      split_and!; [done|apply length_filter|by apply NoDup_filter|].
      intros x. rewrite list_elem_of_filter. tauto.
    - apply bool_decide_eq_false in Hin.
      split_and!; [done|done|done|]. intros x. split; [|tauto].
      intros Hx. split; [done|]. by intros ->. }
  set (t1 := set_buckets (<[KeyToPageId key (dir_page t) := b']> (buckets t)) t).
  assert (ready t1) as Hr1.
  { split; [by destruct Hr|]. simpl. apply update_bucket; [by destruct Hr|].
    split_and!; [lia|done|].
    intros k v Hx. apply Hb' in Hx as [Hx _].
    destruct (in_bucket_placed t (k, v) b key Hr Hlook Hx) as [_ Hp].
    by rewrite <-!KeyToPageId_mod. }
  assert (∀ x, in_bucket t1 x ↔ in_bucket t x ∧ x ≠ (key, value)) as H1.
  { intros x. unfold t1. rewrite in_bucket_update. case_decide as Hp.
    - rewrite Hb'. split; [intros [Hx ?]; split; [by exists b; rewrite Hp|done]|].
      intros [Hx ?]. split; [by apply Hall|done].
    - split; [|tauto]. intros Hx. split; [done|]. intros ->. by apply Hp. }
  destruct (IsEmpty b').
  - destruct (Merge _ _) as [t2|] eqn:Hm; [|done]. simpl. intros [= <- <-].
    destruct (Merge_content _ _ _ Hr1 Hm) as [_ Hsame].
    split; [by rewrite Hres, Hkv|]. intros x. by rewrite Hsame, H1.
  - intros [= <- <-]. split; [by rewrite Hres, Hkv|done].
Qed.

Lemma empty_table_models first_page_id :
  (0 ≤ first_page_id)%Z → models (empty_table first_page_id) ∅.
Proof.
  intros Hfirst.
  destruct (FetchDirectoryPage_ready (empty_table first_page_id)) as (t1 & Hf & Hr).
  { left. by split_and!. }
  exists t1. split_and!; [done|done|].
  intros x. split; [|by intros ?%elem_of_empty].
  intros (b & Hlook & Hin). exfalso. revert Hf Hlook.
  unfold FetchDirectoryPage. simpl.
  case_decide; [done|]. intros [= <-]. simpl.
  intros [[_ <-]|[_ ?]]%lookup_insert_Some; [by apply elem_of_nil in Hin|done].
Qed.

Lemma run_op_models fuel op t S :
  MAX_BUCKET_DEPTH < fuel → models t S →
  ∃ r t', run_op fuel op t = Some (r, t') ∧
          answers [op] [r] S ∧ models t' (replay [op] [r] S).
Proof.
  intros Hfuel (t1 & Hf & Hr & Hcont).
  pose proof (FetchDirectoryPage_id t1 Hr) as Hf1.
  destruct op as [k v|k v]; simpl.
  - rewrite (Insert_fetch _ _ _ _ _ Hf Hf1).
    destruct (Insert_total k v fuel t1 Hr) as (r & t' & Hins & _); [lia|].
    destruct (Insert_content k v fuel t1 r t' Hr Hins) as (Hr' & Hc & Hdup).
    exists r, t'. split_and!; [done| |done|].
    + intros Hin. by apply Hdup, Hcont.
    + exists t'. split_and!; [by apply FetchDirectoryPage_id|done|].
      intros x. rewrite Hc, Hcont. destruct r.
      * rewrite elem_of_union, elem_of_singleton. split; [intros [?|[_ ?]]|intros [?|?]]; auto.
      * split; [by intros [?|[? _]]|by left].
  - rewrite (Remove_fetch _ _ _ _ Hf Hf1).
    destruct (Remove_total k v t1 Hr) as (r & t' & Hrm & _).
    destruct (Remove_content k v t1 r t' Hr Hrm) as (Hr' & Hres & Hc).
    exists r, t'. split_and!; [done| |done|].
    + by rewrite Hres, Hcont.
    + exists t'. split_and!; [by apply FetchDirectoryPage_id|done|].
      intros x. rewrite Hc, Hcont, elem_of_difference, elem_of_singleton. done.
Qed.

Lemma run_ops_models fuel ops : ∀ t S,
  MAX_BUCKET_DEPTH < fuel → models t S →
  ∃ rs t', run_ops fuel ops t = Some (rs, t') ∧
           answers ops rs S ∧ models t' (replay ops rs S).
Proof.
  induction ops as [|op ops IH]; intros t S Hfuel Hm; [by exists [], t|].
  cbn [run_ops].
  destruct (run_op_models fuel op t S Hfuel Hm) as (r & t1 & -> & Ha & Hm1). simpl.
  destruct (IH t1 _ Hfuel Hm1) as (rs & t' & -> & Ha' & Hm'). simpl.
  exists (r :: rs), t'. split; [done|].
  destruct op as [k v|k v]; simpl in *; (split; [split; [tauto|done]|done]).
Qed.

(** X11.  The table is a set of pairs.  Every run of [Insert] and [Remove] calls
    on a fresh table returns, and afterwards [GetValue] finds for a key
    exactly the values of the pairs that were inserted with success and not
    removed since, whatever splits and merges moved them; an [Insert] of a
    pair that is in the table returns false and [Remove] returns true
    exactly when the pair was there. *)
Theorem table_is_set_of_pairs (fuel : nat) (ops : list Op) (first_page_id : Z) :
  MAX_BUCKET_DEPTH < fuel → (0 ≤ first_page_id)%Z →
  ∃ rs t', run_ops fuel ops (empty_table first_page_id) = Some (rs, t') ∧
           answers ops rs ∅ ∧
           ∀ key value, holds t' key value ↔ (key, value) ∈ replay ops rs ∅.
Proof.
  intros Hfuel Hfirst.
  destruct (run_ops_models fuel ops (empty_table first_page_id) ∅ Hfuel
              (empty_table_models first_page_id Hfirst))
    as (rs & t' & Hrun & Ha & t1 & Hf & Hr & Hc).
  exists rs, t'. split_and!; [done|done|].
  intros key value. by rewrite (holds_in_bucket t' t1 key value Hf), Hc.
Qed.

(** X12.  The values [GetValue] returns for a key are distinct, and a bucket
    never holds more pairs than fit. *)
Theorem GetValue_distinct_values (fuel : nat) (ops : list Op) (first_page_id key : Z) :
  MAX_BUCKET_DEPTH < fuel → (0 ≤ first_page_id)%Z →
  ∃ rs t' vals t'', run_ops fuel ops (empty_table first_page_id) = Some (rs, t') ∧
    GetValue key t' = Some (vals, t'') ∧ NoDup vals ∧ length vals ≤ BUCKET_ARRAY_SIZE.
Proof.
  intros Hfuel Hfirst.
  destruct (run_ops_models fuel ops (empty_table first_page_id) ∅ Hfuel
              (empty_table_models first_page_id Hfirst))
    as (rs & t' & Hrun & Ha & t1 & Hf & Hr & Hc).
  destruct (key_bucket t1 key Hr) as (b & Hlook & Hlen & Hnd & _).
  exists rs, t', (filter (λ p, p.1 = key) b).*2, t1.
  split_and!; [done| | |].
  - unfold GetValue. rewrite Hf. simpl. unfold Bucket in *. by rewrite Hlook.
  - apply NoDup_fmap_2_strong; [|by apply NoDup_filter].
    intros [k1 v1] [k2 v2] [Hk1 _]%list_elem_of_filter [Hk2 _]%list_elem_of_filter Hv.
    simpl in *. congruence.
  - rewrite length_fmap. etrans; [apply length_filter|done].
Qed.

End Table.

#[local] Existing Instance scenario_params.

Lemma table_is_set_of_pairs_witness :
  ∃ rs t', run_ops 5 scenario_ops (empty_table 0) = Some (rs, t') ∧
           answers scenario_ops rs ∅ ∧
           ∀ key value, holds t' key value ↔ (key, value) ∈ replay scenario_ops rs ∅.
Proof.
  apply (table_is_set_of_pairs 5 scenario_ops 0); [cbn; lia|lia].
Defined.

Lemma GetValue_distinct_values_witness :
  ∃ rs t' vals t'', run_ops 5 scenario_ops (empty_table 0) = Some (rs, t') ∧
    GetValue 1 t' = Some (vals, t'') ∧ NoDup vals ∧ length vals ≤ BUCKET_ARRAY_SIZE.
Proof.
  apply (GetValue_distinct_values 5 scenario_ops 0 1); [cbn; lia|lia].
Defined.

End HashFacts.
(** ** B+-tree: lookups, inserts with room, removals of absent keys *)

Module BPlusTreeFacts.
Import BPlusTree BPlusTreeProofs.
Local Open Scope Z_scope.

(** *** The array of a leaf *)

(** [Lookup] on the array. *)
Definition lookup_arr (key : Z) (a : list (Z * RID)) : option RID :=
  match a !! KeyIndex key a with
  | Some (k, v) => if decide (k = key) then Some v else None
  | None => None
  end.

(** The array after [Insert] of a key that is not there. *)
Definition ins (key : Z) (value : RID) (a : list (Z * RID)) : list (Z * RID) :=
  take (KeyIndex key a) a ++ (key, value) :: drop (KeyIndex key a) a.

Lemma lookup_arr_cons k v a key :
  lookup_arr key ((k, v) :: a) =
  if decide (k < key) then lookup_arr key a
  else if decide (k = key) then Some v else None.
Proof. unfold lookup_arr. simpl. by case_decide. Qed.

Lemma ins_cons k v a key value :
  ins key value ((k, v) :: a) =
  if decide (k < key) then (k, v) :: ins key value a else (key, value) :: (k, v) :: a.
Proof. unfold ins. simpl. by case_decide. Qed.

Lemma lookup_arr_ins_same key value a : lookup_arr key (ins key value a) = Some value.
Proof.
  induction a as [|[k v] a IH].
  - unfold ins, lookup_arr. simpl. rewrite decide_False by lia. simpl. by rewrite decide_True.
  - rewrite ins_cons. case_decide as Hlt.
    + rewrite lookup_arr_cons. by rewrite decide_True.
    + rewrite lookup_arr_cons. rewrite decide_False by lia. by rewrite decide_True.
Qed.

Lemma lookup_arr_ins_other key value a k' :
  k' ≠ key → lookup_arr k' (ins key value a) = lookup_arr k' a.
Proof.
  intros Hne. induction a as [|[k v] a IH].
  - unfold ins. simpl. rewrite lookup_arr_cons.
    case_decide; [done|]. by rewrite decide_False.
  - rewrite ins_cons. case_decide as Hlt.
    + rewrite !lookup_arr_cons. by case_decide.
    + rewrite !lookup_arr_cons. case_decide as Hk; [done|].
      rewrite decide_False by done. rewrite decide_False by lia. by rewrite decide_False by lia.
Qed.

Lemma leaf_Lookup_arr key p : leaf_Lookup key p = lookup_arr key (l_array_ p).
Proof. done. Qed.

Lemma leaf_Insert_absent key value p :
  leaf_Lookup key p = None →
  leaf_Insert key value p =
    (Z.of_nat (length (l_array_ p)) + 1,
     mkLeaf (l_page_id_ p) (l_parent_page_id_ p) (l_max_size_ p) (next_page_id_ p)
            (ins key value (l_array_ p))).
Proof.
  unfold leaf_Lookup, leaf_Insert, ins.
  destruct (l_array_ p !! KeyIndex key (l_array_ p)) as [[k v]|] eqn:Hl.
  - case_decide; [done|]. intros _. f_equal.
    rewrite length_app. simpl. rewrite length_take, length_drop.
    apply lookup_lt_Some in Hl. lia.
  - intros _. apply lookup_ge_None in Hl.
    rewrite take_ge, drop_ge by done. f_equal. rewrite length_app. simpl. lia.
Qed.

Lemma leaf_Remove_absent key p :
  leaf_Lookup key p = None →
  leaf_RemoveAndDeleteRecord key p = (Z.of_nat (length (l_array_ p)), p).
Proof.
  unfold leaf_Lookup, leaf_RemoveAndDeleteRecord.
  destruct (l_array_ p !! KeyIndex key (l_array_ p)) as [[k v]|]; [|done].
  by case_decide.
Qed.

(** *** Lookups *)

(** What [GetValue] finds, as the pages alone decide it. *)
Definition find (fuel : nat) (key : Z) (ns : gmap Z BPlusTreePage) (root : Z)
    : option (Z * LeafPage) :=
  node ← ns !! root; walk fuel key ns root node.

Lemma GetValue_find fuel key t :
  pins_nonneg (pool_ t) →
  GetValue fuel key t =
    (λ r, (leaf_Lookup key r.2, t)) <$> find fuel key (nodes t) (root_page_id_ t).
Proof.
  intros Hnn. unfold find.
  destruct (GetValue fuel key t) as [[r t']|] eqn:Hg.
  - pose proof (GetValue_unchanged _ _ _ _ _ Hnn Hg) as ->.
    revert Hg. unfold GetValue, FindLeafPageByOperation. simpl.
    destruct (FetchPage (root_page_id_ t) t) as [[node t0]|] eqn:Hf; simpl; [|done].
    destruct (descend fuel key FIND false false (root_page_id_ t) node false t0)
      as [[[[lp leaf] b] t1]|] eqn:Hd; simpl; [|done].
    intros [= <- _].
    apply FetchPage_same in Hf as [Hroot Hs0]. rewrite Hroot. simpl.
    apply descend_walk in Hd as [Hw _]. rewrite (same_nodes _ _ Hs0) in Hw.
    by rewrite Hw.
  - revert Hg. unfold GetValue, FindLeafPageByOperation. simpl.
    destruct (nodes t !! root_page_id_ t) as [node|] eqn:Hroot; simpl; [|done].
    destruct (FetchPage_some _ _ _ Hroot) as [t0 Hf]. rewrite Hf. simpl.
    destruct (walk fuel key (nodes t) (root_page_id_ t) node) as [[lp leaf]|] eqn:Hw; [|done].
    apply FetchPage_same in Hf as [_ Hs0]. rewrite <-(same_nodes _ _ Hs0) in Hw.
    destruct (walk_descend _ _ FIND _ _ false _ _ _ Hw) as (b' & t1 & ->). done.
Qed.

(** Writing a leaf leaves every descent on its way. *)
Lemma walk_write_leaf ns lp leaf leaf' key : ∀ fuel pid node lp0 leaf0,
  ns !! lp = Some (LeafNode leaf) → ns !! pid = Some node →
  walk fuel key ns pid node = Some (lp0, leaf0) →
  walk fuel key (<[lp := LeafNode leaf']> ns) pid
       (if decide (pid = lp) then LeafNode leaf' else node)
  = Some (lp0, if decide (lp0 = lp) then leaf' else leaf0).
Proof.
  induction fuel as [|fuel IH]; intros pid node lp0 leaf0 Hlp Hpid.
  - destruct node as [l|i]; simpl; [|done]. intros [= <- <-]. by case_decide.
  - destruct node as [l|i]; simpl.
    + intros [= <- <-]. by case_decide.
    + rewrite decide_False by (intros ->; congruence). simpl.
      destruct (internal_Lookup key i) as [c|]; simpl; [|done].
      destruct (ns !! c) as [cn|] eqn:Hc; simpl; [|done]. intros Hw.
      destruct (decide (c = lp)) as [->|Hne].
      * rewrite lookup_insert_eq. simpl.
        specialize (IH lp cn lp0 leaf0 Hlp Hc Hw). by rewrite decide_True in IH.
      * rewrite lookup_insert_ne by done. rewrite Hc. simpl.
        specialize (IH c cn lp0 leaf0 Hlp Hc Hw). by rewrite decide_False in IH.
Qed.

Lemma find_write_leaf ns lp leaf leaf' fuel key root lp0 leaf0 :
  ns !! lp = Some (LeafNode leaf) →
  find fuel key ns root = Some (lp0, leaf0) →
  find fuel key (<[lp := LeafNode leaf']> ns) root
  = Some (lp0, if decide (lp0 = lp) then leaf' else leaf0).
Proof.
  intros Hlp. unfold find. destruct (ns !! root) as [node|] eqn:Hroot; simpl; [|done].
  intros Hw. pose proof (walk_write_leaf ns lp leaf leaf' key fuel root node lp0 leaf0
                           Hlp Hroot Hw) as Hw'.
  destruct (decide (root = lp)) as [->|Hne].
  - by rewrite lookup_insert_eq.
  - rewrite lookup_insert_ne by done. by rewrite Hroot.
Qed.

(** *** Crabbing

    When the leaf is safe for the operation, the descent has released
    every ancestor on reaching it. *)
Lemma descend_safe_leaf fuel key op : ∀ pid node b t lp leaf b' t',
  op ≠ FIND →
  descend fuel key op false false pid node b t = Some (lp, leaf, b', t') →
  IsSafe (LeafNode leaf) op = true →
  (IsLeafPage node = true → page_set_ t = [] ∧ b = false) →
  page_set_ t' = [] ∧ b' = false.
Proof.
  induction fuel as [|fuel IH]; intros pid [l|i] b t lp leaf b' t' Hop; simpl; try done.
  - intros [= <- <- <- <-] _ H. by apply H.
  - intros [= <- <- <- <-] _ H. by apply H.
  - destruct (internal_Lookup key i) as [c|]; simpl; [|done].
    destruct (FetchPage c t) as [[cn t1]|] eqn:Hf; simpl; [|done].
    rewrite decide_False by done.
    destruct (IsSafe cn op) eqn:Hsafe.
    + intros Hd Hleaf _. eapply IH; [done|exact Hd|done|]. by intros _.
    + intros Hd Hleaf _. eapply IH; [done|exact Hd|done|].
      destruct cn as [l|i']; simpl; [|done]. intros _.
      destruct fuel; simpl in Hd; injection Hd as <- <- <- <-; congruence.
Qed.

(** *** One pin more on one page *)

Definition pin (f : Frame) : Frame := mkFrame (node_ f) (pin_count_ f + 1) (is_dirty_ f).

Lemma pinned_one m0 m lp f :
  pinned [lp] m0 m → m0 !! lp = Some f → m = <[lp := pin f]> m0.
Proof.
  intros H Hf. apply map_eq. intros pid. rewrite (H pid). simpl.
  destruct (decide (lp = pid)) as [->|Hne].
  - rewrite lookup_insert_eq, Hf. simpl. by destruct (Z.eq_dec pid pid).
  - rewrite lookup_insert_ne by done. destruct (Z.eq_dec lp pid); [done|].
    destruct (m0 !! pid) as [[nd p d]|]; [|done]. simpl. unfold pin_by. simpl.
    do 2 f_equal. lia.
Qed.

Lemma tree_set_pool t t' m :
  same_tree t t' → pool_ t' = m → page_set_ t' = page_set_ t → t' = set_pool m t.
Proof. intros [] ??. destruct t, t'; unfold set_pool; simpl in *. congruence. Qed.

Lemma nodes_pool t pid n :
  nodes t !! pid = Some n ↔ ∃ f, pool_ t !! pid = Some f ∧ node_ f = n.
Proof.
  rewrite nodes_lookup. destruct (pool_ t !! pid) as [f|]; simpl.
  - split; [intros [= <-]; by exists f|]. by intros (f' & [= <-] & <-).
  - split; [done|]. by intros (? & ? & _).
Qed.

(** What [FindLeafPageByOperation] with a safe leaf leaves: the leaf
    pinned once more, nothing else. *)
Lemma find_safe_leaf fuel key op t lp leaf b t' :
  op ≠ FIND → page_set_ t = [] → pins_nonneg (pool_ t) →
  FindLeafPageByOperation fuel key op false false t = Some (lp, leaf, b, t') →
  IsSafe (LeafNode leaf) op = true →
  b = false ∧ find fuel key (nodes t) (root_page_id_ t) = Some (lp, leaf) ∧
  ∃ f, pool_ t !! lp = Some f ∧ node_ f = LeafNode leaf ∧
       t' = set_pool (<[lp := pin f]> (pool_ t)) t.
Proof.
  intros Hop Hps Hnn. unfold FindLeafPageByOperation. simpl.
  destruct (FetchPage (root_page_id_ t) t) as [[node t0]|] eqn:Hf; simpl; [|done].
  rewrite decide_False by done. intros Hd Hsafe.
  pose proof (FetchPage_pinned [] _ _ _ _ _ Hf (pinned_init _)) as [Hp0 Hps0].
  apply FetchPage_same in Hf as [Hroot Hs0].
  destruct (descend_safe_leaf _ _ _ _ _ _ _ _ _ _ _ Hop Hd Hsafe) as [Hps' ->].
  { intros Hleaf. split; [congruence|].
    destruct node as [l|i]; [|done].
    destruct fuel; simpl in Hd; injection Hd as <- <- <- <-; by rewrite Hsafe. }
  assert (pinned (root_page_id_ t :: page_set_ t0) (pool_ t) (pool_ t0)) as Hp0'
    by (by rewrite Hps0, Hps).
  pose proof (descend_pinned _ _ _ _ _ _ _ _ _ _ _ _ Hnn Hop Hp0' Hd) as Hp1.
  rewrite Hps' in Hp1.
  destruct (descend_walk _ _ _ _ _ _ _ _ _ _ _ Hd) as [Hw Hs1].
  rewrite (same_nodes _ _ Hs0) in Hw.
  pose proof (walk_leaf _ _ _ _ _ _ _ Hroot Hw) as Hleaf.
  apply nodes_pool in Hleaf as (f & Hfr & Hnode).
  split_and!; [done|unfold find; by rewrite Hroot|].
  exists f. split_and!; [done|done|].
  apply tree_set_pool; [eauto using same_tree_trans|by apply pinned_one|congruence].
Qed.

Lemma pins_nonneg_insert m pid f g :
  pins_nonneg m → m !! pid = Some f → pin_count_ g = pin_count_ f →
  pins_nonneg (<[pid := g]> m).
Proof.
  intros Hnn Hf Hg q h. destruct (decide (pid = q)) as [->|Hne].
  - rewrite lookup_insert_eq. intros [= <-]. rewrite Hg. by eapply Hnn.
  - rewrite lookup_insert_ne by done. apply Hnn.
Qed.

(** The tree with the leaf [lp] rewritten and marked dirty. *)
Definition with_leaf (lp : Z) (leaf' : LeafPage) (f : Frame) (t : Tree) : Tree :=
  set_pool (<[lp := mkFrame (LeafNode leaf') (pin_count_ f) true]> (pool_ t)) t.

(** Writing the leaf that was pinned on the way down, and unpinning it
    dirty. *)
Lemma write_unpin_leaf t lp f leaf' :
  pool_ t !! lp = Some f → 0 ≤ pin_count_ f →
  (UnpinPage lp true (write_leaf lp leaf' (set_pool (<[lp := pin f]> (pool_ t)) t))).2
  = with_leaf lp leaf' f t.
Proof.
  intros Hf Hpin. unfold UnpinPage, write_leaf, with_leaf. simpl.
  rewrite lookup_alter_eq, lookup_insert_eq. simpl.
  rewrite decide_False by lia. simpl. unfold set_pool. simpl. f_equal.
  apply map_eq. intros q. destruct (decide (lp = q)) as [->|Hne].
  - rewrite !lookup_insert_eq. do 2 f_equal. lia.
  - by rewrite !lookup_insert_ne, lookup_alter_ne, lookup_insert_ne by done.
Qed.

(** *** Properties *)

(** X14.  Latch crabbing releases the ancestors of a safe leaf.  When the leaf
    an INSERT or DELETE descent arrives at is safe for the operation, the
    descent returns with the root latch released, the page set empty, and
    every page it fetched on the way unpinned again, the leaf apart, which
    has one pin more; nothing is marked dirty. *)
Theorem safe_leaf_releases_ancestors (fuel : nat) (key : Z) (op : Operation) (t t' : Tree)
    (lp : Z) (leaf : LeafPage) (root_is_latched : bool) :
  op ≠ FIND → page_set_ t = [] → pins_nonneg (pool_ t) →
  FindLeafPageByOperation fuel key op false false t = Some (lp, leaf, root_is_latched, t') →
  IsSafe (LeafNode leaf) op = true →
  root_is_latched = false ∧ page_set_ t' = [] ∧
  ∃ f, pool_ t !! lp = Some f ∧ node_ f = LeafNode leaf ∧
       t' = set_pool (<[lp := mkFrame (node_ f) (pin_count_ f + 1) (is_dirty_ f)]> (pool_ t)) t.
Proof.
  intros Hop Hps Hnn Hfind Hsafe.
  destruct (find_safe_leaf _ _ _ _ _ _ _ _ Hop Hps Hnn Hfind Hsafe)
    as (-> & _ & f & Hf & Hnode & ->).
  split_and!; [done|done|]. by exists f.
Qed.

Lemma safe_leaf_releases_ancestors_witness :
  ∃ t', FindLeafPageByOperation 1 7 INSERT false false sample_tree
          = Some (2, mkLeaf 2 1 4 3 [(1, (0, 1)); (5, (0, 5))], false, t') ∧
        page_set_ t' = [] ∧ pin_count_ <$> pool_ t' !! 1 = Some 0.
Proof.
  eexists. split; [vm_compute; reflexivity|].
  assert (pins_nonneg (pool_ sample_tree)) as Hnn.
  { intros pid f. unfold sample_tree. simpl.
    rewrite !lookup_insert_Some, lookup_empty.
    intros [[_ <-]|[_ [[_ <-]|[_ [[_ <-]|[_ ?]]]]]]; simpl; (lia || done). }
  match goal with |- page_set_ ?t' = _ ∧ _ =>
    destruct (safe_leaf_releases_ancestors 1 7 INSERT sample_tree t' 2
                (mkLeaf 2 1 4 3 [(1, (0, 1)); (5, (0, 5))]) false)
      as (_ & Hps & _); [done|done|exact Hnn|vm_compute; reflexivity|reflexivity|]
  end.
  split; [exact Hps|reflexivity].
Defined.



Lemma sample_tree_pins : pins_nonneg (pool_ sample_tree).
Proof.
  intros pid f. unfold sample_tree. simpl.
  rewrite !lookup_insert_Some, lookup_empty.
  intros [[_ <-]|[_ [[_ <-]|[_ [[_ <-]|[_ ?]]]]]]; simpl; (lia || done).
Qed.

(** X13.  [GetValue] gives back every pin it takes.  Whatever it answers, the
    state after the call is the state before it: no pin count, dirty flag or
    page has changed; and the answer is what [Lookup] finds in one leaf of
    the tree. *)
Theorem GetValue_restores_state (fuel : nat) (key : Z) (t t' : Tree) (r : option RID) :
  pins_nonneg (pool_ t) → GetValue fuel key t = Some (r, t') →
  t' = t ∧ ∃ lp leaf, nodes t !! lp = Some (LeafNode leaf) ∧ r = leaf_Lookup key leaf.
Proof.
  intros Hnn Hg. rewrite GetValue_find in Hg by done. unfold find in Hg.
  destruct (nodes t !! root_page_id_ t) as [node|] eqn:Hroot; simpl in Hg; [|done].
  destruct (walk fuel key (nodes t) (root_page_id_ t) node) as [[lp leaf]|] eqn:Hw;
    simpl in Hg; [|done].
  injection Hg as <- <-. split; [done|]. exists lp, leaf. split; [|done].
  by eapply walk_leaf.
Qed.

Lemma GetValue_restores_state_witness :
  ∃ t', GetValue 1 10 sample_tree = Some (Some (1, 0), t') ∧ t' = sample_tree.
Proof.
  eexists. split; [vm_compute; reflexivity|].
  eapply (GetValue_restores_state 1 10 sample_tree _ (Some (1, 0)) sample_tree_pins).
  vm_compute. reflexivity.
Defined.



Section Remove.
Variable coalesce_and_delete_pages : Z → LeafPage → bool → Tree → option Tree.


End Remove.


(** *** Iterators *)

Lemma descend_find_any m0 fuel key lm rm : ∀ pid node b t lp leaf b' t',
  pins_nonneg m0 → pinned [pid] m0 (pool_ t) → nodes t !! pid = Some node →
  descend fuel key FIND lm rm pid node b t = Some (lp, leaf, b', t') →
  pinned [lp] m0 (pool_ t') ∧ page_set_ t' = page_set_ t ∧ same_tree t t' ∧
  nodes t !! lp = Some (LeafNode leaf).
Proof.
  induction fuel as [|fuel IH]; intros pid [l|i] b t lp leaf b' t' Hnn H Hnode; simpl;
    try done.
  - intros [= <- <- <- <-]. split_and!; [done|done|apply same_tree_refl|done].
  - intros [= <- <- <- <-]. split_and!; [done|done|apply same_tree_refl|done].
  - destruct (if lm then _ else _) as [c|]; simpl; [|done].
    destruct (FetchPage c t) as [[cn t1]|] eqn:Hf; simpl; [|done].
    destruct (FetchPage_pinned _ _ _ _ _ _ Hf H) as [H1 Hps].
    apply FetchPage_same in Hf as [Hc Hs1].
    assert (pinned [pid; c] m0 (pool_ t1)) as H2.
    { revert H1. apply pinned_count. intros q. simpl.
      destruct (Z.eq_dec c q), (Z.eq_dec pid q); simpl; lia. }
    destruct (UnpinPage_pinned _ _ _ _ Hnn H2) as [H3 Hps3].
    pose proof (UnpinPage_same pid false t1) as Hs2.
    intros Hd. destruct (IH _ _ _ _ _ _ _ _ Hnn H3 ltac:(by rewrite (same_nodes _ _ Hs2),
                           (same_nodes _ _ Hs1)) Hd) as (H4 & Hps4 & Hs4 & Hleaf).
    split_and!; [done|congruence|eauto using same_tree_trans|].
    by rewrite (same_nodes _ _ Hs2), (same_nodes _ _ Hs1) in Hleaf.
Qed.

Lemma find_leaf_any fuel key lm rm t lp leaf b t' :
  pins_nonneg (pool_ t) →
  FindLeafPageByOperation fuel key FIND lm rm t = Some (lp, leaf, b, t') →
  ∃ f, pool_ t !! lp = Some f ∧ node_ f = LeafNode leaf ∧
       t' = set_pool (<[lp := pin f]> (pool_ t)) t.
Proof.
  intros Hnn. unfold FindLeafPageByOperation.
  destruct (lm && rm && bool_decide (FIND = FIND)); [done|].
  destruct (FetchPage (root_page_id_ t) t) as [[node t0]|] eqn:Hf; simpl; [|done].
  pose proof (FetchPage_pinned [] _ _ _ _ _ Hf (pinned_init _)) as [Hp0 Hps0].
  apply FetchPage_same in Hf as [Hroot Hs0]. intros Hd.
  destruct (descend_find_any _ _ _ _ _ _ _ _ _ _ _ _ _ Hnn Hp0
              ltac:(by rewrite (same_nodes _ _ Hs0)) Hd) as (H1 & Hps1 & Hs1 & Hleaf).
  rewrite (same_nodes _ _ Hs0) in Hleaf.
  apply nodes_pool in Hleaf as (f & Hfr & Hnode).
  exists f. split_and!; [done|done|].
  apply tree_set_pool; [eauto using same_tree_trans|by apply pinned_one|congruence].
Qed.

(** [t'] is [t] with one pin more on the page [lp], which holds [leaf]. *)
Definition leaf_pinned (t : Tree) (lp : Z) (leaf : LeafPage) (t' : Tree) : Prop :=
  ∃ f, pool_ t !! lp = Some f ∧ node_ f = LeafNode leaf ∧
       t' = set_pool (<[lp := mkFrame (node_ f) (pin_count_ f + 1) (is_dirty_ f)]> (pool_ t)) t.



End BPlusTreeFacts.
(** ** Query operators: the rows they give *)

Module ExecutorFacts.
Import Executors.

(** [emits next s l s']: called again and again from [s], [next] gives the
    rows of [l] in order and then nothing, leaving [s']. *)
Inductive emits {S T : Type} (next : S → option (option T * S)) : S → list T → S → Prop :=
  | emits_done s s' : next s = Some (None, s') → emits next s [] s'
  | emits_row s x s1 l s' :
      next s = Some (Some x, s1) → emits next s1 l s' → emits next s (x :: l) s'.

Lemma emits_same_first {S T : Type} (next : S → option (option T * S)) s s0 l s' :
  next s = next s0 → emits next s0 l s' → emits next s l s'.
Proof.
  intros Heq H. destruct H as [s0 s' Hd|s0 x s1 l s' Hd Hrest].
  - apply emits_done. by rewrite Heq.
  - eapply emits_row; [by rewrite Heq|done].
Qed.

(** A child whose [Next] always returns. *)
Definition total {S T : Type} (next : S → option T * S) : S → option (option T * S) :=
  λ s, Some (next s).

(** The state after [n] calls. *)
Fixpoint after {S T : Type} (next : S → option T * S) (n : nat) (s : S) : S :=
  match n with
  | O => s
  | S n' => after next n' (next s).2
  end.

(** A list child: the rows left to give. *)
Definition list_Next {T : Type} (l : list T) : option T * list T :=
  match l with
  | [] => (None, [])
  | x :: l' => (Some x, l')
  end.

Lemma list_emits {T : Type} (l : list T) : emits (total list_Next) l l [].
Proof.
  induction l as [|x l IH]; [by apply emits_done|]. by eapply emits_row.
Qed.

Section Limit.
Import LimitExecutor.
Context {Tuple Child : Type}.
Variable child_Init : Child → Child.
Variable child_Next : Child → option Tuple * Child.
Variable GetLimit : nat.

#[local] Abbreviation Next := (Next child_Next GetLimit).
#[local] Abbreviation Init := (Init child_Init).

Lemma Limit_emits_from c l c' :
  emits (total child_Next) c l c' →
  ∀ n, n ≤ GetLimit →
  emits (total Next) (mkLimit n c) (take (GetLimit - n) l)
        (mkLimit (n + length (take (S (GetLimit - n)) l))
                 (after child_Next (S (length (take (GetLimit - n) l))) c)).
Proof.
  induction 1 as [c c' Hn|c x c1 l c' Hn _ IH]; intros n Hle.
  - injection Hn as Hn. rewrite !take_nil. simpl. rewrite Hn. simpl.
    apply emits_done. unfold total, Next. simpl. rewrite Hn. by rewrite Nat.add_0_r.
  - injection Hn as Hn.
    destruct (decide (n = GetLimit)) as [->|Hne].
    + rewrite Nat.sub_diag. simpl. rewrite Hn. simpl.
      apply emits_done. unfold total, Next. cbn [child_executor_ numbers_]. rewrite Hn.
      rewrite (proj2 (Nat.leb_gt _ _)) by lia. by rewrite Nat.add_1_r.
    + replace (GetLimit - n) with (S (GetLimit - S n)) by lia.
      cbn [take length after]. rewrite Hn. cbn [snd].
      eapply emits_row.
      * unfold total, Next. cbn [child_executor_ numbers_]. rewrite Hn.
        by rewrite (proj2 (Nat.leb_le _ _)) by lia.
      * specialize (IH (S n) ltac:(lia)).
        replace (n + S (length (take (S (GetLimit - S n)) l)))
          with (S n + length (take (S (GetLimit - S n)) l)) by lia.
        exact IH.
Qed.

(** X19.  The limit operator gives the first [GetLimit] rows of its child, and
    then nothing.  To find that out it asks the child for one row more than
    it gives: the row after the limit is pulled and dropped, and [numbers_]
    counts it. *)
Theorem Limit_gives_first_rows (e : LimitExecutor) (l : list Tuple) (c' : Child) :
  emits (total child_Next) (child_Init (child_executor_ e)) l c' →
  ∃ e', emits (total Next) (Init e) (take GetLimit l) e' ∧
        numbers_ e' = length (take (S GetLimit) l) ∧
        child_executor_ e'
          = after child_Next (S (length (take GetLimit l))) (child_Init (child_executor_ e)).
Proof.
  intros Hc. pose proof (Limit_emits_from _ _ _ Hc 0 ltac:(lia)) as H.
  rewrite Nat.sub_0_r in H. simpl in H. eexists. split; [exact H|]. done.
Qed.

End Limit.

Lemma Limit_gives_first_rows_witness :
  ∃ e', emits (total (LimitExecutor.Next list_Next 2))
              (LimitExecutor.Init id (LimitExecutor.mkLimit 7 [10; 20; 30; 40]))
              [10; 20] e' ∧
        LimitExecutor.numbers_ e' = 3 ∧ LimitExecutor.child_executor_ e' = [40].
Proof.
  exact (Limit_gives_first_rows id list_Next 2 (LimitExecutor.mkLimit 7 [10; 20; 30; 40])
           [10; 20; 30; 40] [] (list_emits _)).
Defined.

Section NestedLoopJoin.
Import NestedLoopJoinExecutor.
Context {Tuple Left Right : Type}.
Variable left_Init : Left → Left.
Variable left_Next : Left → option Tuple * Left.
Variable right_Init : Right → Right.
Variable right_Next : Right → option Tuple * Right.
Variable Predicate : option (Tuple → Tuple → bool).
Variable output : Tuple → Tuple → Tuple.

#[local] Abbreviation Next := (Next left_Next right_Init right_Next Predicate output).
#[local] Abbreviation scan_right := (scan_right right_Next Predicate output).
#[local] Abbreviation matches := (matches Predicate).

(** The rows one left row joins to. *)
Definition joined (R : list Tuple) (left_tuple : Tuple) : list Tuple :=
  output left_tuple <$> filter (λ right_tuple, matches left_tuple right_tuple = true) R.

Lemma scan_right_emits r R r' :
  emits (total right_Next) r R r' →
  ∀ fuel left_tuple results, length R < fuel →
  scan_right fuel left_tuple r results = Some (r', results ++ joined R left_tuple).
Proof.
  induction 1 as [r r' Hn|r x r1 R r' Hn _ IH]; intros fuel lt results Hfuel.
  - injection Hn as Hn. destruct fuel; [simpl in Hfuel; lia|]. simpl. rewrite Hn.
    unfold joined. rewrite filter_nil. simpl. by rewrite app_nil_r.
  - injection Hn as Hn. destruct fuel; [simpl in Hfuel; lia|]. simpl. rewrite Hn.
    rewrite IH by (simpl in Hfuel; lia). f_equal. f_equal. unfold joined.
    rewrite filter_cons. destruct (matches lt x) eqn:Hm.
    + rewrite decide_True by done. rewrite fmap_cons. by rewrite <-app_assoc.
    + by rewrite decide_False by done.
Qed.

Section Run.
Variable R : list Tuple.
Hypothesis right_rows : ∀ r, ∃ r', emits (total right_Next) (right_Init r) R r'.

(** With fuel to spare, a call on an empty queue gives the same result for
    every amount of fuel. *)
Lemma Next_stable l L l' :
  emits (total left_Next) l L l' →
  ∀ f1 f2 r, length L + length R + 1 < f1 → length L + length R + 1 < f2 →
  Next f1 (mkNLJ l r []) = Next f2 (mkNLJ l r []) ∧ is_Some (Next f1 (mkNLJ l r [])).
Proof.
  induction 1 as [l l' Hn|l x l1 L l' Hn _ IH]; intros f1 f2 r H1 H2.
  - injection Hn as Hn. destruct f1, f2; try lia. simpl. rewrite Hn. split; [done|by eexists].
  - injection Hn as Hn. destruct f1, f2; try (simpl in *; lia). simpl. rewrite Hn.
    destruct (right_rows r) as [r' Hr].
    rewrite !(scan_right_emits _ _ _ Hr) by (simpl in *; lia). simpl.
    destruct (joined R x) as [|y q] eqn:Hq.
    + apply IH; simpl in *; lia.
    + destruct f1, f2; try (simpl in *; lia). simpl. split; [done|by eexists].
Qed.

Lemma NLJ_emits_from l L l' :
  emits (total left_Next) l L l' →
  ∀ fuel r q, length L + length R + 2 < fuel →
  ∃ r', emits (Next fuel) (mkNLJ l r q) (q ++ L ≫= joined R) (mkNLJ l' r' []).
Proof.
  induction 1 as [l l' Hn|l x l1 L l' Hn HL IH]; intros fuel r q Hfuel.
  - injection Hn as Hn. induction q as [|y q IHq].
    + exists r. apply emits_done. destruct fuel; [lia|]. simpl. by rewrite Hn.
    + destruct IHq as [r' IHq]. exists r'. eapply emits_row; [|exact IHq].
      destruct fuel; [lia|]. done.
  - injection Hn as Hn. induction q as [|y q IHq].
    + destruct (right_rows r) as [r1 Hr]. simpl.
      assert (Next fuel (mkNLJ l r []) = Next (fuel - 1) (mkNLJ l1 r1 (joined R x))) as Hstep.
      { destruct fuel; [lia|]. simpl. rewrite Hn.
        rewrite (scan_right_emits _ _ _ Hr) by (simpl in *; lia). simpl.
        by rewrite Nat.sub_0_r. }
      destruct (joined R x) as [|y q1] eqn:Hq.
      * destruct (IH fuel r1 [] ltac:(simpl in *; lia)) as [r' IH'].
        exists r'. simpl in IH'.
        assert (Next fuel (mkNLJ l r []) = Next fuel (mkNLJ l1 r1 [])) as Heq.
        { rewrite Hstep. apply (Next_stable _ _ _ HL); simpl in *; lia. }
        by apply (emits_same_first _ _ _ _ _ Heq).
      * destruct (IH fuel r1 q1 ltac:(simpl in *; lia)) as [r' IH'].
        exists r'. simpl. eapply emits_row; [|exact IH'].
        rewrite Hstep. destruct fuel as [|[|fuel]]; try (simpl in *; lia). done.
    + destruct IHq as [r' IHq]. exists r'. eapply emits_row; [|exact IHq].
      destruct fuel; [lia|]. done.
Qed.

(** X20.  The nested loop join gives, for every row of the left child in order,
    the joins of it with the rows of the right child that satisfy the
    predicate, in the order of the right child.  [Init] does not empty the
    queue of results: rows left in it from before come first. *)
Theorem NestedLoopJoin_gives_matching_pairs (e : NestedLoopJoinExecutor) (L : list Tuple)
    (l' : Left) (fuel : nat) :
  emits (total left_Next) (left_Init (left_executor_ e)) L l' →
  length L + length R + 2 < fuel →
  ∃ r', emits (Next fuel) (Init left_Init e)
              (tmp_results_ e ++
               L ≫= λ left_tuple,
                 output left_tuple <$>
                   filter (λ right_tuple, matches left_tuple right_tuple = true) R)
              (mkNLJ l' r' []).
Proof. intros HL Hfuel. by apply NLJ_emits_from. Qed.

End Run.
End NestedLoopJoin.

Lemma NestedLoopJoin_gives_matching_pairs_witness :
  ∃ r', emits (NestedLoopJoinExecutor.Next list_Next (λ _, [1; 2; 3]) list_Next
                 (Some Nat.ltb) (λ a b, 10 * a + b) 9)
              (NestedLoopJoinExecutor.Init (λ _, [1; 5; 2])
                 (NestedLoopJoinExecutor.mkNLJ [] [] [99]))
              [99; 12; 13; 23]
              (NestedLoopJoinExecutor.mkNLJ [] r' []).
Proof.
  apply (NestedLoopJoin_gives_matching_pairs (λ _, [1; 5; 2]) list_Next (λ _, [1; 2; 3]) list_Next
           (Some Nat.ltb) (λ a b, 10 * a + b) [1; 2; 3] (λ _, ex_intro _ [] (list_emits _))
           (NestedLoopJoinExecutor.mkNLJ [] [] [99]) [1; 5; 2] [] 9 (list_emits _)).
  simpl. lia.
Defined.

Section HashJoin.
Import HashJoinExecutor.
Context {Tuple Left Right Key : Type} `{EqDecision Key}.
Variable left_Init : Left → Left.
Variable left_Next : Left → option Tuple * Left.
Variable right_Init : Right → Right.
Variable right_Next : Right → option Tuple * Right.
Variable MakeLeftHashJoinKey : Tuple → Key.
Variable MakeRightHashJoinKey : Tuple → Key.
Variable output : Tuple → Tuple → Tuple.

#[local] Abbreviation HJ_Next := (Next right_Next MakeRightHashJoinKey output).
#[local] Abbreviation HJ_Init := (Init left_Init left_Next right_Init MakeLeftHashJoinKey).
#[local] Abbreviation HJ_build := (build left_Next MakeLeftHashJoinKey).

(** The rows one right row joins to, over the table [h]. *)
Definition probed (h : @JoinHashTable Tuple Key) (right_tuple : Tuple) : list Tuple :=
  (λ left_tuple, output left_tuple right_tuple) <$> jht_Get (MakeRightHashJoinKey right_tuple) h.

Lemma build_emits l L l' :
  emits (total left_Next) l L l' →
  ∀ fuel h, length L < fuel →
  HJ_build fuel l h = Some (l', h ++ ((λ t, (MakeLeftHashJoinKey t, t)) <$> L)).
Proof.
  induction 1 as [l l' Hn|l x l1 L l' Hn _ IH]; intros fuel h Hfuel.
  - injection Hn as Hn. destruct fuel; [simpl in Hfuel; lia|]. simpl. rewrite Hn.
    by rewrite app_nil_r.
  - injection Hn as Hn. destruct fuel; [simpl in Hfuel; lia|]. simpl. rewrite Hn.
    rewrite IH by (simpl in Hfuel; lia). unfold jht_Insert. by rewrite <-app_assoc.
Qed.

Lemma jht_Get_app (k : Key) (h1 h2 : @JoinHashTable Tuple Key) : jht_Get k (h1 ++ h2) = jht_Get k h1 ++ jht_Get k h2.
Proof. unfold jht_Get, JoinHashTable in *. by rewrite list.filter_app, fmap_app. Qed.

Lemma jht_Get_built (k : Key) (L : list Tuple) :
  jht_Get k ((λ t, (MakeLeftHashJoinKey t, t)) <$> L)
  = filter (λ t, MakeLeftHashJoinKey t = k) L.
Proof.
  unfold jht_Get, JoinHashTable in *. induction L as [|x L IH]; [done|].
  rewrite fmap_cons, !filter_cons. simpl. case_decide; [|exact IH].
  rewrite fmap_cons. simpl. by rewrite IH.
Qed.

Lemma HJ_Next_step fuel (l : Left) (r r' : Right) (h : @JoinHashTable Tuple Key) right_tuple :
  right_Next r = (Some right_tuple, r') →
  HJ_Next (S fuel) (mkHJ l r h []) = HJ_Next fuel (mkHJ l r' h (probed h right_tuple)).
Proof.
  intros Hn. simpl. rewrite Hn. unfold probed, jht_Count. case_decide as Hc; [|done].
  apply nil_length_inv in Hc. by rewrite Hc.
Qed.

Lemma HJ_Next_stable (l : Left) (h : @JoinHashTable Tuple Key) r R r' :
  emits (total right_Next) r R r' →
  ∀ f1 f2, length R + 1 < f1 → length R + 1 < f2 →
  HJ_Next f1 (mkHJ l r h []) = HJ_Next f2 (mkHJ l r h []).
Proof.
  induction 1 as [r r' Hn|r x r1 R r' Hn _ IH]; intros f1 f2 H1 H2.
  - injection Hn as Hn. destruct f1, f2; try lia. simpl. by rewrite Hn.
  - injection Hn as Hn. destruct f1, f2; try (simpl in *; lia).
    rewrite !(HJ_Next_step _ _ _ _ _ _ Hn).
    destruct (probed h x) as [|y q].
    + apply IH; simpl in *; lia.
    + destruct f1, f2; try (simpl in *; lia). done.
Qed.

Lemma HJ_emits_from (l : Left) (h : @JoinHashTable Tuple Key) r R r' :
  emits (total right_Next) r R r' →
  ∀ fuel q, length R + 2 < fuel →
  emits (HJ_Next fuel) (mkHJ l r h q) (q ++ R ≫= probed h) (mkHJ l r' h []).
Proof.
  induction 1 as [r r' Hn|r x r1 R r' Hn HR IH]; intros fuel q Hfuel.
  - injection Hn as Hn. induction q as [|y q IHq].
    + apply emits_done. destruct fuel; [lia|]. simpl. by rewrite Hn.
    + eapply emits_row; [|exact IHq]. destruct fuel; [lia|]. done.
  - injection Hn as Hn. induction q as [|y q IHq].
    + simpl.
      assert (HJ_Next fuel (mkHJ l r h []) = HJ_Next (fuel - 1) (mkHJ l r1 h (probed h x)))
        as Hstep.
      { destruct fuel; [lia|]. rewrite (HJ_Next_step _ _ _ _ _ _ Hn).
        by replace (S fuel - 1) with fuel by lia. }
      destruct (probed h x) as [|y q1] eqn:Hq.
      * simpl. apply (emits_same_first _ _ (mkHJ l r1 h [])).
        -- rewrite Hstep. apply (HJ_Next_stable _ _ _ _ _ HR); simpl in *; lia.
        -- apply (IH fuel []). simpl in *; lia.
      * simpl. eapply emits_row; [|apply (IH fuel q1); simpl in *; lia].
        rewrite Hstep. destruct fuel as [|[|fuel]]; try (simpl in *; lia). done.
    + eapply emits_row; [|exact IHq]. destruct fuel; [lia|]. done.
Qed.

(** X21.  The hash join gives, for every row of the right child in order, the
    joins of it with the left rows of the same key, in the order the left
    child gave them.  [Init] empties neither the hash table nor the queue of
    results: what was there before is still there, so that a second [Init]
    has every left row twice. *)
Theorem HashJoin_gives_equal_key_pairs (e : HashJoinExecutor) (L R : list Tuple)
    (l' : Left) (r' : Right) (fuel : nat) :
  emits (total left_Next) (left_Init (left_child_ e)) L l' →
  emits (total right_Next) (right_Init (right_child_ e)) R r' →
  length L + length R + 2 < fuel →
  ∃ e0, HJ_Init fuel e = Some e0 ∧
    jht_ e0 = jht_ e ++ ((λ t, (MakeLeftHashJoinKey t, t)) <$> L) ∧
    emits (HJ_Next fuel) e0
      (tmp_results_ e ++
       R ≫= λ right_tuple,
         (λ left_tuple, output left_tuple right_tuple) <$>
           (jht_Get (MakeRightHashJoinKey right_tuple) (jht_ e) ++
            filter (λ left_tuple,
                      MakeLeftHashJoinKey left_tuple = MakeRightHashJoinKey right_tuple) L))
      (mkHJ l' r' (jht_ e0) []).
Proof.
  intros HL HR Hfuel. unfold Init.
  rewrite (build_emits _ _ _ HL) by lia. simpl. eexists. split_and!; [done|done|]. simpl.
  pose proof (HJ_emits_from l' (jht_ e ++ ((λ t, (MakeLeftHashJoinKey t, t)) <$> L))
                _ _ _ HR fuel (tmp_results_ e) ltac:(lia)) as Hem.
  assert (∀ rt, probed (jht_ e ++ ((λ t, (MakeLeftHashJoinKey t, t)) <$> L)) rt
          = (λ left_tuple, output left_tuple rt) <$>
              (jht_Get (MakeRightHashJoinKey rt) (jht_ e) ++
               filter (λ left_tuple, MakeLeftHashJoinKey left_tuple = MakeRightHashJoinKey rt) L))
    as Hp.
  { intros rt. unfold probed. by rewrite jht_Get_app, jht_Get_built. }
  assert (∀ R0 : list Tuple,
          R0 ≫= probed (jht_ e ++ ((λ t, (MakeLeftHashJoinKey t, t)) <$> L))
          = R0 ≫= λ right_tuple,
              (λ left_tuple, output left_tuple right_tuple) <$>
                (jht_Get (MakeRightHashJoinKey right_tuple) (jht_ e) ++
                 filter (λ left_tuple,
                    MakeLeftHashJoinKey left_tuple = MakeRightHashJoinKey right_tuple) L)) as Hb.
  { induction R0 as [|x R0 IHR]; [done|]. by rewrite !bind_cons, Hp, IHR. }
  rewrite <-Hb.
  exact Hem.
Qed.

End HashJoin.

Lemma HashJoin_gives_equal_key_pairs_witness :
  ∃ e0, HashJoinExecutor.Init (λ _, [11; 21; 12]) list_Next (λ _, [2; 1]) (λ t, t mod 10) 8
          (HashJoinExecutor.mkHJ [] [] [] []) = Some e0 ∧
    HashJoinExecutor.jht_ e0 = [(1, 11); (1, 21); (2, 12)] ∧
    emits (HashJoinExecutor.Next list_Next (λ t, t) (λ a b, 100 * a + b) 8) e0
          [1202; 1101; 2101]
          (HashJoinExecutor.mkHJ [] [] (HashJoinExecutor.jht_ e0) []).
Proof.
  destruct (HashJoin_gives_equal_key_pairs (λ _, [11; 21; 12]) list_Next (λ _, [2; 1]) list_Next
              (λ t, t mod 10) (λ t, t) (λ a b, 100 * a + b)
              (HashJoinExecutor.mkHJ [] [] [] []) [11; 21; 12] [2; 1] [] [] 8
              (list_emits _) (list_emits _)) as (e0 & Hinit & Hjht & Hem); [simpl; lia|].
  exists e0. split_and!; [exact Hinit|exact Hjht|exact Hem].
Defined.

End ExecutorFacts.

(** ** Sequential scan: rows and locks *)

Module SeqScanFacts.
Import LockManager LockProofs Executors ExecutorFacts SeqScanExecutor.
Local Open Scope Z_scope.

(** *** A transaction alone on a row *)

Lemma add_remove (rid : RID) (X : gset RID) : rid ∉ X → ({[rid]} ∪ X) ∖ {[rid]} = X.
Proof.
  intros Hn. apply set_eq. intros x.
  rewrite elem_of_difference, elem_of_union, elem_of_singleton. split.
  - by intros [[?|?] ?].
  - intros Hx. split; [by right|]. by intros ->.
Qed.

Lemma remove_absent (rid : RID) (X : gset RID) : rid ∉ X → X ∖ {[rid]} = X.
Proof.
  intros Hn. apply set_eq. intros x. rewrite elem_of_difference, elem_of_singleton. split.
  - by intros [? ?].
  - intros Hx. split; [done|]. by intros ->.
Qed.

Lemma LockShared_free_row tid rid st t :
  txn_map st !! tid = Some t → state_ t = GROWING →
  isolation_level_ t ≠ READ_UNCOMMITTED → rid ∉ shared_lock_set_ t →
  request_queue_ (get_queue rid st) = [] →
  ∃ st1, LockShared tid rid st = Some (Returned true, st1) ∧
    txn_map st1 !! tid = Some (mkTxn GROWING (isolation_level_ t)
                                 ({[rid]} ∪ shared_lock_set_ t) (exclusive_lock_set_ t)) ∧
    request_queue_ (get_queue rid st1) = [mkReq tid SHARED true] ∧
    ∀ rid', rid' ≠ rid → get_queue rid' st1 = get_queue rid' st.
Proof.
  intros Ht Hg Hiso Hns Hq. unfold LockShared. rewrite Ht. simpl.
  unfold CheckAbort. rewrite bool_decide_eq_false_2 by (rewrite Hg; done).
  rewrite decide_False by done. rewrite decide_False by (by intros ?).
  rewrite decide_False by done.
  unfold Lock_loop, NeedWait.
  set (st2 := update_txn tid _ (enqueue rid _ st)).
  assert (get_queue rid st2
          = mkQueue [mkReq tid SHARED false] (cv_ (get_queue rid st)) (upgrading_ (get_queue rid st)))
    as Hq2.
  { unfold st2. rewrite get_queue_update_txn. unfold enqueue.
    rewrite get_queue_set_queue, decide_True by done. by rewrite Hq. }
  rewrite Hq2. simpl. rewrite bool_decide_eq_true_2 by done. simpl.
  eexists. split; [reflexivity|]. rewrite Hq2. split_and!.
  - simpl. rewrite !lookup_alter_eq, Ht. simpl. done.
  - rewrite get_queue_update_txn, get_queue_set_queue, decide_True by done. simpl.
    by rewrite decide_True.
  - intros rid' Hne. rewrite get_queue_update_txn, get_queue_set_queue.
    rewrite decide_False by done. unfold st2. rewrite get_queue_update_txn.
    unfold enqueue. rewrite get_queue_set_queue. by rewrite decide_False.
Qed.

Lemma Unlock_only_request tid rid st t m g :
  txn_map st !! tid = Some t → rid ∈ shared_lock_set_ t →
  isolation_level_ t ≠ REPEATABLE_READ →
  request_queue_ (get_queue rid st) = [mkReq tid m g] →
  ∃ st2, Unlock tid rid st = Some (Returned true, st2) ∧
    txn_map st2 !! tid = Some (mkTxn (state_ t) (isolation_level_ t)
                                 (shared_lock_set_ t ∖ {[rid]}) (exclusive_lock_set_ t ∖ {[rid]})) ∧
    request_queue_ (get_queue rid st2) = [] ∧
    ∀ rid', rid' ≠ rid → get_queue rid' st2 = get_queue rid' st.
Proof.
  intros Ht Hin Hiso Hq. unfold Unlock. rewrite Ht. simpl.
  rewrite (bool_decide_eq_false_2 (rid ∉ shared_lock_set_ t)) by (by intros ?). simpl.
  rewrite Hq. simpl. rewrite decide_True by done.
  eexists. split; [reflexivity|]. split_and!.
  - simpl. rewrite lookup_alter_eq, Ht. simpl.
    rewrite (bool_decide_eq_false_2 (isolation_level_ t = REPEATABLE_READ)) by done.
    by rewrite andb_false_r.
  - rewrite get_queue_update_txn, get_queue_set_queue. by rewrite decide_True.
  - intros rid' Hne. rewrite get_queue_update_txn, get_queue_set_queue.
    by rewrite decide_False.
Qed.

Section SeqScan.
Context {Tuple : Type}.
Variable project : Tuple → Tuple.
Variable GetPredicate : option (Tuple → bool).
Variable txn : Z.

#[local] Abbreviation SS_Next := (Next project GetPredicate txn).

(** One pull of the scan: a row, or the end; nothing when the call aborts
    or blocks. *)
Definition pull (fuel : nat) (s : SeqScanExecutor * State)
    : option (option (Tuple * RID) * (SeqScanExecutor * State)) :=
  match SS_Next fuel s.1 s.2 with
  | Some (Row tuple rid, e', st') => Some (Some (tuple, rid), (e', st'))
  | Some (End, e', st') => Some (None, (e', st'))
  | _ => None
  end.

Definition passes (tuple : Tuple) : bool :=
  match GetPredicate with
  | Some predict => predict tuple
  | None => true
  end.

(** The rows a scan of [rows] gives. *)
Definition scanned (rows : list (RID * Tuple)) : list (Tuple * RID) :=
  omap (λ r, if passes (project r.2) then Some (project r.2, r.1) else None) rows.

Lemma SS_Next_stable : ∀ (rows : list (RID * Tuple)) (f1 f2 : nat) (st : State),
  (length rows < f1)%nat → (length rows < f2)%nat →
  SS_Next f1 (mkSeqScan rows) st = SS_Next f2 (mkSeqScan rows) st.
Proof.
  induction rows as [|[rid tuple] rows IH]; intros f1 f2 st H1 H2.
  - destruct f1, f2; simpl in *; try lia. done.
  - destruct f1, f2; simpl in *; try lia.
    destruct (txn_map st !! txn) as [t|]; simpl; [|done].
    destruct (if decide (isolation_level_ t ≠ READ_UNCOMMITTED) then _ else _)
      as [[[[]| |] st1]|]; simpl; try done.
    destruct (if decide (isolation_level_ t = READ_COMMITTED) then _ else _)
      as [[[[]| |] st2]|]; simpl; try done.
    destruct GetPredicate as [p|]; [|done].
    destruct (p (project tuple)); [done|]. apply IH; lia.
Qed.

(** What one row does to the lock manager, by isolation level. *)
Definition row_locked (rid : RID) (t : Transaction) (st st2 : State) : Prop :=
  txn_map st2 !! txn =
    Some (mkTxn GROWING (isolation_level_ t)
            (if decide (isolation_level_ t = REPEATABLE_READ)
             then {[rid]} ∪ shared_lock_set_ t else shared_lock_set_ t)
            (exclusive_lock_set_ t)) ∧
  request_queue_ (get_queue rid st2) =
    (if decide (isolation_level_ t = REPEATABLE_READ) then [mkReq txn SHARED true] else []) ∧
  (∀ rid', rid' ≠ rid → get_queue rid' st2 = get_queue rid' st) ∧
  (isolation_level_ t = READ_UNCOMMITTED → st2 = st).

Lemma SS_Next_row fuel rid tuple rest st t :
  txn_map st !! txn = Some t → state_ t = GROWING →
  rid ∉ shared_lock_set_ t → rid ∉ exclusive_lock_set_ t →
  request_queue_ (get_queue rid st) = [] →
  ∃ st2, row_locked rid t st st2 ∧
    SS_Next (S fuel) (mkSeqScan ((rid, tuple) :: rest)) st =
      if passes (project tuple) then Some (Row (project tuple) rid, mkSeqScan rest, st2)
      else SS_Next fuel (mkSeqScan rest) st2.
Proof.
  intros Ht Hg Hns Hnx Hq. simpl. rewrite Ht. simpl.
  assert (∀ st2, (match GetPredicate with
                  | Some predict =>
                      if predict (project tuple)
                      then Some (Row (project tuple) rid, mkSeqScan rest, st2)
                      else SS_Next fuel (mkSeqScan rest) st2
                  | None => Some (Row (project tuple) rid, mkSeqScan rest, st2)
                  end) =
                 if passes (project tuple) then Some (Row (project tuple) rid, mkSeqScan rest, st2)
                 else SS_Next fuel (mkSeqScan rest) st2) as Hpred.
  { intros st2. unfold passes. by destruct GetPredicate. }
  assert (t = mkTxn GROWING (isolation_level_ t) (shared_lock_set_ t) (exclusive_lock_set_ t))
    as Hrec by (destruct t; simpl in *; by subst).
  destruct (isolation_level_ t) eqn:Hiso.
  - (* READ_UNCOMMITTED *)
    exists st. split.
    + unfold row_locked. rewrite Hiso. rewrite !decide_False by done.
      split_and!; [by rewrite Ht, Hrec at 1|done|done|done].
    + rewrite decide_False by (by intros Hne; apply Hne). simpl. apply Hpred.
  - (* REPEATABLE_READ *)
    destruct (LockShared_free_row txn rid st t Ht Hg) as (st1 & HL & Ht1 & Hq1 & Hoth);
      [by rewrite Hiso|done|done|].
    exists st1. split.
    + unfold row_locked. rewrite Hiso. rewrite !decide_True by done.
      rewrite Hiso in Ht1. split_and!; [done|done|done|done].
    + rewrite decide_True by done. rewrite HL. simpl. apply Hpred.
  - (* READ_COMMITTED *)
    destruct (LockShared_free_row txn rid st t Ht Hg) as (st1 & HL & Ht1 & Hq1 & Hoth);
      [by rewrite Hiso|done|done|].
    destruct (Unlock_only_request txn rid st1 _ SHARED true Ht1) as (st2 & HU & Ht2 & Hq2 & Hoth2);
      [simpl; apply elem_of_union_l; by apply elem_of_singleton|simpl; by rewrite Hiso|done|].
    exists st2. split.
    + unfold row_locked. rewrite Hiso. rewrite !decide_False by done.
      simpl in Ht2. rewrite Hiso in Ht2. split_and!; [|done| |done].
      * rewrite Ht2. by rewrite add_remove, remove_absent.
      * intros rid' Hne. by rewrite Hoth2, Hoth.
    + rewrite decide_True by done. rewrite HL. simpl. rewrite HU. simpl. apply Hpred.
Qed.

Lemma scan_rows (fuel : nat) : ∀ (rows : list (RID * Tuple)) (st : State) (t : Transaction),
  txn_map st !! txn = Some t → state_ t = GROWING → NoDup (rows.*1) →
  (∀ rid, rid ∈ (rows.*1) →
     request_queue_ (get_queue rid st) = [] ∧
     (rid ∉ shared_lock_set_ t) ∧ (rid ∉ exclusive_lock_set_ t)) →
  (length rows < fuel)%nat →
  ∃ st', emits (pull fuel) (mkSeqScan rows, st) (scanned rows) (mkSeqScan [], st') ∧
    txn_map st' !! txn =
      Some (mkTxn GROWING (isolation_level_ t)
              (if decide (isolation_level_ t = REPEATABLE_READ)
               then list_to_set (rows.*1) ∪ shared_lock_set_ t else shared_lock_set_ t)
              (exclusive_lock_set_ t)) ∧
    (∀ rid, rid ∈ (rows.*1) →
       request_queue_ (get_queue rid st') =
         if decide (isolation_level_ t = REPEATABLE_READ) then [mkReq txn SHARED true] else []) ∧
    (∀ rid, rid ∉ (rows.*1) → get_queue rid st' = get_queue rid st) ∧
    (isolation_level_ t = READ_UNCOMMITTED → st' = st).
Proof.
  induction rows as [|[rid tuple] rows IH]; intros st t Ht Hg Hnd Hfree Hfuel.
  - exists st. split_and!.
    + apply emits_done. unfold pull. destruct fuel; [simpl in Hfuel; lia|]. done.
    + rewrite Ht. destruct t; simpl in *. subst. f_equal. f_equal.
      case_decide; [|done]. simpl. apply set_eq. intros x.
      rewrite elem_of_union, elem_of_empty. tauto.
    + intros rid Hin. by apply elem_of_nil in Hin.
    + done.
    + done.
  - rewrite fmap_cons in Hnd, Hfree. simpl in Hnd, Hfree.
    apply NoDup_cons in Hnd as [Hnin Hnd].
    destruct (Hfree rid (list_elem_of_here _ _)) as (Hq & Hns & Hnx).
    destruct fuel as [|fuel]; [simpl in Hfuel; lia|]. simpl in Hfuel.
    destruct (SS_Next_row fuel rid tuple rows st t Ht Hg Hns Hnx Hq)
      as (st2 & (Ht2 & Hq2 & Hoth & Hru) & Hnext).
    set (t2 := mkTxn GROWING (isolation_level_ t)
                 (if decide (isolation_level_ t = REPEATABLE_READ)
                  then {[rid]} ∪ shared_lock_set_ t else shared_lock_set_ t)
                 (exclusive_lock_set_ t)) in *.
    destruct (IH st2 t2 Ht2 eq_refl Hnd) as (st' & Hem & Ht' & Hqs & Hframe & Hru');
      [|lia|].
    { intros rid' Hin. destruct (Hfree rid' (list_elem_of_further _ _ _ Hin)) as (? & ? & ?).
      assert (rid' ≠ rid) as Hne by (by intros ->).
      rewrite (Hoth rid' Hne). split_and!; [done| |done].
      unfold t2. simpl. case_decide; [|done].
      rewrite elem_of_union, elem_of_singleton. by intros [?|?]. }
    exists st'. split_and!.
    + unfold scanned. simpl. fold (scanned rows).
      destruct (passes (project tuple)) eqn:Hp.
      * eapply emits_row; [|exact Hem]. unfold pull. simpl fst. simpl snd. by rewrite Hnext.
      * apply (emits_same_first _ _ (mkSeqScan rows, st2)); [|exact Hem].
        unfold pull. simpl fst. simpl snd. rewrite Hnext.
        by rewrite (SS_Next_stable rows fuel (S fuel) st2) by lia.
    + rewrite Ht'. unfold t2. simpl. do 2 f_equal.
      destruct (decide (isolation_level_ t = REPEATABLE_READ)); [|done].
      apply set_eq. intros x. rewrite !elem_of_union, elem_of_singleton. tauto.
    + intros rid'. rewrite fmap_cons. simpl. intros [Heq|Hin]%elem_of_cons.
      * subst rid'. by rewrite (Hframe rid Hnin), Hq2.
      * by apply Hqs.
    + intros rid'. rewrite fmap_cons. simpl. intros Hnin'.
      apply not_elem_of_cons in Hnin' as [Hne Hnin'].
      by rewrite (Hframe rid' Hnin'), (Hoth rid' Hne).
    + intros Hiso. rewrite (Hru' Hiso). by apply Hru.
Qed.

(** X22.  The locks of a scan, by isolation level.  A transaction in its
    growing phase scans a table none of whose rows is locked: the scan gives
    the projected rows that satisfy the predicate, in the order of the
    table.  Under REPEATABLE_READ the transaction then holds a granted shared
    lock on every row of the table, the rows the predicate turned down
    included; under READ_COMMITTED every lock was released as soon as the
    row was read and the transaction is still growing; under
    READ_UNCOMMITTED the lock manager was not touched. *)
Theorem SeqScan_locks_by_isolation_level (table_heap_ : list (RID * Tuple))
    (e : SeqScanExecutor) (st : State) (t : Transaction) (fuel : nat) :
  txn_map st !! txn = Some t → state_ t = GROWING → NoDup (table_heap_.*1) →
  (∀ rid, rid ∈ (table_heap_.*1) →
     request_queue_ (get_queue rid st) = [] ∧
     (rid ∉ shared_lock_set_ t) ∧ (rid ∉ exclusive_lock_set_ t)) →
  (length table_heap_ < fuel)%nat →
  ∃ st', emits (pull fuel) (Init table_heap_ e, st) (scanned table_heap_) (mkSeqScan [], st') ∧
    txn_map st' !! txn =
      Some (mkTxn GROWING (isolation_level_ t)
              (if decide (isolation_level_ t = REPEATABLE_READ)
               then list_to_set (table_heap_.*1) ∪ shared_lock_set_ t else shared_lock_set_ t)
              (exclusive_lock_set_ t)) ∧
    (∀ rid, rid ∈ (table_heap_.*1) →
       request_queue_ (get_queue rid st') =
         if decide (isolation_level_ t = REPEATABLE_READ) then [mkReq txn SHARED true] else []) ∧
    (isolation_level_ t = READ_UNCOMMITTED → st' = st).
Proof.
  intros Ht Hg Hnd Hfree Hfuel.
  destruct (scan_rows fuel table_heap_ st t Ht Hg Hnd Hfree Hfuel)
    as (st' & Hem & Ht' & Hqs & _ & Hru).
  by exists st'.
Qed.

End SeqScan.

Lemma SeqScan_locks_by_isolation_level_witness :
  let table := [((0, 0), 5); ((0, 1), 12); ((0, 2), 7)] in
  let st := mkState ∅ {[1 := new_txn REPEATABLE_READ]} in
  ∃ st', emits (pull (λ x, 2 * x) (Some (λ x, x <? 20)) 1 4)
               (Init table (mkSeqScan []), st)
               [(10, (0, 0)); (14, (0, 2))] (mkSeqScan [], st') ∧
    shared_lock_set_ <$> txn_map st' !! 1 = Some (list_to_set [(0, 0); (0, 1); (0, 2)] ∪ ∅).
Proof.
  intros table st.
  destruct (SeqScan_locks_by_isolation_level (λ x, 2 * x) (Some (λ x, x <? 20)) 1 table
              (mkSeqScan []) st (new_txn REPEATABLE_READ) 4)
    as (st' & Hem & Ht' & _); [reflexivity|reflexivity| | |simpl; lia|].
  - simpl. repeat (apply NoDup_cons; split; [set_unfold; intros Hx; intuition congruence|]).
    apply NoDup_nil_2.
  - intros rid _. split_and!; [reflexivity|apply not_elem_of_empty|apply not_elem_of_empty].
  - exists st'. split; [exact Hem|]. by rewrite Ht'.
Defined.

End SeqScanFacts.
